(** * NJMerge on two constraint trees: a shallow embedding of
    [software/njmergepair.py]

    The Python prototype merges two constraint trees on disjoint leaf sets
    with a constrained neighbor-joining loop.  The functions of the source
    are transcribed below under their own names; the DendroPy primitives
    they call (leaf enumeration, taxon bitmasks, bipartition encoding,
    re-rooting at an edge, pruning to a label set) are modelled on rooted
    binary trees with labelled leaves, which is the shape every tree has
    once [resolve_polytomies(limit=2)] and [is_rooted = True] were applied
    (lines 724-732 of the source). *)

From Stdlib Require Import ZArith NArith QArith.
From Stdlib Require Import Floats.
From stdpp Require Import base option list strings gmap sets fin_maps.

Local Open Scope string_scope.
Local Open Scope list_scope.
Local Open Scope N_scope.

(** ** Exceptions

    Python signals errors by raising; the model threads them through a
    small error monad.  [Exception msg] is the generic [Exception] the
    source raises with a message; the other constructors are the built-in
    errors that the interpreter raises on a missing dictionary key, on
    unpacking [None], on an attribute access through [None] and on an index
    outside a list. *)

Inductive exn : Type :=
| Exception (msg : string)
| KeyError
| TypeError
| AttributeError
| IndexError.

Inductive result (A : Type) : Type :=
| Ok (a : A)
| Raise (e : exn).
Arguments Ok {A} a.
Arguments Raise {A} e.

#[global] Instance result_ret : MRet result := λ A a, Ok a.
#[global] Instance result_bind : MBind result := λ A B f m,
  match m with
  | Ok a => f a
  | Raise e => Raise e
  end.

#[global] Instance exn_eq_dec : EqDecision exn.
Proof. solve_decision. Defined.

(** ** Trees *)

Definition label := string.

(** A DendroPy node of a binary tree: a leaf carries its taxon label, an
    internal node its two children.  Leaf labels within one tree are
    unique, so a node is identified by the subtree hanging below it. *)
Inductive node : Type :=
| Leaf (taxon : label)
| Internal (child1 child2 : node).

#[global] Instance node_eq_dec : EqDecision node.
Proof. solve_decision. Defined.

(** A DendroPy tree object: its taxon namespace (the list of taxa, whose
    positions are the bit positions of the split bitmasks) and its seed
    node. *)
Record tree : Type := Tree {
  taxon_namespace : list label;
  seed_node : node
}.

#[global] Instance tree_eq_dec : EqDecision tree.
Proof. solve_decision. Defined.

(** [get_leaf_list] (lines 91-103): the leaf labels, left to right. *)
Fixpoint get_leaf_list (subtree : node) : list label :=
  match subtree with
  | Leaf l => [l]
  | Internal a b => get_leaf_list a ++ get_leaf_list b
  end.

(** [get_leaf_set] (lines 106-118). *)
Definition get_leaf_set (subtree : node) : gset label :=
  list_to_set (get_leaf_list subtree).

(** [dendropy.Tree(seed_node=root)]: the new tree collects the taxa of its
    nodes in preorder into a fresh namespace. *)
Definition new_tree (root : node) : tree :=
  Tree (get_leaf_list root) root.

(** Every node of a tree, children before parents
    ([postorder_edge_iter]). *)
Fixpoint postorder (nd : node) : list node :=
  match nd with
  | Leaf _ => [nd]
  | Internal a b => postorder a ++ postorder b ++ [nd]
  end.

(** ** Bitmasks *)

(** [TaxonNamespace.taxa_bitmask(labels=...)]: the taxon at position [i] of
    the namespace owns bit [i]; labels outside the namespace are skipped. *)
Fixpoint taxa_bitmask_from (i : N) (ns : list label) (labels : gset label) : N :=
  match ns with
  | [] => 0
  | l :: ns' =>
      N.lor (if decide (l ∈ labels) then N.shiftl 1 i else 0)
            (taxa_bitmask_from (N.succ i) ns' labels)
  end.

Definition taxa_bitmask (ns : list label) (labels : gset label) : N :=
  taxa_bitmask_from 0 ns labels.

(** [taxon_bitmask]: the bit of one taxon. *)
Definition taxon_bitmask (ns : list label) (l : label) : N :=
  taxa_bitmask ns {[ l ]}.

(** The leafset bitmask that [update_bipartitions] assigns to the edge
    above a node: the taxon's bit at a leaf, the bitwise or of the
    children's masks at an internal node.  On a rooted tree the split
    bitmask of a bipartition is its leafset bitmask. *)
Fixpoint leafset_bitmask (ns : list label) (nd : node) : N :=
  match nd with
  | Leaf l => taxon_bitmask ns l
  | Internal a b => N.lor (leafset_bitmask ns a) (leafset_bitmask ns b)
  end.

(** A Python dictionary with integer keys, as a list of its items in the
    order in which the dictionary is iterated: a new key goes to the end,
    an assignment to a key that is already there replaces its value in
    place. *)
Fixpoint dict_assign (d : list (N * node)) (k : N) (v : node)
  : list (N * node) :=
  match d with
  | [] => [(k, v)]
  | (k', v') :: d' =>
      if decide (k' = k) then (k, v) :: d' else (k', v') :: dict_assign d' k v
  end.

(** [tree.bipartition_edge_map]: a dictionary from bipartitions (hashed and
    compared by split bitmask) to edges, filled edge by edge in postorder;
    an edge is represented by its head node. *)
Definition bipartition_edge_map (t : tree) : list (N * node) :=
  foldl (λ d nd, dict_assign d (leafset_bitmask (taxon_namespace t) nd) nd)
        [] (postorder (seed_node t)).

(** [split_as_bitstring] pads the bitmask to the bit length of the tree's
    leafset bitmask; exchanging the characters 0 and 1 and reading the
    string back in base 2 flips exactly those bits. *)
Definition flip_bitstring (len : N) (bitmask1 : N) : N :=
  N.lxor bitmask1 (N.ones len).

(** [map_splits_to_nodes] (lines 167-206).  The loop runs over the keys of
    [bipartition_edge_map] in the order of the dictionary, which is the
    order in which the edges were entered; of two edges that write the
    same key of [split_to_node_map], the later one stays. *)
Definition map_splits_to_nodes (t : tree) : gmap N node :=
  let len := N.size (leafset_bitmask (taxon_namespace t) (seed_node t)) in
  foldl (λ split_to_node_map '(bitmask1, nd),
           <[flip_bitstring len bitmask1 := nd]>
             (<[bitmask1 := nd]> split_to_node_map))
        ∅ (bipartition_edge_map t).

(** [get_node_from_clade] (lines 209-242).  [split_to_node_map[0]] raises
    [KeyError] when the key is absent. *)
Definition get_node_from_clade (t : tree) (split_to_node_map : gmap N node)
    (clade : list label) : result (option node) :=
  let clade : gset label := list_to_set clade in
  let leaves := get_leaf_set (seed_node t) in
  if decide (leaves = clade) then
    match split_to_node_map !! 0 with
    | Some nd => Ok (Some nd)
    | None => Raise KeyError
    end
  else if decide (size (leaves ∩ clade) < size clade)%nat then
    Ok None
  else
    let split := taxa_bitmask (taxon_namespace t) clade in
    Ok (split_to_node_map !! split).

(** ** Re-rooting

    Python compares nodes by identity.  A node handed to the tree editors
    is either a node of the constraint tree at hand (it came out of that
    tree's split-to-node map) or a live node of the NJ pool, which belongs
    to no constraint tree and has no parent. *)
Inductive noderef : Type :=
| TreeNode (nd : node)
| PoolNode (nd : node).

Definition subtree (r : noderef) : node :=
  match r with
  | TreeNode nd => nd
  | PoolNode nd => nd
  end.

(** What remains of the tree when the subtree [target] is cut off and the
    edges on the way up to the old root are reversed: [above] is the part
    already turned around.  At each node on the path the sibling stays a
    child and the reversed parent becomes the other child; the old root,
    left with one child, is suppressed as a unifurcation. *)
Definition turn (sibling : node) (above : option node) : option node :=
  match above with
  | None => Some sibling
  | Some up => Some (Internal sibling up)
  end.

Fixpoint cut_off (target : node) (nd : node) (above : option node) : option node :=
  if decide (nd = target) then above
  else
    match nd with
    | Leaf _ => None
    | Internal a b =>
        match cut_off target a (turn b above) with
        | Some rest => Some rest
        | None => cut_off target b (turn a above)
        end
    end.

(** [tree.reroot_at_edge(node.edge)]: a new seed node is placed on the edge
    above [nd]; its children are [nd] and the rest of the tree.  The tree
    object, and with it the taxon namespace, stays the same. *)
Definition reroot_at_edge (t : tree) (nd : node) : option tree :=
  match cut_off nd (seed_node t) None with
  | Some rest => Some (Tree (taxon_namespace t) (Internal nd rest))
  | None => None
  end.

(** [extract_nodes_from_split] (lines 245-287).  A pool node is never the
    seed node of a constraint tree, and the edge above it has no tail
    node: re-rooting there fails on the attribute access through [None].
    The same error stands for a node that is not in the tree at all. *)
Definition extract_nodes_from_split (t : tree) (nd : noderef)
    (clade : list label) : result (tree * node) :=
  t ← match nd with
      | PoolNode _ => Raise AttributeError
      | TreeNode nd =>
          if decide (nd = seed_node t) then Ok t
          else match reroot_at_edge t nd with
               | Some t' => Ok t'
               | None => Raise AttributeError
               end
      end;
  match seed_node t with
  | Leaf _ => Raise (Exception "Tree is not rooted!")
  | Internal node1 node2 =>
      let leaves1 := get_leaf_set node1 in
      let leaves2 := get_leaf_set node2 in
      let clade : gset label := list_to_set clade in
      if decide (leaves1 = clade) then Ok (t, node1)
      else if decide (leaves2 = clade) then Ok (t, node2)
      else Raise (Exception "Cannot handle this bipartition!")
  end.

(** [join_nodes_in_both_trees] (lines 290-379).  The second tree of the
    result is [None] when one tree was added whole to the other.  The
    subtrees hung onto the other tree are deep copies (lines 369, 375);
    trees are values here, so that a copy is the subtree itself. *)
Definition join_nodes_in_both_trees (tree1 : tree) (nodeAinT1 : noderef)
    (cladeA : list label) (tree2 : tree) (nodeBinT2 : noderef)
    (cladeB : list label) (test : bool)
  : result (option tree * option tree) :=
  let setA : gset label := list_to_set cladeA in
  let setB : gset label := list_to_set cladeB in
  let leaves1 := get_leaf_set (seed_node tree1) in
  let leaves2 := get_leaf_set (seed_node tree2) in
  let cladeAisT1 := bool_decide (leaves1 = setA) in
  let cladeBisT2 := bool_decide (leaves2 = setB) in
  if cladeAisT1 && cladeBisT2 then
    if test then Ok (None, None)
    else
      let root := Internal (subtree nodeAinT1) (subtree nodeBinT2) in
      Ok (Some (new_tree root), None)
  else if cladeAisT1 then
    if test then Ok (None, None)
    else
      '(tree2, _) ← extract_nodes_from_split tree2 nodeBinT2 cladeB;
      let root := Internal (subtree nodeAinT1) (seed_node tree2) in
      Ok (Some (new_tree root), None)
  else if cladeBisT2 then
    if test then Ok (None, None)
    else
      '(tree1, _) ← extract_nodes_from_split tree1 nodeAinT1 cladeA;
      let root := Internal (seed_node tree1) (subtree nodeBinT2) in
      Ok (Some (new_tree root), None)
  else
    '(tree1, nodeAinT1) ← extract_nodes_from_split tree1 nodeAinT1 cladeA;
    '(tree2, nodeBinT2) ← extract_nodes_from_split tree2 nodeBinT2 cladeB;
    let root1 := Internal (seed_node tree1) nodeBinT2 in
    let root2 := Internal (seed_node tree2) nodeAinT1 in
    Ok (Some (new_tree root1), Some (new_tree root2)).

(** [join_nodes_in_one_tree] (lines 382-417); the subtree hung onto the
    second tree is a deep copy (line 412). *)
Definition join_nodes_in_one_tree (tree1 : tree) (nodeAinT1 : noderef)
    (cladeA : list label) (tree2 : tree) (nodeBinT2 : noderef)
    (cladeB : list label) : result (tree * tree) :=
  '(tree1, nodeAinT1) ← extract_nodes_from_split tree1 nodeAinT1 cladeA;
  '(tree2, nodeBinT2) ← extract_nodes_from_split tree2 nodeBinT2 cladeB;
  let root := Internal nodeAinT1 (seed_node tree2) in
  Ok (tree1, new_tree root).

(** ** Compatibility on the shared leaf set *)

(** [retain_taxa_with_labels]: leaves outside the label set are pruned and
    the unifurcations this leaves behind are suppressed; [None] when
    nothing is left. *)
Fixpoint retain_taxa_with_labels (nd : node) (labels : gset label) : option node :=
  match nd with
  | Leaf l => if decide (l ∈ labels) then Some nd else None
  | Internal a b =>
      match retain_taxa_with_labels a labels, retain_taxa_with_labels b labels with
      | Some a', Some b' => Some (Internal a' b')
      | Some a', None => Some a'
      | None, Some b' => Some b'
      | None, None => None
      end
  end.

Fixpoint lowest_bit (p : positive) : positive :=
  match p with
  | xO p' => xO (lowest_bit p')
  | _ => xH
  end.

Definition least_significant_set_bit (m : N) : N :=
  match m with
  | N0 => 0
  | Npos p => Npos (lowest_bit p)
  end.

(** [Bipartition.normalize_bitmask]: on an unrooted tree a split and its
    complement get the same bitmask, the one whose lowest relevant bit is
    clear. *)
Definition normalize_bitmask (bitmask fill_bitmask : N) : N :=
  if decide (N.land bitmask (least_significant_set_bit fill_bitmask) = 0)
  then N.land bitmask fill_bitmask
  else N.ldiff fill_bitmask bitmask.

(** The bipartitions of an unrooted tree after [update_bipartitions], as a
    set of split bitmasks.  Collapsing the basal bifurcation merges the two
    edges below the seed node, which carry one and the same split. *)
Definition bipartition_encoding (ns : list label) (root : node) : gset N :=
  let fill := leafset_bitmask ns root in
  list_to_set ((λ nd, normalize_bitmask (leafset_bitmask ns nd) fill)
                 <$> postorder root).

(** [are_two_trees_incompatible] (lines 121-164).  Both trees are pruned to
    the shared labels, moved onto the namespace made of these labels and
    unrooted; [false_positives_and_negatives] counts the bipartitions that
    one tree has and the other lacks. *)
Definition are_two_trees_incompatible (tree1 tree2 : tree) : bool :=
  let leaves1 := get_leaf_set (seed_node tree1) in
  let leaves2 := get_leaf_set (seed_node tree2) in
  let shared := elements (leaves1 ∩ leaves2) in
  if decide (length shared < 4)%nat then false
  else
    match retain_taxa_with_labels (seed_node tree1) (list_to_set shared),
          retain_taxa_with_labels (seed_node tree2) (list_to_set shared) with
    | Some root1, Some root2 =>
        let b1 := bipartition_encoding shared root1 in
        let b2 := bipartition_encoding shared root2 in
        let fp := size (b2 ∖ b1) in
        let fn := size (b1 ∖ b2) in
        bool_decide (0 < fp ∨ 0 < fn)%nat
    | _, _ => false
    end.

(** ** The compatibility oracle and the constraint editor *)

(** The lookup that opens both [test_join] and [join_nodes]: the pool node
    itself when its clade is the whole tree, the node found in the
    split-to-node map otherwise. *)
Definition find_in_tree (t : tree) (split_to_node_map : gmap N node)
    (nd : node) (clade : list label) : result (option noderef) :=
  if decide ((list_to_set clade : gset label) = list_to_set (get_leaf_list (seed_node t)))
  then Ok (Some (PoolNode nd))
  else
    found ← get_node_from_clade t split_to_node_map clade;
    Ok (option_map TreeNode found).

Definition not_disjoint (cladeA cladeB : list label) : bool :=
  bool_decide (0 < size ((list_to_set cladeA : gset label) ∩ list_to_set cladeB))%nat.

(** [violates = True] exactly when the lookup of the joint clade fails. *)
Definition is_None_node (r : result (option node)) : result bool :=
  found ← r; Ok (bool_decide (found = None)).

(** [test_join] (lines 420-557).  In cases 6 and 8 the join is rehearsed
    on deep copies of the two trees and of the two nodes (lines 516-519 and
    537-540), which [are_two_trees_incompatible] then prunes in place: the
    constraint trees themselves are left as they are.  With trees as
    values the rehearsal is a pure function of the trees and the nodes. *)
Definition test_join (tree1 tree2 : tree) (map1 map2 : gmap N node)
    (nodeA nodeB : node) : result bool :=
  let cladeA := get_leaf_list nodeA in
  let cladeB := get_leaf_list nodeB in
  if not_disjoint cladeA cladeB then
    Raise (Exception "Nodes are not disjoint on their leaf sets!")
  else
    nodeAinT1 ← find_in_tree tree1 map1 nodeA cladeA;
    nodeBinT1 ← find_in_tree tree1 map1 nodeB cladeB;
    nodeAinT2 ← find_in_tree tree2 map2 nodeA cladeA;
    nodeBinT2 ← find_in_tree tree2 map2 nodeB cladeB;
    match nodeAinT1, nodeAinT2 with
    | Some nAT1, Some nAT2 =>
        match nodeBinT1, nodeBinT2 with
        | Some _, Some _ =>
            (* Case 1 *)
            node1 ← get_node_from_clade tree1 map1 (cladeA ++ cladeB);
            node2 ← get_node_from_clade tree2 map2 (cladeA ++ cladeB);
            Ok (bool_decide (node1 = None ∨ node2 = None))
        | Some _, None =>
            (* Case 2 *)
            is_None_node (get_node_from_clade tree1 map1 (cladeA ++ cladeB))
        | None, Some _ =>
            (* Case 3 *)
            is_None_node (get_node_from_clade tree2 map2 (cladeA ++ cladeB))
        | None, None => Raise (Exception "Node B was not found in either tree!")
        end
    | Some nAT1, None =>
        match nodeBinT1, nodeBinT2 with
        | Some _, Some _ =>
            (* Case 4 *)
            is_None_node (get_node_from_clade tree1 map1 (cladeA ++ cladeB))
        | Some _, None =>
            (* Case 5 *)
            is_None_node (get_node_from_clade tree1 map1 (cladeA ++ cladeB))
        | None, Some nBT2 =>
            (* Case 6 *)
            '(t1, t2) ← join_nodes_in_both_trees tree1 nAT1 cladeA
                                                 tree2 nBT2 cladeB true;
            match t1, t2 with
            | Some t1, Some t2 => Ok (are_two_trees_incompatible t1 t2)
            | Some _, None => Raise AttributeError
            | None, _ => Ok false
            end
        | None, None => Raise (Exception "Node B was not found in either tree!")
        end
    | None, Some nAT2 =>
        match nodeBinT1, nodeBinT2 with
        | Some _, Some _ =>
            (* Case 7 *)
            is_None_node (get_node_from_clade tree2 map2 (cladeA ++ cladeB))
        | Some nBT1, None =>
            (* Case 8 *)
            '(t1, t2) ← join_nodes_in_both_trees tree1 nBT1 cladeB
                                                 tree2 nAT2 cladeA true;
            match t1, t2 with
            | Some t1, Some t2 => Ok (are_two_trees_incompatible t1 t2)
            | Some _, None => Raise AttributeError
            | None, _ => Ok false
            end
        | None, Some _ =>
            (* Case 9 *)
            is_None_node (get_node_from_clade tree2 map2 (cladeA ++ cladeB))
        | None, None => Raise (Exception "Node B was not found in either tree!")
        end
    | None, None => Raise (Exception "Node A was not found in either tree!")
    end.

(** [join_nodes] (lines 560-690). *)
Definition join_nodes (tree1 tree2 : tree) (map1 map2 : gmap N node)
    (nodeA nodeB : node) : result (option tree * option tree * bool) :=
  let cladeA := get_leaf_list nodeA in
  let cladeB := get_leaf_list nodeB in
  if not_disjoint cladeA cladeB then
    Raise (Exception "Nodes are not disjoint on their leaf sets!")
  else
    nodeAinT1 ← find_in_tree tree1 map1 nodeA cladeA;
    nodeBinT1 ← find_in_tree tree1 map1 nodeB cladeB;
    nodeAinT2 ← find_in_tree tree2 map2 nodeA cladeA;
    nodeBinT2 ← find_in_tree tree2 map2 nodeB cladeB;
    match nodeAinT1, nodeAinT2 with
    | Some nAT1, Some nAT2 =>
        match nodeBinT1, nodeBinT2 with
        | Some _, Some _ =>
            (* Case 1 *)
            Ok (Some tree1, Some tree2, false)
        | Some nBT1, None =>
            (* Case 2 *)
            '(tree1, tree2) ← join_nodes_in_one_tree tree1 nBT1 cladeB
                                                     tree2 nAT2 cladeA;
            Ok (Some tree1, Some tree2, true)
        | None, Some nBT2 =>
            (* Case 3 *)
            '(tree2, tree1) ← join_nodes_in_one_tree tree2 nBT2 cladeB
                                                     tree1 nAT1 cladeA;
            Ok (Some tree1, Some tree2, true)
        | None, None => Raise (Exception "Node B was not found in either tree!")
        end
    | Some nAT1, None =>
        match nodeBinT1, nodeBinT2 with
        | Some _, Some nBT2 =>
            (* Case 4 *)
            '(tree1, tree2) ← join_nodes_in_one_tree tree1 nAT1 cladeA
                                                     tree2 nBT2 cladeB;
            Ok (Some tree1, Some tree2, true)
        | Some _, None =>
            (* Case 5 *)
            Ok (Some tree1, Some tree2, false)
        | None, Some nBT2 =>
            (* Case 6 *)
            '(tree1, tree2) ← join_nodes_in_both_trees tree1 nAT1 cladeA
                                                       tree2 nBT2 cladeB false;
            Ok (tree1, tree2, true)
        | None, None => Raise (Exception "Node B was not found in either tree!")
        end
    | None, Some nAT2 =>
        match nodeBinT1, nodeBinT2 with
        | Some nBT1, Some _ =>
            (* Case 7 *)
            '(tree2, tree1) ← join_nodes_in_one_tree tree2 nAT2 cladeA
                                                     tree1 nBT1 cladeB;
            Ok (Some tree1, Some tree2, true)
        | Some nBT1, None =>
            (* Case 8 *)
            '(tree1, tree2) ← join_nodes_in_both_trees tree1 nBT1 cladeB
                                                       tree2 nAT2 cladeA false;
            Ok (tree1, tree2, true)
        | None, Some _ =>
            (* Case 9 *)
            Ok (Some tree1, Some tree2, false)
        | None, None => Raise (Exception "Node B was not found in either tree!")
        end
    | None, None => Raise (Exception "Node A was not found in either tree!")
    end.

(** ** Numbers

    The source never fixes the type of a distance: it adds, subtracts and
    compares whatever the matrix holds and multiplies it by the integer
    [n - 2] and by the constant [0.5].  The model is generic in these
    operations; Python floats are the instance [float_number] below. *)
Class Number (R : Type) : Type := {
  num_zero : R;
  num_half : R;
  num_of_int : Z → R;
  num_add : R → R → R;
  num_sub : R → R → R;
  num_mul : R → R → R;
  num_ltb : R → R → bool
}.

#[global] Instance float_number : Number float := {
  num_zero := 0%float;
  num_half := 0.5%float;
  num_of_int := λ z, PrimFloat.of_uint63 (Uint63.of_Z z);
  num_add := PrimFloat.add;
  num_sub := PrimFloat.sub;
  num_mul := PrimFloat.mul;
  num_ltb := PrimFloat.ltb
}.

#[global] Instance rational_number : Number Q := {
  num_zero := 0%Q;
  num_half := (1 # 2)%Q;
  num_of_int := inject_Z;
  num_add := Qplus;
  num_sub := Qminus;
  num_mul := Qmult;
  num_ltb := λ a b, negb (Qle_bool b a)
}.

(** ** The scan for the pair to join (lines 768-783)

    [best] stands for the two variables [min_q] and [nodes_to_join], which
    are [None] together and assigned together. *)
Section Scan.
Context {X R : Type}.
Variable ltb : R → R → bool.
Variable qvalue : X → X → result R.
Variable test : X → X → result bool.

Definition scan_pair (nd1 nd2 : X) (best : option (R * (X * X)))
: result (option (R * (X * X))) :=
q ← qvalue nd1 nd2;
if match best with
   | None => true
   | Some (min_q, _) => ltb q min_q
   end
then
  violates ← test nd1 nd2;
  if negb violates then Ok (Some (q, (nd1, nd2))) else Ok best
else Ok best.

Fixpoint scan_inner (nd1 : X) (later : list X) (best : option (R * (X * X)))
: result (option (R * (X * X))) :=
match later with
| [] => Ok best
| nd2 :: later' =>
    best ← scan_pair nd1 nd2 best;
    scan_inner nd1 later' best
end.

Fixpoint scan_outer (node_pool : list X) (best : option (R * (X * X)))
: result (option (R * (X * X))) :=
match node_pool with
| [] => Ok best
| nd1 :: later =>
    best ← scan_inner nd1 later best;
    scan_outer later best
end.

Definition scan (node_pool : list X) : result (option (X * X)) :=
best ← scan_outer node_pool None;
Ok (option_map snd best).
End Scan.

(** ** The NJ state *)

(** A dictionary keyed by node objects: the pairs are searched from the
    front, so that an assignment is a [cons]. *)
Fixpoint dict_get {R : Type} (d : list (node * R)) (k : node) : result R :=
  match d with
  | [] => Raise KeyError
  | (k', v) :: d' => if decide (k' = k) then Ok v else dict_get d' k
  end.

(** A node of the NJ pool with its two attributes. *)
Record nj_node (R : Type) : Type := NJNode {
  nj_tree : node;
  _nj_distances : list (node * R);
  _nj_xsub : R
}.
Arguments NJNode {R}.
Arguments nj_tree {R}.
Arguments _nj_distances {R}.
Arguments _nj_xsub {R}.

(** The phylogenetic distance matrix object: the labels of its taxon
    namespace, its mapped taxa in the order in which the set is iterated,
    and the dictionary of dictionaries of distances. *)
Record pdm (R : Type) : Type := PDM {
  pdm_taxon_namespace : list label;
  _mapped_taxa : list label;
  _taxon_phylogenetic_distances : gmap label (gmap label R)
}.
Arguments PDM {R}.
Arguments pdm_taxon_namespace {R}.
Arguments _mapped_taxa {R}.
Arguments _taxon_phylogenetic_distances {R}.

Section NJ.
Context {R : Type} `{Number R}.

Definition original_distance (dm : gmap label (gmap label R))
  (t1 t2 : label) : result R :=
match dm !! t1 with
| None => Raise KeyError
| Some row =>
    match row !! t2 with
    | None => Raise KeyError
    | Some d => Ok d
    end
end.

(** Lines 756-763 for one [nd1]: the row of distances and their sum. *)
Fixpoint cache_row (dm : gmap label (gmap label R)) (t1 : label) (i : nat)
  (j : nat) (taxa : list label) (dists : list (node * R)) (xsub : R)
: result (list (node * R) * R) :=
match taxa with
| [] => Ok (dists, xsub)
| t2 :: taxa' =>
    if decide (i = j) then cache_row dm t1 i (S j) taxa' dists xsub
    else
      d ← original_distance dm t1 t2;
      cache_row dm t1 i (S j) taxa' ((Leaf t2, d) :: dists) (num_add xsub d)
end.

Fixpoint cache_rows (dm : gmap label (gmap label R)) (all : list label)
  (i : nat) (taxa : list label) : result (list (nj_node R)) :=
match taxa with
| [] => Ok []
| t1 :: taxa' =>
    '(dists, xsub) ← cache_row dm t1 i 0%nat all [] num_zero;
    rest ← cache_rows dm all (S i) taxa';
    Ok (NJNode (Leaf t1) dists xsub :: rest)
end.

(** Line 772-773. *)
Definition qvalue (n : nat) (nd1 nd2 : nj_node R) : result R :=
d ← dict_get (_nj_distances nd1) (nj_tree nd2);
let v1 := num_mul (num_of_int (Z.of_nat n - 2)) d in
Ok (num_sub (num_sub v1 (_nj_xsub nd1)) (_nj_xsub nd2)).

(** [node_pool.remove(node_to_join)]: the first occurrence goes. *)
Fixpoint pool_remove (nd : node) (node_pool : list (nj_node R)) : list (nj_node R) :=
match node_pool with
| [] => []
| x :: node_pool' =>
    if decide (nj_tree x = nd) then node_pool' else x :: pool_remove nd node_pool'
end.

(** Lines 815-830: the distances from the new node to every node left in
  the pool.  Returns the updated pool nodes with the new node's row and
  row sum. *)
Fixpoint update_distances (new_node : node) (nd1 nd2 : nj_node R)
  (node_pool : list (nj_node R)) (new_dists : list (node * R)) (new_xsub : R)
: result (list (nj_node R) * list (node * R) * R) :=
match node_pool with
| [] => Ok ([], new_dists, new_xsub)
| x :: node_pool' =>
    d1 ← dict_get (_nj_distances x) (nj_tree nd1);
    d2 ← dict_get (_nj_distances x) (nj_tree nd2);
    let v1 := num_add (num_add num_zero d1) d2 in
    v3 ← dict_get (_nj_distances nd1) (nj_tree nd2);
    let dist := num_mul num_half (num_sub v1 v3) in
    e1 ← dict_get (_nj_distances nd1) (nj_tree x);
    e2 ← dict_get (_nj_distances nd2) (nj_tree x);
    let xsub := num_sub (num_sub (num_add (_nj_xsub x) dist) e1) e2 in
    let x' := NJNode (nj_tree x) ((new_node, dist) :: _nj_distances x) xsub in
    '(rest, new_dists, new_xsub) ←
      update_distances new_node nd1 nd2 node_pool'
        ((nj_tree x, dist) :: new_dists) (num_add new_xsub dist);
    Ok (x' :: rest, new_dists, new_xsub)
end.

(** The state that one pass of the [while] loop reads and writes:
  the constraint trees, their split-to-node maps, the node pool and the
  lines printed so far ([print(n)] at line 767). *)
Record state : Type := State {
tree1 : tree;
tree2 : tree;
map1 : gmap N node;
map2 : gmap N node;
node_pool : list (nj_node R);
printed : list nat
}.

(** The oracle as the scan calls it (lines 778-780). *)
Definition oracle (st : state) (nd1 nd2 : nj_node R) : result bool :=
test_join (tree1 st) (tree2 st) (map1 st) (map2 st)
          (nj_tree nd1) (nj_tree nd2).

Definition scan_state (n : nat) (st : state)
: result (option (nj_node R * nj_node R)) :=
scan num_ltb (qvalue n) (oracle st) (node_pool st).

(** A variable that may hold [None] is used as a tree. *)
Definition the_tree (t : option tree) : result tree :=
match t with
| Some t => Ok t
| None => Raise AttributeError
end.

(** What one pass of the loop body ends in. *)
Inductive outcome : Type :=
| Return (t : tree)
| Continue (st : state).

(** Lines 766-851: one pass of the loop body with [n] live nodes. *)
Definition iteration (full_leaf_set : gset label) (n : nat) (st : state)
: result outcome :=
let out := printed st ++ [n] in
nodes_to_join ← scan_state n st;
match nodes_to_join with
| None => Raise TypeError
| Some (nd1, nd2) =>
    '(t1, t2, edited) ← join_nodes (tree1 st) (tree2 st) (map1 st) (map2 st)
                                   (nj_tree nd1) (nj_tree nd2);
    trees ←
      (if edited : bool then
         t1 ← the_tree t1;
         if decide (get_leaf_set (seed_node t1) = full_leaf_set)
         then Ok (inl t1)
         else
           t2 ← the_tree t2;
           if decide (get_leaf_set (seed_node t2) = full_leaf_set)
           then Ok (inl t2)
           else Ok (inr (t1, t2, map_splits_to_nodes t1, map_splits_to_nodes t2))
       else
         t1 ← the_tree t1;
         t2 ← the_tree t2;
         Ok (inr (t1, t2, map1 st, map2 st)));
    match trees with
    | inl t => Ok (Return t)
    | inr (t1, t2, m1, m2) =>
        let new_node := Internal (nj_tree nd1) (nj_tree nd2) in
        let pool := pool_remove (nj_tree nd2)
                      (pool_remove (nj_tree nd1) (node_pool st)) in
        '(pool, new_dists, new_xsub) ←
          update_distances new_node nd1 nd2 pool [] num_zero;
        let pool := pool ++ [NJNode new_node new_dists new_xsub] in
        Ok (Continue (State t1 t2 m1 m2 pool out))
    end
end.

(** The [while n > 1] loop and lines 857-860 after it; [n] goes down by
  one in every pass. *)
Fixpoint nj_loop (full_leaf_set : gset label) (ns : list label) (n : nat)
  (st : state) : result (tree * list nat) :=
match n with
| S (S _ as n') =>
    o ← iteration full_leaf_set n st;
    match o with
    | Return t => Ok (t, printed st ++ [n])
    | Continue st' => nj_loop full_leaf_set ns n' st'
    end
| _ =>
    match node_pool st with
    | [] => Raise IndexError
    | nd :: _ => Ok (Tree ns (nj_tree nd), printed st)
    end
end.

(** [merge_two_trees_via_nj] (lines 693-860), with what it printed. *)
Definition merge_two_trees_via_nj_out (dm : pdm R) (tree1 tree2 : tree)
: result (tree * list nat) :=
let leaves1 := get_leaf_set (seed_node tree1) in
let leaves2 := get_leaf_set (seed_node tree2) in
let shared := leaves1 ∩ leaves2 in
if decide (size shared ≠ 0%nat) then
  Raise (Exception "Input trees are not on disjoint leaf sets!")
else
  let full_leaf_set := leaves1 ∪ leaves2 in
  if decide (full_leaf_set ≠ list_to_set (pdm_taxon_namespace dm)) then
    Raise (Exception "Names in matrix do not match those in trees!")
  else
    let map1 := map_splits_to_nodes tree1 in
    let map2 := map_splits_to_nodes tree2 in
    let n := length (_mapped_taxa dm) in
    pool ← cache_rows (_taxon_phylogenetic_distances dm) (_mapped_taxa dm)
                      0%nat (_mapped_taxa dm);
    nj_loop full_leaf_set (pdm_taxon_namespace dm) n
            (State tree1 tree2 map1 map2 pool []).

Definition merge_two_trees_via_nj (dm : pdm R) (tree1 tree2 : tree)
: result tree :=
r ← merge_two_trees_via_nj_out dm tree1 tree2;
Ok (fst r).
End NJ.

(** ** Well-formed trees and splits *)

(** The trees the merge builds carry exactly their own leaves in their
    namespace, each once. *)
Definition wf_tree (t : tree) : Prop :=
  NoDup (get_leaf_list (seed_node t)) ∧
  taxon_namespace t ≡ₚ get_leaf_list (seed_node t).

(** [S] is one side of the split at some edge of the tree. *)
Definition is_split (root : node) (S : gset label) : Prop :=
  S ⊆ get_leaf_set root ∧
  ∃ nd, nd ∈ postorder root ∧
        (get_leaf_set nd = S ∨ get_leaf_set nd = get_leaf_set root ∖ S).

(** ** Trees used in examples *)

Definition tree_ab : tree := new_tree (Internal (Leaf "a") (Leaf "b")).
(** Closed decidable facts are settled by evaluation. *)
Ltac by_compute :=
  match goal with
  | |- ?P =>
      let d := constr:(_ : Decision P) in
      apply (@bool_decide_unpack P d); vm_compute; exact I
  end.

Definition tree_ab_c : tree :=
  new_tree (Internal (Internal (Leaf "a") (Leaf "b")) (Leaf "c")).

(** A symmetric matrix over [taxa] from its entries above the diagonal. *)
Definition symmetric_distances {R : Type} (d : list (label * label * R))
  : gmap label (gmap label R) :=
  foldr (λ '(a, b, x) m,
           <[a := <[b := x]> (default ∅ (m !! a))]>
             (<[b := <[a := x]> (default ∅ (m !! b))]> m)) ∅ d.

Definition tree_a : tree := new_tree (Leaf "a").
Definition tree_b : tree := new_tree (Leaf "b").
Definition tree_cd : tree := new_tree (Internal (Leaf "c") (Leaf "d")).
Definition tree_ab_cd : tree :=
  new_tree (Internal (Internal (Leaf "a") (Leaf "b"))
                     (Internal (Leaf "c") (Leaf "d"))).
Definition tree_e : tree := new_tree (Leaf "e").

(** The matrix on two taxa with one distance [x]. *)
Definition pdm_ab {R : Type} (x : R) : pdm R :=
  PDM ["a"; "b"] ["a"; "b"] (symmetric_distances [("a", "b", x)]).

(** All distances equal on four taxa; the pool order is a parameter. *)
Definition pdm_equidistant (order : list label) : pdm float :=
  PDM ["a"; "b"; "c"; "d"] order
      (symmetric_distances
         [("a", "b", 1%float); ("a", "c", 1%float); ("a", "d", 1%float);
          ("b", "c", 1%float); ("b", "d", 1%float); ("c", "d", 1%float)]).

(** A matrix object whose namespace covers five taxa, two of them mapped. *)
Definition pdm_two_of_five : pdm float :=
  PDM ["a"; "b"; "c"; "d"; "e"] ["a"; "c"]
      (symmetric_distances [("a", "c", 1%float)]).

(** The loop state that [pdm_two_of_five] starts from. *)
Definition state_two_of_five : state (R:=float) :=
  State tree_ab_cd tree_e (map_splits_to_nodes tree_ab_cd)
        (map_splits_to_nodes tree_e)
        [NJNode (Leaf "a") [(Leaf "c", 1%float)] 1%float;
         NJNode (Leaf "c") [(Leaf "a", 1%float)] 1%float] [].

(** Two single leaves next to the cherry of [tree_ab]. *)
Definition tree_c : tree := new_tree (Leaf "c").
Definition pdm_abc : pdm float :=
  PDM ["a"; "b"; "c"] ["a"; "c"; "b"]
      (symmetric_distances
         [("a", "b", 1%float); ("a", "c", 1%float); ("b", "c", 1%float)]).
Definition state_abc {R : Type} `{Number R} (d : R) : state :=
  let xsub := num_add (num_add num_zero d) d in
  State tree_ab tree_c (map_splits_to_nodes tree_ab) (map_splits_to_nodes tree_c)
        [NJNode (Leaf "a") [(Leaf "b", d); (Leaf "c", d)] xsub;
         NJNode (Leaf "c") [(Leaf "b", d); (Leaf "a", d)] xsub;
         NJNode (Leaf "b") [(Leaf "c", d); (Leaf "a", d)] xsub] [].

(** [pdm_equidistant] with one more row, for a taxon that is not mapped. *)
Definition pdm_equidistant_extra (order : list label) : pdm float :=
  PDM ["a"; "b"; "c"; "d"] order
      (<["z" := {["a" := 7%float]}]>
         (_taxon_phylogenetic_distances (pdm_equidistant order))).

(** ** The scan as the specification words it

    "Scan pairs in ascending q.  For each pair, query the oracle; accept the
    first that passes", ties going to the pair that comes first in the
    lexicographic order of the two pool positions. *)
Section AscendingScan.
Context {X R : Type}.
Variable ltb : R → R → bool.
Variable qvalue : X → X → result R.
Variable test : X → X → result bool.

(** The pairs [(u, v)] with [u] before [v] in the pool, in lexicographic
  order of the two positions. *)
Fixpoint all_pairs (node_pool : list X) : list (X * X) :=
match node_pool with
| [] => []
| nd1 :: later => map (pair nd1) later ++ all_pairs later
end.

(** Every pair with its q. *)
Fixpoint qvalues (pairs : list (X * X)) : result (list (R * (X * X))) :=
match pairs with
| [] => Ok []
| (nd1, nd2) :: pairs' =>
    q ← qvalue nd1 nd2;
    qs ← qvalues pairs';
    Ok ((q, (nd1, nd2)) :: qs)
end.

(** The first entry of least q, with the entries before and after it. *)
Fixpoint pick_min (l : list (R * (X * X)))
: option (list (R * (X * X)) * (R * (X * X)) * list (R * (X * X))) :=
match l with
| [] => None
| x :: l' =>
    match pick_min l' with
    | None => Some ([], x, [])
    | Some (l1, m, l2) =>
        if ltb (fst m) (fst x) then Some (x :: l1, m, l2)
        else Some ([], x, l1 ++ m :: l2)
    end
end.

(** Take the pairs in ascending q and accept the first that passes. *)
Fixpoint first_passing (fuel : nat) (l : list (R * (X * X)))
: result (option (X * X)) :=
match fuel with
| O => Ok None
| S fuel' =>
    match pick_min l with
    | None => Ok None
    | Some (l1, (_, (nd1, nd2)), l2) =>
        violates ← test nd1 nd2;
        if violates : bool then first_passing fuel' (l1 ++ l2)
        else Ok (Some (nd1, nd2))
    end
end.

Definition ascending_scan (node_pool : list X) : result (option (X * X)) :=
qs ← qvalues (all_pairs node_pool);
first_passing (length qs) qs.

(** The two nested loops of the source as one loop over [all_pairs]. *)
Fixpoint scan_list (pairs : list (X * X)) (best : option (R * (X * X)))
: result (option (R * (X * X))) :=
match pairs with
| [] => Ok best
| (nd1, nd2) :: pairs' =>
    best ← scan_pair ltb qvalue test nd1 nd2 best;
    scan_list pairs' best
end.

(** The same loop once every q is known. *)
Definition scan_entry (x : R * (X * X)) (best : option (R * (X * X)))
: result (option (R * (X * X))) :=
if match best with
   | None => true
   | Some (min_q, _) => ltb (fst x) min_q
   end
then
  violates ← test (fst (snd x)) (snd (snd x));
  if negb violates then Ok (Some x) else Ok best
else Ok best.

Fixpoint scan_entries (l : list (R * (X * X))) (best : option (R * (X * X)))
: result (option (R * (X * X))) :=
match l with
| [] => Ok best
| x :: l' =>
    best ← scan_entry x best;
    scan_entries l' best
end.

(** What the loop has established after the entries [done]: the entry
  held in [best] passes the test; every entry before it whose q is not
  above its q, and every entry after it whose q is below its q, was
  tested and refused. *)
Definition scanned (done : list (R * (X * X))) (best : option (R * (X * X)))
: Prop :=
match best with
| None => ∀ x, x ∈ done → test (fst (snd x)) (snd (snd x)) = Ok true
| Some e =>
    test (fst (snd e)) (snd (snd e)) = Ok false ∧
    ∃ l1 l2, done = l1 ++ e :: l2 ∧
      (∀ x, x ∈ l1 → ltb (fst e) (fst x) = false →
            test (fst (snd x)) (snd (snd x)) = Ok true) ∧
      (∀ x, x ∈ l2 → ltb (fst x) (fst e) = true →
            test (fst (snd x)) (snd (snd x)) = Ok true)
end.
End AscendingScan.

(** ** Splits under re-rooting *)

(** The tree hanging from the edge above [cur], when [above] is the rest of
    the tree already turned around. *)
Definition hang (cur : node) (above : option node) : node :=
  match above with
  | None => cur
  | Some up => Internal cur up
  end.

(** Every node of [r] has a node of [r'] on the same split. *)
Definition covers (r r' : node) : Prop :=
  ∀ nd, nd ∈ postorder r →
    ∃ nd', nd' ∈ postorder r' ∧
           (get_leaf_set nd' = get_leaf_set nd ∨
            get_leaf_set nd' = get_leaf_set r ∖ get_leaf_set nd).

(** Two rooted trees with the same leaves and the same splits: the same
    unrooted tree. *)
Definition same_splits (r r' : node) : Prop :=
  get_leaf_list r ≡ₚ get_leaf_list r' ∧ covers r r' ∧ covers r' r.

(** The trees that the oracle builds when it simulates the join of the
    leaves a and c of [tree_ab] and [tree_cd]. *)
Definition tree_ba_c : tree :=
  new_tree (Internal (Internal (Leaf "b") (Leaf "a")) (Leaf "c")).
Definition tree_dc_a : tree :=
  new_tree (Internal (Internal (Leaf "d") (Leaf "c")) (Leaf "a")).

(** Both clades are splits of the tree and their union is none: the two
    are not siblings there. *)
Definition not_siblings_in (t : tree) (nodeA nodeB : node) : Prop :=
  is_split (seed_node t) (get_leaf_set nodeA) ∧
  is_split (seed_node t) (get_leaf_set nodeB) ∧
  ¬ is_split (seed_node t) (get_leaf_set nodeA ∪ get_leaf_set nodeB).

(** ** Clades *)

(** [C] is the leaf set of some node of the tree. *)
Definition clade_of (r : node) (C : gset label) : Prop :=
  ∃ nd, nd ∈ postorder r ∧ get_leaf_set nd = C.

(** ** Agreement of two trees on a set of labels *)

(** [T] is a split side of the tree cut down to the labels [K]. *)
Definition in_restr (K : gset label) (r : node) (T : gset label) : Prop :=
  ∃ S, is_split r S ∧ T = S ∩ K.

(** The two trees, cut down to [K], have the same splits. *)
Definition agree_on (K : gset label) (r r' : node) : Prop :=
  ∀ T, in_restr K r T ↔ in_restr K r' T.

(** The side of a split of the label set [K] that [normalize_bitmask]
    keeps: the one without the first label of the namespace. *)
Definition canonical_side (ns : list label) (K C : gset label) : gset label :=
  match ns with
  | l0 :: _ => if decide (l0 ∈ C) then K ∖ C else C
  | [] => C
  end.

(** ** Trees as seen from the seed node *)

(** The tree [r] is made of the subtrees [x] and [y] below its seed node,
    in one order or the other. *)
Definition splits_into (r x y : node) : Prop :=
  NoDup (get_leaf_list r) ∧
  get_leaf_set r = get_leaf_set x ∪ get_leaf_set y ∧
  get_leaf_set x ## get_leaf_set y ∧
  ∀ C, clade_of r C ↔ clade_of x C ∨ clade_of y C ∨ C = get_leaf_set r.

(** The NJ subtree [x] sits in the constraint tree [r]: its clades are
    split sides of [r], and every split side of [r] within its leaves is
    one of its clades (or, when [x] has all the leaves of [r], the
    complement of one). *)
Definition matches (r x : node) : Prop :=
  (∀ C, clade_of x C → is_split r C) ∧
  (∀ S, is_split r S → S ≠ ∅ → S ⊆ get_leaf_set x →
        clade_of x S ∨ clade_of x (get_leaf_set r ∖ S)).

(** A live node of the pool against a constraint tree: none of its leaves
    is in the tree, or all are and the node sits in the tree. *)
Definition node_inv (r x : node) : Prop :=
  get_leaf_set x ## get_leaf_set r ∨
  (get_leaf_set x ⊆ get_leaf_set r ∧ matches r x).

(** [n] is the node that joins the pool nodes [a] and [b]. *)
Definition joins (n a b : node) : Prop :=
  get_leaf_set n = get_leaf_set a ∪ get_leaf_set b ∧
  ∀ C, clade_of n C ↔ clade_of a C ∨ clade_of b C ∨ C = get_leaf_set n.

(** A constraint tree that has grown out of the input tree [T]: it still
    has the leaves of [T] and, cut down to them, the splits of [T]. *)
Definition grown_from (T t : tree) : Prop :=
  wf_tree t ∧
  get_leaf_set (seed_node T) ⊆ get_leaf_set (seed_node t) ∧
  agree_on (get_leaf_set (seed_node T)) (seed_node t) (seed_node T).

(** ** The invariant of the merge *)

(** The two constraint trees have grown out of the input trees and agree
    on the leaves they share. *)
Definition tree_inv (T1 T2 t1 t2 : tree) : Prop :=
  grown_from T1 t1 ∧ grown_from T2 t2 ∧
  agree_on (get_leaf_set (seed_node t1) ∩ get_leaf_set (seed_node t2))
           (seed_node t1) (seed_node t2).

(** What one join of the pool nodes [a] and [b] leaves behind: the
    invariant on the new trees [u1] and [u2], in which the joined node and
    every other live node sit. *)
Definition step_ok (T1 T2 t1 t2 : tree) (a b : node) (u1 u2 : tree) : Prop :=
  tree_inv T1 T2 u1 u2 ∧
  get_leaf_set (seed_node u1)
    ⊆ get_leaf_set (seed_node t1) ∪ (get_leaf_set a ∪ get_leaf_set b) ∧
  get_leaf_set (seed_node u2)
    ⊆ get_leaf_set (seed_node t2) ∪ (get_leaf_set a ∪ get_leaf_set b) ∧
  (∀ n, joins n a b → node_inv (seed_node u1) n ∧ node_inv (seed_node u2) n) ∧
  (∀ x, get_leaf_set x ## get_leaf_set a → get_leaf_set x ## get_leaf_set b →
        node_inv (seed_node t1) x → node_inv (seed_node t2) x →
        node_inv (seed_node u1) x ∧ node_inv (seed_node u2) x).

(** The live nodes of the pool: their leaves make up all the leaves, each
    once, and every node sits in the constraint trees that have its
    leaves. *)
Definition pool_inv (t1 t2 : tree) (full : gset label) (xs : list node) : Prop :=
  NoDup (xs ≫= get_leaf_list) ∧
  list_to_set (xs ≫= get_leaf_list) = full ∧
  Forall (λ x, node_inv (seed_node t1) x ∧ node_inv (seed_node t2) x) xs.

Section Invariant.
Context {R : Type} `{Number R}.

(** The state at the head of the loop, for the input trees [T1] and [T2]:
    the constraint trees have grown out of them and agree on shared
    leaves, the maps are those of the trees, neither tree has all the
    leaves yet, and the pool is sound. *)
Definition inv (T1 T2 : tree) (st : state (R:=R)) : Prop :=
let full := get_leaf_set (seed_node T1) ∪ get_leaf_set (seed_node T2) in
tree_inv T1 T2 (tree1 st) (tree2 st) ∧
map1 st = map_splits_to_nodes (tree1 st) ∧
map2 st = map_splits_to_nodes (tree2 st) ∧
get_leaf_set (seed_node (tree1 st)) ⊆ full ∧
get_leaf_set (seed_node (tree2 st)) ⊆ full ∧
get_leaf_set (seed_node (tree1 st)) ≠ full ∧
get_leaf_set (seed_node (tree2 st)) ≠ full ∧
pool_inv (tree1 st) (tree2 st) full (nj_tree <$> node_pool st).
End Invariant.

(** ** More trees and matrices for examples *)

(** The quartet trees ab|cd, rooted in two places, and ac|bd. *)
Definition tree_a_bcd : tree :=
  new_tree (Internal (Leaf "a")
                     (Internal (Leaf "b") (Internal (Leaf "c") (Leaf "d")))).
Definition tree_ac_bd : tree :=
  new_tree (Internal (Internal (Leaf "a") (Leaf "c"))
                     (Internal (Leaf "b") (Leaf "d"))).

(** [pdm_abc] without the distance between b and c. *)
Definition pdm_abc_gap : pdm float :=
  PDM ["a"; "b"; "c"] ["a"; "c"; "b"]
      (symmetric_distances [("a", "b", 1%float); ("a", "c", 1%float)]).

(** ** The distance dictionaries of the pool *)

(** Every live node holds a distance for every other live node. *)
Definition dists_ok {R : Type} (node_pool : list (nj_node R)) : Prop :=
  ∀ x y, x ∈ node_pool → y ∈ node_pool → nj_tree x ≠ nj_tree y →
         ∃ d, dict_get (_nj_distances x) (nj_tree y) = Ok d.

(** ** The order of floats

    A float that is no NaN, by its place in the order of [<]: the class
    (negative infinity, negative, zero, positive, positive infinity), then
    exponent and mantissa, reversed for the negative ones. *)
Definition float_key (f : spec_float) : Z * Z * Z :=
  match f with
  | S754_zero _ => (0, 0, 0)
  | S754_infinity s => (if s then -2 else 2, 0, 0)
  | S754_nan => (3, 0, 0)
  | S754_finite s m e => if s then (-1, - e, - Z.pos m) else (1, e, Z.pos m)
  end%Z.

Definition key_lt (a b : Z * Z * Z) : Prop :=
  (a.1.1 < b.1.1 ∨
   (a.1.1 = b.1.1 ∧ (a.1.2 < b.1.2 ∨ (a.1.2 = b.1.2 ∧ a.2 < b.2))))%Z.

(** ** The q of the specification

    [q(u,v) = (n−2)·d(u,v) − xsub(u) − xsub(v)], with the distance read in
    the dictionary of [u]. *)
Definition q_spec {R : Type} `{Number R} (n : nat) (d xsub_u xsub_v : R) : R :=
  num_sub (num_sub (num_mul (num_of_int (Z.of_nat n - 2)) d) xsub_u) xsub_v.

Definition spec_q {R : Type} `{Number R} (n : nat) (u v : nj_node R)
  : result R :=
  d ← dict_get (_nj_distances u) (nj_tree v);
  Ok (q_spec n d (_nj_xsub u) (_nj_xsub v)).

(** Four taxa, a near c and b near d, with the state the merge of
    [tree_ab] and [tree_cd] starts from. *)
Definition pdm_cross : pdm float :=
  PDM ["a"; "b"; "c"; "d"] ["a"; "b"; "c"; "d"]
      (symmetric_distances
         [("a", "b", 5%float); ("a", "c", 1%float); ("a", "d", 5%float);
          ("b", "c", 5%float); ("b", "d", 1%float); ("c", "d", 5%float)]).

Definition state_cross : state (R:=float) :=
  State tree_ab tree_cd (map_splits_to_nodes tree_ab)
        (map_splits_to_nodes tree_cd)
        [NJNode (Leaf "a")
           [(Leaf "d", 5%float); (Leaf "c", 1%float); (Leaf "b", 5%float)]
           11%float;
         NJNode (Leaf "b")
           [(Leaf "d", 1%float); (Leaf "c", 5%float); (Leaf "a", 5%float)]
           11%float;
         NJNode (Leaf "c")
           [(Leaf "d", 5%float); (Leaf "b", 5%float); (Leaf "a", 1%float)]
           11%float;
         NJNode (Leaf "d")
           [(Leaf "c", 5%float); (Leaf "b", 1%float); (Leaf "a", 5%float)]
           11%float] [].

(** Four taxa with two distances near the largest float, in a given order
    of the pool: the row sum of c overflows. *)
Definition pdm_overflow (order : list label) : pdm float :=
  PDM ["a"; "b"; "c"; "d"] order
      (symmetric_distances
         [("a", "b", 1%float); ("a", "c", 0x1p1023%float); ("a", "d", 1%float);
          ("b", "c", 1%float); ("b", "d", 1%float); ("c", "d", 0x1p1023%float)]).

(** The state the merge of [tree_ab] and [tree_cd] starts from on a pool. *)
Definition state_ab_cd (pool : list (nj_node float)) : state (R:=float) :=
  State tree_ab tree_cd (map_splits_to_nodes tree_ab)
        (map_splits_to_nodes tree_cd) pool [].

(** ** The passes of a run

    [runs_to full n st m st']: the loop, entered with [n] live nodes in
    state [st], gets to the head of the pass with [m] live nodes in state
    [st']. *)
Inductive runs_to {R : Type} `{Number R} (full_leaf_set : gset label)
  : nat → state (R:=R) → nat → state (R:=R) → Prop :=
| runs_here (n : nat) (st : state (R:=R)) : runs_to full_leaf_set n st n st
| runs_on (n : nat) (st st' : state (R:=R)) (m : nat) (st'' : state (R:=R)) :
    iteration full_leaf_set (S (S n)) st = Ok (Continue st') →
    runs_to full_leaf_set (S n) st' m st'' →
    runs_to full_leaf_set (S (S n)) st m st''.

(** ** The errors of the entry checks

    The two exceptions that [merge_two_trees_via_nj] raises before it
    looks at a distance (lines 716 and 721). *)
Definition entry_error (e : exn) : Prop :=
  e = Exception "Input trees are not on disjoint leaf sets!" ∨
  e = Exception "Names in matrix do not match those in trees!".

(** What a computation raises, if it raises, is no error of the entry
    checks. *)
Definition past_entry {A : Type} (r : result A) : Prop :=
  match r with
  | Ok _ => True
  | Raise e => ¬ entry_error e
  end.

(** Four taxa with one negative distance. *)
Definition pdm_negative (x : float) : pdm float :=
  PDM ["a"; "b"; "c"; "d"] ["a"; "b"; "c"; "d"]
      (symmetric_distances
         [("a", "b", 1%float); ("a", "c", 1%float); ("a", "d", x);
          ("b", "c", 1%float); ("b", "d", 1%float); ("c", "d", 1%float)]).

(** ** The merge with the order of the shared labels made explicit

    [are_two_trees_incompatible] turns the set of shared labels into a
    list (line 141) and builds the taxon namespace of the comparison from
    that list; the order of the list is the iteration order of a Python
    set of strings.  Here the list is an argument. *)
Definition are_two_trees_incompatible_in (shared : list label)
    (tree1 tree2 : tree) : bool :=
  if decide (length shared < 4)%nat then false
  else
    match retain_taxa_with_labels (seed_node tree1) (list_to_set shared),
          retain_taxa_with_labels (seed_node tree2) (list_to_set shared) with
    | Some root1, Some root2 =>
        let b1 := bipartition_encoding shared root1 in
        let b2 := bipartition_encoding shared root2 in
        let fp := size (b2 ∖ b1) in
        let fn := size (b1 ∖ b2) in
        bool_decide (0 < fp ∨ 0 < fn)%nat
    | _, _ => false
    end.

(** A listing gives, for the two trees of a comparison, the list that
    line 141 makes of their shared labels. *)
Definition listing : Type := tree → tree → list label.

Definition incompatible_by (order : listing) (tree1 tree2 : tree) : bool :=
  are_two_trees_incompatible_in (order tree1 tree2) tree1 tree2.

(** The listing lists the shared labels, each once. *)
Definition lists_shared (order : listing) : Prop :=
  ∀ tree1 tree2,
    NoDup (order tree1 tree2) ∧
    (list_to_set (order tree1 tree2) : gset label)
    = get_leaf_set (seed_node tree1) ∩ get_leaf_set (seed_node tree2).

(** The listing of [are_two_trees_incompatible] above. *)
Definition listing_elements : listing :=
  λ tree1 tree2,
    elements (get_leaf_set (seed_node tree1) ∩ get_leaf_set (seed_node tree2)).

(** Another listing: the same labels from the other end. *)
Definition listing_reverse : listing :=
  λ tree1 tree2, reverse (listing_elements tree1 tree2).

(** [test_join] (lines 420-557) over a given compatibility check. *)
Definition test_join_with (incompatible : tree → tree → bool)
    (tree1 tree2 : tree) (map1 map2 : gmap N node)
    (nodeA nodeB : node) : result bool :=
  let cladeA := get_leaf_list nodeA in
  let cladeB := get_leaf_list nodeB in
  if not_disjoint cladeA cladeB then
    Raise (Exception "Nodes are not disjoint on their leaf sets!")
  else
    nodeAinT1 ← find_in_tree tree1 map1 nodeA cladeA;
    nodeBinT1 ← find_in_tree tree1 map1 nodeB cladeB;
    nodeAinT2 ← find_in_tree tree2 map2 nodeA cladeA;
    nodeBinT2 ← find_in_tree tree2 map2 nodeB cladeB;
    match nodeAinT1, nodeAinT2 with
    | Some nAT1, Some nAT2 =>
        match nodeBinT1, nodeBinT2 with
        | Some _, Some _ =>
            (* Case 1 *)
            node1 ← get_node_from_clade tree1 map1 (cladeA ++ cladeB);
            node2 ← get_node_from_clade tree2 map2 (cladeA ++ cladeB);
            Ok (bool_decide (node1 = None ∨ node2 = None))
        | Some _, None =>
            (* Case 2 *)
            is_None_node (get_node_from_clade tree1 map1 (cladeA ++ cladeB))
        | None, Some _ =>
            (* Case 3 *)
            is_None_node (get_node_from_clade tree2 map2 (cladeA ++ cladeB))
        | None, None => Raise (Exception "Node B was not found in either tree!")
        end
    | Some nAT1, None =>
        match nodeBinT1, nodeBinT2 with
        | Some _, Some _ =>
            (* Case 4 *)
            is_None_node (get_node_from_clade tree1 map1 (cladeA ++ cladeB))
        | Some _, None =>
            (* Case 5 *)
            is_None_node (get_node_from_clade tree1 map1 (cladeA ++ cladeB))
        | None, Some nBT2 =>
            (* Case 6 *)
            '(t1, t2) ← join_nodes_in_both_trees tree1 nAT1 cladeA
                                                 tree2 nBT2 cladeB true;
            match t1, t2 with
            | Some t1, Some t2 => Ok (incompatible t1 t2)
            | Some _, None => Raise AttributeError
            | None, _ => Ok false
            end
        | None, None => Raise (Exception "Node B was not found in either tree!")
        end
    | None, Some nAT2 =>
        match nodeBinT1, nodeBinT2 with
        | Some _, Some _ =>
            (* Case 7 *)
            is_None_node (get_node_from_clade tree2 map2 (cladeA ++ cladeB))
        | Some nBT1, None =>
            (* Case 8 *)
            '(t1, t2) ← join_nodes_in_both_trees tree1 nBT1 cladeB
                                                 tree2 nAT2 cladeA true;
            match t1, t2 with
            | Some t1, Some t2 => Ok (incompatible t1 t2)
            | Some _, None => Raise AttributeError
            | None, _ => Ok false
            end
        | None, Some _ =>
            (* Case 9 *)
            is_None_node (get_node_from_clade tree2 map2 (cladeA ++ cladeB))
        | None, None => Raise (Exception "Node B was not found in either tree!")
        end
    | None, None => Raise (Exception "Node A was not found in either tree!")
    end.

Section NJWith.
Context {R : Type} `{Number R}.
Variable incompatible : tree → tree → bool.

Definition oracle_with (st : state (R:=R)) (nd1 nd2 : nj_node R) : result bool :=
test_join_with incompatible (tree1 st) (tree2 st) (map1 st) (map2 st)
               (nj_tree nd1) (nj_tree nd2).

Definition scan_state_with (n : nat) (st : state (R:=R))
: result (option (nj_node R * nj_node R)) :=
scan num_ltb (qvalue n) (oracle_with st) (node_pool st).

(** Lines 766-851 over the given check. *)
Definition iteration_with (full_leaf_set : gset label) (n : nat) (st : state (R:=R))
: result outcome :=
let out := printed st ++ [n] in
nodes_to_join ← scan_state_with n st;
match nodes_to_join with
| None => Raise TypeError
| Some (nd1, nd2) =>
    '(t1, t2, edited) ← join_nodes (tree1 st) (tree2 st) (map1 st) (map2 st)
                                   (nj_tree nd1) (nj_tree nd2);
    trees ←
      (if edited : bool then
         t1 ← the_tree t1;
         if decide (get_leaf_set (seed_node t1) = full_leaf_set)
         then Ok (inl t1)
         else
           t2 ← the_tree t2;
           if decide (get_leaf_set (seed_node t2) = full_leaf_set)
           then Ok (inl t2)
           else Ok (inr (t1, t2, map_splits_to_nodes t1, map_splits_to_nodes t2))
       else
         t1 ← the_tree t1;
         t2 ← the_tree t2;
         Ok (inr (t1, t2, map1 st, map2 st)));
    match trees with
    | inl t => Ok (Return t)
    | inr (t1, t2, m1, m2) =>
        let new_node := Internal (nj_tree nd1) (nj_tree nd2) in
        let pool := pool_remove (nj_tree nd2)
                      (pool_remove (nj_tree nd1) (node_pool st)) in
        '(pool, new_dists, new_xsub) ←
          update_distances new_node nd1 nd2 pool [] num_zero;
        let pool := pool ++ [NJNode new_node new_dists new_xsub] in
        Ok (Continue (State t1 t2 m1 m2 pool out))
    end
end.

Fixpoint nj_loop_with (full_leaf_set : gset label) (ns : list label) (n : nat)
  (st : state (R:=R)) : result (tree * list nat) :=
match n with
| S (S _ as n') =>
    o ← iteration_with full_leaf_set n st;
    match o with
    | Return t => Ok (t, printed st ++ [n])
    | Continue st' => nj_loop_with full_leaf_set ns n' st'
    end
| _ =>
    match node_pool st with
    | [] => Raise IndexError
    | nd :: _ => Ok (Tree ns (nj_tree nd), printed st)
    end
end.

(** Lines 693-860 over the given check. *)
Definition merge_two_trees_via_nj_out_with (dm : pdm R) (tree1 tree2 : tree)
: result (tree * list nat) :=
let leaves1 := get_leaf_set (seed_node tree1) in
let leaves2 := get_leaf_set (seed_node tree2) in
let shared := leaves1 ∩ leaves2 in
if decide (size shared ≠ 0%nat) then
  Raise (Exception "Input trees are not on disjoint leaf sets!")
else
  let full_leaf_set := leaves1 ∪ leaves2 in
  if decide (full_leaf_set ≠ list_to_set (pdm_taxon_namespace dm)) then
    Raise (Exception "Names in matrix do not match those in trees!")
  else
    let map1 := map_splits_to_nodes tree1 in
    let map2 := map_splits_to_nodes tree2 in
    let n := length (_mapped_taxa dm) in
    pool ← cache_rows (_taxon_phylogenetic_distances dm) (_mapped_taxa dm)
                      0%nat (_mapped_taxa dm);
    nj_loop_with full_leaf_set (pdm_taxon_namespace dm) n
            (State tree1 tree2 map1 map2 pool []).

Definition merge_two_trees_via_nj_with (dm : pdm R) (tree1 tree2 : tree)
: result tree :=
r ← merge_two_trees_via_nj_out_with dm tree1 tree2;
Ok (fst r).
End NJWith.

(** The definitions end here; what follows are the lemmas and theorems
    about them. *)

(** * Bitmasks *)

Lemma testbit_taxa_bitmask_from ns : ∀ i labels k,
  N.testbit (taxa_bitmask_from i ns labels) k = true ↔
  ∃ (j : nat) l, k = i + N.of_nat j ∧ ns !! j = Some l ∧ l ∈ labels.
Proof.
  induction ns as [|l0 ns IH]; intros i labels k; simpl.
  - split; [done|]. by intros (j & l & _ & ? & _).
  - rewrite N.lor_spec, orb_true_iff, IH. split.
    + intros [Hk|(j & l & -> & Hj & Hl)].
      * destruct (decide (l0 ∈ labels)) as [Hin|]; [|by rewrite N.bits_0 in Hk].
        rewrite N.shiftl_1_l, N.pow2_bits_eqb in Hk.
        apply N.eqb_eq in Hk as <-.
        exists 0%nat, l0. split; [lia|done].
      * exists (S j), l. split; [lia|done].
    + intros ([|j] & l & -> & Hj & Hl); simpl in Hj.
      * left. injection Hj as ->. rewrite decide_True by done.
        rewrite N.shiftl_1_l, N.pow2_bits_eqb. apply N.eqb_eq. lia.
      * right. exists j, l. split; [lia|done].
Qed.

Lemma testbit_taxa_bitmask ns labels k :
  N.testbit (taxa_bitmask ns labels) k = true ↔
  ∃ l, ns !! N.to_nat k = Some l ∧ l ∈ labels.
Proof.
  unfold taxa_bitmask. rewrite testbit_taxa_bitmask_from. split.
  - intros (j & l & -> & ? & ?). exists l.
    by replace (N.to_nat (0 + N.of_nat j)) with j by lia.
  - intros (l & ? & ?). exists (N.to_nat k), l. split; [lia|done].
Qed.

Lemma bits_eq_iff (a b : N) :
  (∀ k, N.testbit a k = true ↔ N.testbit b k = true) → a = b.
Proof.
  intros Hab. apply N.bits_inj. intros k. specialize (Hab k).
  destruct (N.testbit a k), (N.testbit b k); naive_solver.
Qed.

Lemma taxa_bitmask_union ns (A B : gset label) :
  taxa_bitmask ns (A ∪ B) = N.lor (taxa_bitmask ns A) (taxa_bitmask ns B).
Proof.
  apply bits_eq_iff. intros k.
  rewrite N.lor_spec, orb_true_iff, !testbit_taxa_bitmask. set_solver.
Qed.

Lemma leafset_bitmask_taxa ns nd :
  leafset_bitmask ns nd = taxa_bitmask ns (get_leaf_set nd).
Proof.
  induction nd as [l|a IHa b IHb]; simpl.
  - unfold taxon_bitmask, get_leaf_set. simpl. f_equal. set_solver.
  - rewrite IHa, IHb, <- taxa_bitmask_union. f_equal.
    unfold get_leaf_set. simpl. by rewrite list_to_set_app_L.
Qed.

(** Two label sets within the namespace with the same bitmask are equal. *)
Lemma taxa_bitmask_inj ns (A B : gset label) :
  A ⊆ list_to_set ns → B ⊆ list_to_set ns →
  taxa_bitmask ns A = taxa_bitmask ns B → A = B.
Proof.
  intros HA HB Heq.
  assert (∀ X Y : gset label, X ⊆ list_to_set ns →
            taxa_bitmask ns X = taxa_bitmask ns Y → X ⊆ Y) as Hsub.
  { intros X Y HX HXY l Hl.
    assert (l ∈ ns) as Hns.
    { specialize (HX l Hl). by apply elem_of_list_to_set in HX. }
    apply list_elem_of_lookup in Hns as [j Hj].
    assert (N.testbit (taxa_bitmask ns X) (N.of_nat j) = true) as Hbit.
    { apply testbit_taxa_bitmask. exists l. by rewrite Nat2N.id. }
    rewrite HXY in Hbit. apply testbit_taxa_bitmask in Hbit as (l' & Hj' & Hl').
    rewrite Nat2N.id in Hj'. congruence. }
  apply set_eq. intros l. split; apply Hsub; done.
Qed.

Lemma taxa_bitmask_full ns (A : gset label) :
  list_to_set ns ⊆ A → taxa_bitmask ns A = N.ones (N.of_nat (length ns)).
Proof.
  intros HA. apply bits_eq_iff. intros k.
  rewrite testbit_taxa_bitmask, N.ones_spec_iff. split.
  - intros (l & Hl & _). apply lookup_lt_Some in Hl. lia.
  - intros Hk. destruct (lookup_lt_is_Some_2 ns (N.to_nat k)) as [l Hl]; [lia|].
    exists l. split; [done|]. apply HA, elem_of_list_to_set.
    by eapply list_elem_of_lookup_2.
Qed.

Lemma N_size_ones n : N.size (N.ones n) = n.
Proof.
  destruct (decide (n = 0)) as [->|Hn]; [done|].
  assert (N.ones n ≠ 0) as Hne.
  { intros H0. assert (N.testbit (N.ones n) 0 = true) as Hb
      by (apply N.ones_spec_iff; lia).
    by rewrite H0 in Hb. }
  rewrite N.size_log2 by done.
  rewrite N.ones_equiv, N.log2_pred_pow2 by lia. lia.
Qed.

(** Flipping the bits of the bitstring is taking the complement within the
    namespace. *)
Lemma flip_taxa_bitmask ns (A : gset label) :
  flip_bitstring (N.of_nat (length ns)) (taxa_bitmask ns A)
  = taxa_bitmask ns (list_to_set ns ∖ A).
Proof.
  apply bits_eq_iff. intros k. unfold flip_bitstring.
  rewrite N.lxor_spec, testbit_taxa_bitmask.
  destruct (N.testbit (N.ones _) k) eqn:Hones.
  - apply N.ones_spec_iff in Hones.
    destruct (lookup_lt_is_Some_2 ns (N.to_nat k)) as [l Hl]; [lia|].
    destruct (N.testbit (taxa_bitmask ns A) k) eqn:HA; simpl.
    + apply testbit_taxa_bitmask in HA as (l' & Hl' & HlA).
      split; [done|]. intros (l'' & ? & ?). set_solver.
    + split; [intros _|done]. exists l. split; [done|].
      apply elem_of_difference. split.
      * apply elem_of_list_to_set. by eapply list_elem_of_lookup_2.
      * intros HlA. apply not_true_iff_false in HA. apply HA.
        apply testbit_taxa_bitmask. eauto.
  - rewrite xorb_false_r. split.
    + intros HA. apply testbit_taxa_bitmask in HA as (l & Hl & _).
      apply lookup_lt_Some in Hl.
      assert (N.testbit (N.ones (N.of_nat (length ns))) k = true)
        by (apply N.ones_spec_iff; lia). congruence.
    + intros (l & Hl & _). apply lookup_lt_Some in Hl.
      assert (N.testbit (N.ones (N.of_nat (length ns))) k = true)
        by (apply N.ones_spec_iff; lia). congruence.
Qed.

Lemma flip_bitstring_involutive len k :
  flip_bitstring len (flip_bitstring len k) = k.
Proof.
  unfold flip_bitstring.
  by rewrite N.lxor_assoc, N.lxor_nilpotent, N.lxor_0_r.
Qed.

(** * Nodes of a tree and their leaf sets *)

Lemma get_leaf_set_Leaf l : get_leaf_set (Leaf l) = {[ l ]}.
Proof. unfold get_leaf_set. simpl. set_solver. Qed.

Lemma get_leaf_set_Internal a b :
  get_leaf_set (Internal a b) = get_leaf_set a ∪ get_leaf_set b.
Proof. unfold get_leaf_set. simpl. by rewrite list_to_set_app_L. Qed.

Lemma elem_of_get_leaf_set l nd : l ∈ get_leaf_set nd ↔ l ∈ get_leaf_list nd.
Proof. unfold get_leaf_set. by rewrite elem_of_list_to_set. Qed.

Lemma get_leaf_set_nonempty nd : ∃ l, l ∈ get_leaf_set nd.
Proof.
  induction nd as [l|a [l Hl] b _].
  - exists l. rewrite get_leaf_set_Leaf. set_solver.
  - exists l. rewrite get_leaf_set_Internal. set_solver.
Qed.

Lemma postorder_self nd : nd ∈ postorder nd.
Proof. destruct nd; simpl; set_solver. Qed.

Lemma postorder_Internal nd a b :
  nd ∈ postorder (Internal a b) ↔
  nd ∈ postorder a ∨ nd ∈ postorder b ∨ nd = Internal a b.
Proof. simpl. rewrite !elem_of_app, list_elem_of_singleton. tauto. Qed.

Lemma postorder_Leaf nd l : nd ∈ postorder (Leaf l) ↔ nd = Leaf l.
Proof. simpl. by rewrite list_elem_of_singleton. Qed.

Lemma postorder_trans nd mid root :
  nd ∈ postorder mid → mid ∈ postorder root → nd ∈ postorder root.
Proof.
  intros Hnd. induction root as [l|a IHa b IHb].
  - rewrite postorder_Leaf. by intros ->.
  - rewrite !postorder_Internal. intros [?|[?| ->]]; [tauto|tauto|].
    by apply postorder_Internal.
Qed.

Lemma leaf_set_subtree nd root :
  nd ∈ postorder root → get_leaf_set nd ⊆ get_leaf_set root.
Proof.
  induction root as [l|a IHa b IHb].
  - rewrite postorder_Leaf. by intros ->.
  - rewrite postorder_Internal, get_leaf_set_Internal.
    intros [?|[?| ->]]; [set_solver|set_solver|].
    by rewrite get_leaf_set_Internal.
Qed.

Lemma NoDup_Internal a b :
  NoDup (get_leaf_list (Internal a b)) →
  NoDup (get_leaf_list a) ∧ NoDup (get_leaf_list b) ∧
  get_leaf_set a ## get_leaf_set b.
Proof.
  simpl. rewrite NoDup_app. intros (Ha & Hab & Hb). repeat split; try done.
  intros l. rewrite !elem_of_get_leaf_set. apply Hab.
Qed.

Lemma NoDup_subtree nd root :
  nd ∈ postorder root → NoDup (get_leaf_list root) → NoDup (get_leaf_list nd).
Proof.
  induction root as [l|a IHa b IHb].
  - rewrite postorder_Leaf. by intros ->.
  - rewrite postorder_Internal. intros Hnd Hroot.
    destruct (NoDup_Internal _ _ Hroot) as (Ha & Hb & _).
    destruct Hnd as [?|[?| ->]]; auto.
Qed.

(** With unique leaf labels a node is determined by its leaf set. *)
#[global] Typeclasses Opaque get_leaf_set.

Lemma node_by_leaf_set root v w :
  NoDup (get_leaf_list root) →
  v ∈ postorder root → w ∈ postorder root →
  get_leaf_set v = get_leaf_set w → v = w.
Proof.
  induction root as [l|a IHa b IHb]; intros Hnd.
  - rewrite !postorder_Leaf. by intros -> ->.
  - destruct (NoDup_Internal _ _ Hnd) as (Ha & Hb & Hdisj).
    rewrite !postorder_Internal. intros Hv Hw Heq.
    destruct (get_leaf_set_nonempty v) as [lv Hlv].
    destruct (get_leaf_set_nonempty w) as [lw Hlw].
    destruct (get_leaf_set_nonempty a) as [la Hla].
    destruct (get_leaf_set_nonempty b) as [lb Hlb].
    destruct Hv as [Hv|[Hv| ->]], Hw as [Hw|[Hw| ->]];
      [by apply IHa| |  |  |by apply IHb|  |  |  |done];
      clear IHa IHb Hnd Ha Hb; exfalso;
      try apply leaf_set_subtree in Hv; try apply leaf_set_subtree in Hw;
      rewrite ?get_leaf_set_Internal in *; set_solver.
Qed.

Lemma complementary_nodes root v w :
  NoDup (get_leaf_list root) →
  v ∈ postorder root → w ∈ postorder root →
  get_leaf_set v = get_leaf_set root ∖ get_leaf_set w →
  root = Internal v w ∨ root = Internal w v.
Proof.
  intros Hnd Hv Hw Heq.
  destruct (get_leaf_set_nonempty v) as [lv Hlv].
  destruct (get_leaf_set_nonempty w) as [lw Hlw].
  destruct root as [l|a b].
  - apply postorder_Leaf in Hv as ->. apply postorder_Leaf in Hw as ->.
    set_solver.
  - destruct (NoDup_Internal _ _ Hnd) as (Ha & Hb & Hdisj).
    destruct (get_leaf_set_nonempty a) as [la Hla].
    destruct (get_leaf_set_nonempty b) as [lb Hlb].
    rewrite get_leaf_set_Internal in Heq.
    assert (∀ l, l ∈ get_leaf_set v ↔
                 (l ∈ get_leaf_set a ∨ l ∈ get_leaf_set b) ∧ l ∉ get_leaf_set w)
      as Hpt by (intros l; rewrite Heq; set_solver).
    assert (∀ l, l ∈ get_leaf_set a → l ∈ get_leaf_set b → False) as Hd
      by (intros l; apply Hdisj).
    clear Heq Hdisj.
    assert (∀ x y, x ∈ postorder a → y ∈ postorder b →
              (∀ l, l ∈ get_leaf_set x ↔
                 (l ∈ get_leaf_set a ∨ l ∈ get_leaf_set b) ∧ l ∉ get_leaf_set y) →
              x = a ∧ y = b) as Hcross.
    { intros x y Hx Hy Hxy.
      pose proof (leaf_set_subtree _ _ Hx) as Hxa.
      pose proof (leaf_set_subtree _ _ Hy) as Hyb.
      split.
      - apply (node_by_leaf_set a); [done|done|apply postorder_self|].
        apply set_eq. intros l. split; [apply Hxa|].
        intros Hl. apply Hxy. split; [by left|]. intros Hly.
        exact (Hd l Hl (Hyb l Hly)).
      - apply (node_by_leaf_set b); [done|done|apply postorder_self|].
        apply set_eq. intros l. split; [apply Hyb|].
        intros Hl. destruct (decide (l ∈ get_leaf_set y)) as [|Hn]; [done|].
        exfalso. assert (l ∈ get_leaf_set x) as Hlx by (apply Hxy; auto).
        exact (Hd l (Hxa l Hlx) Hl). }
    apply postorder_Internal in Hv, Hw.
    destruct Hv as [Hv|[Hv| ->]], Hw as [Hw|[Hw| ->]].
    + exfalso. apply leaf_set_subtree in Hv, Hw.
      assert (lb ∈ get_leaf_set v) as Hlbv.
      { apply Hpt; split; [by right|]. intros Hlbw. exact (Hd lb (Hw lb Hlbw) Hlb). }
      exact (Hd lb (Hv lb Hlbv) Hlb).
    + left. by destruct (Hcross v w Hv Hw Hpt) as [-> ->].
    + exfalso. rewrite get_leaf_set_Internal in Hpt.
      apply Hpt in Hlv as [Hlv Hn]. apply Hn. by apply elem_of_union.
    + right.
      assert (∀ l, l ∈ get_leaf_set w ↔
                 (l ∈ get_leaf_set a ∨ l ∈ get_leaf_set b) ∧ l ∉ get_leaf_set v)
        as Hpt'.
      { intros l. apply leaf_set_subtree in Hw. specialize (Hpt l).
        specialize (Hw l). destruct (decide (l ∈ get_leaf_set w)); tauto. }
      by destruct (Hcross w v Hw Hv Hpt') as [-> ->].
    + exfalso. apply leaf_set_subtree in Hv, Hw.
      assert (la ∈ get_leaf_set v) as Hlav.
      { apply Hpt; split; [by left|]. intros Hlaw. exact (Hd la Hla (Hw la Hlaw)). }
      exact (Hd la Hla (Hv la Hlav)).
    + exfalso. rewrite get_leaf_set_Internal in Hpt.
      apply Hpt in Hlv as [Hlv Hn]. apply Hn. by apply elem_of_union.
    + exfalso. apply leaf_set_subtree in Hw.
      rewrite get_leaf_set_Internal in Hpt. specialize (Hpt lw).
      specialize (Hw lw Hlw). apply Hpt; [|done].
      apply elem_of_union. by left.
    + exfalso. apply leaf_set_subtree in Hw.
      rewrite get_leaf_set_Internal in Hpt. specialize (Hpt lw).
      specialize (Hw lw Hlw). apply Hpt; [|done].
      apply elem_of_union. by right.
    + exfalso. rewrite get_leaf_set_Internal in Hpt, Hlv. specialize (Hpt lv).
      destruct Hpt as [Hpt _]. by destruct (Hpt Hlv).
Qed.
(** * The split-to-node map *)

Lemma dict_assign_elem (d : list (N * node)) k v k' v' :
  (k', v') ∈ dict_assign d k v → (k', v') ∈ d ∨ (k' = k ∧ v' = v).
Proof.
  induction d as [|[k0 v0] d IH]; simpl.
  - intros Hin. apply list_elem_of_singleton in Hin as [= -> ->]. by right.
  - case_decide as Hk.
    + intros Hin. apply elem_of_cons in Hin as [[= -> ->]|Hin];
        [by right|left; by right].
    + intros Hin. apply elem_of_cons in Hin as [[= -> ->]|Hin].
      * left. by left.
      * destruct (IH Hin) as [?|?]; [left; by right|by right].
Qed.

Lemma dict_assign_key (d : list (N * node)) k v :
  ∃ v', (k, v') ∈ dict_assign d k v.
Proof.
  induction d as [|[k0 v0] d [v' IH]]; simpl.
  - exists v. by left.
  - case_decide as Hk.
    + exists v. by left.
    + exists v'. by right.
Qed.

Lemma dict_assign_keeps (d : list (N * node)) k v k' v' :
  (k', v') ∈ d → ∃ v'', (k', v'') ∈ dict_assign d k v.
Proof.
  induction d as [|[k0 v0] d IH]; simpl.
  - intros Hin. by apply elem_of_nil in Hin.
  - intros Hin. apply elem_of_cons in Hin as [Heq|Hin].
    + injection Heq as Hk' Hv'. case_decide as Hk.
      * exists v. rewrite Hk', Hk. by left.
      * exists v0. rewrite Hk'. by left.
    + case_decide as Hk.
      * exists v'. by right.
      * destruct (IH Hin) as [v'' ?]. exists v''. by right.
Qed.

Lemma foldl_assign_sound (ns : list label) (l : list node) :
  ∀ (d0 : list (N * node)) k v,
  (k, v) ∈ foldl (λ d nd, dict_assign d (leafset_bitmask ns nd) nd) d0 l →
  (k, v) ∈ d0 ∨ (v ∈ l ∧ k = leafset_bitmask ns v).
Proof.
  induction l as [|x l IH]; intros d0 k v; simpl; [by left|].
  intros Hk. apply IH in Hk as [Hk|[Hv ->]].
  - apply dict_assign_elem in Hk as [Hk|[-> ->]]; [by left|].
    right. split; [by left|done].
  - right. split; [by right|done].
Qed.

Lemma foldl_assign_keeps (ns : list label) (l : list node) :
  ∀ (d0 : list (N * node)) k v,
  (k, v) ∈ d0 →
  ∃ v', (k, v') ∈ foldl (λ d nd, dict_assign d (leafset_bitmask ns nd) nd) d0 l.
Proof.
  induction l as [|x l IH]; intros d0 k v Hk; simpl; [by exists v|].
  destruct (dict_assign_keeps d0 (leafset_bitmask ns x) x k v Hk) as [v' Hv'].
  by apply (IH _ k v').
Qed.

Lemma foldl_assign_complete (ns : list label) (l : list node) :
  ∀ (d0 : list (N * node)) v,
  v ∈ l →
  ∃ v', (leafset_bitmask ns v, v')
        ∈ foldl (λ d nd, dict_assign d (leafset_bitmask ns nd) nd) d0 l.
Proof.
  induction l as [|x l IH]; intros d0 v Hv; simpl.
  - by apply elem_of_nil in Hv.
  - apply elem_of_cons in Hv as [->|Hv]; [|by apply IH].
    destruct (dict_assign_key d0 (leafset_bitmask ns x) x) as [v' Hv'].
    by apply (foldl_assign_keeps ns l _ _ v').
Qed.

Lemma bipartition_edge_map_sound t k v :
  (k, v) ∈ bipartition_edge_map t →
  v ∈ postorder (seed_node t) ∧ k = leafset_bitmask (taxon_namespace t) v.
Proof.
  unfold bipartition_edge_map. intros Hk.
  apply foldl_assign_sound in Hk as [Hk|Hk]; [|done].
  by apply elem_of_nil in Hk.
Qed.

Lemma bipartition_edge_map_complete t v :
  v ∈ postorder (seed_node t) →
  ∃ v', (leafset_bitmask (taxon_namespace t) v, v') ∈ bipartition_edge_map t.
Proof. apply foldl_assign_complete. Qed.

(** What the loop of [map_splits_to_nodes] establishes, whatever the
    items of the dictionary and their order. *)
Lemma map_splits_fold len (bem : list (N * node)) :
  let r : gmap N node :=
    foldl (λ (split_to_node_map : gmap N node) '(bitmask1, nd),
             <[flip_bitstring len bitmask1 := nd]>
               (<[bitmask1 := nd]> split_to_node_map)) ∅ bem in
  (∀ k v, r !! k = Some v →
          ∃ k0, (k0, v) ∈ bem ∧ (k = k0 ∨ k = flip_bitstring len k0)) ∧
  (∀ k0 v, (k0, v) ∈ bem →
           is_Some (r !! k0) ∧ is_Some (r !! flip_bitstring len k0)) ∧
  (∀ k, r !! k = r !! flip_bitstring len k).
Proof.
  simpl.
  assert (∀ a b, flip_bitstring len a = flip_bitstring len b → a = b) as Hinj.
  { intros a b Hab. rewrite <- (flip_bitstring_involutive len a),
      <- (flip_bitstring_involutive len b). by rewrite Hab. }
  assert (∀ (l : list (N * node)) (r0 : gmap N node) (m0 : list (N * node)),
    ((∀ k v, r0 !! k = Some v →
             ∃ k0, (k0, v) ∈ m0 ∧ (k = k0 ∨ k = flip_bitstring len k0)) ∧
     (∀ k0 v, (k0, v) ∈ m0 →
              is_Some (r0 !! k0) ∧ is_Some (r0 !! flip_bitstring len k0)) ∧
     (∀ k, r0 !! k = r0 !! flip_bitstring len k)) →
    let r := foldl (λ (split_to_node_map : gmap N node) '(bitmask1, nd),
               <[flip_bitstring len bitmask1 := nd]>
                 (<[bitmask1 := nd]> split_to_node_map)) r0 l in
    (∀ k v, r !! k = Some v →
            ∃ k0, (k0, v) ∈ m0 ++ l ∧ (k = k0 ∨ k = flip_bitstring len k0)) ∧
    (∀ k0 v, (k0, v) ∈ m0 ++ l →
             is_Some (r !! k0) ∧ is_Some (r !! flip_bitstring len k0)) ∧
    (∀ k, r !! k = r !! flip_bitstring len k)) as Hgen.
  { induction l as [|[i x] l IH]; intros r0 m0 Hinv; simpl.
    - by rewrite app_nil_r.
    - replace (m0 ++ (i, x) :: l) with ((m0 ++ [(i, x)]) ++ l)
        by (by rewrite <- app_assoc).
      apply IH. destruct Hinv as (IH1 & IH2 & IH3).
      assert (∀ k, k = i ∨ k = flip_bitstring len i ∨ is_Some (r0 !! k) →
                is_Some (<[flip_bitstring len i:=x]> (<[i:=x]> r0) !! k))
        as Hsome.
      { intros k Hk.
        destruct (decide (flip_bitstring len i = k)) as [<-|Hne1];
          [rewrite lookup_insert_eq; eauto|].
        rewrite lookup_insert_ne by done.
        destruct (decide (i = k)) as [<-|Hne2];
          [rewrite lookup_insert_eq; eauto|].
        rewrite lookup_insert_ne by done.
        destruct Hk as [->|[->|Hk]]; done. }
      split; [|split].
      + intros k v Hk.
        destruct (decide (flip_bitstring len i = k)) as [<-|Hne1].
        { rewrite lookup_insert_eq in Hk. injection Hk as ->.
          exists i. split; [|auto]. apply elem_of_app. right. by left. }
        rewrite lookup_insert_ne in Hk by done.
        destruct (decide (i = k)) as [<-|Hne2].
        { rewrite lookup_insert_eq in Hk. injection Hk as ->.
          exists i. split; [|auto]. apply elem_of_app. right. by left. }
        rewrite lookup_insert_ne in Hk by done.
        destruct (IH1 k v Hk) as (k0 & Hk0 & Hor).
        exists k0. split; [|done]. apply elem_of_app. by left.
      + intros k0 v Hk0. apply elem_of_app in Hk0 as [Hk0|Hk0].
        * destruct (IH2 k0 v Hk0). split; apply Hsome; auto.
        * apply list_elem_of_singleton in Hk0 as [= -> ->].
          split; apply Hsome; auto.
      + intros k.
        destruct (decide (k = i)) as [->|Hne1].
        { rewrite lookup_insert_eq.
          destruct (decide (flip_bitstring len i = i)) as [Heq|Hne].
          - rewrite Heq. by rewrite lookup_insert_eq.
          - rewrite lookup_insert_ne by done. by rewrite lookup_insert_eq. }
        destruct (decide (k = flip_bitstring len i)) as [->|Hne2].
        { rewrite flip_bitstring_involutive, lookup_insert_eq.
          rewrite lookup_insert_ne by done. by rewrite lookup_insert_eq. }
        rewrite !(lookup_insert_ne _ (flip_bitstring len i)).
        * rewrite !lookup_insert_ne; [apply IH3| |done].
          intros Heq. apply Hne2. by rewrite Heq, flip_bitstring_involutive.
        * intros Heq. by apply Hinj in Heq.
        * done. }
  apply (Hgen bem ∅ []).
  split; [|split].
  - intros k v. by rewrite lookup_empty.
  - intros k0 v Hin. by apply elem_of_nil in Hin.
  - intros k. by rewrite !lookup_empty.
Qed.

Lemma wf_namespace_set t :
  wf_tree t → list_to_set (taxon_namespace t) = get_leaf_set (seed_node t).
Proof.
  intros [_ Hperm]. unfold get_leaf_set. apply set_eq. intros l.
  rewrite !elem_of_list_to_set. by rewrite Hperm.
Qed.

Lemma wf_bit_length t :
  wf_tree t →
  N.size (leafset_bitmask (taxon_namespace t) (seed_node t))
  = N.of_nat (length (taxon_namespace t)).
Proof.
  intros Hwf. rewrite leafset_bitmask_taxa, taxa_bitmask_full.
  - apply N_size_ones.
  - by rewrite wf_namespace_set.
Qed.

Lemma difference_twice (L S : gset label) : S ⊆ L → L ∖ (L ∖ S) = S.
Proof.
  intros HS. apply set_eq. intros l. rewrite !elem_of_difference.
  specialize (HS l). destruct (decide (l ∈ S)); tauto.
Qed.

Lemma map_splits_lookup_sound t (S : gset label) w :
  wf_tree t → S ⊆ get_leaf_set (seed_node t) →
  map_splits_to_nodes t !! taxa_bitmask (taxon_namespace t) S = Some w →
  w ∈ postorder (seed_node t) ∧
  (get_leaf_set w = S ∨ get_leaf_set w = get_leaf_set (seed_node t) ∖ S).
Proof.
  intros Hwf HS Hlook. unfold map_splits_to_nodes in Hlook.
  rewrite wf_bit_length in Hlook by done.
  destruct (map_splits_fold (N.of_nat (length (taxon_namespace t)))
              (bipartition_edge_map t)) as (Hsound & _ & _).
  simpl in Hsound. apply Hsound in Hlook as (k0 & Hk0 & Hor).
  apply bipartition_edge_map_sound in Hk0 as [Hw ->].
  split; [done|].
  pose proof (leaf_set_subtree _ _ Hw) as Hsub.
  rewrite leafset_bitmask_taxa in Hor.
  rewrite flip_taxa_bitmask, (wf_namespace_set t Hwf) in Hor.
  destruct Hor as [Heq|Heq];
    apply taxa_bitmask_inj in Heq; rewrite ?(wf_namespace_set t Hwf);
    try done.
  - by left.
  - right. rewrite Heq. by rewrite difference_twice.
  - apply subseteq_difference_l. done.
Qed.

Lemma map_splits_lookup_complete t (S : gset label) :
  wf_tree t → S ⊆ get_leaf_set (seed_node t) →
  is_split (seed_node t) S →
  is_Some (map_splits_to_nodes t !! taxa_bitmask (taxon_namespace t) S).
Proof.
  intros Hwf HS (_ & nd & Hnd & Hor). unfold map_splits_to_nodes.
  rewrite wf_bit_length by done.
  destruct (map_splits_fold (N.of_nat (length (taxon_namespace t)))
              (bipartition_edge_map t)) as (_ & Hcomplete & _).
  simpl in Hcomplete.
  destruct (bipartition_edge_map_complete t nd Hnd) as [nd' Hnd'].
  destruct (Hcomplete _ _ Hnd') as [H1 H2].
  rewrite leafset_bitmask_taxa in H1, H2.
  destruct Hor as [Heq|Heq]; rewrite Heq in *; [done|].
  rewrite flip_taxa_bitmask, (wf_namespace_set t Hwf) in H2.
  by rewrite difference_twice in H2.
Qed.

Lemma map_splits_lookup_sym t (S : gset label) :
  wf_tree t →
  map_splits_to_nodes t !! taxa_bitmask (taxon_namespace t) S
  = map_splits_to_nodes t
      !! taxa_bitmask (taxon_namespace t) (get_leaf_set (seed_node t) ∖ S).
Proof.
  intros Hwf. unfold map_splits_to_nodes.
  rewrite wf_bit_length by done.
  destruct (map_splits_fold (N.of_nat (length (taxon_namespace t)))
              (bipartition_edge_map t)) as (_ & _ & Hsym).
  simpl in Hsym. rewrite Hsym. f_equal.
  by rewrite flip_taxa_bitmask, (wf_namespace_set t Hwf).
Qed.

(** The sentinel: key 0 holds the seed node. *)
Lemma map_splits_zero t :
  wf_tree t → map_splits_to_nodes t !! 0 = Some (seed_node t).
Proof.
  intros Hwf.
  assert (taxa_bitmask (taxon_namespace t) ∅ = 0) as H0.
  { apply bits_eq_iff. intros k. rewrite testbit_taxa_bitmask, N.bits_0.
    split; [|done]. intros (l & _ & Hl). by apply not_elem_of_empty in Hl. }
  destruct (map_splits_lookup_complete t ∅ Hwf) as [w Hw].
  - apply empty_subseteq.
  - split; [apply empty_subseteq|].
    exists (seed_node t). split; [apply postorder_self|]. right.
    apply set_eq. intros l. rewrite elem_of_difference.
    split; [|tauto]. intros Hl. split; [done|]. apply not_elem_of_empty.
  - rewrite H0 in Hw. rewrite Hw. f_equal.
    rewrite <- H0 in Hw.
    apply map_splits_lookup_sound in Hw as [Hpost Hor]; [|done|apply empty_subseteq].
    destruct Hwf as [Hnd _].
    apply (node_by_leaf_set (seed_node t)); [done|done|apply postorder_self|].
    destruct Hor as [Hor|Hor].
    + destruct (get_leaf_set_nonempty w) as [l Hl]. rewrite Hor in Hl.
      by apply not_elem_of_empty in Hl.
    + rewrite Hor. apply set_eq. intros l. rewrite elem_of_difference.
      split; [tauto|]. intros Hl. split; [done|]. apply not_elem_of_empty.
Qed.

Lemma not_subseteq_size (L S : gset label) :
  (size (L ∩ S) < size S)%nat ↔ ¬ S ⊆ L.
Proof.
  split.
  - intros Hlt Hsub.
    assert (L ∩ S = S) as Heq.
    { apply set_eq. intros l. rewrite elem_of_intersection.
      specialize (Hsub l). tauto. }
    rewrite Heq in Hlt. lia.
  - intros Hnsub. apply subset_size. split.
    + intros l. rewrite elem_of_intersection. tauto.
    + intros Hsub. apply Hnsub. intros l Hl.
      specialize (Hsub l Hl). apply elem_of_intersection in Hsub. tauto.
Qed.

(** [get_node_from_clade] branch by branch. *)
Lemma get_node_from_clade_unfold t (m : gmap N node) clade :
  let S : gset label := list_to_set clade in
  get_node_from_clade t m clade =
    if decide (get_leaf_set (seed_node t) = S) then
      match m !! 0 with Some nd => Ok (Some nd) | None => Raise KeyError end
    else if decide (S ⊆ get_leaf_set (seed_node t)) then
      Ok (m !! taxa_bitmask (taxon_namespace t) S)
    else Ok None.
Proof.
  simpl. unfold get_node_from_clade.
  destruct (decide (get_leaf_set (seed_node t) = list_to_set clade)); [done|].
  destruct (decide (size _ < size _)%nat) as [Hlt|Hge].
  - apply not_subseteq_size in Hlt. by rewrite decide_False.
  - rewrite decide_True; [done|].
    destruct (decide (list_to_set clade ⊆ get_leaf_set (seed_node t))) as [|Hn];
      [done|].
    by apply not_subseteq_size in Hn.
Qed.

Lemma wf_new_tree root : NoDup (get_leaf_list root) → wf_tree (new_tree root).
Proof. intros Hnd. split; [done|]. simpl. reflexivity. Qed.

(** C6, as stated, fails on a label set that reaches outside the tree: the
    bitmask of the labels restricted to the leaves of the tree is a key of
    the map, and still the lookup answers [None]. *)
Lemma get_node_from_clade_restricted_counterexample :
  get_node_from_clade tree_ab (map_splits_to_nodes tree_ab) ["a"; "z"] = Ok None ∧
  map_splits_to_nodes tree_ab
    !! taxa_bitmask (taxon_namespace tree_ab)
         (list_to_set ["a"; "z"] ∩ get_leaf_set (seed_node tree_ab))
  = Some (Leaf "b").
Proof. split; vm_compute; reflexivity. Qed.

(** C6, amended: on a tree whose namespace lists exactly its leaves, with
    the map built by [map_splits_to_nodes], the lookup of a label set [S]
    returns the entry at key 0, which is the seed node, when [S] is the leaf
    set of the tree; [None] when [S] has a label outside the tree; and
    otherwise the entry at the bitmask of [S], if there is one. *)
Theorem get_node_from_clade_cases t clade :
  wf_tree t →
  (list_to_set clade = get_leaf_set (seed_node t) →
     map_splits_to_nodes t !! 0 = Some (seed_node t) ∧
     get_node_from_clade t (map_splits_to_nodes t) clade
     = Ok (Some (seed_node t))) ∧
  (¬ list_to_set clade ⊆ get_leaf_set (seed_node t) →
     get_node_from_clade t (map_splits_to_nodes t) clade = Ok None) ∧
  (list_to_set clade ⊆ get_leaf_set (seed_node t) →
   list_to_set clade ≠ get_leaf_set (seed_node t) →
     get_node_from_clade t (map_splits_to_nodes t) clade
     = Ok (map_splits_to_nodes t
             !! taxa_bitmask (taxon_namespace t) (list_to_set clade))).
Proof.
  intros Hwf. rewrite get_node_from_clade_unfold. simpl.
  split; [|split].
  - intros Heq. rewrite decide_True by done.
    by rewrite map_splits_zero.
  - intros Hn. rewrite decide_False.
    + by rewrite decide_False.
    + intros Heq. apply Hn. by rewrite <- Heq.
  - intros Hsub Hne. rewrite decide_False by done.
    by rewrite decide_True.
Qed.

Lemma get_node_from_clade_cases_witness :
  wf_tree tree_ab ∧
  get_node_from_clade tree_ab (map_splits_to_nodes tree_ab) ["b"; "a"]
  = Ok (Some (seed_node tree_ab)).
Proof.
  assert (wf_tree tree_ab) as Hwf.
  { apply wf_new_tree. by_compute. }
  split; [exact Hwf|].
  destruct (get_node_from_clade_cases tree_ab ["b"; "a"] Hwf) as [Hall _].
  apply Hall. by_compute.
Defined.

(** C7, as stated, fails at the children of the seed node: both carry the
    same split, and the map holds one node per bitmask. *)
Lemma split_symmetry_counterexample :
  ¬ (∀ v, v ∈ postorder (seed_node tree_ab) →
          get_leaf_set v ≠ get_leaf_set (seed_node tree_ab) →
          get_node_from_clade tree_ab (map_splits_to_nodes tree_ab)
            (get_leaf_list v) = Ok (Some v) ∧
          get_node_from_clade tree_ab (map_splits_to_nodes tree_ab)
            (elements (get_leaf_set (seed_node tree_ab) ∖ get_leaf_set v))
          = Ok (Some v)).
Proof.
  intros Hall.
  destruct (Hall (Leaf "a")) as [Ha _].
  { vm_compute. set_solver. }
  { by vm_compute. }
  destruct (Hall (Leaf "b")) as [Hb _].
  { vm_compute. set_solver. }
  { by vm_compute. }
  vm_compute in Ha, Hb. congruence.
Qed.

(** C7, amended: on a tree whose namespace lists exactly its leaves, the
    clade [C] of a node [v] other than the seed node and its complement
    are looked up to one and the same node [w]; [w] is [v] itself unless
    [v] is a child of the seed node, where [w] may be the other child,
    whose clade is the complement of [C]. *)
Theorem split_symmetry t v :
  wf_tree t →
  v ∈ postorder (seed_node t) →
  get_leaf_set v ≠ get_leaf_set (seed_node t) →
  ∃ w,
    get_node_from_clade t (map_splits_to_nodes t) (get_leaf_list v)
    = Ok (Some w) ∧
    get_node_from_clade t (map_splits_to_nodes t)
      (elements (get_leaf_set (seed_node t) ∖ get_leaf_set v))
    = Ok (Some w) ∧
    (w = v ∨ seed_node t = Internal v w ∨ seed_node t = Internal w v).
Proof.
  intros Hwf Hv Hne.
  pose proof (leaf_set_subtree _ _ Hv) as Hsub.
  destruct (map_splits_lookup_complete t (get_leaf_set v) Hwf Hsub) as [w Hw].
  { split; [done|]. exists v. auto. }
  exists w. rewrite !get_node_from_clade_unfold. simpl.
  rewrite list_to_set_elements_L. fold (get_leaf_set v).
  split; [|split].
  - rewrite decide_False by done. by rewrite decide_True, Hw.
  - destruct (get_leaf_set_nonempty v) as [l Hl].
    rewrite decide_False.
    + rewrite decide_True by apply subseteq_difference_l, reflexivity.
      by rewrite <- map_splits_lookup_sym, Hw.
    + intros Heq. assert (l ∈ get_leaf_set (seed_node t)) as Hl' by auto.
      rewrite Heq in Hl'. apply elem_of_difference in Hl'. tauto.
  - apply map_splits_lookup_sound in Hw as [Hpost Hor]; [|done|done].
    destruct Hwf as [Hnd _].
    destruct Hor as [Heq|Heq].
    + left. by apply (node_by_leaf_set (seed_node t)).
    + right. apply or_comm. by apply complementary_nodes.
Qed.

Lemma split_symmetry_witness :
  ∃ w,
    get_node_from_clade tree_ab_c (map_splits_to_nodes tree_ab_c) ["a"]
    = Ok (Some w) ∧
    get_node_from_clade tree_ab_c (map_splits_to_nodes tree_ab_c)
      (elements (get_leaf_set (seed_node tree_ab_c) ∖ get_leaf_set (Leaf "a")))
    = Ok (Some w) ∧
    (w = Leaf "a" ∨ seed_node tree_ab_c = Internal (Leaf "a") w
     ∨ seed_node tree_ab_c = Internal w (Leaf "a")).
Proof.
  apply (split_symmetry tree_ab_c (Leaf "a")).
  - apply wf_new_tree. by_compute.
  - by_compute.
  - by_compute.
Defined.

(** * The agglomeration loop *)


(** C5: when the edit of the committed pair makes a constraint tree span
    the full taxon set, the loop returns that tree in this very pass,
    whatever the number of live nodes; the pass at hand is the last one that
    printed. *)
Theorem early_termination {R : Type} `{Number R}
    (full_leaf_set : gset label) (ns : list label) (n : nat) (st : state)
    (nd1 nd2 : nj_node R) (t1 t2 : option tree) (t : tree) :
  scan_state (S (S n)) st = Ok (Some (nd1, nd2)) →
  join_nodes (tree1 st) (tree2 st) (map1 st) (map2 st)
             (nj_tree nd1) (nj_tree nd2) = Ok (t1, t2, true) →
  (t1 = Some t ∧ get_leaf_set (seed_node t) = full_leaf_set) ∨
  (∃ t1', t1 = Some t1' ∧ get_leaf_set (seed_node t1') ≠ full_leaf_set ∧
          t2 = Some t ∧ get_leaf_set (seed_node t) = full_leaf_set) →
  nj_loop full_leaf_set ns (S (S n)) st = Ok (t, printed st ++ [S (S n)]).
Proof.
  intros Hscan Hjoin Hspan. simpl. unfold iteration.
  rewrite Hscan. simpl. rewrite Hjoin. simpl.
  destruct Hspan as [[-> Hfull]|(t1' & -> & Hne & -> & Hfull)]; simpl.
  - by rewrite decide_True.
  - rewrite decide_False by done. simpl. by rewrite decide_True.
Qed.

Lemma early_termination_witness :
  nj_loop (list_to_set ["a"; "b"; "c"]) ["a"; "b"; "c"] 3 (state_abc 1%float)
  = Ok (new_tree (Internal (Internal (Leaf "b") (Leaf "a")) (Leaf "c")), [3%nat]).
Proof.
  eapply (early_termination _ _ 1%nat (state_abc 1%float)).
  - vm_compute. reflexivity.
  - vm_compute. reflexivity.
  - left. split; [reflexivity|]. by_compute.
Defined.

(** C8, as stated, fails: a negative distance is taken as it comes. *)
Lemma negative_distance_counterexample :
  merge_two_trees_via_nj (pdm_ab (-1)%float) tree_a tree_b
  = Ok (Tree ["a"; "b"] (Internal (Leaf "a") (Leaf "b"))).
Proof. vm_compute. reflexivity. Qed.

(** C9, as stated, fails: the node pool is filled in the iteration order of
    the set [pdm._mapped_taxa]; two orders of the same set, with the same
    trees and the same distances, end in trees with different splits. *)
Lemma pool_order_counterexample :
  ∃ out1 out2,
    merge_two_trees_via_nj (pdm_equidistant ["a"; "b"; "c"; "d"]) tree_ab tree_cd
    = Ok out1 ∧
    merge_two_trees_via_nj (pdm_equidistant ["a"; "c"; "b"; "d"]) tree_ab tree_cd
    = Ok out2 ∧
    are_two_trees_incompatible out1 out2 = true.
Proof.
  eexists _, _. split; [vm_compute; reflexivity|].
  split; [vm_compute; reflexivity|]. vm_compute. reflexivity.
Qed.

Section Extensionality.
Context {R : Type} `{Number R}.
Variables dm dm' : gmap label (gmap label R).

Lemma cache_row_ext t1 i taxa :
(∀ t2, t2 ∈ taxa → original_distance dm t1 t2 = original_distance dm' t1 t2) →
∀ j dists xsub,
  cache_row dm t1 i j taxa dists xsub = cache_row dm' t1 i j taxa dists xsub.
Proof.
induction taxa as [|t2 taxa IH]; intros Hd j dists xsub; simpl; [done|].
assert (∀ t, t ∈ taxa →
          original_distance dm t1 t = original_distance dm' t1 t) as Hd'
  by (intros t Ht; apply Hd; by right).
destruct (decide (i = j)); [by apply IH|].
rewrite (Hd t2) by (by left).
destruct (original_distance dm' t1 t2); simpl; [by apply IH|done].
Qed.

Lemma cache_rows_ext all taxa :
(∀ t1 t2, t1 ∈ taxa → t2 ∈ all →
          original_distance dm t1 t2 = original_distance dm' t1 t2) →
∀ i, cache_rows dm all i taxa = cache_rows dm' all i taxa.
Proof.
induction taxa as [|t1 taxa IH]; intros Hd i; simpl; [done|].
rewrite (cache_row_ext t1 i all) by (intros t2 Ht2; apply Hd; [by left|done]).
rewrite IH; [done|]. intros x y Hx Hy. apply Hd; [by right|done].
Qed.
End Extensionality.

(** The states written out above are the ones the merge starts from. *)
Example state_two_of_five_pool :
  cache_rows (_taxon_phylogenetic_distances pdm_two_of_five)
             (_mapped_taxa pdm_two_of_five) 0 (_mapped_taxa pdm_two_of_five)
  = Ok (node_pool state_two_of_five).
Proof. vm_compute. reflexivity. Qed.

Example state_abc_pool :
  cache_rows (_taxon_phylogenetic_distances pdm_abc)
             (_mapped_taxa pdm_abc) 0 (_mapped_taxa pdm_abc)
  = Ok (node_pool (state_abc 1%float)).
Proof. vm_compute. reflexivity. Qed.

Example merge_abc :
  merge_two_trees_via_nj_out pdm_abc tree_ab tree_c
  = Ok (new_tree (Internal (Internal (Leaf "b") (Leaf "a")) (Leaf "c")), [3%nat]).
Proof. vm_compute. reflexivity. Qed.

(** * The scan for the pair to join *)

Section ScanFacts.
Context {X R : Type}.
Variable ltb : R → R → bool.
Variable qvalue : X → X → result R.
Variable test : X → X → result bool.

Lemma scan_list_app l1 : ∀ l2 best,
scan_list ltb qvalue test (l1 ++ l2) best =
scan_list ltb qvalue test l1 best ≫= scan_list ltb qvalue test l2.
Proof.
induction l1 as [|[a b] l1 IH]; intros l2 best; simpl; [done|].
destruct (scan_pair ltb qvalue test a b best); simpl; [apply IH|done].
Qed.

Lemma scan_inner_list nd1 later : ∀ best,
scan_inner ltb qvalue test nd1 later best =
scan_list ltb qvalue test (map (pair nd1) later) best.
Proof.
induction later as [|nd2 later IH]; intros best; simpl; [done|].
destruct (scan_pair ltb qvalue test nd1 nd2 best); simpl; [apply IH|done].
Qed.

Lemma scan_outer_list node_pool : ∀ best,
scan_outer ltb qvalue test node_pool best =
scan_list ltb qvalue test (all_pairs node_pool) best.
Proof.
induction node_pool as [|nd1 later IH]; intros best; simpl; [done|].
rewrite scan_list_app, scan_inner_list.
destruct (scan_list ltb qvalue test (map (pair nd1) later) best); simpl;
  [apply IH|done].
Qed.

(** A scan that ends well has computed every q. *)
Lemma scan_list_entries pairs : ∀ best r,
scan_list ltb qvalue test pairs best = Ok r →
∃ qs, qvalues qvalue pairs = Ok qs ∧
      scan_entries ltb test qs best = Ok r.
Proof.
induction pairs as [|[a b] pairs IH]; intros best r; simpl.
- intros [= <-]. by exists [].
- unfold scan_pair at 1.
  destruct (qvalue a b) as [q|] eqn:Hq; simpl; [|done].
  intros Hscan.
  assert (∃ best', scan_entry ltb test (q, (a, b)) best = Ok best' ∧
            scan_list ltb qvalue test pairs best' = Ok r) as (best' & H1 & H2).
  { unfold scan_entry. simpl.
    destruct (match best with None => true | Some (min_q, _) => ltb q min_q end).
    - destruct (test a b) as [v|]; simpl in *; [|done].
      destruct (negb v); simpl in *; eauto.
    - simpl in *. eauto. }
  destruct (IH _ _ H2) as (qs & Hqs & Hent).
  exists ((q, (a, b)) :: qs). rewrite Hqs. simpl. split; [done|].
  by rewrite H1.
Qed.

Lemma qvalues_spec pairs : ∀ qs,
qvalues qvalue pairs = Ok qs →
map snd qs = pairs ∧
∀ x, x ∈ qs → qvalue (fst (snd x)) (snd (snd x)) = Ok (fst x).
Proof.
induction pairs as [|[a b] pairs IH]; intros qs; simpl.
- intros [= <-]. split; [done|]. intros x Hx. by apply elem_of_nil in Hx.
- destruct (qvalue a b) as [q|] eqn:Hq; simpl; [|done].
  destruct (qvalues qvalue pairs) as [qs'|]; simpl; [|done].
  intros [= <-]. destruct (IH qs' eq_refl) as [Hmap Hall].
  split; [simpl; by rewrite Hmap|].
  intros x Hx. apply elem_of_cons in Hx as [->|Hx]; [done|by apply Hall].
Qed.
End ScanFacts.

Lemma SFltb_key x y :
  x ≠ S754_nan → y ≠ S754_nan →
  SFltb x y = true ↔ key_lt (float_key x) (float_key y).
Proof.
  intros Hx Hy. unfold SFltb, key_lt.
  destruct x as [sx|sx| |sx mx ex]; [| |done|];
    (destruct y as [sy|sy| |sy my ey]; [| |done|]); simpl;
    try (destruct sx); try (destruct sy); simpl;
    try (split; [done|intros; lia]);
    try (split; [intros _; lia|done]).
  - change (PosDef.Pos.compare_cont Eq mx my) with (Pos.compare mx my).
    destruct (Z.compare_spec ex ey); simpl;
      try (split; [done|intros; lia]); try (split; [intros _; lia|done]).
    destruct (Pos.compare_spec mx my); simpl;
      try (split; [done|intros; lia]); try (split; [intros _; lia|done]).
  - change (PosDef.Pos.compare_cont Eq mx my) with (Pos.compare mx my).
    destruct (Z.compare_spec ex ey); simpl;
      try (split; [done|intros; lia]); try (split; [intros _; lia|done]).
    destruct (Pos.compare_spec mx my); simpl;
      try (split; [done|intros; lia]); try (split; [intros _; lia|done]).
Qed.

Lemma is_nan_Prim2SF (a : float) :
  PrimFloat.is_nan a = false → Prim2SF a ≠ S754_nan.
Proof.
  unfold PrimFloat.is_nan. rewrite FloatAxioms.eqb_spec. intros Hnan Heq.
  rewrite Heq in Hnan. done.
Qed.

Lemma float_ltb_key (a b : float) :
  PrimFloat.is_nan a = false → PrimFloat.is_nan b = false →
  PrimFloat.ltb a b = true ↔
  key_lt (float_key (Prim2SF a)) (float_key (Prim2SF b)).
Proof.
  intros Ha Hb. rewrite FloatAxioms.ltb_spec. by apply SFltb_key; apply is_nan_Prim2SF.
Qed.

(** On floats that are no NaN, [<] is a strict weak order. *)
Lemma float_ltb_strict_weak_order :
  (∀ a : float, PrimFloat.is_nan a = false → num_ltb a a = false) ∧
  (∀ a b c : float,
     PrimFloat.is_nan a = false → PrimFloat.is_nan b = false →
     PrimFloat.is_nan c = false →
     num_ltb a b = true → num_ltb b c = true → num_ltb a c = true) ∧
  (∀ a b c : float,
     PrimFloat.is_nan a = false → PrimFloat.is_nan b = false →
     PrimFloat.is_nan c = false →
     num_ltb a b = false → num_ltb b c = false → num_ltb a c = false).
Proof.
  simpl. split; [|split].
  - intros a Ha. apply not_true_is_false. rewrite float_ltb_key by done.
    unfold key_lt. lia.
  - intros a b c Ha Hb Hc. rewrite !float_ltb_key by done.
    unfold key_lt. lia.
  - intros a b c Ha Hb Hc Hab Hbc. apply not_true_is_false.
    apply not_true_iff_false in Hab, Hbc.
    rewrite float_ltb_key in Hab, Hbc |- * by done.
    unfold key_lt in *. lia.
Qed.

(** * The scan commits the least q *)

Section ScanOrder.
Context {X R : Type}.
Variable ltb : R → R → bool.
Variable test : X → X → result bool.

(** The comparison is a strict weak order on the numbers that occur. *)
Variable good : R → Prop.
Hypothesis ltb_trans :
∀ a b c, good a → good b → good c →
         ltb a b = true → ltb b c = true → ltb a c = true.
Hypothesis ltb_neg_trans :
∀ a b c, good a → good b → good c →
         ltb a b = false → ltb b c = false → ltb a c = false.

Abbreviation entry := (R * (X * X))%type.
Abbreviation tested x := (test (fst (snd x)) (snd (snd x))).
Abbreviation good_entries l := (∀ x : entry, x ∈ l → good (fst x)).

Lemma scan_entry_scanned (done : list entry) x best best' :
good_entries (done ++ [x]) →
scanned ltb test done best →
scan_entry ltb test x best = Ok best' →
scanned ltb test (done ++ [x]) best'.
Proof.
intros Hgood.
assert (good (fst x)) as Gx.
{ apply Hgood, elem_of_app. right. by left. }
assert (∀ y, y ∈ done → good (fst y)) as Gdone.
{ intros y Hy. apply Hgood, elem_of_app. by left. }
unfold scan_entry. destruct best as [e|]; simpl.
- intros (He & l1 & l2 & -> & H1 & H2).
  assert (good (fst e)) as Ge.
  { apply Gdone, elem_of_app. right. by left. }
  replace (let (min_q, _) := e in ltb (fst x) min_q)
    with (ltb (fst x) (fst e)) by (by destruct e).
  destruct (ltb (fst x) (fst e)) eqn:Hlt.
  + destruct (tested x) as [v|] eqn:Hv; simpl; [|done].
    destruct v; simpl; intros [= <-]; simpl.
    * split; [done|]. exists l1, (l2 ++ [x]).
      split; [by rewrite <- app_assoc|]. split; [done|].
      intros y Hy Hlty. apply elem_of_app in Hy as [Hy|Hy]; [by apply H2|].
      by apply list_elem_of_singleton in Hy as ->.
    * split; [done|]. exists (l1 ++ e :: l2), []. split; [done|].
      split; [|intros y Hy; by apply elem_of_nil in Hy].
      intros y Hy Hxy. pose proof (Gdone y Hy) as Gy.
      apply elem_of_app in Hy as [Hy|Hy].
      -- apply H1; [done|].
         destruct (ltb (fst e) (fst y)) eqn:Hey; [|done].
         by rewrite (ltb_trans _ _ _ Gx Ge Gy Hlt Hey) in Hxy.
      -- apply elem_of_cons in Hy as [->|Hy]; [congruence|].
         apply H2; [done|].
         destruct (ltb (fst y) (fst e)) eqn:Hye; [done|].
         by rewrite (ltb_neg_trans _ _ _ Gx Gy Ge Hxy Hye) in Hlt.
  + intros [= <-]. simpl. split; [done|]. exists l1, (l2 ++ [x]).
    split; [by rewrite <- app_assoc|]. split; [done|].
    intros y Hy Hlty. apply elem_of_app in Hy as [Hy|Hy]; [by apply H2|].
    apply list_elem_of_singleton in Hy as ->. congruence.
- intros Hall. destruct (tested x) as [v|] eqn:Hv; simpl; [|done].
  destruct v; simpl; intros [= <-]; simpl.
  + intros y Hy. apply elem_of_app in Hy as [Hy|Hy]; [by apply Hall|].
    by apply list_elem_of_singleton in Hy as ->.
  + split; [done|]. exists done, []. split; [done|].
    split; [|intros y Hy; by apply elem_of_nil in Hy].
    intros y Hy _. by apply Hall.
Qed.

Lemma scan_entries_scanned l : ∀ (done : list entry) best r,
good_entries (done ++ l) →
scanned ltb test done best →
scan_entries ltb test l best = Ok r →
scanned ltb test (done ++ l) r.
Proof.
induction l as [|x l IH]; intros done best r Hgood Hdone; simpl.
- intros [= <-]. by rewrite app_nil_r.
- destruct (scan_entry ltb test x best) as [best'|] eqn:Hx; simpl; [|done].
  intros Hrest.
  replace (done ++ x :: l) with ((done ++ [x]) ++ l) in Hgood |- *
    by (by rewrite <- app_assoc).
  eapply IH; [done| |done]. eapply scan_entry_scanned; [|done|done].
  intros y Hy. apply Hgood, elem_of_app. by left.
Qed.

Lemma pick_min_spec (l : list entry) :
good_entries l →
match pick_min ltb l with
| None => l = []
| Some (l1, m, l2) =>
    l = l1 ++ m :: l2 ∧
    (∀ y, y ∈ l1 → ltb (fst m) (fst y) = true) ∧
    (∀ y, y ∈ l2 → ltb (fst y) (fst m) = false)
end.
Proof.
induction l as [|x l IH]; simpl; [done|]. intros Hgood.
assert (good (fst x)) as Gx by (apply Hgood; by left).
assert (good_entries l) as Gl by (intros y Hy; apply Hgood; by right).
specialize (IH Gl).
destruct (pick_min ltb l) as [[[l1 m] l2]|].
- destruct IH as (-> & H1 & H2).
  assert (good (fst m)) as Gm.
  { apply Gl, elem_of_app. right. by left. }
  destruct (ltb (fst m) (fst x)) eqn:Hmx.
  + split; [done|]. split; [|done].
    intros y Hy. apply elem_of_cons in Hy as [->|Hy]; [done|by apply H1].
  + split; [done|]. split; [intros y Hy; by apply elem_of_nil in Hy|].
    intros y Hy. apply elem_of_app in Hy as [Hy|Hy].
    * assert (good (fst y)) as Gy.
      { apply Gl, elem_of_app. by left. }
      destruct (ltb (fst y) (fst x)) eqn:Hyx; [|done].
      by rewrite (ltb_trans _ _ _ Gm Gy Gx (H1 y Hy) Hyx) in Hmx.
    * apply elem_of_cons in Hy as [->|Hy]; [done|].
      assert (good (fst y)) as Gy.
      { apply Gl, elem_of_app. right. by right. }
      by apply (ltb_neg_trans _ _ _ Gy Gm Gx (H2 y Hy) Hmx).
- subst l. split; [done|].
  split; intros y Hy; by apply elem_of_nil in Hy.
Qed.

(** Two ways of cutting one list at one element each. *)
Lemma split_compare {A} (a1 : list A) : ∀ e a2 l1 m l2,
a1 ++ e :: a2 = l1 ++ m :: l2 →
(a1 = l1 ∧ e = m ∧ a2 = l2) ∨
(∃ k, a1 = l1 ++ m :: k ∧ l2 = k ++ e :: a2) ∨
(∃ k, l1 = a1 ++ e :: k ∧ a2 = k ++ m :: l2).
Proof.
induction a1 as [|x a1 IH]; intros e a2 l1 m l2 Heq.
- destruct l1 as [|y l1]; simpl in Heq.
  + injection Heq as -> ->. by left.
  + injection Heq as -> ->. right. right. by exists l1.
- destruct l1 as [|y l1]; simpl in Heq.
  + injection Heq as -> <-. right. left. by exists a1.
  + injection Heq as -> Heq.
    destruct (IH _ _ _ _ _ Heq) as [(-> & -> & ->)|[(k & -> & ->)|(k & -> & ->)]].
    * by left.
    * right. left. by exists k.
    * right. right. by exists k.
Qed.

Lemma first_passing_scanned n : ∀ (l : list entry) best,
good_entries l →
length l = n →
scanned ltb test l best →
first_passing ltb test n l = Ok (option_map snd best).
Proof.
induction n as [|n IH]; intros l best Hgood Hlen Hsc.
- destruct l; [|done]. simpl. destruct best as [e|]; [|done].
  destruct Hsc as (_ & l1 & l2 & Heq & _). by destruct l1.
- simpl. pose proof (pick_min_spec l Hgood) as Hpick.
  destruct (pick_min ltb l) as [[[l1 m] l2]|]; [|by subst l].
  destruct Hpick as (-> & Hl1 & Hl2).
  assert (length (l1 ++ l2) = n) as Hlen'.
  { rewrite length_app in *. simpl in Hlen. lia. }
  assert (good_entries (l1 ++ l2)) as Hgood'.
  { intros y Hy. apply Hgood. set_solver. }
  destruct m as [qm [ma mb]].
  destruct best as [e|]; simpl in Hsc.
  + destruct Hsc as (He & a1 & a2 & Heq & H1 & H2).
    symmetry in Heq.
    apply split_compare in Heq as [(-> & -> & ->)|[(k & -> & ->)|(k & -> & ->)]].
    * simpl in He. by rewrite He.
    * assert (test ma mb = Ok true) as Hm.
      { apply (H1 (qm, (ma, mb))); [set_solver|].
        apply (Hl2 e). set_solver. }
      rewrite Hm. simpl. apply (IH _ (Some e)); [done|done|]. simpl.
      split; [done|].
      exists (l1 ++ k), a2. split; [by rewrite <- app_assoc|].
      split; [|done]. intros x Hx. apply H1. set_solver.
    * assert (test ma mb = Ok true) as Hm.
      { apply (H2 (qm, (ma, mb))); [set_solver|].
        apply (Hl1 e). set_solver. }
      rewrite Hm. simpl. apply (IH _ (Some e)); [done|done|].
      simpl. split; [done|].
      exists a1, (k ++ l2). split; [by rewrite <- app_assoc|].
      split; [done|]. intros x Hx. apply H2. set_solver.
  + assert (test ma mb = Ok true) as Hm
      by (apply (Hsc (qm, (ma, mb))); set_solver).
    rewrite Hm. simpl.
    apply (IH _ None); [done|done|]. simpl. intros x Hx. apply Hsc. set_solver.
Qed.
End ScanOrder.

Section ScanRefinement.
Context {X R : Type}.
Variable ltb : R → R → bool.
Variable qvalue : X → X → result R.
Variable test : X → X → result bool.
Variable good : R → Prop.
Hypothesis ltb_trans :
∀ a b c, good a → good b → good c →
         ltb a b = true → ltb b c = true → ltb a c = true.
Hypothesis ltb_neg_trans :
∀ a b c, good a → good b → good c →
         ltb a b = false → ltb b c = false → ltb a c = false.

Lemma scan_scanned node_pool r :
(∀ a b q, (a, b) ∈ all_pairs node_pool → qvalue a b = Ok q → good q) →
scan ltb qvalue test node_pool = Ok r →
∃ qs best,
  qvalues qvalue (all_pairs node_pool) = Ok qs ∧
  r = option_map snd best ∧
  scanned ltb test qs best ∧
  ∀ x, x ∈ qs → good (fst x).
Proof.
intros Hq. unfold scan. rewrite scan_outer_list.
destruct (scan_list ltb qvalue test (all_pairs node_pool) None)
  as [best|] eqn:Hscan; simpl; [|done].
intros [= <-].
apply scan_list_entries in Hscan as (qs & Hqs & Hent).
assert (∀ x, x ∈ qs → good (fst x)) as Hgood.
{ destruct (qvalues_spec qvalue _ _ Hqs) as [Hmap Hall].
  intros [q [a b]] Hx. apply (Hq a b); [|by apply (Hall _ Hx)].
  rewrite <- Hmap. apply list_elem_of_fmap. by exists (q, (a, b)). }
exists qs, best. split; [done|]. split; [done|]. split; [|done].
apply (scan_entries_scanned ltb test good ltb_trans ltb_neg_trans qs [] None);
  [done| |done].
simpl. intros x Hx. by apply elem_of_nil in Hx.
Qed.

Lemma scan_ascending node_pool r :
(∀ a b q, (a, b) ∈ all_pairs node_pool → qvalue a b = Ok q → good q) →
scan ltb qvalue test node_pool = Ok r →
ascending_scan ltb qvalue test node_pool = Ok r.
Proof.
intros Hq Hscan.
destruct (scan_scanned _ _ Hq Hscan) as (qs & best & Hqs & -> & Hsc & Hgood).
unfold ascending_scan. rewrite Hqs. simpl.
by apply (first_passing_scanned ltb test good ltb_trans ltb_neg_trans).
Qed.

(** The committed pair in its place among the pairs: an accepted pair
  before it has a larger q, an accepted pair after it has no smaller q. *)
Lemma scan_minimal node_pool nd1 nd2 :
(∀ a b q, (a, b) ∈ all_pairs node_pool → qvalue a b = Ok q → good q) →
scan ltb qvalue test node_pool = Ok (Some (nd1, nd2)) →
test nd1 nd2 = Ok false ∧
∃ q before after,
  qvalue nd1 nd2 = Ok q ∧
  all_pairs node_pool = before ++ (nd1, nd2) :: after ∧
  (∀ a b q', (a, b) ∈ before → qvalue a b = Ok q' → test a b = Ok false →
             ltb q q' = true) ∧
  (∀ a b q', (a, b) ∈ after → qvalue a b = Ok q' → test a b = Ok false →
             ltb q' q = false).
Proof.
intros Hq Hscan.
destruct (scan_scanned _ _ Hq Hscan) as (qs & best & Hqs & Hr & Hsc & _).
destruct best as [[q [e1 e2]]|]; [|done]. simpl in Hr.
injection Hr as -> ->.
destruct Hsc as (He & l1 & l2 & -> & H1 & H2). simpl in He.
destruct (qvalues_spec qvalue _ _ Hqs) as [Hmap Hall].
split; [done|]. exists q, (map snd l1), (map snd l2). split.
{ apply (Hall (q, (e1, e2))). set_solver. }
split; [by rewrite <- Hmap, map_app|].
split.
- intros a b q' Hab Hq' Htest.
  apply list_elem_of_fmap in Hab as ([qx [xa xb]] & Heq & Hx).
  simpl in Heq. injection Heq as Ha Hb. subst a b.
  assert (qvalue xa xb = Ok qx) as Hqx.
  { apply (Hall (qx, (xa, xb))). set_solver. }
  assert (qx = q') as -> by congruence.
  destruct (ltb q q') eqn:Hlt; [done|].
  specialize (H1 _ Hx Hlt). simpl in H1. congruence.
- intros a b q' Hab Hq' Htest.
  apply list_elem_of_fmap in Hab as ([qx [xa xb]] & Heq & Hx).
  simpl in Heq. injection Heq as Ha Hb. subst a b.
  assert (qvalue xa xb = Ok qx) as Hqx.
  { apply (Hall (qx, (xa, xb))). set_solver. }
  assert (qx = q') as -> by congruence.
  destruct (ltb q' q) eqn:Hlt; [|done].
  specialize (H2 _ Hx Hlt). simpl in H2. congruence.
Qed.
End ScanRefinement.

(** C2, as stated, fails on floats: finite distances near the largest
    float make a row sum overflow, and some q are infinite or [nan].  With
    the pool in the order a, c, b, d the first pair has a q that is [nan];
    it is committed, since nothing is below [nan], although the pair
    (a, d) passes the oracle with q minus infinity: the committed q is not
    the least.  With the pool in the order a, b, c, d the scan of the
    source commits (a, d), the scan in ascending q (a, b). *)
Lemma scan_overflow_counterexample :
  (∃ pool a c d q,
     cache_rows (_taxon_phylogenetic_distances
                   (pdm_overflow ["a"; "c"; "b"; "d"]))
                ["a"; "c"; "b"; "d"] 0 ["a"; "c"; "b"; "d"] = Ok pool ∧
     scan_state 4 (state_ab_cd pool) = Ok (Some (a, c)) ∧
     qvalue 4 a c = Ok q ∧ PrimFloat.is_nan q = true ∧
     all_pairs pool !! 2%nat = Some (a, d) ∧
     oracle (state_ab_cd pool) a d = Ok false ∧
     qvalue 4 a d = Ok neg_infinity ∧
     PrimFloat.leb q neg_infinity = false ∧
     nj_tree a = Leaf "a" ∧ nj_tree c = Leaf "c" ∧ nj_tree d = Leaf "d") ∧
  (∃ pool a b d,
     cache_rows (_taxon_phylogenetic_distances
                   (pdm_overflow ["a"; "b"; "c"; "d"]))
                ["a"; "b"; "c"; "d"] 0 ["a"; "b"; "c"; "d"] = Ok pool ∧
     scan_state 4 (state_ab_cd pool) = Ok (Some (a, d)) ∧
     ascending_scan num_ltb (spec_q 4) (oracle (state_ab_cd pool)) pool
     = Ok (Some (a, b)) ∧
     nj_tree a = Leaf "a" ∧ nj_tree b = Leaf "b" ∧ nj_tree d = Leaf "d").
Proof.
  split.
  - eexists _, _, _, _, _. split; [vm_compute; reflexivity|].
    split; [vm_compute; reflexivity|].
    split; [vm_compute; reflexivity|].
    split; [vm_compute; reflexivity|].
    split; [vm_compute; reflexivity|].
    split; [vm_compute; reflexivity|].
    split; [vm_compute; reflexivity|].
    split; [vm_compute; reflexivity|]. done.
  - eexists _, _, _, _. split; [vm_compute; reflexivity|].
    split; [vm_compute; reflexivity|].
    split; [vm_compute; reflexivity|]. done.
Qed.

(** C2, amended: when every q of the pass is a number on which [<] is a
    strict weak order (on floats: when no q is [nan]), a scan of the source
    that ends well commits what the scan in ascending q of the
    specification commits, q being (n−2)·d(u,v) − xsub(u) − xsub(v); the
    committed pair is a pair of the pool that passes the oracle, every
    pair before it in the order of the pool positions that passes the
    oracle has a larger q, and no pair after it that passes has a smaller
    one. *)
Theorem scan_commits_least_q {R : Type} `{Number R} (good : R → Prop)
    (n : nat) (st : state) (r : option (nj_node R * nj_node R)) :
  (∀ a b c, good a → good b → good c →
            num_ltb a b = true → num_ltb b c = true → num_ltb a c = true) →
  (∀ a b c, good a → good b → good c →
            num_ltb a b = false → num_ltb b c = false → num_ltb a c = false) →
  (∀ u v d, (u, v) ∈ all_pairs (node_pool st) →
            dict_get (_nj_distances u) (nj_tree v) = Ok d →
            good (q_spec n d (_nj_xsub u) (_nj_xsub v))) →
  scan_state n st = Ok r →
  ascending_scan num_ltb (spec_q n) (oracle st) (node_pool st) = Ok r ∧
  ∀ nd1 nd2, r = Some (nd1, nd2) →
    oracle st nd1 nd2 = Ok false ∧
    ∃ d before after,
      dict_get (_nj_distances nd1) (nj_tree nd2) = Ok d ∧
      all_pairs (node_pool st) = before ++ (nd1, nd2) :: after ∧
      (∀ u v d', (u, v) ∈ before →
         dict_get (_nj_distances u) (nj_tree v) = Ok d' →
         oracle st u v = Ok false →
         num_ltb (q_spec n d (_nj_xsub nd1) (_nj_xsub nd2))
                 (q_spec n d' (_nj_xsub u) (_nj_xsub v)) = true) ∧
      (∀ u v d', (u, v) ∈ after →
         dict_get (_nj_distances u) (nj_tree v) = Ok d' →
         oracle st u v = Ok false →
         num_ltb (q_spec n d' (_nj_xsub u) (_nj_xsub v))
                 (q_spec n d (_nj_xsub nd1) (_nj_xsub nd2)) = false).
Proof.
  intros Htrans Hneg Hgood Hscan.
  assert (∀ u v q, (u, v) ∈ all_pairs (node_pool st) →
                   qvalue n u v = Ok q → good q) as Hq.
  { intros u v q Hin. unfold qvalue.
    destruct (dict_get (_nj_distances u) (nj_tree v)) as [d|] eqn:Hd;
      simpl; [|done].
    intros [= <-]. by apply Hgood. }
  split.
  - by apply (scan_ascending num_ltb (qvalue n) (oracle st) good).
  - intros nd1 nd2 ->.
    destruct (scan_minimal num_ltb (qvalue n) (oracle st) good Htrans Hneg
                _ _ _ Hq Hscan)
      as (Htest & q & before & after & Hqv & Hsplit & Hbefore & Hafter).
    split; [done|]. unfold qvalue in Hqv.
    destruct (dict_get (_nj_distances nd1) (nj_tree nd2)) as [d|] eqn:Hd;
      simpl in Hqv; [|done].
    injection Hqv as <-.
    exists d, before, after. split; [done|]. split; [done|]. split.
    + intros u v d' Hin Hd' Hacc. apply (Hbefore u v); [done| |done].
      unfold qvalue. by rewrite Hd'.
    + intros u v d' Hin Hd' Hacc. apply (Hafter u v); [done| |done].
      unfold qvalue. by rewrite Hd'.
Qed.

Example state_cross_pool :
  cache_rows (_taxon_phylogenetic_distances pdm_cross)
             (_mapped_taxa pdm_cross) 0 (_mapped_taxa pdm_cross)
  = Ok (node_pool state_cross).
Proof. vm_compute. reflexivity. Qed.

Lemma scan_commits_least_q_witness :
  ascending_scan num_ltb (spec_q 4) (oracle state_cross) (node_pool state_cross)
  = Ok (Some (NJNode (Leaf "a")
                [(Leaf "d", 5%float); (Leaf "c", 1%float); (Leaf "b", 5%float)]
                11%float,
              NJNode (Leaf "c")
                [(Leaf "d", 5%float); (Leaf "b", 5%float); (Leaf "a", 1%float)]
                11%float)).
Proof.
  destruct float_ltb_strict_weak_order as (_ & Htrans & Hneg).
  refine (proj1 (scan_commits_least_q (λ q, PrimFloat.is_nan q = false)
                   4%nat state_cross _ Htrans Hneg _ _)).
  - intros u v d Hin Hd. simpl in Hin.
    repeat (apply elem_of_cons in Hin as [Hin|Hin];
            [injection Hin as -> ->; vm_compute in Hd; injection Hd as <-;
             vm_compute; reflexivity|]).
    by apply elem_of_nil in Hin.
  - vm_compute. reflexivity.
Defined.

(** * Re-rooting keeps the splits *)

Lemma perm_leaf_set r r' :
  get_leaf_list r ≡ₚ get_leaf_list r' → get_leaf_set r = get_leaf_set r'.
Proof.
  intros Hperm. apply set_eq. intros l.
  rewrite !elem_of_get_leaf_set. by rewrite Hperm.
Qed.

Lemma covers_is_split r r' S :
  get_leaf_set r = get_leaf_set r' → covers r r' →
  is_split r S → is_split r' S.
Proof.
  intros HU Hcov (HS & nd & Hnd & Hor). split; [by rewrite <- HU|].
  destruct (Hcov nd Hnd) as (nd' & Hnd' & Hor').
  exists nd'. split; [done|]. rewrite <- HU.
  destruct Hor as [<-|Heq], Hor' as [->| ->]; auto.
  left. rewrite Heq. by apply difference_twice.
Qed.

Lemma same_splits_is_split r r' S :
  same_splits r r' → is_split r S ↔ is_split r' S.
Proof.
  intros (Hperm & H1 & H2). apply perm_leaf_set in Hperm.
  split; apply covers_is_split; done.
Qed.

Lemma covers_refl r : covers r r.
Proof. intros nd Hnd. exists nd. auto. Qed.

Lemma covers_trans r r' r'' :
  get_leaf_set r = get_leaf_set r' →
  covers r r' → covers r' r'' → covers r r''.
Proof.
  intros HU H1 H2 nd Hnd.
  destruct (H1 nd Hnd) as (nd' & Hnd' & Hor').
  destruct (H2 nd' Hnd') as (nd'' & Hnd'' & Hor'').
  exists nd''. split; [done|]. rewrite <- HU in Hor''.
  destruct Hor' as [E1|E1], Hor'' as [E2|E2]; rewrite E2, E1; auto.
  left. apply difference_twice. by apply leaf_set_subtree.
Qed.

Lemma same_splits_refl r : same_splits r r.
Proof. split; [done|]. split; apply covers_refl. Qed.

Lemma same_splits_sym r r' : same_splits r r' → same_splits r' r.
Proof. intros (Hperm & H1 & H2). by split. Qed.

Lemma same_splits_trans r r' r'' :
  same_splits r r' → same_splits r' r'' → same_splits r r''.
Proof.
  intros (Hp1 & H1 & H1') (Hp2 & H2 & H2').
  split; [by rewrite Hp1|].
  pose proof (perm_leaf_set _ _ Hp1) as HU1.
  pose proof (perm_leaf_set _ _ Hp2) as HU2.
  split.
  - by apply (covers_trans r r' r'').
  - by apply (covers_trans r'' r' r).
Qed.

(** The sibling of a child of the seed node carries the complement. *)
Lemma sibling_complement (x y : node) :
  NoDup (get_leaf_list (Internal x y)) →
  get_leaf_set y = get_leaf_set (Internal x y) ∖ get_leaf_set x ∧
  get_leaf_set x = get_leaf_set (Internal x y) ∖ get_leaf_set y.
Proof.
  intros Hnd. destruct (NoDup_Internal _ _ Hnd) as (_ & _ & Hdisj).
  rewrite get_leaf_set_Internal.
  split; apply set_eq; intros l; rewrite elem_of_difference, elem_of_union;
    specialize (Hdisj l); tauto.
Qed.

Lemma swap_same_splits a b : same_splits (Internal a b) (Internal b a).
Proof.
  assert (∀ x y, covers (Internal x y) (Internal y x)) as Hcov.
  { intros x y nd Hnd. apply postorder_Internal in Hnd as [Hnd|[Hnd| ->]].
    - exists nd. split; [|by left]. apply postorder_Internal. auto.
    - exists nd. split; [|by left]. apply postorder_Internal. auto.
    - exists (Internal y x). split; [apply postorder_self|]. left.
      rewrite !get_leaf_set_Internal. apply set_eq. intros l.
      rewrite !elem_of_union. tauto. }
  split; [|by split]. simpl. apply Permutation_app_comm.
Qed.

(** Moving the seed node across one node, into the first child. *)
Lemma rotate_same_splits a b up :
  NoDup (get_leaf_list (Internal (Internal a b) up)) →
  same_splits (Internal (Internal a b) up) (Internal a (Internal b up)).
Proof.
  intros Hnd.
  assert (get_leaf_list (Internal (Internal a b) up)
          ≡ₚ get_leaf_list (Internal a (Internal b up))) as Hperm.
  { simpl. by rewrite app_assoc. }
  assert (NoDup (get_leaf_list (Internal a (Internal b up)))) as Hnd'
    by (by rewrite <- Hperm).
  pose proof (perm_leaf_set _ _ Hperm) as HU.
  destruct (sibling_complement _ _ Hnd) as [Hup _].
  destruct (sibling_complement _ _ Hnd') as [_ Ha].
  split; [done|]. split.
  - intros nd Hin. rewrite !postorder_Internal in Hin.
    destruct Hin as [[Hin|[Hin| ->]]|[Hin| ->]].
    + exists nd. split; [|by left]. rewrite !postorder_Internal. auto.
    + exists nd. split; [|by left]. rewrite !postorder_Internal. auto.
    + exists up. split; [|by right]. rewrite !postorder_Internal.
      right. left. right. left. apply postorder_self.
    + exists nd. split; [|by left]. rewrite !postorder_Internal. auto.
    + exists (Internal a (Internal b up)). split; [apply postorder_self|].
      by left.
  - intros nd Hin. rewrite !postorder_Internal in Hin.
    destruct Hin as [Hin|[[Hin|[Hin| ->]]| ->]].
    + exists nd. split; [|by left]. rewrite !postorder_Internal. auto.
    + exists nd. split; [|by left]. rewrite !postorder_Internal. auto.
    + exists nd. split; [|by left]. rewrite !postorder_Internal. auto.
    + exists a. split; [|by right]. rewrite !postorder_Internal.
      left. left. apply postorder_self.
    + exists (Internal (Internal a b) up). split; [apply postorder_self|].
      by left.
Qed.

(** Moving the seed node into the second child. *)
Lemma rotate_same_splits_r a b up :
  NoDup (get_leaf_list (Internal (Internal a b) up)) →
  same_splits (Internal (Internal a b) up) (Internal b (Internal a up)).
Proof.
  intros Hnd.
  assert (same_splits (Internal (Internal a b) up) (Internal (Internal b a) up))
    as Hswap.
  { assert (∀ x y, covers (Internal (Internal x y) up) (Internal (Internal y x) up))
      as Hcov.
    { intros x y nd Hin. rewrite !postorder_Internal in Hin.
      destruct Hin as [[Hin|[Hin| ->]]|[Hin| ->]].
      - exists nd. split; [|by left]. rewrite !postorder_Internal. auto.
      - exists nd. split; [|by left]. rewrite !postorder_Internal. auto.
      - exists (Internal y x). split.
        + rewrite !postorder_Internal. auto.
        + left. rewrite !get_leaf_set_Internal. apply set_eq. intros l.
          rewrite !elem_of_union. tauto.
      - exists nd. split; [|by left]. rewrite !postorder_Internal. auto.
      - exists (Internal (Internal y x) up). split; [apply postorder_self|].
        left. rewrite !get_leaf_set_Internal. apply set_eq. intros l.
        rewrite !elem_of_union. tauto. }
    split; [|by split]. simpl. f_equiv. apply Permutation_app_comm. }
  eapply same_splits_trans; [exact Hswap|].
  apply rotate_same_splits. destruct Hswap as [Hperm _]. by rewrite <- Hperm.
Qed.

Lemma cut_off_same_splits target cur : ∀ above rest,
  NoDup (get_leaf_list (hang cur above)) →
  cut_off target cur above = Some rest →
  same_splits (hang cur above) (Internal target rest).
Proof.
  induction cur as [l|a IHa b IHb]; intros above rest Hnd; simpl.
  - destruct (decide (Leaf l = target)) as [<-|]; [|done].
    intros ->. apply same_splits_refl.
  - destruct (decide (Internal a b = target)) as [<-|Hne].
    { intros ->. apply same_splits_refl. }
    assert (same_splits (hang (Internal a b) above) (hang a (turn b above)))
      as Ha.
    { destruct above as [up|]; simpl.
      - by apply rotate_same_splits.
      - apply same_splits_refl. }
    assert (same_splits (hang (Internal a b) above) (hang b (turn a above)))
      as Hb.
    { destruct above as [up|]; simpl.
      - by apply rotate_same_splits_r.
      - apply swap_same_splits. }
    destruct (cut_off target a (turn b above)) as [rest'|] eqn:Hcut.
    + intros [= ->]. eapply same_splits_trans; [exact Ha|].
      apply IHa; [|done]. destruct Ha as [Hperm _]. by rewrite <- Hperm.
    + intros Hcut'. eapply same_splits_trans; [exact Hb|].
      apply IHb; [|done]. destruct Hb as [Hperm _]. by rewrite <- Hperm.
Qed.

(** [reroot_at_edge] keeps the tree well formed and its splits in place. *)
Lemma reroot_at_edge_same_splits t nd t' :
  wf_tree t → reroot_at_edge t nd = Some t' →
  wf_tree t' ∧ taxon_namespace t' = taxon_namespace t ∧
  same_splits (seed_node t) (seed_node t') ∧
  ∃ rest, seed_node t' = Internal nd rest.
Proof.
  intros [Hnd Hns]. unfold reroot_at_edge.
  destruct (cut_off nd (seed_node t) None) as [rest|] eqn:Hcut; [|done].
  intros [= <-]. simpl.
  pose proof (cut_off_same_splits nd (seed_node t) None rest Hnd Hcut) as Hsame.
  simpl in Hsame. split; [|split; [done|split; [done|by exists rest]]].
  destruct Hsame as [Hperm _]. split; simpl.
  - by rewrite <- Hperm.
  - by rewrite Hns.
Qed.

(** * The compatibility oracle *)

Lemma incompatible_few_shared (u1 u2 : tree) :
  (size (get_leaf_set (seed_node u1) ∩ get_leaf_set (seed_node u2)) < 4)%nat →
  are_two_trees_incompatible u1 u2 = false.
Proof.
  intros Hlt. unfold are_two_trees_incompatible.
  by rewrite decide_True.
Qed.

(** C10: two trees that share fewer than four leaves are found compatible
    at once; hence in cases 6 and 8 of the oracle, a pair whose simulated
    join leaves the two trees with fewer than four shared leaves is not
    rejected. *)
Theorem few_shared_leaves_not_rejected (u1 u2 : tree) :
  (size (get_leaf_set (seed_node u1) ∩ get_leaf_set (seed_node u2)) < 4)%nat →
  are_two_trees_incompatible u1 u2 = false ∧
  ∀ tree1 tree2 map1 map2 nodeA nodeB nA nB,
    not_disjoint (get_leaf_list nodeA) (get_leaf_list nodeB) = false →
    (find_in_tree tree1 map1 nodeA (get_leaf_list nodeA) = Ok (Some nA) ∧
     find_in_tree tree2 map2 nodeA (get_leaf_list nodeA) = Ok None ∧
     find_in_tree tree1 map1 nodeB (get_leaf_list nodeB) = Ok None ∧
     find_in_tree tree2 map2 nodeB (get_leaf_list nodeB) = Ok (Some nB) ∧
     join_nodes_in_both_trees tree1 nA (get_leaf_list nodeA)
                              tree2 nB (get_leaf_list nodeB) true
     = Ok (Some u1, Some u2))
    ∨
    (find_in_tree tree1 map1 nodeA (get_leaf_list nodeA) = Ok None ∧
     find_in_tree tree2 map2 nodeA (get_leaf_list nodeA) = Ok (Some nA) ∧
     find_in_tree tree1 map1 nodeB (get_leaf_list nodeB) = Ok (Some nB) ∧
     find_in_tree tree2 map2 nodeB (get_leaf_list nodeB) = Ok None ∧
     join_nodes_in_both_trees tree1 nB (get_leaf_list nodeB)
                              tree2 nA (get_leaf_list nodeA) true
     = Ok (Some u1, Some u2)) →
    test_join tree1 tree2 map1 map2 nodeA nodeB = Ok false.
Proof.
  intros Hlt. pose proof (incompatible_few_shared u1 u2 Hlt) as Hcompat.
  split; [done|].
  intros tree1 tree2 map1 map2 nodeA nodeB nA nB Hdisj Hcase.
  unfold test_join. rewrite Hdisj.
  destruct Hcase as [(HA1 & HA2 & HB1 & HB2 & Hjoin)|(HA1 & HA2 & HB1 & HB2 & Hjoin)];
    rewrite HA1, HB1, HA2, HB2; simpl; rewrite Hjoin; simpl; by rewrite Hcompat.
Qed.

Lemma few_shared_leaves_not_rejected_witness :
  are_two_trees_incompatible tree_ba_c tree_dc_a = false ∧
  test_join tree_ab tree_cd (map_splits_to_nodes tree_ab)
            (map_splits_to_nodes tree_cd) (Leaf "a") (Leaf "c") = Ok false.
Proof.
  assert (size (get_leaf_set (seed_node tree_ba_c)
                ∩ get_leaf_set (seed_node tree_dc_a)) < 4)%nat as Hlt
    by by_compute.
  destruct (few_shared_leaves_not_rejected tree_ba_c tree_dc_a Hlt)
    as [Hcompat Hall].
  split; [exact Hcompat|].
  apply (Hall tree_ab tree_cd _ _ (Leaf "a") (Leaf "c")
              (TreeNode (Leaf "b")) (TreeNode (Leaf "d"))).
  - vm_compute. reflexivity.
  - left. repeat split; vm_compute; reflexivity.
Defined.

Lemma list_to_set_leaf_list nd :
  (list_to_set (get_leaf_list nd) : gset label) = get_leaf_set nd.
Proof. done. Qed.

(** A clade that [find_in_tree] finds is a split of the tree. *)
Lemma find_in_tree_is_split t nd r :
  wf_tree t →
  find_in_tree t (map_splits_to_nodes t) nd (get_leaf_list nd) = Ok (Some r) →
  is_split (seed_node t) (get_leaf_set nd).
Proof.
  intros Hwf. unfold find_in_tree. rewrite !list_to_set_leaf_list.
  destruct (decide (get_leaf_set nd = get_leaf_set (seed_node t))) as [Heq|Hne].
  - intros _. rewrite Heq. split; [done|].
    exists (seed_node t). split; [apply postorder_self|by left].
  - rewrite get_node_from_clade_unfold. simpl.
    rewrite list_to_set_leaf_list.
    rewrite decide_False by done.
    destruct (decide (get_leaf_set nd ⊆ get_leaf_set (seed_node t))) as [Hsub|];
      simpl; [|done].
    destruct (map_splits_to_nodes t !! _) as [w|] eqn:Hw; simpl; [|done].
    intros _. split; [done|].
    apply map_splits_lookup_sound in Hw as [Hpost Hor]; [|done|done].
    by exists w.
Qed.

(** A failed lookup of a label set within the tree: the set is no split. *)
Lemma lookup_None_not_split t clade :
  wf_tree t →
  list_to_set clade ⊆ get_leaf_set (seed_node t) →
  get_node_from_clade t (map_splits_to_nodes t) clade = Ok None →
  ¬ is_split (seed_node t) (list_to_set clade).
Proof.
  intros Hwf Hsub. rewrite get_node_from_clade_unfold. simpl.
  destruct (decide (get_leaf_set (seed_node t) = list_to_set clade)).
  - by rewrite map_splits_zero.
  - rewrite decide_True by done. intros [= Hnone] Hsplit.
    destruct (map_splits_lookup_complete t _ Hwf Hsub Hsplit) as [w Hw].
    congruence.
Qed.

Lemma local_rejection t nodeA nodeB rA rB :
  wf_tree t →
  find_in_tree t (map_splits_to_nodes t) nodeA (get_leaf_list nodeA) = Ok (Some rA) →
  find_in_tree t (map_splits_to_nodes t) nodeB (get_leaf_list nodeB) = Ok (Some rB) →
  get_node_from_clade t (map_splits_to_nodes t)
    (get_leaf_list nodeA ++ get_leaf_list nodeB) = Ok None →
  not_siblings_in t nodeA nodeB.
Proof.
  intros Hwf HA HB Hnone.
  apply find_in_tree_is_split in HA; [|done].
  apply find_in_tree_is_split in HB; [|done].
  split; [done|]. split; [done|].
  assert ((list_to_set (get_leaf_list nodeA ++ get_leaf_list nodeB) : gset label)
          = get_leaf_set nodeA ∪ get_leaf_set nodeB) as Hunion
    by (by rewrite list_to_set_app_L).
  rewrite <- Hunion. apply lookup_None_not_split; [done| |done].
  rewrite Hunion. destruct HA as [HA _], HB as [HB _].
  by apply union_least.
Qed.

Lemma not_siblings_same_splits t t' nodeA nodeB :
  same_splits (seed_node t) (seed_node t') →
  not_siblings_in t nodeA nodeB → not_siblings_in t' nodeA nodeB.
Proof.
  intros Hsame (HA & HB & HAB). unfold not_siblings_in.
  by rewrite <- !(same_splits_is_split _ _ _ Hsame).
Qed.

Lemma extract_nodes_from_split_same_splits t r clade t' found :
  wf_tree t →
  extract_nodes_from_split t r clade = Ok (t', found) →
  wf_tree t' ∧ same_splits (seed_node t) (seed_node t').
Proof.
  intros Hwf. unfold extract_nodes_from_split.
  destruct r as [nd|nd]; simpl; [|done].
  assert (∀ t0, wf_tree t0 → same_splits (seed_node t) (seed_node t0) →
     match seed_node t0 with
     | Leaf _ => Raise (Exception "Tree is not rooted!")
     | Internal node1 node2 =>
         if decide (get_leaf_set node1 = list_to_set clade) then Ok (t0, node1)
         else if decide (get_leaf_set node2 = list_to_set clade) then Ok (t0, node2)
         else Raise (Exception "Cannot handle this bipartition!")
     end = Ok (t', found) →
     wf_tree t' ∧ same_splits (seed_node t) (seed_node t')) as Hrest.
  { intros t0 Hwf0 Hsame. destruct (seed_node t0) as [|node1 node2] eqn:Hseed; [done|].
    repeat case_decide; intros [= <- <-] || done; rewrite Hseed; done. }
  destruct (decide (nd = seed_node t)).
  - simpl. apply Hrest; [done|apply same_splits_refl].
  - destruct (reroot_at_edge t nd) as [t0|] eqn:Hre; simpl; [|done].
    apply reroot_at_edge_same_splits in Hre as (Hwf0 & _ & Hsame & _); [|done].
    by apply Hrest.
Qed.

Lemma join_nodes_in_one_tree_same_splits tree1 r1 clade1 tree2 r2 clade2 t1 t2 :
  wf_tree tree1 →
  join_nodes_in_one_tree tree1 r1 clade1 tree2 r2 clade2 = Ok (t1, t2) →
  same_splits (seed_node tree1) (seed_node t1).
Proof.
  intros Hwf. unfold join_nodes_in_one_tree.
  destruct (extract_nodes_from_split tree1 r1 clade1) as [[t1' f1]|] eqn:H1;
    simpl; [|done].
  destruct (extract_nodes_from_split tree2 r2 clade2) as [[t2' f2]|] eqn:H2;
    simpl; [|done].
  intros [= <- _].
  by apply extract_nodes_from_split_same_splits in H1 as [_ ?].
Qed.

(** The rehearsal of the join and the join itself build the same trees. *)
Lemma join_nodes_in_both_trees_test tree1 r1 clade1 tree2 r2 clade2 u1 u2 :
  join_nodes_in_both_trees tree1 r1 clade1 tree2 r2 clade2 true
  = Ok (Some u1, u2) →
  join_nodes_in_both_trees tree1 r1 clade1 tree2 r2 clade2 false
  = Ok (Some u1, u2).
Proof.
  unfold join_nodes_in_both_trees.
  destruct (bool_decide _ && bool_decide _); [done|].
  destruct (bool_decide _); [done|].
  by destruct (bool_decide _).
Qed.

(** * Clades and split sides *)

Lemma clade_of_Leaf l C : clade_of (Leaf l) C ↔ C = {[ l ]}.
Proof.
  split.
  - intros (nd & Hnd & <-). apply postorder_Leaf in Hnd as ->.
    apply get_leaf_set_Leaf.
  - intros ->. exists (Leaf l). split; [apply postorder_self|].
    apply get_leaf_set_Leaf.
Qed.

Lemma clade_of_Internal a b C :
  clade_of (Internal a b) C ↔
  clade_of a C ∨ clade_of b C ∨ C = get_leaf_set a ∪ get_leaf_set b.
Proof.
  split.
  - intros (nd & Hnd & <-). apply postorder_Internal in Hnd as [Hnd|[Hnd| ->]].
    + left. by exists nd.
    + right. left. by exists nd.
    + right. right. apply get_leaf_set_Internal.
  - intros [(nd & Hnd & <-)|[(nd & Hnd & <-)| ->]].
    + exists nd. split; [|done]. apply postorder_Internal. auto.
    + exists nd. split; [|done]. apply postorder_Internal. auto.
    + exists (Internal a b). split; [apply postorder_self|].
      apply get_leaf_set_Internal.
Qed.

Lemma clade_of_root r : clade_of r (get_leaf_set r).
Proof. exists r. split; [apply postorder_self|done]. Qed.

Lemma clade_of_subseteq r C : clade_of r C → C ⊆ get_leaf_set r.
Proof. intros (nd & Hnd & <-). by apply leaf_set_subtree. Qed.

Lemma clade_of_nonempty r C : clade_of r C → C ≠ ∅.
Proof.
  intros (nd & Hnd & <-) Hempty.
  destruct (get_leaf_set_nonempty nd) as [l Hl]. rewrite Hempty in Hl.
  by apply not_elem_of_empty in Hl.
Qed.

Lemma is_split_clade r S :
  is_split r S ↔
  S ⊆ get_leaf_set r ∧ (clade_of r S ∨ clade_of r (get_leaf_set r ∖ S)).
Proof.
  unfold is_split, clade_of. split.
  - intros (HS & nd & Hnd & [Heq|Heq]); (split; [done|]); eauto.
  - intros (HS & [(nd & Hnd & Heq)|(nd & Hnd & Heq)]); (split; [done|]); eauto.
Qed.

Lemma clade_is_split r C : clade_of r C → is_split r C.
Proof.
  intros HC. apply is_split_clade. split; [by apply clade_of_subseteq|by left].
Qed.

Lemma is_split_complement r S :
  is_split r S → is_split r (get_leaf_set r ∖ S).
Proof.
  rewrite !is_split_clade. intros (HS & Hor).
  split; [apply subseteq_difference_l; reflexivity|].
  rewrite difference_twice by done. tauto.
Qed.

Lemma is_split_empty r : is_split r ∅.
Proof.
  apply is_split_clade. split; [apply empty_subseteq|]. right.
  rewrite difference_empty_L. apply clade_of_root.
Qed.

Lemma is_split_full r : is_split r (get_leaf_set r).
Proof. apply clade_is_split, clade_of_root. Qed.

(** The clades of a tree are nested or disjoint. *)
Lemma clades_laminar r C1 C2 :
  NoDup (get_leaf_list r) → clade_of r C1 → clade_of r C2 →
  C1 ⊆ C2 ∨ C2 ⊆ C1 ∨ C1 ## C2.
Proof.
  induction r as [l|a IHa b IHb]; intros Hnd.
  - rewrite !clade_of_Leaf. intros -> ->. by left.
  - destruct (NoDup_Internal _ _ Hnd) as (Ha & Hb & Hdisj).
    rewrite !clade_of_Internal.
    intros [H1|[H1| ->]] [H2|[H2| ->]]; auto.
    + right. right. apply clade_of_subseteq in H1, H2.
      intros l Hl1 Hl2. apply (Hdisj l); auto.
    + left. apply clade_of_subseteq in H1. by apply union_subseteq_l'.
    + right. right. apply clade_of_subseteq in H1, H2.
      intros l Hl1 Hl2. apply (Hdisj l); auto.
    + left. apply clade_of_subseteq in H1. by apply union_subseteq_r'.
    + right. left. apply clade_of_subseteq in H2. by apply union_subseteq_l'.
    + right. left. apply clade_of_subseteq in H2. by apply union_subseteq_r'.
Qed.

(** Pointwise set reasoning on a handful of hypotheses. *)
Ltac pointwise :=
  try (apply set_eq); try (intros ?l); set_unfold; naive_solver.

(** Two split sides of one tree are nested, disjoint, or cover the tree. *)
Lemma sides_compatible r S1 S2 :
  NoDup (get_leaf_list r) → is_split r S1 → is_split r S2 →
  S1 ⊆ S2 ∨ S2 ⊆ S1 ∨ S1 ## S2 ∨ S1 ∪ S2 = get_leaf_set r.
Proof.
  intros Hnd. rewrite !is_split_clade. intros (HS1 & H1) (HS2 & H2).
  assert (∀ C1 C2, clade_of r C1 → clade_of r C2 →
            C1 ⊆ C2 ∨ C2 ⊆ C1 ∨ C1 ## C2) as Hlam
    by (intros; by apply (clades_laminar r)).
  generalize dependent (get_leaf_set r). intros U HS1 H1 HS2 H2.
  clear Hnd.
  destruct H1 as [H1|H1], H2 as [H2|H2];
    destruct (Hlam _ _ H1 H2) as [H|[H|H]]; clear Hlam H1 H2.
  - by left.
  - right. by left.
  - right. right. by left.
  - right. right. left. intros l Hl1 Hl2. specialize (HS1 l). specialize (HS2 l).
    specialize (H l). set_unfold. naive_solver.
  - right. right. right. apply set_eq. intros l. specialize (HS1 l).
    specialize (HS2 l). specialize (H l). set_unfold.
    destruct (decide (l ∈ S1)), (decide (l ∈ S2)); naive_solver.
  - left. intros l Hl1. specialize (HS1 l). specialize (HS2 l).
    specialize (H l). set_unfold.
    destruct (decide (l ∈ S2)); naive_solver.
  - right. right. right. apply set_eq. intros l. specialize (HS1 l).
    specialize (HS2 l). specialize (H l). set_unfold.
    destruct (decide (l ∈ S1)), (decide (l ∈ S2)); naive_solver.
  - right. right. left. intros l Hl1 Hl2. specialize (HS1 l). specialize (HS2 l).
    specialize (H l). set_unfold. naive_solver.
  - right. left. intros l Hl2. specialize (HS1 l). specialize (HS2 l).
    specialize (H l). set_unfold.
    destruct (decide (l ∈ S1)); naive_solver.
  - right. left. intros l Hl2. specialize (HS1 l). specialize (HS2 l).
    specialize (H l). set_unfold.
    destruct (decide (l ∈ S1)); naive_solver.
  - left. intros l Hl1. specialize (HS1 l). specialize (HS2 l).
    specialize (H l). set_unfold.
    destruct (decide (l ∈ S2)); naive_solver.
  - right. right. right. apply set_eq. intros l. specialize (HS1 l).
    specialize (HS2 l). specialize (H l). set_unfold.
    destruct (decide (l ∈ S1)), (decide (l ∈ S2)); naive_solver.
Qed.

Lemma is_split_Internal x y S :
  is_split (Internal x y) S ↔
  S ⊆ get_leaf_set x ∪ get_leaf_set y ∧
  (S = ∅ ∨ S = get_leaf_set x ∪ get_leaf_set y ∨
   clade_of x S ∨ clade_of y S ∨
   clade_of x ((get_leaf_set x ∪ get_leaf_set y) ∖ S) ∨
   clade_of y ((get_leaf_set x ∪ get_leaf_set y) ∖ S)).
Proof.
  rewrite is_split_clade, get_leaf_set_Internal, !clade_of_Internal.
  split; intros (HS & Hor); (split; [done|]).
  - destruct Hor as [[?|[?|?]]|[?|[?|Heq]]]; [tauto..|].
    left. apply set_eq. intros l. specialize (HS l).
    assert (l ∈ (get_leaf_set x ∪ get_leaf_set y) ∖ S ↔
            l ∈ get_leaf_set x ∪ get_leaf_set y) as Hl by (by rewrite Heq).
    set_unfold. naive_solver.
  - destruct Hor as [->|[?|[?|[?|[?|?]]]]]; [|tauto..].
    right. right. right. apply difference_empty_L.
Qed.

(** A nonempty split side inside one child of the seed node is a clade of
    that child. *)
Lemma side_in_child_r x y S :
  NoDup (get_leaf_list (Internal x y)) →
  is_split (Internal x y) S → S ≠ ∅ → S ⊆ get_leaf_set y → clade_of y S.
Proof.
  intros Hnd Hsplit Hne Hsub.
  destruct (NoDup_Internal _ _ Hnd) as (_ & _ & Hdisj).
  destruct (get_leaf_set_nonempty x) as [lx Hlx].
  apply is_split_Internal in Hsplit as (HS & Hor).
  destruct Hor as [->|[->|[Hc|[Hc|[Hc|Hc]]]]]; [done| | |done| |].
  - exfalso. apply (Hdisj lx); [done|]. apply Hsub. set_solver.
  - exfalso. apply clade_of_subseteq in Hc.
    assert (∃ l, l ∈ S) as [l Hl].
    { apply set_choose_L. done. }
    apply (Hdisj l); auto.
  - apply clade_of_subseteq in Hc.
    assert (S = get_leaf_set y) as ->; [|apply clade_of_root].
    apply set_eq. intros l. split; [apply Hsub|]. intros Hl.
    destruct (decide (l ∈ S)) as [|Hn]; [done|]. exfalso.
    apply (Hdisj l); [|done]. apply Hc. set_solver.
  - exfalso. apply clade_of_subseteq in Hc. apply (Hdisj lx); [done|].
    apply Hc. apply elem_of_difference. split; [set_solver|].
    intros HlS. apply (Hdisj lx); auto.
Qed.

Lemma side_in_child_l x y S :
  NoDup (get_leaf_list (Internal x y)) →
  is_split (Internal x y) S → S ≠ ∅ → S ⊆ get_leaf_set x → clade_of x S.
Proof.
  intros Hnd Hsplit Hne Hsub.
  apply (side_in_child_r y x).
  - destruct (swap_same_splits x y) as [Hperm _]. by rewrite <- Hperm.
  - by apply (same_splits_is_split _ _ _ (swap_same_splits x y)).
  - done.
  - done.
Qed.

Lemma in_restr_subseteq K r T : in_restr K r T → T ⊆ K.
Proof. intros (S & _ & ->). apply intersection_subseteq_r. Qed.

Lemma agree_on_refl K r : agree_on K r r.
Proof. by intros T. Qed.

Lemma agree_on_sym K r r' : agree_on K r r' → agree_on K r' r.
Proof. intros H T. by rewrite (H T). Qed.

Lemma agree_on_trans K r r' r'' :
  agree_on K r r' → agree_on K r' r'' → agree_on K r r''.
Proof. intros H1 H2 T. by rewrite (H1 T), (H2 T). Qed.

Lemma in_restr_mono K K' r r' T :
  K' ⊆ K → (∀ T0, in_restr K r T0 → in_restr K r' T0) →
  in_restr K' r T → in_restr K' r' T.
Proof.
  intros Hsub Hall (S & HS & ->).
  destruct (Hall (S ∩ K)) as (S' & HS' & Heq); [by exists S|].
  exists S'. split; [done|].
  apply set_eq. intros l. specialize (Hsub l).
  assert (l ∈ S ∩ K ↔ l ∈ S' ∩ K) as Hl by (by rewrite Heq).
  set_unfold. naive_solver.
Qed.

Lemma agree_on_mono K K' r r' :
  K' ⊆ K → agree_on K r r' → agree_on K' r r'.
Proof.
  intros Hsub Hagree T. split; apply (in_restr_mono K); try done;
    intros T0; apply Hagree.
Qed.

Lemma same_splits_agree_on K r r' : same_splits r r' → agree_on K r r'.
Proof.
  intros Hsame T. split; intros (S & HS & ->); exists S; (split; [|done]).
  - by apply (same_splits_is_split _ _ _ Hsame).
  - by apply (same_splits_is_split _ _ _ Hsame).
Qed.

(** Hanging a subtree with none of the labels of [K] beside a tree does not
    change the tree as far as [K] is concerned. *)
Lemma agree_on_attach_r K x y :
  K ## get_leaf_set y → agree_on K (Internal x y) x.
Proof.
  intros Hdisj T. split.
  - intros (S & HS & ->). apply is_split_Internal in HS as (HS & Hor).
    destruct Hor as [->|[->|[Hc|[Hc|[Hc|Hc]]]]].
    + exists ∅. split; [apply is_split_empty|done].
    + exists (get_leaf_set x). split; [apply is_split_full|].
      apply set_eq. intros l. specialize (Hdisj l). set_unfold. naive_solver.
    + exists S. split; [by apply clade_is_split|done].
    + exists ∅. split; [apply is_split_empty|].
      apply clade_of_subseteq in Hc.
      apply set_eq. intros l. specialize (Hdisj l). specialize (Hc l).
      set_unfold. naive_solver.
    + exists (get_leaf_set x ∖ ((get_leaf_set x ∪ get_leaf_set y) ∖ S)).
      split; [by apply is_split_complement, clade_is_split|].
      apply set_eq. intros l. specialize (Hdisj l). specialize (HS l).
      set_unfold. destruct (decide (l ∈ S)); naive_solver.
    + exists (get_leaf_set x). split; [apply is_split_full|].
      apply clade_of_subseteq in Hc.
      apply set_eq. intros l. specialize (Hdisj l). specialize (HS l).
      specialize (Hc l). set_unfold. destruct (decide (l ∈ S)); naive_solver.
  - intros (S & HS & ->). apply is_split_clade in HS as (HS & [Hc|Hc]).
    + exists S. split; [|done]. apply is_split_Internal.
      split; [by apply union_subseteq_l'|]. auto.
    + exists ((get_leaf_set x ∪ get_leaf_set y) ∖ (get_leaf_set x ∖ S)). split.
      * apply is_split_Internal.
        split; [apply subseteq_difference_l; reflexivity|].
        right. right. right. right. left.
        rewrite difference_twice; [done|].
        apply subseteq_difference_l, union_subseteq_l.
      * apply set_eq. intros l. specialize (Hdisj l). specialize (HS l).
        set_unfold. destruct (decide (l ∈ S)); naive_solver.
Qed.

Lemma agree_on_attach_l K x y :
  K ## get_leaf_set x → agree_on K (Internal x y) y.
Proof.
  intros Hdisj. eapply agree_on_trans.
  - apply same_splits_agree_on, swap_same_splits.
  - by apply agree_on_attach_r.
Qed.

(** * Pruning a tree to a set of labels *)

Lemma leaf_is_clade r l : l ∈ get_leaf_set r → clade_of r {[ l ]}.
Proof.
  induction r as [l'|a IHa b IHb].
  - rewrite get_leaf_set_Leaf, clade_of_Leaf. set_solver.
  - rewrite get_leaf_set_Internal, clade_of_Internal, elem_of_union.
    intros [?|?]; auto.
Qed.

Lemma retain_spec r (K : gset label) :
  match retain_taxa_with_labels r K with
  | None => get_leaf_set r ## K
  | Some r' =>
      get_leaf_set r' = get_leaf_set r ∩ K ∧
      (∀ C', clade_of r' C' ↔ C' ≠ ∅ ∧ ∃ C, clade_of r C ∧ C' = C ∩ K) ∧
      (NoDup (get_leaf_list r) → NoDup (get_leaf_list r'))
  end.
Proof.
  induction r as [l|a IHa b IHb]; simpl.
  - destruct (decide (l ∈ K)) as [Hl|Hl].
    + rewrite get_leaf_set_Leaf. split; [|split; [|done]].
      * apply set_eq. intros l'. set_unfold. naive_solver.
      * intros C'. rewrite clade_of_Leaf. split.
        -- intros ->. split.
           ++ intros Hempty. assert (l ∈ (∅ : gset label)) by (rewrite <- Hempty; set_solver).
              set_solver.
           ++ exists {[ l ]}. rewrite clade_of_Leaf. split; [done|].
              apply set_eq. intros l'. set_unfold. naive_solver.
        -- intros (Hne & C & HC & ->). apply clade_of_Leaf in HC as ->.
           apply set_eq. intros l'. set_unfold. naive_solver.
    + rewrite get_leaf_set_Leaf. intros l'. set_unfold. naive_solver.
  - destruct (retain_taxa_with_labels a K) as [a'|],
             (retain_taxa_with_labels b K) as [b'|].
    + destruct IHa as (HA & HcA & HnA), IHb as (HB & HcB & HnB).
      rewrite !get_leaf_set_Internal. split; [|split].
      * rewrite HA, HB. apply set_eq. intros l. set_unfold. naive_solver.
      * intros C'. rewrite clade_of_Internal, HcA, HcB. split.
        -- intros [(Hne & C & HC & ->)|[(Hne & C & HC & ->)| ->]].
           ++ split; [done|]. exists C. rewrite clade_of_Internal. auto.
           ++ split; [done|]. exists C. rewrite clade_of_Internal. auto.
           ++ split.
              ** destruct (get_leaf_set_nonempty a') as [l Hl].
                 intros Hempty. assert (l ∈ (∅ : gset label)) as Hin
                   by (rewrite <- Hempty; set_solver).
                 set_solver.
              ** exists (get_leaf_set a ∪ get_leaf_set b).
                 rewrite clade_of_Internal. split; [auto|].
                 rewrite HA, HB. apply set_eq. intros l. set_unfold. naive_solver.
        -- intros (Hne & C & HC & ->). apply clade_of_Internal in HC.
           destruct HC as [HC|[HC| ->]]; [left|right; left|right; right].
           ++ split; [done|]. by exists C.
           ++ split; [done|]. by exists C.
           ++ rewrite HA, HB. apply set_eq. intros l. set_unfold. naive_solver.
      * intros Hnd. destruct (NoDup_Internal _ _ Hnd) as (Ha & Hb & Hdisj).
        simpl. apply NoDup_app. split; [auto|]. split; [|auto].
        intros l Hla Hlb. apply elem_of_get_leaf_set in Hla, Hlb.
        rewrite HA in Hla. rewrite HB in Hlb. apply (Hdisj l); set_solver.
    + destruct IHa as (HA & HcA & HnA).
      rewrite get_leaf_set_Internal. split; [|split].
      * rewrite HA. apply set_eq. intros l. specialize (IHb l).
        set_unfold. naive_solver.
      * intros C'. rewrite HcA. split.
        -- intros (Hne & C & HC & ->). split; [done|]. exists C.
           rewrite clade_of_Internal. auto.
        -- intros (Hne & C & HC & ->). split; [done|].
           apply clade_of_Internal in HC. destruct HC as [HC|[HC| ->]].
           ++ by exists C.
           ++ exfalso. apply Hne. apply clade_of_subseteq in HC.
              apply set_eq. intros l. specialize (IHb l). specialize (HC l).
              set_unfold. naive_solver.
           ++ exists (get_leaf_set a). split; [apply clade_of_root|].
              apply set_eq. intros l. specialize (IHb l). set_unfold. naive_solver.
      * intros Hnd. destruct (NoDup_Internal _ _ Hnd) as (Ha & _ & _). auto.
    + destruct IHb as (HB & HcB & HnB).
      rewrite get_leaf_set_Internal. split; [|split].
      * rewrite HB. apply set_eq. intros l. specialize (IHa l).
        set_unfold. naive_solver.
      * intros C'. rewrite HcB. split.
        -- intros (Hne & C & HC & ->). split; [done|]. exists C.
           rewrite clade_of_Internal. auto.
        -- intros (Hne & C & HC & ->). split; [done|].
           apply clade_of_Internal in HC. destruct HC as [HC|[HC| ->]].
           ++ exfalso. apply Hne. apply clade_of_subseteq in HC.
              apply set_eq. intros l. specialize (IHa l). specialize (HC l).
              set_unfold. naive_solver.
           ++ by exists C.
           ++ exists (get_leaf_set b). split; [apply clade_of_root|].
              apply set_eq. intros l. specialize (IHa l). set_unfold. naive_solver.
      * intros Hnd. destruct (NoDup_Internal _ _ Hnd) as (_ & Hb & _). auto.
    + rewrite get_leaf_set_Internal. intros l. specialize (IHa l).
      specialize (IHb l). set_unfold. naive_solver.
Qed.

(** The splits of the pruned tree are the splits of the tree, cut down. *)
Lemma is_split_retain r (K : gset label) r' T :
  K ⊆ get_leaf_set r →
  retain_taxa_with_labels r K = Some r' →
  is_split r' T ↔ in_restr K r T.
Proof.
  intros HK Hret. pose proof (retain_spec r K) as Hspec.
  rewrite Hret in Hspec. destruct Hspec as (HU & Hclades & _).
  assert (get_leaf_set r' = K) as HU'.
  { rewrite HU. apply set_eq. intros l. specialize (HK l). set_unfold. naive_solver. }
  rewrite is_split_clade, HU', !Hclades. split.
  - intros (HT & [(Hne & C & HC & ->)|(Hne & C & HC & Heq)]).
    + exists C. split; [by apply clade_is_split|done].
    + exists (get_leaf_set r ∖ C).
      split; [by apply is_split_complement, clade_is_split|].
      apply set_eq. intros l. specialize (HK l). specialize (HT l).
      assert (l ∈ K ∖ T ↔ l ∈ C ∩ K) as Hl by (by rewrite Heq).
      set_unfold. destruct (decide (l ∈ T)); naive_solver.
  - intros (S & HS & ->). split; [apply intersection_subseteq_r|].
    apply is_split_clade in HS as (HS & [HC|HC]).
    + destruct (decide (S ∩ K = ∅)) as [Hempty|Hne].
      * right. rewrite Hempty, difference_empty_L.
        split.
        -- intros HK0. destruct (get_leaf_set_nonempty r') as [l Hl].
           rewrite HU', HK0 in Hl. set_solver.
        -- exists (get_leaf_set r). split; [apply clade_of_root|].
           apply set_eq. intros l. specialize (HK l). set_unfold. naive_solver.
      * left. split; [done|]. by exists S.
    + destruct (decide ((get_leaf_set r ∖ S) ∩ K = ∅)) as [Hempty|Hne].
      * left. split.
        -- intros HSK. destruct (get_leaf_set_nonempty r') as [l Hl].
           rewrite HU' in Hl.
           assert (l ∈ (get_leaf_set r ∖ S) ∩ K) as Hin; [|by rewrite Hempty in Hin].
           assert (l ∉ S ∩ K) by (rewrite HSK; set_solver).
           specialize (HK l). set_unfold. naive_solver.
        -- exists (get_leaf_set r). split; [apply clade_of_root|].
           apply set_eq. intros l. specialize (HK l). specialize (HS l).
           assert (l ∉ (get_leaf_set r ∖ S) ∩ K) as Hl
             by (rewrite Hempty; apply not_elem_of_empty).
           set_unfold. destruct (decide (l ∈ S)); naive_solver.
      * right. split.
        -- intros Hempty. apply Hne. apply set_eq. intros l.
           assert (l ∉ K ∖ (S ∩ K)) as Hl
             by (rewrite Hempty; apply not_elem_of_empty).
           set_unfold. naive_solver.
        -- exists (get_leaf_set r ∖ S). split; [done|].
           apply set_eq. intros l. specialize (HK l). set_unfold. naive_solver.
Qed.

(** * Normalized bitmasks and the splits they stand for *)

Lemma least_significant_set_bit_odd m :
  N.testbit m 0 = true → least_significant_set_bit m = 1.
Proof. by destruct m as [|[p|p|]]. Qed.

Lemma land_1_zero m : N.land m 1 = 0 ↔ N.testbit m 0 = false.
Proof. by destruct m as [|[p|p|]]. Qed.

Lemma testbit_0_taxa_bitmask l0 ns (C : gset label) :
  N.testbit (taxa_bitmask (l0 :: ns) C) 0 = true ↔ l0 ∈ C.
Proof.
  rewrite testbit_taxa_bitmask. simpl. split.
  - by intros (l & [= ->] & Hl).
  - intros Hl. by exists l0.
Qed.

Lemma normalize_taxa_bitmask ns (C : gset label) :
  ns ≠ [] → C ⊆ list_to_set ns →
  normalize_bitmask (taxa_bitmask ns C) (taxa_bitmask ns (list_to_set ns))
  = taxa_bitmask ns (canonical_side ns (list_to_set ns) C).
Proof.
  intros Hne HC. destruct ns as [|l0 ns]; [done|]. clear Hne.
  unfold normalize_bitmask, canonical_side.
  rewrite least_significant_set_bit_odd.
  2:{ apply testbit_0_taxa_bitmask. set_solver. }
  destruct (decide (l0 ∈ C)) as [Hin|Hout].
  - rewrite decide_False.
    2:{ rewrite land_1_zero. apply not_false_iff_true.
        by apply testbit_0_taxa_bitmask. }
    apply bits_eq_iff. intros k.
    rewrite N.ldiff_spec, andb_true_iff, negb_true_iff, !testbit_taxa_bitmask.
    split.
    + intros ((l & Hl & HlK) & Hnot). exists l. split; [done|].
      apply elem_of_difference. split; [done|]. intros HlC.
      apply not_true_iff_false in Hnot. apply Hnot.
      apply testbit_taxa_bitmask. by exists l.
    + intros (l & Hl & HlK). apply elem_of_difference in HlK as [HlK HlC].
      split; [by exists l|]. apply not_true_iff_false.
      rewrite testbit_taxa_bitmask. intros (l' & Hl' & HlC').
      congruence.
  - rewrite decide_True.
    2:{ rewrite land_1_zero. apply not_true_iff_false.
        by rewrite testbit_0_taxa_bitmask. }
    apply bits_eq_iff. intros k.
    rewrite N.land_spec, andb_true_iff, !testbit_taxa_bitmask.
    split.
    + by intros [? _].
    + intros (l & Hl & HlC). split; exists l; auto.
Qed.

Lemma canonical_side_subseteq ns (K C : gset label) :
  C ⊆ K → canonical_side ns K C ⊆ K.
Proof.
  intros HC. unfold canonical_side. destruct ns as [|l0 ns]; [done|].
  destruct (decide _); [|done]. apply subseteq_difference_l. done.
Qed.

Lemma canonical_side_complement l0 ns (K C : gset label) :
  l0 ∈ K → C ⊆ K →
  canonical_side (l0 :: ns) K (K ∖ C) = canonical_side (l0 :: ns) K C.
Proof.
  intros Hl0 HC. unfold canonical_side.
  destruct (decide (l0 ∈ C)) as [Hin|Hout].
  - rewrite decide_False; [done|]. set_solver.
  - rewrite decide_True by set_solver. by apply difference_twice.
Qed.

Lemma canonical_side_eq l0 ns (K C C' : gset label) :
  C ⊆ K → C' ⊆ K →
  canonical_side (l0 :: ns) K C = canonical_side (l0 :: ns) K C' →
  C' = C ∨ C' = K ∖ C.
Proof.
  intros HC HC'. unfold canonical_side.
  destruct (decide (l0 ∈ C)), (decide (l0 ∈ C')); intros Heq.
  - left. rewrite <- (difference_twice K C), <- (difference_twice K C') by done.
    by rewrite Heq.
  - by right.
  - right. rewrite Heq. by rewrite difference_twice.
  - by left.
Qed.

(** The encoding of a tree over a namespace made of its own leaves. *)
Lemma elem_of_bipartition_encoding ns r m :
  list_to_set ns = get_leaf_set r →
  m ∈ bipartition_encoding ns r ↔
  ∃ C, clade_of r C ∧
       m = taxa_bitmask ns (canonical_side ns (list_to_set ns) C).
Proof.
  intros Hns. unfold bipartition_encoding.
  destruct (get_leaf_set_nonempty r) as [lr Hlr].
  assert (ns ≠ []) as Hne.
  { intros ->. rewrite <- Hns in Hlr. set_solver. }
  rewrite elem_of_list_to_set, list_elem_of_fmap. split.
  - intros (nd & -> & Hnd). exists (get_leaf_set nd).
    split; [by exists nd|].
    rewrite !leafset_bitmask_taxa, <- Hns.
    apply normalize_taxa_bitmask; [done|].
    rewrite Hns. by apply leaf_set_subtree.
  - intros (C & (nd & Hnd & <-) & ->). exists nd. split; [|done].
    rewrite !leafset_bitmask_taxa, <- Hns. symmetry.
    apply normalize_taxa_bitmask; [done|].
    rewrite Hns. by apply leaf_set_subtree.
Qed.

(** A label set is a split side exactly when its canonical side is in the
    encoding. *)
Lemma is_split_encoding ns r (T : gset label) :
  list_to_set ns = get_leaf_set r →
  is_split r T ↔
  T ⊆ get_leaf_set r ∧
  taxa_bitmask ns (canonical_side ns (list_to_set ns) T)
    ∈ bipartition_encoding ns r.
Proof.
  intros Hns. rewrite elem_of_bipartition_encoding by done.
  destruct (get_leaf_set_nonempty r) as [lr Hlr].
  destruct ns as [|l0 ns].
  { rewrite <- Hns in Hlr. set_solver. }
  assert (l0 ∈ get_leaf_set r) as Hl0 by (rewrite <- Hns; set_solver).
  rewrite is_split_clade. rewrite Hns. split.
  - intros (HT & [HC|HC]); (split; [done|]).
    + by exists T.
    + exists (get_leaf_set r ∖ T). split; [done|].
      by rewrite canonical_side_complement.
  - intros (HT & C & HC & Heq). split; [done|].
    pose proof (clade_of_subseteq _ _ HC) as HCsub.
    apply taxa_bitmask_inj in Heq.
    + apply canonical_side_eq in Heq as [->| ->]; [by left| |done|done].
      by right.
    + rewrite Hns. by apply canonical_side_subseteq.
    + rewrite Hns. by apply canonical_side_subseteq.
Qed.

Lemma same_encoding_same_splits ns r r' (T : gset label) :
  list_to_set ns = get_leaf_set r → list_to_set ns = get_leaf_set r' →
  bipartition_encoding ns r = bipartition_encoding ns r' →
  is_split r T ↔ is_split r' T.
Proof.
  intros Hns Hns' Henc.
  rewrite (is_split_encoding ns r), (is_split_encoding ns r') by done.
  by rewrite Henc, <- Hns, <- Hns'.
Qed.

(** * Label sets with fewer than four labels *)

Lemma small_set_subsets (K T : gset label) :
  (size K < 4)%nat → T ⊆ K →
  T = ∅ ∨ T = K ∨ (∃ l, l ∈ K ∧ T = {[ l ]}) ∨ (∃ l, l ∈ K ∧ T = K ∖ {[ l ]}).
Proof.
  intros Hsize HT.
  pose proof (size_difference K T HT) as Hdiff.
  pose proof (subseteq_size T K HT) as Hle.
  destruct (decide (size T = 0)%nat) as [H0|H0].
  { left. by apply size_empty_inv, leibniz_equiv in H0. }
  destruct (decide (size T = 1)%nat) as [H1|H1].
  { right. right. left. apply size_1_elem_of in H1 as [l Hl].
    apply leibniz_equiv in Hl. exists l. split; [|done].
    apply HT. rewrite Hl. set_solver. }
  destruct (decide (size (K ∖ T) = 0)%nat) as [Hd0|Hd0].
  { right. left. apply size_empty_inv, leibniz_equiv in Hd0.
    apply set_eq. intros l. split; [apply HT|]. intros Hl.
    destruct (decide (l ∈ T)) as [|Hn]; [done|].
    assert (l ∈ K ∖ T) as Hin by set_solver. rewrite Hd0 in Hin. set_solver. }
  assert (size (K ∖ T) = 1)%nat as Hd1 by lia.
  right. right. right. apply size_1_elem_of in Hd1 as [l Hl].
  apply leibniz_equiv in Hl. exists l.
  assert (l ∈ K ∖ T) as Hin by (rewrite Hl; set_solver).
  split; [set_solver|].
  apply set_eq. intros l'. specialize (HT l').
  assert (l' ∈ K ∖ T ↔ l' ∈ ({[ l ]} : gset label)) as Hl' by (by rewrite Hl).
  set_unfold. destruct (decide (l' ∈ T)); naive_solver.
Qed.

Lemma in_restr_complement K r T :
  K ⊆ get_leaf_set r → in_restr K r T → in_restr K r (K ∖ T).
Proof.
  intros HK (S & HS & ->). exists (get_leaf_set r ∖ S).
  split; [by apply is_split_complement|].
  apply set_eq. intros l. specialize (HK l). set_unfold. naive_solver.
Qed.

(** Cut down to fewer than four labels, every tree has all the splits
    there are. *)
Lemma in_restr_small K r T :
  (size K < 4)%nat → K ⊆ get_leaf_set r → in_restr K r T ↔ T ⊆ K.
Proof.
  intros Hsize HK. split; [apply in_restr_subseteq|].
  intros HT.
  assert (in_restr K r ∅) as Hempty.
  { exists ∅. split; [apply is_split_empty|]. set_solver. }
  assert (∀ l, l ∈ K → in_restr K r {[ l ]}) as Hsingle.
  { intros l Hl. exists {[ l ]}. split.
    - apply clade_is_split, leaf_is_clade. by apply HK.
    - apply set_eq. intros l'. set_unfold. naive_solver. }
  destruct (small_set_subsets K T Hsize HT)
    as [->|[->|[(l & Hl & ->)|(l & Hl & ->)]]].
  - done.
  - replace K with (K ∖ ∅) at 2 by apply difference_empty_L.
    by apply in_restr_complement.
  - by apply Hsingle.
  - apply in_restr_complement; [done|]. by apply Hsingle.
Qed.

(** * Compatibility as agreement on the shared labels *)

Lemma compatible_agree_on (u1 u2 : tree) :
  are_two_trees_incompatible u1 u2 = false →
  agree_on (get_leaf_set (seed_node u1) ∩ get_leaf_set (seed_node u2))
           (seed_node u1) (seed_node u2).
Proof.
  unfold are_two_trees_incompatible.
  set (K := get_leaf_set (seed_node u1) ∩ get_leaf_set (seed_node u2)).
  assert (K ⊆ get_leaf_set (seed_node u1)) as HK1
    by apply intersection_subseteq_l.
  assert (K ⊆ get_leaf_set (seed_node u2)) as HK2
    by apply intersection_subseteq_r.
  assert ((list_to_set (elements K) : gset label) = K) as HKset
    by apply list_to_set_elements_L.
  destruct (decide (length (elements K) < 4)%nat) as [Hlt|Hge].
  - intros _ T. rewrite !in_restr_small; done.
  - rewrite HKset.
    destruct (retain_taxa_with_labels (seed_node u1) K) as [r1|] eqn:Hr1.
    2:{ exfalso. pose proof (retain_spec (seed_node u1) K) as Hsp.
        rewrite Hr1 in Hsp.
        assert (K = ∅) as HK0.
        { apply set_eq. intros l. specialize (Hsp l). specialize (HK1 l).
          set_unfold. naive_solver. }
        apply Hge. rewrite HK0, elements_empty. simpl. lia. }
    destruct (retain_taxa_with_labels (seed_node u2) K) as [r2|] eqn:Hr2.
    2:{ exfalso. pose proof (retain_spec (seed_node u2) K) as Hsp.
        rewrite Hr2 in Hsp.
        assert (K = ∅) as HK0.
        { apply set_eq. intros l. specialize (Hsp l). specialize (HK2 l).
          set_unfold. naive_solver. }
        apply Hge. rewrite HK0, elements_empty. simpl. lia. }
    intros Hdec. apply bool_decide_eq_false in Hdec.
    assert (bipartition_encoding (elements K) r1
            = bipartition_encoding (elements K) r2) as Henc.
    { apply set_eq. intros m. split; intros Hm.
      - destruct (decide (m ∈ bipartition_encoding (elements K) r2)) as [|Hn];
          [done|]. exfalso. apply Hdec. right.
        apply Nat.neq_0_lt_0. intros H0.
        apply size_empty_inv in H0. set_solver.
      - destruct (decide (m ∈ bipartition_encoding (elements K) r1)) as [|Hn];
          [done|]. exfalso. apply Hdec. left.
        apply Nat.neq_0_lt_0. intros H0.
        apply size_empty_inv in H0. set_solver. }
    pose proof (retain_spec (seed_node u1) K) as Hsp1. rewrite Hr1 in Hsp1.
    pose proof (retain_spec (seed_node u2) K) as Hsp2. rewrite Hr2 in Hsp2.
    destruct Hsp1 as (HL1 & _ & _), Hsp2 as (HL2 & _ & _).
    assert (get_leaf_set r1 = K) as HL1'.
    { rewrite HL1. apply set_eq. intros l. specialize (HK1 l).
      set_unfold. naive_solver. }
    assert (get_leaf_set r2 = K) as HL2'.
    { rewrite HL2. apply set_eq. intros l. specialize (HK2 l).
      set_unfold. naive_solver. }
    intros T.
    rewrite <- (is_split_retain _ K r1 T HK1 Hr1).
    rewrite <- (is_split_retain _ K r2 T HK2 Hr2).
    apply (same_encoding_same_splits (elements K)); [| |done].
    + by rewrite HKset.
    + by rewrite HKset.
Qed.

(** * Trees as seen from the seed node *)

Lemma splits_into_Internal x y :
  NoDup (get_leaf_list (Internal x y)) → splits_into (Internal x y) x y.
Proof.
  intros Hnd. destruct (NoDup_Internal _ _ Hnd) as (_ & _ & Hdisj).
  split; [done|]. split; [apply get_leaf_set_Internal|]. split; [done|].
  intros C. by rewrite clade_of_Internal, get_leaf_set_Internal.
Qed.

Lemma splits_into_sym r x y : splits_into r x y → splits_into r y x.
Proof.
  intros (Hnd & HL & Hdisj & Hcl). split; [done|]. split; [|split].
  - rewrite HL. apply set_eq. intros l. set_unfold. tauto.
  - intros l ? ?. by apply (Hdisj l).
  - intros C. rewrite Hcl. tauto.
Qed.

Lemma splits_into_Internal_swap x y :
  NoDup (get_leaf_list (Internal x y)) → splits_into (Internal x y) y x.
Proof. intros Hnd. by apply splits_into_sym, splits_into_Internal. Qed.

(** A nonempty split side within one part is a clade of that part. *)
Lemma side_in_part r x y S :
  splits_into r x y → is_split r S → S ≠ ∅ → S ⊆ get_leaf_set x →
  clade_of x S.
Proof.
  intros (Hnd & HL & Hdisj & Hcl) Hsplit Hne Hsub.
  apply set_choose_L in Hne as [s Hs].
  destruct (get_leaf_set_nonempty y) as [ly Hly].
  assert (ly ∉ S) as HlyS.
  { intros HlS. apply (Hdisj ly); auto. }
  assert (ly ∈ get_leaf_set r) as HlyL.
  { rewrite HL. apply elem_of_union. auto. }
  apply is_split_clade in Hsplit as (HS & [Hc|Hc]); apply Hcl in Hc.
  - destruct Hc as [Hc|[Hc|Hc]]; [done| |].
    + exfalso. apply clade_of_subseteq in Hc. apply (Hdisj s); auto.
    + exfalso. apply HlyS. by rewrite Hc.
  - destruct Hc as [Hc|[Hc|Hc]].
    + exfalso. apply clade_of_subseteq in Hc. apply (Hdisj ly); [|done].
      apply Hc. apply elem_of_difference. auto.
    + apply clade_of_subseteq in Hc.
      assert (S = get_leaf_set x) as ->; [|apply clade_of_root].
      apply set_eq. intros l. split; [apply Hsub|]. intros Hl.
      destruct (decide (l ∈ S)) as [|Hn]; [done|]. exfalso.
      apply (Hdisj l); [done|]. apply Hc. apply elem_of_difference.
      split; [|done]. rewrite HL. apply elem_of_union. auto.
    + exfalso. assert (s ∈ get_leaf_set r ∖ S) as Hin.
      { rewrite Hc. by apply HS. }
      apply elem_of_difference in Hin as [_ Hin]. done.
Qed.

Lemma part_clade_l r x y C : splits_into r x y → clade_of x C → clade_of r C.
Proof. intros (_ & _ & _ & Hcl) HC. apply Hcl. auto. Qed.

Lemma part_clade_r r x y C : splits_into r x y → clade_of y C → clade_of r C.
Proof. intros (_ & _ & _ & Hcl) HC. apply Hcl. auto. Qed.

(** * NJ subtrees in constraint trees *)

Lemma matches_same_splits r r' x :
  same_splits r r' → matches r x → matches r' x.
Proof.
  intros Hsame (H1 & H2).
  pose proof (perm_leaf_set _ _ (proj1 Hsame)) as HL.
  split.
  - intros C HC. apply (same_splits_is_split _ _ _ Hsame). auto.
  - intros S HS. rewrite <- HL. apply H2.
    by apply (same_splits_is_split _ _ _ Hsame).
Qed.

Lemma node_inv_same_splits r r' x :
  same_splits r r' → node_inv r x → node_inv r' x.
Proof.
  intros Hsame. pose proof (perm_leaf_set _ _ (proj1 Hsame)) as HL.
  unfold node_inv. rewrite <- HL.
  intros [?|[? ?]]; [by left|right]. split; [done|].
  by apply (matches_same_splits r).
Qed.

Lemma matches_leaf r l : l ∈ get_leaf_set r → matches r (Leaf l).
Proof.
  intros Hl. split.
  - intros C HC. apply clade_of_Leaf in HC as ->.
    by apply clade_is_split, leaf_is_clade.
  - intros S _ Hne Hsub. left. apply clade_of_Leaf.
    rewrite get_leaf_set_Leaf in Hsub.
    apply set_choose_L in Hne as [s Hs].
    apply set_eq. intros l'. split.
    + apply Hsub.
    + intros Hl'. apply elem_of_singleton in Hl' as ->.
      pose proof (Hsub s Hs) as Heq. apply elem_of_singleton in Heq as <-. done.
Qed.

Lemma node_inv_leaf r l : node_inv r (Leaf l).
Proof.
  destruct (decide (l ∈ get_leaf_set r)) as [Hin|Hout].
  - right. split; [|by apply matches_leaf].
    rewrite get_leaf_set_Leaf. intros l' Hl'.
    by apply elem_of_singleton in Hl' as ->.
  - left. rewrite get_leaf_set_Leaf. intros l' Hl' Hr.
    by apply elem_of_singleton in Hl' as ->.
Qed.

(** An NJ subtree that sits in the tree on the leaves of one part has the
    clades of that part. *)
Lemma matches_part r x y q :
  splits_into r x y → matches r q → get_leaf_set q = get_leaf_set x →
  ∀ C, clade_of q C ↔ clade_of x C.
Proof.
  intros Hinto (H1 & H2) HQ C. split.
  - intros HC. apply (side_in_part r x y); [done|by apply H1| |].
    + by apply clade_of_nonempty in HC.
    + rewrite <- HQ. by apply clade_of_subseteq.
  - intros HC.
    destruct (H2 C) as [Hc|Hc].
    + by apply clade_is_split, (part_clade_l r x y).
    + by apply clade_of_nonempty in HC.
    + rewrite HQ. by apply clade_of_subseteq.
    + done.
    + exfalso. destruct Hinto as (_ & HL & Hdisj & _).
      destruct (get_leaf_set_nonempty y) as [ly Hly].
      apply clade_of_subseteq in Hc, HC. rewrite HQ in Hc.
      apply (Hdisj ly); [|done]. apply Hc. apply elem_of_difference. split.
      * rewrite HL. apply elem_of_union. auto.
      * intros HlC. apply (Hdisj ly); auto.
Qed.

(** An NJ subtree with all the leaves of the tree: the same unrooted
    tree. *)
Lemma matches_whole r x :
  matches r x → get_leaf_set x = get_leaf_set r →
  ∀ S, is_split x S ↔ is_split r S.
Proof.
  intros (H1 & H2) HL S. split.
  - intros HS. apply is_split_clade in HS as (HS & [Hc|Hc]).
    + by apply H1.
    + apply H1 in Hc. rewrite HL in Hc, HS.
      apply is_split_complement in Hc. by rewrite difference_twice in Hc.
  - intros HS. destruct (decide (S = ∅)) as [->|Hne]; [apply is_split_empty|].
    pose proof (proj1 HS) as Hsub.
    destruct (H2 S HS Hne) as [Hc|Hc].
    + by rewrite HL.
    + by apply clade_is_split.
    + apply clade_is_split, is_split_complement in Hc.
      rewrite HL in Hc. by rewrite difference_twice in Hc.
Qed.

Lemma matches_whole_agree_on K r x :
  matches r x → get_leaf_set x = get_leaf_set r → agree_on K x r.
Proof.
  intros Hm HL T. unfold in_restr.
  split; intros (S & HS & ->); exists S; (split; [|done]);
    by apply (matches_whole r x).
Qed.

(** * Hanging a subtree onto a re-rooted constraint tree

    The tree [rr] is rooted on the edge above its part [q2]; a subtree
    [p1] with new leaves is hung beside it and makes the tree [r']. *)

(** A live node away from the two joined clades still sits in the tree. *)
Lemma matches_attach_other r' p1 rr q2 r2 x :
  splits_into r' p1 rr → splits_into rr q2 r2 →
  get_leaf_set x ⊆ get_leaf_set r2 →
  matches rr x → matches r' x.
Proof.
  intros Hr' Hrr HX (H1 & H2).
  pose proof (splits_into_sym _ _ _ Hr') as Hr's.
  pose proof (splits_into_sym _ _ _ Hrr) as Hrrs.
  split.
  - intros C HC. apply clade_is_split.
    apply (part_clade_r r' p1 rr); [done|].
    apply (part_clade_r rr q2 r2); [done|].
    apply (side_in_part rr r2 q2); [done|by apply H1| |].
    + by apply clade_of_nonempty in HC.
    + apply clade_of_subseteq in HC. by transitivity (get_leaf_set x).
  - intros S HS Hne HSX. left.
    assert (S ⊆ get_leaf_set r2) as HSr2 by (by transitivity (get_leaf_set x)).
    assert (S ⊆ get_leaf_set rr) as HSrr.
    { destruct Hrr as (_ & HL & _ & _). rewrite HL.
      by apply union_subseteq_r'. }
    pose proof (side_in_part r' rr p1 S Hr's HS Hne HSrr) as Hc.
    destruct (H2 S) as [Hx|Hx]; [by apply clade_is_split|done|done|done|].
    exfalso. apply clade_of_subseteq in Hx.
    destruct Hrr as (_ & HL & Hdisj & _).
    destruct (get_leaf_set_nonempty q2) as [lq Hlq].
    apply (Hdisj lq); [done|]. apply HX, Hx. apply elem_of_difference. split.
    + rewrite HL. apply elem_of_union. auto.
    + intros HlS. apply (Hdisj lq); auto.
Qed.

(** The node made of the two joined clades sits in the tree. *)
Lemma matches_attach_join r' p1 rr q2 r2 p q n :
  splits_into r' p1 rr → splits_into rr q2 r2 →
  (∀ C, clade_of q C ↔ clade_of q2 C) →
  (∀ C, clade_of p C ↔ clade_of p1 C) →
  get_leaf_set q = get_leaf_set q2 →
  get_leaf_set p = get_leaf_set p1 →
  get_leaf_set n = get_leaf_set q ∪ get_leaf_set p →
  (∀ C, clade_of n C ↔ clade_of q C ∨ clade_of p C ∨ C = get_leaf_set n) →
  matches r' n.
Proof.
  intros Hr' Hrr Hq Hp HLq HLp HLn Hn.
  destruct Hr' as (Hnd' & HL' & Hdisj' & Hcl').
  destruct Hrr as (Hnd & HL & Hdisj & Hcl).
  destruct (get_leaf_set_nonempty r2) as [lr Hlr].
  assert (lr ∈ get_leaf_set rr) as Hlr_rr.
  { rewrite HL. apply elem_of_union. auto. }
  assert (lr ∈ get_leaf_set r') as Hlr_r'.
  { rewrite HL'. apply elem_of_union. auto. }
  assert (lr ∉ get_leaf_set n) as Hlr_n.
  { rewrite HLn, HLq, HLp. intros [Hin|Hin]%elem_of_union.
    - apply (Hdisj lr); auto.
    - apply (Hdisj' lr); auto. }
  split.
  - intros C HC. apply Hn in HC as [HC|[HC| ->]].
    + apply clade_is_split, Hcl'. right. left. apply Hcl. left. by apply Hq.
    + apply clade_is_split, Hcl'. left. by apply Hp.
    + assert (get_leaf_set n = get_leaf_set r' ∖ get_leaf_set r2) as ->.
      { rewrite HLn, HLq, HLp, HL', HL. apply set_eq. intros l.
        specialize (Hdisj l). specialize (Hdisj' l).
        rewrite HL in Hdisj'. set_unfold. tauto. }
      apply is_split_complement, clade_is_split, Hcl'. right. left.
      apply Hcl. right. left. apply clade_of_root.
  - intros S HS Hne HSn.
    assert (lr ∉ S) as HlrS by (intros HlS; by apply Hlr_n, HSn).
    apply is_split_clade in HS as (HSsub & [Hc|Hc]); apply Hcl' in Hc.
    + destruct Hc as [Hc|[Hc|Hc]].
      * left. apply Hn. right. left. by apply Hp.
      * apply Hcl in Hc as [Hc|[Hc|Hc]].
        -- left. apply Hn. left. by apply Hq.
        -- exfalso. apply clade_of_subseteq in Hc.
           apply set_choose_L in Hne as [s Hs].
           pose proof (HSn s Hs) as Hsn. rewrite HLn, HLq, HLp in Hsn.
           apply elem_of_union in Hsn as [Hsn|Hsn].
           ++ apply (Hdisj s); auto.
           ++ apply (Hdisj' s); [done|]. rewrite HL. apply elem_of_union. auto.
        -- exfalso. apply HlrS. by rewrite Hc.
      * exfalso. apply HlrS. by rewrite Hc.
    + destruct Hc as [Hc|[Hc|Hc]].
      * exfalso. apply clade_of_subseteq in Hc.
        apply (Hdisj' lr); [|done]. apply Hc. apply elem_of_difference. auto.
      * apply Hcl in Hc as [Hc|[Hc|Hc]].
        -- exfalso. apply clade_of_subseteq in Hc.
           apply (Hdisj lr); [|done]. apply Hc. apply elem_of_difference. auto.
        -- left. apply Hn. right. right.
           apply clade_of_subseteq in Hc.
           apply set_eq. intros l. split; [apply HSn|]. intros Hl.
           destruct (decide (l ∈ S)) as [|Hout]; [done|]. exfalso.
           assert (l ∈ get_leaf_set r2) as Hlr2.
           { apply Hc. apply elem_of_difference. split; [|done].
             rewrite HL', HL. rewrite HLn, HLq, HLp in Hl.
             set_unfold. tauto. }
           rewrite HLn, HLq, HLp in Hl. apply elem_of_union in Hl as [Hl|Hl].
           ++ apply (Hdisj l); auto.
           ++ apply (Hdisj' l); [done|]. rewrite HL. apply elem_of_union. auto.
        -- left. apply Hn. right. left.
           assert (S = get_leaf_set p) as ->; [|apply clade_of_root].
           rewrite HLp. apply set_eq. intros l.
           assert (l ∈ get_leaf_set r' ∖ S ↔ l ∈ get_leaf_set rr) as Hl
             by (by rewrite Hc).
           specialize (Hdisj' l). specialize (HSsub l).
           rewrite HL' in Hl, HSsub. clear -Hl Hdisj' HSsub.
           destruct (decide (l ∈ S)); set_unfold; tauto.
      * exfalso. apply set_choose_L in Hne as [s Hs].
        assert (s ∈ get_leaf_set r' ∖ S) as Hin.
        { rewrite Hc. by apply HSsub. }
        apply elem_of_difference in Hin as [_ Hin]. done.
Qed.

(** * Joining two clades that a constraint tree already has as siblings *)

Lemma matches_join_same r a b n :
  NoDup (get_leaf_list r) →
  get_leaf_set a ⊆ get_leaf_set r → get_leaf_set b ⊆ get_leaf_set r →
  get_leaf_set a ## get_leaf_set b →
  matches r a → matches r b →
  is_split r (get_leaf_set a ∪ get_leaf_set b) →
  get_leaf_set n = get_leaf_set a ∪ get_leaf_set b →
  (∀ C, clade_of n C ↔ clade_of a C ∨ clade_of b C ∨ C = get_leaf_set n) →
  matches r n.
Proof.
  intros Hnd HA HB Hdisj (Ha1 & Ha2) (Hb1 & Hb2) HAB HLn Hn.
  destruct (get_leaf_set_nonempty a) as [la Hla].
  destruct (get_leaf_set_nonempty b) as [lb Hlb].
  assert (is_split r (get_leaf_set a)) as HsA by apply Ha1, clade_of_root.
  assert (is_split r (get_leaf_set b)) as HsB by apply Hb1, clade_of_root.
  split.
  - intros C HC. apply Hn in HC as [HC|[HC| ->]]; [auto|auto|by rewrite HLn].
  - intros S HS Hne HSn.
    pose proof (proj1 HS) as HSL.
    assert (∀ S', is_split r S' → S' ≠ ∅ → S' ⊆ get_leaf_set a →
                  clade_of a S') as Ha2'.
    { intros S' HS' Hne' Hsub'. destruct (Ha2 S' HS' Hne' Hsub') as [?|Hc]; [done|].
      exfalso. apply clade_of_subseteq in Hc. apply (Hdisj lb); [|done].
      apply Hc. apply elem_of_difference. split; [by apply HB|].
      intros Hin. apply (Hdisj lb); auto. }
    assert (∀ S', is_split r S' → S' ≠ ∅ → S' ⊆ get_leaf_set b →
                  clade_of b S') as Hb2'.
    { intros S' HS' Hne' Hsub'. destruct (Hb2 S' HS' Hne' Hsub') as [?|Hc]; [done|].
      exfalso. apply clade_of_subseteq in Hc. apply (Hdisj la); [done|].
      apply Hc. apply elem_of_difference. split; [by apply HA|].
      intros Hin. apply (Hdisj la); auto. }
    assert (∀ X x, (∀ S', is_split r S' → S' ≠ ∅ → S' ⊆ X → clade_of x S') →
              get_leaf_set r ∖ S ⊆ X →
              clade_of n S ∨ (get_leaf_set r ∖ S ≠ ∅ ∧ clade_of x (get_leaf_set r ∖ S)))
      as Hco.
    { intros X x Hx Hsub.
      destruct (decide (get_leaf_set r ∖ S = ∅)) as [Hempty|Hne'].
      - left. apply Hn. right. right. rewrite HLn.
        apply set_eq. intros l. split; [by rewrite <- HLn; apply HSn|].
        intros Hl. destruct (decide (l ∈ S)) as [|Hout]; [done|]. exfalso.
        assert (l ∈ get_leaf_set r ∖ S) as Hin.
        { apply elem_of_difference. split; [|done].
          apply elem_of_union in Hl as [?|?]; auto. }
        rewrite Hempty in Hin. by apply not_elem_of_empty in Hin.
      - right. split; [done|]. apply Hx; [|done|done].
        by apply is_split_complement. }
    destruct (sides_compatible r S (get_leaf_set a) Hnd HS HsA)
      as [Hsub|[Hsup|[Hdj|Hcov]]].
    + left. apply Hn. left. by apply Ha2'.
    + destruct (sides_compatible r S (get_leaf_set b) Hnd HS HsB)
        as [Hsub'|[Hsup'|[Hdj'|Hcov']]].
      * exfalso. apply (Hdisj la); [done|]. by apply Hsub', Hsup.
      * left. apply Hn. right. right. rewrite HLn.
        apply set_eq. intros l. split; [by rewrite <- HLn; apply HSn|].
        intros [?|?]%elem_of_union; auto.
      * left. apply Hn. left.
        assert (S = get_leaf_set a) as ->; [|apply clade_of_root].
        apply set_eq. intros l. split; [|apply Hsup]. intros Hl.
        pose proof (HSn l Hl) as Hln. rewrite HLn in Hln.
        apply elem_of_union in Hln as [?|?]; [done|].
        exfalso. apply (Hdj' l); auto.
      * destruct (Hco (get_leaf_set b) b Hb2') as [?|[_ Hc]]; [|by left|].
        { intros l [Hl HlS]%elem_of_difference.
          assert (l ∈ S ∪ get_leaf_set b) as Hin by (by rewrite Hcov').
          apply elem_of_union in Hin as [?|?]; done. }
        right. apply Hn. auto.
    + left. apply Hn. right. left. apply Hb2'; [done|done|].
      intros l Hl. pose proof (HSn l Hl) as Hln. rewrite HLn in Hln.
      apply elem_of_union in Hln as [?|?]; [|done].
      exfalso. apply (Hdj l); auto.
    + destruct (Hco (get_leaf_set a) a Ha2') as [?|[_ Hc]]; [|by left|].
      { intros l [Hl HlS]%elem_of_difference.
        assert (l ∈ S ∪ get_leaf_set a) as Hin by (by rewrite Hcov).
        apply elem_of_union in Hin as [?|?]; done. }
      right. apply Hn. auto.
Qed.

(** Facts about the membership of one label in a handful of sets are
    settled by cases: the goal is tried as it stands, then with one more
    membership decided, and so on. *)
Ltac label_case l :=
  match goal with
  | |- context [l ∈ ?A] =>
      lazymatch goal with
      | H : l ∈ A |- _ => fail
      | H : ¬ (l ∈ A) |- _ => fail
      | _ => destruct (decide (l ∈ A))
      end
  | H : context [l ∈ ?A] |- _ =>
      lazymatch goal with
      | H : l ∈ A |- _ => fail
      | H : ¬ (l ∈ A) |- _ => fail
      | _ => destruct (decide (l ∈ A))
      end
  end.

Ltac solve_cases l := solve [tauto] || (label_case l; solve_cases l).

(** [sets_at l]: a goal about sets, at the label [l]. *)
Ltac sets_at l :=
  set_unfold;
  repeat match goal with
         | H : ∀ x : label, _ |- _ => specialize (H l)
         end;
  solve_cases l.

Ltac sets_eq :=
  apply set_eq; let l := fresh "l" in intros l; sets_at l.

Ltac sets_sub :=
  let l := fresh "l" in intros l; sets_at l.

(** * Agreement of two trees after the same clade is hung onto both *)

Lemma in_restr_from_clades K r r' :
  K ⊆ get_leaf_set r → K ⊆ get_leaf_set r' →
  (∀ C, clade_of r C → in_restr K r' (C ∩ K)) →
  ∀ T, in_restr K r T → in_restr K r' T.
Proof.
  intros HK0 HK Hcl T (S & HS & ->).
  apply is_split_clade in HS as (HS & [Hc|Hc]); [by apply Hcl|].
  apply Hcl, in_restr_complement in Hc; [|done].
  replace (S ∩ K) with (K ∖ (get_leaf_set r ∖ S ∩ K)); [done|].
  clear -HS HK0. sets_eq.
Qed.

Lemma agree_attach d p1 r1 rr q2 r2 r' q :
  splits_into d p1 r1 → splits_into rr q2 r2 → splits_into r' p1 rr →
  matches d q → matches rr q → get_leaf_set q = get_leaf_set q2 →
  get_leaf_set q ⊆ get_leaf_set r1 →
  is_split d (get_leaf_set p1 ∪ get_leaf_set q) →
  agree_on (get_leaf_set d ∩ get_leaf_set rr) d rr →
  agree_on (get_leaf_set d ∩ get_leaf_set r') d r'.
Proof.
  intros Hd Hrr Hr' (Hmd1 & Hmd2) (Hmr1 & Hmr2) HQ HQR1 HPQ Hagree.
  pose proof (splits_into_sym _ _ _ Hd) as Hds.
  pose proof (splits_into_sym _ _ _ Hrr) as Hrrs.
  pose proof Hd as Hd0. pose proof Hrr as Hrr0.
  destruct Hd as (Hndd & HLd & Hdd & Hcld).
  destruct Hrr as (Hndr & HLr & Hdr & Hclr).
  destruct Hr' as (Hnd' & HL' & Hd' & Hcl').
  destruct (get_leaf_set_nonempty q) as [lq Hlq].
  destruct (get_leaf_set_nonempty p1) as [lp Hlp].
  destruct (get_leaf_set_nonempty r2) as [lr Hlr].
  set (P := get_leaf_set p1) in *. set (R1 := get_leaf_set r1) in *.
  set (Q := get_leaf_set q) in *. set (R2 := get_leaf_set r2) in *.
  set (LD := get_leaf_set d) in *. set (LR := get_leaf_set rr) in *.
  set (L' := get_leaf_set r') in *.
  rewrite <- HQ in HLr, Hdr.
  assert (Q ≠ ∅) as HQne.
  { intros H0. rewrite H0 in Hlq. by apply not_elem_of_empty in Hlq. }
  (* the joined clade in the donor tree *)
  assert (clade_of r1 Q) as HQr1.
  { apply (side_in_part d r1 p1); [exact Hds| |done|done].
    apply Hmd1, clade_of_root. }
  assert (∀ C, clade_of r1 C → Q ⊆ C → C = Q ∨ C = R1) as Habove.
  { intros C HC HQC. pose proof (clade_of_subseteq _ _ HC) as HCsub.
    fold R1 in HCsub.
    apply is_split_clade in HPQ as (_ & [Hc|Hc]); apply Hcld in Hc.
    - right. destruct Hc as [Hc|[Hc|Hc]].
      + exfalso. apply clade_of_subseteq in Hc. fold P in Hc.
        clear -Hc HQR1 Hdd Hlq. sets_at lq.
      + exfalso. apply clade_of_subseteq in Hc. fold R1 in Hc.
        clear -Hc Hdd Hlp. sets_at lp.
      + clear -Hc HLd Hdd HQR1 HCsub HQC. sets_eq.
    - destruct Hc as [Hc|[Hc|Hc]].
      + exfalso. pose proof (clade_of_nonempty _ _ Hc) as Hne.
        apply set_choose_L in Hne as [z Hz].
        apply clade_of_subseteq in Hc. fold P in Hc.
        pose proof (Hc z Hz) as HzP.
        clear -Hz HzP HLd Hdd. sets_at z.
      + assert (clade_of d C) as HCd by (apply Hcld; auto).
        assert (clade_of d (LD ∖ (P ∪ Q))) as HZd by (apply Hcld; auto).
        destruct (clades_laminar d _ _ Hndd HCd HZd) as [Hl|[Hl|Hl]].
        * exfalso. clear -Hl HQC Hlq. sets_at lq.
        * right. clear -Hl HQC HCsub HLd Hdd. sets_eq.
        * left. clear -Hl HQC HCsub HLd Hdd. sets_eq.
      + exfalso. clear -Hc HLd Hlp. sets_at lp. }
  assert (is_split d (LD ∖ (P ∪ Q))) as Hrest by (by apply is_split_complement).
  assert (get_leaf_set d ∩ get_leaf_set r' ⊆ get_leaf_set d) as HK1
    by apply intersection_subseteq_l.
  assert (get_leaf_set d ∩ get_leaf_set r' ⊆ get_leaf_set r') as HK2
    by apply intersection_subseteq_r.
  fold LD L' in HK1, HK2 |- *.
  set (K := LD ∩ L') in *.
  intros T. split; apply in_restr_from_clades; try done.
  - (* a clade of the donor tree *)
    intros C HC. apply Hcld in HC as [HC|[HC| ->]].
    + exists C. split; [|done]. apply clade_is_split, Hcl'. auto.
    + assert (clade_of d C) as HCd by (apply Hcld; auto).
      assert (clade_of d Q) as HQd by (apply Hcld; auto).
      pose proof (clade_of_subseteq _ _ HC) as HCsub. fold R1 in HCsub.
      pose proof (clade_of_nonempty _ _ HC) as HCne.
      assert (C ⊆ Q → in_restr K r' (C ∩ K)) as Hinside.
      { intros HCQ. exists C. split; [|done].
        apply clade_is_split, Hcl'. right. left. apply Hclr. left.
        apply (side_in_part rr q2 r2); [exact Hrr0| |done|by rewrite <- HQ].
        apply Hmr1.
        destruct (Hmd2 C) as [Hc|Hc]; [by apply clade_is_split|done|done|done|].
        exfalso. apply clade_of_subseteq in Hc. fold Q LD in Hc.
        clear -Hc Hlp HLd Hdd HQR1 HCsub. sets_at lp. }
      destruct (clades_laminar d _ _ Hndd HCd HQd) as [Hl|[Hl|Hl]]; [auto| |].
      * destruct (Habove C HC Hl) as [->| ->]; [by apply Hinside|].
        exists LR. split.
        -- apply clade_is_split, Hcl'. right. left. apply clade_of_root.
        -- unfold K. clear -HLd HL' Hd' Hdd. sets_eq.
      * destruct (proj1 (Hagree (C ∩ (LD ∩ LR)))) as (S' & HS' & Heq).
        { exists C. split; [by apply clade_is_split|done]. }
        pose proof (proj1 HS') as HS'sub. fold LR in HS'sub.
        destruct (decide (S' = ∅)) as [->|HS'ne].
        -- exists ∅. split; [apply is_split_empty|].
           unfold K. clear -Heq HCsub HLd HL' Hdd Hd'. sets_eq.
        -- exists S'. split.
           ++ apply clade_is_split, Hcl'. right. left. apply Hclr. right. left.
              apply (side_in_part rr r2 q2); [exact Hrrs|done|done|].
              fold R2. clear -Heq HS'sub HLr Hl HQR1 HLd. sets_sub.
           ++ unfold K. clear -Heq HS'sub HCsub HLd HL' Hdd Hd'. sets_eq.
    + exists L'. split; [apply is_split_full|]. unfold K. clear. sets_eq.
  - (* a clade of the tree with the clade hung on *)
    intros C HC. apply Hcl' in HC as [HC|[HC| ->]].
    + exists C. split; [|done]. apply clade_is_split, Hcld. auto.
    + apply Hclr in HC as [HC|[HC| ->]].
      * exists C. split; [|done]. apply Hmd1.
        pose proof (clade_of_subseteq _ _ HC) as HCsub.
        rewrite <- HQ in HCsub. fold Q in HCsub.
        destruct (Hmr2 C) as [Hc|Hc]; [|by apply clade_of_nonempty in HC|done|done|].
        { apply clade_is_split, Hclr. auto. }
        exfalso. apply clade_of_subseteq in Hc. fold Q LR in Hc.
        clear -Hc Hlr HLr Hdr HCsub. sets_at lr.
      * pose proof (clade_of_subseteq _ _ HC) as HCsub. fold R2 in HCsub.
        destruct (proj2 (Hagree (C ∩ (LD ∩ LR)))) as (S' & HS' & Heq).
        { exists C. split; [|done]. apply clade_is_split, Hclr. auto. }
        pose proof (proj1 HS') as HS'sub. fold LD in HS'sub.
        assert (in_restr K d ∅) as Hempty.
        { exists ∅. split; [apply is_split_empty|]. clear. sets_eq. }
        assert (S' ## Q) as HS'Q.
        { clear -Heq HCsub Hdr HLr HLd HQR1. sets_sub. }
        apply is_split_clade in HS' as (_ & [Hc|Hc]); apply Hcld in Hc.
        -- destruct Hc as [Hc|[Hc|Hc]].
           ++ apply clade_of_subseteq in Hc. fold P in Hc.
              replace (C ∩ K) with (∅ : gset label); [done|].
              unfold K. clear -Heq Hc HCsub HLr HL' Hd'. sets_eq.
           ++ pose proof (clade_of_subseteq _ _ Hc) as Hcsub. fold R1 in Hcsub.
              exists S'. split.
              ** apply clade_is_split, Hcld. auto.
              ** unfold K. clear -Heq Hcsub HCsub HLr HLd HL' Hd' Hdd. sets_eq.
           ++ exfalso. clear -Hc HS'Q Hlq HQR1 HLd. sets_at lq.
        -- destruct Hc as [Hc|[Hc|Hc]].
           ++ exfalso. apply clade_of_subseteq in Hc. fold P in Hc.
              clear -Hc HS'Q Hlq HQR1 HLd Hdd. sets_at lq.
           ++ destruct (Habove _ Hc) as [Hq|Hq].
              { clear -HS'Q HQR1 HLd. sets_sub. }
              ** exists (LD ∖ (P ∪ Q)). split; [done|].
                 unfold K. clear -Heq Hq HS'sub HCsub HLr HLd HL' Hd' Hdd HQR1.
                 sets_eq.
              ** replace (C ∩ K) with (∅ : gset label); [done|].
                 unfold K. clear -Heq Hq HS'sub HCsub HLr HLd HL' Hd' Hdd.
                 sets_eq.
           ++ replace (C ∩ K) with (∅ : gset label); [done|].
              unfold K. clear -Heq Hc HS'sub HCsub HLr HLd HL' Hd' Hdd.
              sets_eq.
      * exists R1. split.
        -- apply clade_is_split, Hcld. right. left. apply clade_of_root.
        -- unfold K. clear -HLd HL' Hd' Hdd. sets_eq.
    + exists LD. split; [apply is_split_full|].
      unfold K. clear. sets_eq.
Qed.

(** * The lookups and the re-rooting, on a pool node that sits in the tree *)

Lemma find_in_tree_Some t x r :
  wf_tree t → node_inv (seed_node t) x →
  find_in_tree t (map_splits_to_nodes t) x (get_leaf_list x) = Ok (Some r) →
  get_leaf_set x ⊆ get_leaf_set (seed_node t) ∧ matches (seed_node t) x ∧
  (get_leaf_set x = get_leaf_set (seed_node t) → r = PoolNode x).
Proof.
  intros Hwf Hinv. unfold find_in_tree. rewrite !list_to_set_leaf_list.
  destruct (decide (get_leaf_set x = get_leaf_set (seed_node t))) as [Heq|Hne].
  - intros [= <-]. destruct Hinv as [Hdisj|[Hsub Hm]].
    + exfalso. destruct (get_leaf_set_nonempty x) as [l Hl].
      apply (Hdisj l); [done|]. by rewrite <- Heq.
    + done.
  - rewrite get_node_from_clade_unfold. simpl.
    rewrite list_to_set_leaf_list.
    rewrite decide_False by done.
    destruct (decide (get_leaf_set x ⊆ get_leaf_set (seed_node t))) as [Hsub|];
      simpl; [|done].
    intros _. destruct Hinv as [Hdisj|[_ Hm]].
    + exfalso. destruct (get_leaf_set_nonempty x) as [l Hl].
      apply (Hdisj l); [done|]. by apply Hsub.
    + done.
Qed.

Lemma find_in_tree_None t x :
  wf_tree t → node_inv (seed_node t) x →
  find_in_tree t (map_splits_to_nodes t) x (get_leaf_list x) = Ok None →
  get_leaf_set x ## get_leaf_set (seed_node t).
Proof.
  intros Hwf [Hdisj|[Hsub (Hm1 & _)]]; [done|].
  unfold find_in_tree. rewrite !list_to_set_leaf_list.
  destruct (decide (get_leaf_set x = get_leaf_set (seed_node t))) as [Heq|Hne];
    [done|].
  rewrite get_node_from_clade_unfold. simpl.
  rewrite list_to_set_leaf_list.
  rewrite decide_False by done. rewrite decide_True by done. simpl.
  destruct (map_splits_lookup_complete t (get_leaf_set x) Hwf Hsub) as [w Hw].
  { apply Hm1, clade_of_root. }
  by rewrite Hw.
Qed.

(** A lookup of a label set that succeeds: the set is a split side. *)
Lemma lookup_Some_is_split t clade w :
  wf_tree t →
  get_node_from_clade t (map_splits_to_nodes t) clade = Ok (Some w) →
  is_split (seed_node t) (list_to_set clade).
Proof.
  intros Hwf. rewrite get_node_from_clade_unfold. simpl.
  destruct (decide (get_leaf_set (seed_node t) = list_to_set clade)) as [<-|Hne].
  - intros _. apply is_split_full.
  - destruct (decide (list_to_set clade ⊆ get_leaf_set (seed_node t)))
      as [Hsub|]; [|done].
    intros [= Hw]. split; [done|].
    apply map_splits_lookup_sound in Hw as [Hpost Hor]; [|done|done].
    by exists w.
Qed.

Lemma is_None_node_false t clade :
  wf_tree t →
  is_None_node (get_node_from_clade t (map_splits_to_nodes t) clade) = Ok false →
  is_split (seed_node t) (list_to_set clade).
Proof.
  intros Hwf. unfold is_None_node.
  destruct (get_node_from_clade _ _ _) as [[w|]|] eqn:Hget; simpl; try done.
  intros _. by apply (lookup_Some_is_split t clade w).
Qed.

Lemma list_to_set_leaf_lists a b :
  (list_to_set (get_leaf_list a ++ get_leaf_list b) : gset label)
  = get_leaf_set a ∪ get_leaf_set b.
Proof. by rewrite list_to_set_app_L. Qed.

(** The tree that [extract_nodes_from_split] hands back is rooted on the
    edge above the clade. *)
Lemma extract_nodes_from_split_shape t r clade t' found :
  wf_tree t →
  extract_nodes_from_split t r clade = Ok (t', found) →
  wf_tree t' ∧ same_splits (seed_node t) (seed_node t') ∧
  get_leaf_set found = list_to_set clade ∧
  NoDup (get_leaf_list found) ∧
  ∃ rest, splits_into (seed_node t') found rest.
Proof.
  intros Hwf Hex.
  destruct (extract_nodes_from_split_same_splits _ _ _ _ _ Hwf Hex)
    as (Hwf' & Hsame).
  split; [done|]. split; [done|].
  revert Hex. unfold extract_nodes_from_split.
  assert (∀ t0,
     match seed_node t0 with
     | Leaf _ => Raise (Exception "Tree is not rooted!")
     | Internal node1 node2 =>
         if decide (get_leaf_set node1 = list_to_set clade) then Ok (t0, node1)
         else if decide (get_leaf_set node2 = list_to_set clade) then Ok (t0, node2)
         else Raise (Exception "Cannot handle this bipartition!")
     end = Ok (t', found) →
     get_leaf_set found = list_to_set clade ∧
     NoDup (get_leaf_list found) ∧
     ∃ rest, splits_into (seed_node t') found rest) as Hrest.
  { intros t0. destruct (seed_node t0) as [|node1 node2] eqn:Hseed; [done|].
    destruct Hwf' as [Hnd' _].
    repeat case_decide; intros [= <- <-] || done; (split; [done|]);
      rewrite Hseed in Hnd' |- *;
      destruct (NoDup_Internal _ _ Hnd') as (Hn1 & Hn2 & _); (split; [done|]).
    - exists node2. by apply splits_into_Internal.
    - exists node1. by apply splits_into_Internal_swap. }
  destruct r as [nd|nd]; simpl; [|done].
  destruct (decide (nd = seed_node t)); simpl; [apply Hrest|].
  destruct (reroot_at_edge t nd) as [t0|]; simpl; [apply Hrest|done].
Qed.

Lemma wf_tree_NoDup t : wf_tree t → NoDup (get_leaf_list (seed_node t)).
Proof. by intros [? _]. Qed.

Lemma NoDup_attach x y :
  NoDup (get_leaf_list x) → NoDup (get_leaf_list y) →
  get_leaf_set x ## get_leaf_set y →
  NoDup (get_leaf_list (Internal x y)).
Proof.
  intros Hx Hy Hdisj. simpl. apply NoDup_app. split; [done|]. split; [|done].
  intros l Hlx Hly. apply (Hdisj l); by apply elem_of_get_leaf_set.
Qed.

Lemma joins_Internal a b : joins (Internal a b) a b.
Proof.
  split; [apply get_leaf_set_Internal|].
  intros C. by rewrite clade_of_Internal, get_leaf_set_Internal.
Qed.

Lemma joins_sym n a b : joins n a b → joins n b a.
Proof.
  intros [HL Hcl]. split.
  - rewrite HL. apply set_eq. intros l. set_unfold. tauto.
  - intros C. rewrite Hcl. tauto.
Qed.

Lemma grown_from_same_splits T t t' :
  wf_tree t' → same_splits (seed_node t) (seed_node t') →
  grown_from T t → grown_from T t'.
Proof.
  intros Hwf' Hsame (_ & Hsub & Hagree).
  pose proof (perm_leaf_set _ _ (proj1 Hsame)) as HL.
  split; [done|]. split; [by rewrite <- HL|].
  eapply agree_on_trans; [|exact Hagree].
  by apply same_splits_agree_on, same_splits_sym.
Qed.

(** * One join that moves a clade from one constraint tree to the other *)

Lemma join_nodes_in_one_tree_step D Rc p q nP nQ tD tR :
  wf_tree D → wf_tree Rc →
  get_leaf_set p ⊆ get_leaf_set (seed_node D) → matches (seed_node D) p →
  get_leaf_set p ## get_leaf_set (seed_node Rc) →
  get_leaf_set q ⊆ get_leaf_set (seed_node D) → matches (seed_node D) q →
  get_leaf_set q ⊆ get_leaf_set (seed_node Rc) → matches (seed_node Rc) q →
  get_leaf_set p ## get_leaf_set q →
  is_split (seed_node D) (get_leaf_set p ∪ get_leaf_set q) →
  agree_on (get_leaf_set (seed_node D) ∩ get_leaf_set (seed_node Rc))
           (seed_node D) (seed_node Rc) →
  join_nodes_in_one_tree D nP (get_leaf_list p) Rc nQ (get_leaf_list q)
  = Ok (tD, tR) →
  wf_tree tD ∧ wf_tree tR ∧
  same_splits (seed_node D) (seed_node tD) ∧
  get_leaf_set (seed_node tR)
  = get_leaf_set p ∪ get_leaf_set (seed_node Rc) ∧
  (∀ K, K ## get_leaf_set p → agree_on K (seed_node tR) (seed_node Rc)) ∧
  agree_on (get_leaf_set (seed_node tD) ∩ get_leaf_set (seed_node tR))
           (seed_node tD) (seed_node tR) ∧
  (∀ n, joins n q p → matches (seed_node tD) n ∧ matches (seed_node tR) n) ∧
  (∀ x, get_leaf_set x ## get_leaf_set p → get_leaf_set x ## get_leaf_set q →
        node_inv (seed_node Rc) x → node_inv (seed_node tR) x).
Proof.
  intros HwfD HwfR HP HmDp HPR HQD HmDq HQR HmRq HPQ HsplitPQ Hagree.
  unfold join_nodes_in_one_tree.
  destruct (extract_nodes_from_split D nP _) as [[Dr fP]|] eqn:HexD;
    simpl; [|done].
  destruct (extract_nodes_from_split Rc nQ _) as [[Rr fQ]|] eqn:HexR;
    simpl; [|done].
  intros [= <- <-].
  apply extract_nodes_from_split_shape in HexD
    as (HwfDr & HsameD & HfP & HndP & restP & HintoD); [|done].
  apply extract_nodes_from_split_shape in HexR
    as (HwfRr & HsameR & HfQ & HndQ & restQ & HintoR); [|done].
  rewrite list_to_set_leaf_list in HfP, HfQ.
  pose proof (perm_leaf_set _ _ (proj1 HsameD)) as HLD.
  pose proof (perm_leaf_set _ _ (proj1 HsameR)) as HLR.
  assert (NoDup (get_leaf_list (Internal fP (seed_node Rr)))) as Hnd'.
  { apply NoDup_attach; [done|by apply wf_tree_NoDup|].
    by rewrite HfP, <- HLR. }
  pose proof (splits_into_Internal _ _ Hnd') as Hinto'.
  assert (matches (seed_node Dr) p) as HmDrp by (by apply (matches_same_splits (seed_node D))).
  assert (matches (seed_node Dr) q) as HmDrq by (by apply (matches_same_splits (seed_node D))).
  assert (matches (seed_node Rr) q) as HmRrq by (by apply (matches_same_splits (seed_node Rc))).
  assert (get_leaf_set q ⊆ get_leaf_set restP) as HQrest.
  { destruct HintoD as (_ & HL & _ & _). rewrite <- HLD, HfP in HL.
    clear -HL HQD HPQ. sets_sub. }
  assert (get_leaf_set q ⊆ get_leaf_set fQ) as HQfQ by (by rewrite HfQ).
  split; [done|]. split; [by apply wf_new_tree|]. split; [done|].
  simpl.
  split; [by rewrite get_leaf_set_Internal, HfP, <- HLR|].
  split; [|split; [|split]].
  - intros K HK. eapply agree_on_trans.
    + apply agree_on_attach_l. by rewrite HfP.
    + by apply same_splits_agree_on, same_splits_sym.
  - apply (agree_attach (seed_node Dr) fP restP (seed_node Rr) fQ restQ _ q);
      try done.
    + rewrite HfP. by apply (same_splits_is_split _ _ _ HsameD).
    + rewrite <- HLD, <- HLR.
      eapply agree_on_trans; [|eapply agree_on_trans; [exact Hagree|]].
      * by apply same_splits_agree_on, same_splits_sym.
      * by apply same_splits_agree_on.
  - intros n Hn. split.
    + destruct Hn as [HLn Hcln].
      apply (matches_join_same (seed_node Dr) q p n); try done.
      * by apply wf_tree_NoDup.
      * by rewrite <- HLD.
      * by rewrite <- HLD.
      * apply (same_splits_is_split _ _ _ HsameD).
        by rewrite (comm_L (∪) (get_leaf_set q)).
    + destruct Hn as [HLn Hcln].
      apply (matches_attach_join _ fP (seed_node Rr) fQ restQ p q n); try done.
      * by apply (matches_part (seed_node Rr) fQ restQ).
      * by apply (matches_part (seed_node Dr) fP restP).
  - intros x HxP HxQ [Hdisj|[Hsub Hm]].
    + left. rewrite get_leaf_set_Internal, HfP, <- HLR.
      clear -Hdisj HxP. sets_sub.
    + right. split.
      * rewrite get_leaf_set_Internal, <- HLR. by apply union_subseteq_r'.
      * apply (matches_attach_other _ fP (seed_node Rr) fQ restQ); try done.
        -- destruct HintoR as (_ & HL & _ & _). rewrite <- HLR, HfQ in HL.
           clear -HL Hsub HxQ. sets_sub.
        -- by apply (matches_same_splits (seed_node Rc)).
Qed.

(** * One join that hangs a clade of each constraint tree onto the other *)

Lemma join_nodes_in_both_trees_step t1 t2 a b nA nB o1 o2 :
  wf_tree t1 → wf_tree t2 →
  get_leaf_set a ⊆ get_leaf_set (seed_node t1) → matches (seed_node t1) a →
  get_leaf_set a ## get_leaf_set (seed_node t2) →
  get_leaf_set b ⊆ get_leaf_set (seed_node t2) → matches (seed_node t2) b →
  get_leaf_set b ## get_leaf_set (seed_node t1) →
  NoDup (get_leaf_list a) → NoDup (get_leaf_list b) →
  (get_leaf_set a = get_leaf_set (seed_node t1) → nA = PoolNode a) →
  (get_leaf_set b = get_leaf_set (seed_node t2) → nB = PoolNode b) →
  (∀ u1 u2,
     join_nodes_in_both_trees t1 nA (get_leaf_list a) t2 nB (get_leaf_list b)
                              true = Ok (Some u1, Some u2) →
     are_two_trees_incompatible u1 u2 = false) →
  join_nodes_in_both_trees t1 nA (get_leaf_list a) t2 nB (get_leaf_list b)
                           false = Ok (o1, o2) →
  ∃ u1, o1 = Some u1 ∧ wf_tree u1 ∧
    ((o2 = None ∧
      get_leaf_set (seed_node u1)
      = get_leaf_set (seed_node t1) ∪ get_leaf_set (seed_node t2) ∧
      (∀ K, K ⊆ get_leaf_set (seed_node t1) →
            agree_on K (seed_node u1) (seed_node t1)) ∧
      (∀ K, K ⊆ get_leaf_set (seed_node t2) →
            agree_on K (seed_node u1) (seed_node t2)))
     ∨
     (∃ u2, o2 = Some u2 ∧ wf_tree u2 ∧
        get_leaf_set (seed_node u1)
        = get_leaf_set (seed_node t1) ∪ get_leaf_set b ∧
        get_leaf_set (seed_node u2)
        = get_leaf_set (seed_node t2) ∪ get_leaf_set a ∧
        (∀ K, K ## get_leaf_set b → agree_on K (seed_node u1) (seed_node t1)) ∧
        (∀ K, K ## get_leaf_set a → agree_on K (seed_node u2) (seed_node t2)) ∧
        agree_on (get_leaf_set (seed_node u1) ∩ get_leaf_set (seed_node u2))
                 (seed_node u1) (seed_node u2) ∧
        (∀ n, joins n a b →
              matches (seed_node u1) n ∧ matches (seed_node u2) n) ∧
        (∀ x, get_leaf_set x ## get_leaf_set a →
              get_leaf_set x ## get_leaf_set b →
              (node_inv (seed_node t1) x → node_inv (seed_node u1) x) ∧
              (node_inv (seed_node t2) x → node_inv (seed_node u2) x)))).
Proof.
  intros Hwf1 Hwf2 HA HmA HA2 HB HmB HB1 HndA HndB HpoolA HpoolB Htest.
  revert Htest. unfold join_nodes_in_both_trees.
  rewrite !list_to_set_leaf_list.
  pose proof (wf_tree_NoDup _ Hwf1) as Hnd1.
  pose proof (wf_tree_NoDup _ Hwf2) as Hnd2.
  assert (get_leaf_set a ## get_leaf_set b) as HAB.
  { clear -HA HB1. sets_sub. }
  destruct (bool_decide_reflect
              (get_leaf_set (seed_node t1) = get_leaf_set a)) as [HeqA|HneA];
  destruct (bool_decide_reflect
              (get_leaf_set (seed_node t2) = get_leaf_set b)) as [HeqB|HneB];
    simpl.
  - (* both trees are added whole *)
    intros _ [= <- <-]. rewrite HpoolA, HpoolB by done. simpl.
    eexists. split; [done|].
    assert (NoDup (get_leaf_list (Internal a b))) as Hnd
      by (by apply NoDup_attach).
    split; [by apply wf_new_tree|]. left. split; [done|]. simpl.
    rewrite get_leaf_set_Internal, <- HeqA, <- HeqB. split; [done|]. split.
    + intros K HK. eapply agree_on_trans.
      * apply agree_on_attach_r. rewrite HeqA in HK. clear -HK HAB. sets_sub.
      * by apply matches_whole_agree_on.
    + intros K HK. eapply agree_on_trans.
      * apply agree_on_attach_l. rewrite HeqB in HK. clear -HK HAB. sets_sub.
      * by apply matches_whole_agree_on.
  - (* the first tree is added whole to the second *)
    intros _.
    destruct (extract_nodes_from_split t2 nB _) as [[t2r fB]|] eqn:Hex2;
      simpl; [|done].
    intros [= <- <-]. rewrite HpoolA by done. simpl.
    apply extract_nodes_from_split_shape in Hex2
      as (Hwf2r & Hsame2 & _ & _ & _); [|done].
    pose proof (perm_leaf_set _ _ (proj1 Hsame2)) as HL2.
    eexists. split; [done|].
    assert (NoDup (get_leaf_list (Internal a (seed_node t2r)))) as Hnd.
    { apply NoDup_attach; [done|by apply wf_tree_NoDup|by rewrite <- HL2]. }
    split; [by apply wf_new_tree|]. left. split; [done|]. simpl.
    rewrite get_leaf_set_Internal, <- HeqA, <- HL2. split; [done|]. split.
    + intros K HK. eapply agree_on_trans.
      * apply agree_on_attach_r. rewrite <- HL2. rewrite HeqA in HK.
        clear -HK HA2. sets_sub.
      * by apply matches_whole_agree_on.
    + intros K HK. eapply agree_on_trans.
      * apply agree_on_attach_l. clear -HK HA2. sets_sub.
      * by apply same_splits_agree_on, same_splits_sym.
  - (* the second tree is added whole to the first *)
    intros _.
    destruct (extract_nodes_from_split t1 nA _) as [[t1r fA]|] eqn:Hex1;
      simpl; [|done].
    intros [= <- <-]. rewrite HpoolB by done. simpl.
    apply extract_nodes_from_split_shape in Hex1
      as (Hwf1r & Hsame1 & _ & _ & _); [|done].
    pose proof (perm_leaf_set _ _ (proj1 Hsame1)) as HL1.
    eexists. split; [done|].
    assert (NoDup (get_leaf_list (Internal (seed_node t1r) b))) as Hnd.
    { apply NoDup_attach; [by apply wf_tree_NoDup|done|].
      rewrite <- HL1. clear -HB1. sets_sub. }
    split; [by apply wf_new_tree|]. left. split; [done|]. simpl.
    rewrite get_leaf_set_Internal, <- HeqB, <- HL1. split; [done|]. split.
    + intros K HK. eapply agree_on_trans.
      * apply agree_on_attach_r. clear -HK HB1. sets_sub.
      * by apply same_splits_agree_on, same_splits_sym.
    + intros K HK. eapply agree_on_trans.
      * apply agree_on_attach_l. rewrite <- HL1. rewrite HeqB in HK.
        clear -HK HB1. sets_sub.
      * by apply matches_whole_agree_on.
  - (* a clade of each tree goes to the other *)
    destruct (extract_nodes_from_split t1 nA _) as [[t1r fA]|] eqn:Hex1;
      simpl; [|done].
    destruct (extract_nodes_from_split t2 nB _) as [[t2r fB]|] eqn:Hex2;
      simpl; [|done].
    intros Htest [= <- <-].
    specialize (Htest _ _ eq_refl).
    apply compatible_agree_on in Htest. simpl in Htest.
    apply extract_nodes_from_split_shape in Hex1
      as (Hwf1r & Hsame1 & HfA & HndfA & restA & Hinto1); [|done].
    apply extract_nodes_from_split_shape in Hex2
      as (Hwf2r & Hsame2 & HfB & HndfB & restB & Hinto2); [|done].
    rewrite list_to_set_leaf_list in HfA, HfB.
    pose proof (perm_leaf_set _ _ (proj1 Hsame1)) as HL1.
    pose proof (perm_leaf_set _ _ (proj1 Hsame2)) as HL2.
    assert (NoDup (get_leaf_list (Internal (seed_node t1r) fB))) as Hnd1'.
    { apply NoDup_attach; [by apply wf_tree_NoDup|done|].
      rewrite <- HL1, HfB. clear -HB1. sets_sub. }
    assert (NoDup (get_leaf_list (Internal (seed_node t2r) fA))) as Hnd2'.
    { apply NoDup_attach; [by apply wf_tree_NoDup|done|].
      rewrite <- HL2, HfA. clear -HA2. sets_sub. }
    pose proof (splits_into_Internal_swap _ _ Hnd1') as Hinto1'.
    pose proof (splits_into_Internal_swap _ _ Hnd2') as Hinto2'.
    assert (matches (seed_node t1r) a) as HmA'
      by (by apply (matches_same_splits (seed_node t1))).
    assert (matches (seed_node t2r) b) as HmB'
      by (by apply (matches_same_splits (seed_node t2))).
    pose proof (matches_part _ _ _ _ Hinto1 HmA' (eq_sym HfA)) as HclA.
    pose proof (matches_part _ _ _ _ Hinto2 HmB' (eq_sym HfB)) as HclB.
    eexists. split; [done|]. split; [by apply wf_new_tree|]. right.
    eexists. split; [done|]. split; [by apply wf_new_tree|]. simpl.
    split; [by rewrite get_leaf_set_Internal, HfB, <- HL1|].
    split; [by rewrite get_leaf_set_Internal, HfA, <- HL2|].
    split; [|split; [|split; [done|split]]].
    + intros K HK. eapply agree_on_trans.
      * apply agree_on_attach_r. by rewrite HfB.
      * by apply same_splits_agree_on, same_splits_sym.
    + intros K HK. eapply agree_on_trans.
      * apply agree_on_attach_r. by rewrite HfA.
      * by apply same_splits_agree_on, same_splits_sym.
    + intros n Hn. split.
      * destruct Hn as [HLn Hcln].
        by apply (matches_attach_join _ fB (seed_node t1r) fA restA b a n).
      * apply joins_sym in Hn. destruct Hn as [HLn Hcln].
        by apply (matches_attach_join _ fA (seed_node t2r) fB restB a b n).
    + intros x HxA HxB. split.
      * intros [Hdisj|[Hsub Hm]].
        -- left. rewrite get_leaf_set_Internal, HfB, <- HL1.
           clear -Hdisj HxB. sets_sub.
        -- right. split.
           ++ rewrite get_leaf_set_Internal, <- HL1. by apply union_subseteq_l'.
           ++ apply (matches_attach_other _ fB (seed_node t1r) fA restA);
                try done.
              ** destruct Hinto1 as (_ & HL & _ & _). rewrite <- HL1, HfA in HL.
                 clear -HL Hsub HxA. sets_sub.
              ** by apply (matches_same_splits (seed_node t1)).
      * intros [Hdisj|[Hsub Hm]].
        -- left. rewrite get_leaf_set_Internal, HfA, <- HL2.
           clear -Hdisj HxA. sets_sub.
        -- right. split.
           ++ rewrite get_leaf_set_Internal, <- HL2. by apply union_subseteq_l'.
           ++ apply (matches_attach_other _ fA (seed_node t2r) fB restB);
                try done.
              ** destruct Hinto2 as (_ & HL & _ & _). rewrite <- HL2, HfB in HL.
                 clear -HL Hsub HxB. sets_sub.
              ** by apply (matches_same_splits (seed_node t2)).
Qed.

(** * One join keeps the invariant *)

Lemma tree_inv_sym T1 T2 t1 t2 : tree_inv T1 T2 t1 t2 → tree_inv T2 T1 t2 t1.
Proof.
  intros (G1 & G2 & E). split; [done|]. split; [done|].
  rewrite (comm_L (∩)). by apply agree_on_sym.
Qed.

Lemma step_ok_swap_trees T1 T2 t1 t2 a b u1 u2 :
  step_ok T2 T1 t2 t1 a b u2 u1 → step_ok T1 T2 t1 t2 a b u1 u2.
Proof.
  intros (Hinv & H2 & H1 & Hn & Hx).
  split; [by apply tree_inv_sym|]. split; [done|]. split; [done|]. split.
  - intros n Hj. destruct (Hn n Hj). done.
  - intros x HxA HxB Hx1 Hx2. destruct (Hx x HxA HxB Hx2 Hx1). done.
Qed.

Lemma step_ok_swap_nodes T1 T2 t1 t2 a b u1 u2 :
  step_ok T1 T2 t1 t2 b a u1 u2 → step_ok T1 T2 t1 t2 a b u1 u2.
Proof.
  intros (Hinv & H1 & H2 & Hn & Hx).
  rewrite (comm_L (∪) (get_leaf_set b)) in H1, H2.
  split; [done|]. split; [done|]. split; [done|]. split.
  - intros n Hj. by apply Hn, joins_sym.
  - intros x HxA HxB. by apply Hx.
Qed.

Lemma grown_from_attach T t t' :
  grown_from T t → wf_tree t' →
  get_leaf_set (seed_node t) ⊆ get_leaf_set (seed_node t') →
  agree_on (get_leaf_set (seed_node T)) (seed_node t') (seed_node t) →
  grown_from T t'.
Proof.
  intros (_ & Hsub & Hagree) Hwf' Hsub' Hagree'.
  split; [done|]. split; [by transitivity (get_leaf_set (seed_node t))|].
  by eapply agree_on_trans.
Qed.

Lemma node_inv_join_same t a b n :
  wf_tree t →
  get_leaf_set a ⊆ get_leaf_set (seed_node t) → matches (seed_node t) a →
  get_leaf_set b ⊆ get_leaf_set (seed_node t) → matches (seed_node t) b →
  get_leaf_set a ## get_leaf_set b →
  is_split (seed_node t) (get_leaf_set a ∪ get_leaf_set b) →
  joins n a b → node_inv (seed_node t) n.
Proof.
  intros Hwf HA HmA HB HmB HAB Hsplit [HLn Hcln]. right. split.
  - rewrite HLn. by apply union_least.
  - apply (matches_join_same _ a b n); try done. by apply wf_tree_NoDup.
Qed.

Lemma node_inv_join_away r a b n :
  get_leaf_set a ## get_leaf_set r → get_leaf_set b ## get_leaf_set r →
  joins n a b → node_inv r n.
Proof.
  intros HA HB [HLn _]. left. rewrite HLn. clear -HA HB. sets_sub.
Qed.

(** Cases 1, 5 and 9: the trees stay as they are. *)
Lemma no_edit_step T1 T2 t1 t2 a b :
  tree_inv T1 T2 t1 t2 →
  (∀ n, joins n a b → node_inv (seed_node t1) n ∧ node_inv (seed_node t2) n) →
  step_ok T1 T2 t1 t2 a b t1 t2.
Proof.
  intros Hinv Hn. split; [done|].
  split; [apply union_subseteq_l|]. split; [apply union_subseteq_l|].
  split; [done|]. by intros x _ _ ? ?.
Qed.

(** Cases 2, 3, 4 and 7: the clade [p] of the first tree is hung onto the
    second tree, beside the clade [q] that both trees have. *)
Lemma one_tree_step T1 T2 t1 t2 p q nP nQ u1 u2 :
  tree_inv T1 T2 t1 t2 →
  get_leaf_set p ⊆ get_leaf_set (seed_node t1) → matches (seed_node t1) p →
  get_leaf_set p ## get_leaf_set (seed_node t2) →
  get_leaf_set q ⊆ get_leaf_set (seed_node t1) → matches (seed_node t1) q →
  get_leaf_set q ⊆ get_leaf_set (seed_node t2) → matches (seed_node t2) q →
  is_split (seed_node t1) (get_leaf_set q ∪ get_leaf_set p) →
  join_nodes_in_one_tree t1 nP (get_leaf_list p) t2 nQ (get_leaf_list q)
  = Ok (u1, u2) →
  step_ok T1 T2 t1 t2 q p u1 u2.
Proof.
  intros (G1 & G2 & E) HP HmP HP2 HQ1 HmQ1 HQ2 HmQ2 Hsplit Hjoin.
  assert (get_leaf_set p ## get_leaf_set q) as HPQ.
  { clear -HP2 HQ2. sets_sub. }
  rewrite (comm_L (∪)) in Hsplit.
  destruct (join_nodes_in_one_tree_step t1 t2 p q nP nQ u1 u2)
    as (Hwf1 & Hwf2 & Hsame & HL2 & He1 & He2 & Hn & Hx); try done.
  { by destruct G1. }
  { by destruct G2. }
  pose proof (perm_leaf_set _ _ (proj1 Hsame)) as HL1.
  split; [split; [|split; [|done]]|split; [|split; [|split]]].
  - by apply (grown_from_same_splits T1 t1).
  - apply (grown_from_attach T2 t2); [done|done| |].
    + rewrite HL2. apply union_subseteq_r.
    + apply He1. destruct G2 as (_ & Hsub & _). clear -Hsub HP2. sets_sub.
  - rewrite <- HL1. apply union_subseteq_l.
  - rewrite HL2. clear. sets_sub.
  - intros n Hj. destruct (Hn n Hj) as [Hm1 Hm2]. destruct Hj as [HLn _].
    split; right; (split; [|done]).
    + rewrite <- HL1, HLn. by apply union_least.
    + rewrite HL2, HLn. clear -HQ2. sets_sub.
  - intros x HxQ HxP Hx1 Hx2. split.
    + by apply (node_inv_same_splits (seed_node t1)).
    + by apply Hx.
Qed.

(** Cases 6 and 8: a clade of each tree goes to the other tree, or one
    tree is added whole to the other. *)
Lemma both_trees_step T1 T2 t1 t2 a b nA nB o1 o2 :
  tree_inv T1 T2 t1 t2 →
  get_leaf_set a ⊆ get_leaf_set (seed_node t1) → matches (seed_node t1) a →
  get_leaf_set a ## get_leaf_set (seed_node t2) →
  get_leaf_set b ⊆ get_leaf_set (seed_node t2) → matches (seed_node t2) b →
  get_leaf_set b ## get_leaf_set (seed_node t1) →
  NoDup (get_leaf_list a) → NoDup (get_leaf_list b) →
  (get_leaf_set a = get_leaf_set (seed_node t1) → nA = PoolNode a) →
  (get_leaf_set b = get_leaf_set (seed_node t2) → nB = PoolNode b) →
  (∀ u1 u2,
     join_nodes_in_both_trees t1 nA (get_leaf_list a) t2 nB (get_leaf_list b)
                              true = Ok (Some u1, Some u2) →
     are_two_trees_incompatible u1 u2 = false) →
  join_nodes_in_both_trees t1 nA (get_leaf_list a) t2 nB (get_leaf_list b)
                           false = Ok (o1, o2) →
  ∃ u1, o1 = Some u1 ∧
    ((o2 = None ∧ grown_from T1 u1 ∧ grown_from T2 u1) ∨
     (∃ u2, o2 = Some u2 ∧ step_ok T1 T2 t1 t2 a b u1 u2)).
Proof.
  intros (G1 & G2 & E) HA HmA HA2 HB HmB HB1 HndA HndB HpA HpB Htest Hjoin.
  destruct (join_nodes_in_both_trees_step t1 t2 a b nA nB o1 o2)
    as (u1 & -> & Hwf1 & Hcases); try done.
  { by destruct G1. }
  { by destruct G2. }
  exists u1. split; [done|].
  destruct Hcases as [(-> & HL & He1 & He2)|
                      (u2 & -> & Hwf2 & HL1 & HL2 & He1 & He2 & E' & Hn & Hx)].
  - left. split; [done|]. split.
    + apply (grown_from_attach T1 t1); [done|done| |].
      * rewrite HL. apply union_subseteq_l.
      * apply He1. by destruct G1 as (_ & ? & _).
    + apply (grown_from_attach T2 t2); [done|done| |].
      * rewrite HL. apply union_subseteq_r.
      * apply He2. by destruct G2 as (_ & ? & _).
  - right. exists u2. split; [done|].
    split; [split; [|split; [|done]]|split; [|split; [|split]]].
    + apply (grown_from_attach T1 t1); [done|done| |].
      * rewrite HL1. apply union_subseteq_l.
      * apply He1. destruct G1 as (_ & Hsub & _). clear -Hsub HB1. sets_sub.
    + apply (grown_from_attach T2 t2); [done|done| |].
      * rewrite HL2. apply union_subseteq_l.
      * apply He2. destruct G2 as (_ & Hsub & _). clear -Hsub HA2. sets_sub.
    + rewrite HL1. clear. sets_sub.
    + rewrite HL2. clear. sets_sub.
    + intros n Hj. destruct (Hn n Hj) as [Hm1 Hm2]. destruct Hj as [HLn _].
      split; right; (split; [|done]).
      * rewrite HL1, HLn. clear -HA. sets_sub.
      * rewrite HL2, HLn. clear -HB. sets_sub.
    + intros x HxA HxB Hx1 Hx2. destruct (Hx x HxA HxB) as [H1 H2]. auto.
Qed.

(** The join that the scan commits keeps the invariant, or ends the merge
    with one tree on all the leaves. *)
Lemma join_nodes_step T1 T2 t1 t2 a b o1 o2 edited :
  tree_inv T1 T2 t1 t2 →
  node_inv (seed_node t1) a → node_inv (seed_node t2) a →
  node_inv (seed_node t1) b → node_inv (seed_node t2) b →
  NoDup (get_leaf_list a) → NoDup (get_leaf_list b) →
  get_leaf_set a ## get_leaf_set b →
  test_join t1 t2 (map_splits_to_nodes t1) (map_splits_to_nodes t2) a b
  = Ok false →
  join_nodes t1 t2 (map_splits_to_nodes t1) (map_splits_to_nodes t2) a b
  = Ok (o1, o2, edited) →
  ∃ u1, o1 = Some u1 ∧
    ((o2 = None ∧ edited = true ∧ grown_from T1 u1 ∧ grown_from T2 u1) ∨
     (∃ u2, o2 = Some u2 ∧ step_ok T1 T2 t1 t2 a b u1 u2 ∧
            (edited = false → u1 = t1 ∧ u2 = t2))).
Proof.
  intros Hinv HiA1 HiA2 HiB1 HiB2 HndA HndB HAB.
  pose proof Hinv as ((Hwf1 & _) & (Hwf2 & _) & _).
  assert (get_leaf_set b ## get_leaf_set a) as HBA.
  { clear -HAB. sets_sub. }
  unfold test_join, join_nodes.
  destruct (not_disjoint _ _); [done|].
  destruct (find_in_tree t1 _ a _) as [[nAT1|]|] eqn:HA1; simpl; [| |done];
  (destruct (find_in_tree t1 _ b _) as [[nBT1|]|] eqn:HB1; simpl; [| |done]);
  (destruct (find_in_tree t2 _ a _) as [[nAT2|]|] eqn:HA2; simpl; [| |done]);
  (destruct (find_in_tree t2 _ b _) as [[nBT2|]|] eqn:HB2; simpl; try done).
  all: try (apply (find_in_tree_Some t1 a) in HA1 as (HA1s & HA1m & HA1p);
            [|done..]).
  all: try (apply (find_in_tree_Some t1 b) in HB1 as (HB1s & HB1m & HB1p);
            [|done..]).
  all: try (apply (find_in_tree_Some t2 a) in HA2 as (HA2s & HA2m & HA2p);
            [|done..]).
  all: try (apply (find_in_tree_Some t2 b) in HB2 as (HB2s & HB2m & HB2p);
            [|done..]).
  all: try (apply (find_in_tree_None t1 a) in HA1; [|done..]).
  all: try (apply (find_in_tree_None t1 b) in HB1; [|done..]).
  all: try (apply (find_in_tree_None t2 a) in HA2; [|done..]).
  all: try (apply (find_in_tree_None t2 b) in HB2; [|done..]).
  - (* Case 1 *)
    destruct (get_node_from_clade t1 _ _) as [[w1|]|] eqn:H1; simpl; [| |done].
    2:{ by destruct (get_node_from_clade t2 _ _). }
    destruct (get_node_from_clade t2 _ _) as [[w2|]|] eqn:H2; simpl;
      [|done|done].
    intros _ [= <- <- <-].
    apply lookup_Some_is_split in H1, H2; [|done..].
    rewrite list_to_set_leaf_lists in H1, H2.
    exists t1. split; [done|]. right. exists t2. split; [done|].
    split; [|done]. apply no_edit_step; [done|]. intros n Hj.
    split; by apply (node_inv_join_same _ a b).
  - (* Case 2 *)
    intros Htest. apply is_None_node_false in Htest; [|done].
    rewrite list_to_set_leaf_lists in Htest.
    destruct (join_nodes_in_one_tree _ _ _ _ _ _) as [[u1 u2]|] eqn:Hjoin;
      simpl; [|done].
    intros [= <- <- <-].
    exists u1. split; [done|]. right. exists u2. split; [done|].
    split; [|done].
    by apply (one_tree_step T1 T2 t1 t2 b a nBT1 nAT2).
  - (* Case 4 *)
    intros Htest. apply is_None_node_false in Htest; [|done].
    rewrite list_to_set_leaf_lists in Htest.
    destruct (join_nodes_in_one_tree _ _ _ _ _ _) as [[u1 u2]|] eqn:Hjoin;
      simpl; [|done].
    intros [= <- <- <-].
    exists u1. split; [done|]. right. exists u2. split; [done|].
    split; [|done]. apply step_ok_swap_nodes.
    apply (one_tree_step T1 T2 t1 t2 a b nAT1 nBT2); try done.
    by rewrite (comm_L (∪)).
  - (* Case 5 *)
    intros Htest. apply is_None_node_false in Htest; [|done].
    rewrite list_to_set_leaf_lists in Htest.
    intros [= <- <- <-].
    exists t1. split; [done|]. right. exists t2. split; [done|].
    split; [|done]. apply no_edit_step; [done|]. intros n Hj. split.
    + by apply (node_inv_join_same _ a b).
    + by apply (node_inv_join_away _ a b).
  - (* Case 3 *)
    intros Htest. apply is_None_node_false in Htest; [|done].
    rewrite list_to_set_leaf_lists in Htest.
    destruct (join_nodes_in_one_tree _ _ _ _ _ _) as [[u2 u1]|] eqn:Hjoin;
      simpl; [|done].
    intros [= <- <- <-].
    exists u1. split; [done|]. right. exists u2. split; [done|].
    split; [|done]. apply step_ok_swap_trees.
    apply (one_tree_step T2 T1 t2 t1 b a nBT2 nAT1); try done.
    by apply tree_inv_sym.
  - (* Case 6 *)
    intros Htest.
    destruct (join_nodes_in_both_trees _ _ _ _ _ _ false) as [[o1' o2']|]
      eqn:Hjoin; simpl; [|done].
    intros [= <- <- <-].
    destruct (both_trees_step T1 T2 t1 t2 a b nAT1 nBT2 o1' o2')
      as (u1 & -> & Hcases); try done.
    { intros u1 u2 Heq. rewrite Heq in Htest. simpl in Htest. congruence. }
    exists u1. split; [done|].
    destruct Hcases as [(-> & ? & ?)|(u2 & -> & Hok)]; [by left|].
    right. by exists u2.
  - (* Case 7 *)
    intros Htest. apply is_None_node_false in Htest; [|done].
    rewrite list_to_set_leaf_lists in Htest.
    destruct (join_nodes_in_one_tree _ _ _ _ _ _) as [[u2 u1]|] eqn:Hjoin;
      simpl; [|done].
    intros [= <- <- <-].
    exists u1. split; [done|]. right. exists u2. split; [done|].
    split; [|done]. apply step_ok_swap_trees, step_ok_swap_nodes.
    apply (one_tree_step T2 T1 t2 t1 a b nAT2 nBT1); try done.
    + by apply tree_inv_sym.
    + by rewrite (comm_L (∪)).
  - (* Case 8 *)
    intros Htest.
    destruct (join_nodes_in_both_trees _ _ _ _ _ _ false) as [[o1' o2']|]
      eqn:Hjoin; simpl; [|done].
    intros [= <- <- <-].
    destruct (both_trees_step T1 T2 t1 t2 b a nBT1 nAT2 o1' o2')
      as (u1 & -> & Hcases); try done.
    { intros u1 u2 Heq. rewrite Heq in Htest. simpl in Htest. congruence. }
    exists u1. split; [done|].
    destruct Hcases as [(-> & ? & ?)|(u2 & -> & Hok)]; [by left|].
    right. exists u2. split; [done|]. split; [|done].
    by apply step_ok_swap_nodes.
  - (* Case 9 *)
    intros Htest. apply is_None_node_false in Htest; [|done].
    rewrite list_to_set_leaf_lists in Htest.
    intros [= <- <- <-].
    exists t1. split; [done|]. right. exists t2. split; [done|].
    split; [|done]. apply no_edit_step; [done|]. intros n Hj. split.
    + by apply (node_inv_join_away _ a b).
    + by apply (node_inv_join_same _ a b).
Qed.

(** * The pool *)

Section ScanPasses.
Context {X R : Type}.
Variable ltb : R → R → bool.
Variable qvalue : X → X → result R.
Variable test : X → X → result bool.

Lemma scan_list_passes pairs : ∀ done best r,
(∀ e, best = Some e → snd e ∈ done ∧ test (fst (snd e)) (snd (snd e)) = Ok false) →
scan_list ltb qvalue test pairs best = Ok r →
∀ e, r = Some e →
     snd e ∈ done ++ pairs ∧ test (fst (snd e)) (snd (snd e)) = Ok false.
Proof.
induction pairs as [|[a b] pairs IH]; intros done best r Hbest; simpl.
- intros [= <-] e He. rewrite app_nil_r. by apply Hbest.
- destruct (scan_pair ltb qvalue test a b best) as [best'|] eqn:Hpair;
    simpl; [|done].
  intros Hrest e He.
  replace (done ++ (a, b) :: pairs) with ((done ++ [(a, b)]) ++ pairs)
    by (by rewrite <- app_assoc).
  apply (IH _ best' r); [|done|done].
  intros e' He'. revert Hpair. unfold scan_pair.
  destruct (qvalue a b) as [q|]; simpl; [|done].
  assert (Ok best = Ok best' →
          e'.2 ∈ done ++ [(a, b)] ∧ test e'.2.1 e'.2.2 = Ok false) as Hold.
  { intros [= <-]. destruct (Hbest e' He') as [Hin Ht]. split; [|done].
    apply elem_of_app. auto. }
  destruct (match best with None => true | Some (min_q, _) => ltb q min_q end);
    [|done].
  destruct (test a b) as [[|]|] eqn:Htest; simpl; [done| |done].
  intros [= <-]. injection He' as <-. simpl. split; [|done].
  apply elem_of_app. right. apply list_elem_of_singleton. done.
Qed.

Lemma scan_passes node_pool nd1 nd2 :
scan ltb qvalue test node_pool = Ok (Some (nd1, nd2)) →
(nd1, nd2) ∈ all_pairs node_pool ∧ test nd1 nd2 = Ok false.
Proof.
unfold scan. rewrite scan_outer_list.
destruct (scan_list ltb qvalue test (all_pairs node_pool) None) as [r|] eqn:Hscan;
  simpl; [|done].
destruct r as [e|]; simpl; [|done]. intros [= He].
destruct (scan_list_passes _ [] None (Some e) (λ e' H, ltac:(done)) Hscan e eq_refl)
  as [Hin Ht].
rewrite He in Hin, Ht. done.
Qed.

Lemma elem_of_all_pairs (x y : X) l :
(x, y) ∈ all_pairs l → ∃ l1 l2 l3, l = l1 ++ x :: l2 ++ y :: l3.
Proof.
induction l as [|nd1 later IH]; simpl.
- intros Hin. by apply elem_of_nil in Hin.
- rewrite elem_of_app. intros [Hin|Hin].
  + apply list_elem_of_In, in_map_iff in Hin as (y' & [= <- <-] & Hy).
    apply list_elem_of_In, list_elem_of_split in Hy as (l2 & l3 & ->).
    by exists [], l2, l3.
  + destruct (IH Hin) as (l1 & l2 & l3 & ->).
    by exists (nd1 :: l1), l2, l3.
Qed.
End ScanPasses.

Lemma NoDup_pool_trees (xs : list node) :
  NoDup (xs ≫= get_leaf_list) → NoDup xs.
Proof.
  induction xs as [|x xs IH]; simpl; [constructor|].
  rewrite NoDup_app. intros (_ & Hdisj & Hrest).
  constructor; [|by apply IH].
  intros Hin. destruct (get_leaf_set_nonempty x) as [l Hl].
  apply elem_of_get_leaf_set in Hl. apply (Hdisj l Hl).
  apply list_elem_of_bind. by exists x.
Qed.

Lemma pool_split_perm {A : Type} (l1 l2 l3 : list A) a b :
  l1 ++ a :: l2 ++ b :: l3 ≡ₚ a :: b :: (l1 ++ l2 ++ l3).
Proof.
  rewrite <- Permutation_middle. constructor.
  rewrite (app_assoc l1 l2 (b :: l3)), <- Permutation_middle.
  by rewrite app_assoc.
Qed.

(** What the leaves of the pool say about two of its nodes and the
    others. *)
Lemma pool_leaves_apart a b (rest : list node) :
  NoDup ((a :: b :: rest) ≫= get_leaf_list) →
  NoDup (get_leaf_list a) ∧ NoDup (get_leaf_list b) ∧
  get_leaf_set a ## get_leaf_set b ∧
  ∀ x, x ∈ rest →
       get_leaf_set x ## get_leaf_set a ∧ get_leaf_set x ## get_leaf_set b.
Proof.
  simpl. rewrite !NoDup_app.
  intros (Ha & Hda & Hb & Hdb & Hrest).
  split; [done|]. split; [done|]. split.
  - intros l Hla Hlb. apply elem_of_get_leaf_set in Hla, Hlb.
    apply (Hda l Hla). apply elem_of_app. auto.
  - intros x Hx. split; intros l Hlx Hl; apply elem_of_get_leaf_set in Hlx, Hl.
    + apply (Hda l Hl). apply elem_of_app. right.
      apply list_elem_of_bind. by exists x.
    + apply (Hdb l Hl). apply list_elem_of_bind. by exists x.
Qed.

Lemma pool_leaves_joined a b (rest : list node) :
  (rest ++ [Internal a b]) ≫= get_leaf_list
  ≡ₚ (a :: b :: rest) ≫= get_leaf_list.
Proof.
  rewrite bind_app. simpl. rewrite app_nil_r.
  rewrite (app_assoc (get_leaf_list a)). apply Permutation_app_comm.
Qed.

Section PoolFacts.
Context {R : Type} `{Number R}.

Lemma pool_remove_app (l1 : list (nj_node R)) x l2 :
(∀ y, y ∈ l1 → nj_tree y ≠ nj_tree x) →
pool_remove (nj_tree x) (l1 ++ x :: l2) = l1 ++ l2.
Proof.
induction l1 as [|y l1 IH]; intros Hne; simpl.
- by rewrite decide_True.
- rewrite decide_False.
  + f_equal. apply IH. intros z Hz. apply Hne. by right.
  + apply Hne. by left.
Qed.

Lemma update_distances_trees new_node nd1 nd2 (pool : list (nj_node R)) :
∀ new_dists new_xsub pool' new_dists' new_xsub',
update_distances new_node nd1 nd2 pool new_dists new_xsub
= Ok (pool', new_dists', new_xsub') →
nj_tree <$> pool' = nj_tree <$> pool.
Proof.
induction pool as [|x pool IH]; intros nd0 nx0 pool' nd' nx'; simpl.
- by intros [= <- _ _].
- destruct (dict_get (_nj_distances x) (nj_tree nd1)) as [d1|]; simpl; [|done].
  destruct (dict_get (_nj_distances x) (nj_tree nd2)) as [d2|]; simpl; [|done].
  destruct (dict_get (_nj_distances nd1) (nj_tree nd2)) as [v3|]; simpl; [|done].
  destruct (dict_get (_nj_distances nd1) (nj_tree x)) as [e1|]; simpl; [|done].
  destruct (dict_get (_nj_distances nd2) (nj_tree x)) as [e2|]; simpl; [|done].
  destruct (update_distances _ _ _ pool _ _) as [[[rest nd''] nx'']|] eqn:Hrest;
    simpl; [|done].
  intros [= <- _ _]. simpl. f_equal. by eapply IH.
Qed.

Lemma cache_rows_trees dm all taxa : ∀ i (pool : list (nj_node R)),
cache_rows dm all i taxa = Ok pool → nj_tree <$> pool = Leaf <$> taxa.
Proof.
induction taxa as [|t1 taxa IH]; intros i pool; simpl.
- by intros [= <-].
- destruct (cache_row dm t1 i 0 all [] num_zero) as [[dists xsub]|]; simpl;
    [|done].
  destruct (cache_rows dm all (S i) taxa) as [rest|] eqn:Hrest; simpl; [|done].
  intros [= <-]. simpl. f_equal. by eapply IH.
Qed.
End PoolFacts.

Lemma leaves_of_leaves (taxa : list label) :
  (Leaf <$> taxa) ≫= get_leaf_list = taxa.
Proof. induction taxa as [|t taxa IH]; simpl; [done|]. f_equal. exact IH. Qed.

(** * The loop *)

Lemma tree_inv_full T1 T2 u1 u2 :
  tree_inv T1 T2 u1 u2 →
  get_leaf_set (seed_node T2) ⊆ get_leaf_set (seed_node u1) →
  grown_from T1 u1 ∧ grown_from T2 u1.
Proof.
  intros (G1 & G2 & E) Hsub. split; [done|].
  destruct G1 as (Hwf1 & _ & _), G2 as (_ & Hsub2 & Hagree2).
  split; [done|]. split; [done|].
  eapply agree_on_trans; [|exact Hagree2].
  eapply agree_on_mono; [|exact E].
  clear -Hsub Hsub2. sets_sub.
Qed.

Lemma pool_inv_step t1 t2 u1 u2 full (l1 l2 l3 : list node) a b :
  pool_inv t1 t2 full (l1 ++ a :: l2 ++ b :: l3) →
  (∀ n, joins n a b → node_inv (seed_node u1) n ∧ node_inv (seed_node u2) n) →
  (∀ x, get_leaf_set x ## get_leaf_set a → get_leaf_set x ## get_leaf_set b →
        node_inv (seed_node t1) x → node_inv (seed_node t2) x →
        node_inv (seed_node u1) x ∧ node_inv (seed_node u2) x) →
  pool_inv u1 u2 full ((l1 ++ l2 ++ l3) ++ [Internal a b]).
Proof.
  intros (Hnd & Hset & Hall) Hn Hx.
  pose proof (pool_split_perm l1 l2 l3 a b) as Hperm.
  rewrite Hperm in Hnd, Hall. rewrite Hperm in Hset.
  pose proof (pool_leaves_apart _ _ _ Hnd) as (_ & _ & _ & Hapart).
  split; [|split].
  - by rewrite pool_leaves_joined.
  - by rewrite pool_leaves_joined.
  - apply Forall_app. split.
    + apply Forall_forall. intros x Hin.
      apply Forall_cons in Hall as [_ Hall].
      apply Forall_cons in Hall as [_ Hall].
      rewrite Forall_forall in Hall. destruct (Hall x Hin) as [Hx1 Hx2].
      destruct (Hapart x Hin) as [HxA HxB]. by apply Hx.
    + apply Forall_singleton. apply Hn, joins_Internal.
Qed.

Section Loop.
Context {R : Type} `{Number R}.

(** The invariant leaves at least two live nodes in the pool. *)
Lemma inv_two_nodes T1 T2 (st : state (R:=R)) :
inv T1 T2 st → (2 ≤ length (node_pool st))%nat.
Proof.
intros (((_ & Hsub1 & _) & _ & _) & _ & _ & Hs1 & _ & Hn1 & _ & Hpool).
destruct Hpool as (_ & Hset & Hall).
rewrite <- (length_fmap nj_tree).
destruct (nj_tree <$> node_pool st) as [|x [|y xs]]; simpl in *; [| |lia].
- exfalso. destruct (get_leaf_set_nonempty (seed_node T1)) as [l Hl].
  assert (l ∈ (∅ : gset label)) as Hin; [|by apply not_elem_of_empty in Hin].
  rewrite Hset. apply elem_of_union. auto.
- exfalso. rewrite app_nil_r in Hset. apply Forall_singleton in Hall as [Hx1 _].
  change (list_to_set (get_leaf_list x)) with (get_leaf_set x) in Hset.
  destruct Hx1 as [Hdisj|[Hsub _]].
  + destruct (get_leaf_set_nonempty (seed_node T1)) as [l Hl].
    apply (Hdisj l); [|by apply Hsub1]. rewrite Hset. apply elem_of_union. auto.
  + apply Hn1. rewrite Hset in Hsub. clear -Hsub Hs1. sets_eq.
Qed.

Lemma iteration_inv T1 T2 n (st : state (R:=R)) o :
inv T1 T2 st →
iteration (get_leaf_set (seed_node T1) ∪ get_leaf_set (seed_node T2)) n st
= Ok o →
match o with
| Return t => grown_from T1 t ∧ grown_from T2 t
| Continue st' =>
    inv T1 T2 st' ∧ S (length (node_pool st')) = length (node_pool st)
end.
Proof.
intros (Htree & Hm1 & Hm2 & Hs1 & Hs2 & Hn1 & Hn2 & Hpool).
unfold iteration.
destruct (scan_state n st) as [[[nd1 nd2]|]|] eqn:Hscan; simpl; [|done|done].
apply scan_passes in Hscan as [Hin Htest].
unfold oracle in Htest. rewrite Hm1, Hm2 in Htest |- *.
apply elem_of_all_pairs in Hin as (l1 & l2 & l3 & Hsplit).
rewrite Hsplit in Hpool |- *.
rewrite fmap_app, fmap_cons, fmap_app, fmap_cons in Hpool.
pose proof Hpool as (Hnd & Hset & Hall).
pose proof (NoDup_pool_trees _ Hnd) as Hdistinct.
pose proof (pool_split_perm (nj_tree <$> l1) (nj_tree <$> l2) (nj_tree <$> l3)
              (nj_tree nd1) (nj_tree nd2)) as Hperm.
rewrite Hperm in Hnd, Hall, Hdistinct. rewrite Hperm in Hset.
pose proof (pool_leaves_apart _ _ _ Hnd) as (HndA & HndB & HAB & _).
apply Forall_cons in Hall as [[HiA1 HiA2] Hall].
apply Forall_cons in Hall as [[HiB1 HiB2] _].
assert (get_leaf_set (nj_tree nd1) ∪ get_leaf_set (nj_tree nd2)
        ⊆ get_leaf_set (seed_node T1) ∪ get_leaf_set (seed_node T2)) as Hjoined.
{ rewrite <- Hset. simpl. rewrite !list_to_set_app_L.
  change (list_to_set (get_leaf_list (nj_tree nd1)))
    with (get_leaf_set (nj_tree nd1)).
  change (list_to_set (get_leaf_list (nj_tree nd2)))
    with (get_leaf_set (nj_tree nd2)).
  clear. sets_sub. }
destruct (join_nodes _ _ _ _ _ _) as [[[o1 o2] edited]|] eqn:Hjoin;
  simpl; [|done].
destruct (join_nodes_step T1 T2 _ _ _ _ o1 o2 edited Htree
            HiA1 HiA2 HiB1 HiB2 HndA HndB HAB Htest Hjoin)
  as (u1 & -> & [(-> & -> & G1 & G2)|(u2 & -> & Hok & Hsame)]).
- (* one tree was added whole to the other *)
  simpl. case_decide; simpl; [|done]. by intros [= <-].
- destruct Hok as (Htree' & Hsub1 & Hsub2 & Hjn & Hothers).
  assert (∀ t1' t2' m1' m2' o,
    (t1' = u1 ∧ t2' = u2) →
    m1' = map_splits_to_nodes u1 → m2' = map_splits_to_nodes u2 →
    get_leaf_set (seed_node u1)
      ≠ get_leaf_set (seed_node T1) ∪ get_leaf_set (seed_node T2) →
    get_leaf_set (seed_node u2)
      ≠ get_leaf_set (seed_node T1) ∪ get_leaf_set (seed_node T2) →
    (let new_node := Internal (nj_tree nd1) (nj_tree nd2) in
     let pool := pool_remove (nj_tree nd2)
                   (pool_remove (nj_tree nd1)
                      (l1 ++ nd1 :: l2 ++ nd2 :: l3)) in
     '(pool, new_dists, new_xsub) ←
       update_distances new_node nd1 nd2 pool [] num_zero;
     let pool := pool ++ [NJNode new_node new_dists new_xsub] in
     Ok (Continue (State t1' t2' m1' m2' pool (printed st ++ [n])))) = Ok o →
    match o with
    | Return t => grown_from T1 t ∧ grown_from T2 t
    | Continue st' =>
        inv T1 T2 st' ∧
        S (length (node_pool st')) = length (l1 ++ nd1 :: l2 ++ nd2 :: l3)
    end) as Hcontinue.
  { intros t1' t2' m1' m2' o' [-> ->] -> -> Hne1 Hne2. simpl.
    rewrite pool_remove_app.
    2:{ intros y Hy Heq. apply NoDup_cons in Hdistinct as [Hnotin _].
        apply Hnotin. right. apply elem_of_app. left.
        rewrite <- Heq. apply list_elem_of_fmap. by exists y. }
    rewrite (app_assoc l1 l2), pool_remove_app.
    2:{ intros y Hy Heq. apply NoDup_cons in Hdistinct as [_ Hdistinct].
        apply NoDup_cons in Hdistinct as [Hnotin _].
        apply Hnotin. rewrite app_assoc. apply elem_of_app. left.
        rewrite <- fmap_app, <- Heq. apply list_elem_of_fmap. by exists y. }
    destruct (update_distances _ _ _ _ _ _) as [[[pool' nd'] nx']|] eqn:Hupd;
      simpl; [|done].
    intros [= <-]. simpl.
    apply update_distances_trees in Hupd.
    split.
    - split; [done|]. split; [done|]. split; [done|].
      split; [by etransitivity; [exact Hsub1|]; apply union_least|].
      split; [by etransitivity; [exact Hsub2|]; apply union_least|].
      split; [done|]. split; [done|].
      cbn [tree1 tree2 node_pool].
      replace (nj_tree <$> pool' ++ _)
        with (((nj_tree <$> l1) ++ (nj_tree <$> l2) ++ (nj_tree <$> l3))
              ++ [Internal (nj_tree nd1) (nj_tree nd2)]).
      2:{ rewrite fmap_app, Hupd, !fmap_app, <- !app_assoc. done. }
      by apply (pool_inv_step (tree1 st) (tree2 st)).
    - rewrite !length_app. simpl.
      rewrite <- (length_fmap nj_tree pool'), Hupd, length_fmap.
      rewrite !length_app. simpl. lia. }
  destruct edited; simpl.
  + (* at least one tree was edited *)
    case_decide as Hfull1; simpl.
    { intros [= <-]. apply (tree_inv_full T1 T2 u1 u2); [done|].
      rewrite Hfull1. apply union_subseteq_r. }
    case_decide as Hfull2; simpl.
    { intros [= <-]. apply tree_inv_sym in Htree'.
      destruct (tree_inv_full T2 T1 u2 u1) as [? ?]; [done| |done].
      rewrite Hfull2. apply union_subseteq_l. }
    by apply Hcontinue.
  + (* no tree was edited *)
    destruct (Hsame eq_refl) as [-> ->].
    by apply Hcontinue.
Qed.

Lemma nj_loop_inv T1 T2 ns n : ∀ (st : state (R:=R)) t out,
inv T1 T2 st → n = length (node_pool st) →
nj_loop (get_leaf_set (seed_node T1) ∪ get_leaf_set (seed_node T2)) ns n st
= Ok (t, out) →
grown_from T1 t ∧ grown_from T2 t.
Proof.
induction n as [|n IH]; intros st t out Hinv Hn.
- apply inv_two_nodes in Hinv. lia.
- destruct n as [|n].
  + apply inv_two_nodes in Hinv. lia.
  + cbn [nj_loop].
    destruct (iteration _ _ st) as [[t'|st']|] eqn:Hit; simpl; [| |done].
    * intros [= <- _].
      exact (iteration_inv T1 T2 (S (S n)) st (Return t') Hinv Hit).
    * destruct (iteration_inv T1 T2 _ st (Continue st') Hinv Hit)
        as [Hinv' Hlen].
      apply IH; [done|lia].
Qed.
End Loop.

(** * The merged tree displays both input trees *)

Lemma agree_on_empty r r' : agree_on ∅ r r'.
Proof.
  assert (∀ r T, in_restr ∅ r T ↔ T = ∅) as Hempty.
  { intros r0 T. split.
    - intros (S & _ & ->). apply intersection_empty_r_L.
    - intros ->. exists ∅. split; [apply is_split_empty|].
      symmetry. apply intersection_empty_r_L. }
  intros T. by rewrite !Hempty.
Qed.

Lemma in_restr_self r T : in_restr (get_leaf_set r) r T ↔ is_split r T.
Proof.
  split.
  - intros (S & HS & ->). pose proof (proj1 HS) as Hsub.
    replace (S ∩ get_leaf_set r) with S; [done|].
    clear -Hsub. sets_eq.
  - intros HS. exists T. split; [done|]. pose proof (proj1 HS) as Hsub.
    clear -Hsub. sets_eq.
Qed.

Lemma same_splits_intro r r' :
  get_leaf_list r ≡ₚ get_leaf_list r' →
  (∀ S, is_split r S ↔ is_split r' S) →
  same_splits r r'.
Proof.
  intros Hperm Hsplits. pose proof (perm_leaf_set _ _ Hperm) as HL.
  split; [done|]. split.
  - intros nd Hnd.
    assert (is_split r' (get_leaf_set nd)) as (_ & nd' & Hnd' & Hor).
    { apply Hsplits, clade_is_split. by exists nd. }
    exists nd'. split; [done|]. by rewrite HL.
  - intros nd Hnd.
    assert (is_split r (get_leaf_set nd)) as (_ & nd' & Hnd' & Hor).
    { apply Hsplits, clade_is_split. by exists nd. }
    exists nd'. split; [done|]. by rewrite <- HL.
Qed.

(** A tree that has grown out of [T], pruned back to the leaves of [T], is
    [T] as an unrooted tree. *)
Lemma grown_from_displays T out :
  wf_tree T → grown_from T out →
  ∃ r, retain_taxa_with_labels (seed_node out) (get_leaf_set (seed_node T))
       = Some r ∧
       same_splits r (seed_node T).
Proof.
  intros [HndT _] ([Hnd _] & Hsub & Hagree).
  pose proof (retain_spec (seed_node out) (get_leaf_set (seed_node T))) as Hsp.
  destruct (retain_taxa_with_labels _ _) as [r|] eqn:Hret.
  - exists r. split; [done|]. destruct Hsp as (HL & _ & Hndr).
    assert (get_leaf_set r = get_leaf_set (seed_node T)) as HL'.
    { rewrite HL. clear -Hsub. sets_eq. }
    apply same_splits_intro.
    + apply NoDup_Permutation; [by apply Hndr|done|].
      intros l. by rewrite <- !elem_of_get_leaf_set, HL'.
    + intros S. rewrite (is_split_retain _ _ _ S Hsub Hret).
      rewrite (Hagree S). apply in_restr_self.
  - exfalso. destruct (get_leaf_set_nonempty (seed_node T)) as [l Hl].
    apply (Hsp l); [by apply Hsub|done].
Qed.

Section Merge.
Context {R : Type} `{Number R}.

Lemma initial_inv (T1 T2 : tree) (pool : list (nj_node R)) taxa :
wf_tree T1 → wf_tree T2 →
get_leaf_set (seed_node T1) ∩ get_leaf_set (seed_node T2) = ∅ →
NoDup taxa →
list_to_set taxa = get_leaf_set (seed_node T1) ∪ get_leaf_set (seed_node T2) →
nj_tree <$> pool = Leaf <$> taxa →
inv T1 T2 (State T1 T2 (map_splits_to_nodes T1) (map_splits_to_nodes T2)
                 pool []).
Proof.
intros Hwf1 Hwf2 Hdisj Hnd Hset Hpool.
destruct (get_leaf_set_nonempty (seed_node T1)) as [x1 Hx1].
destruct (get_leaf_set_nonempty (seed_node T2)) as [x2 Hx2].
split; [|split; [done|split; [done|]]]; simpl.
- split; [|split].
  + split; [done|]. split; [done|]. apply agree_on_refl.
  + split; [done|]. split; [done|]. apply agree_on_refl.
  + rewrite Hdisj. apply agree_on_empty.
- split; [apply union_subseteq_l|]. split; [apply union_subseteq_r|].
  split; [|split].
  + intros Heq. clear -Heq Hdisj Hx2. sets_at x2.
  + intros Heq. clear -Heq Hdisj Hx1. sets_at x1.
  + rewrite Hpool. split; [|split].
    * by rewrite leaves_of_leaves.
    * by rewrite leaves_of_leaves.
    * apply Forall_forall. intros x Hx.
      apply list_elem_of_fmap in Hx as (l & -> & _).
      split; apply node_inv_leaf.
Qed.

(** C1: on well-formed binary trees and a matrix whose mapped taxa are the
    leaves of the two trees, each once, the tree that
    [merge_two_trees_via_nj] returns, pruned to the leaves of either input
    tree, has the leaves and the splits of that input tree: it is that
    tree as an unrooted topology.  (Whenever a tree is returned the two
    leaf sets are disjoint, since the function raises otherwise; the
    distances need neither be symmetric nor nonnegative.) *)
Theorem merge_displays_constraints (dm : pdm R) (T1 T2 out : tree) :
wf_tree T1 → wf_tree T2 →
NoDup (_mapped_taxa dm) →
list_to_set (_mapped_taxa dm)
= get_leaf_set (seed_node T1) ∪ get_leaf_set (seed_node T2) →
merge_two_trees_via_nj dm T1 T2 = Ok out →
(∃ r1, retain_taxa_with_labels (seed_node out) (get_leaf_set (seed_node T1))
       = Some r1 ∧ same_splits r1 (seed_node T1)) ∧
(∃ r2, retain_taxa_with_labels (seed_node out) (get_leaf_set (seed_node T2))
       = Some r2 ∧ same_splits r2 (seed_node T2)).
Proof.
intros Hwf1 Hwf2 Hnd Hset.
unfold merge_two_trees_via_nj, merge_two_trees_via_nj_out.
case_decide as Hshared; [done|].
case_decide as Hnames; [done|].
destruct (cache_rows _ _ _ _) as [pool|] eqn:Hcache; simpl; [|done].
destruct (nj_loop _ _ _ _) as [[t printed]|] eqn:Hloop; simpl; [|done].
intros [= <-].
apply cache_rows_trees in Hcache.
assert (get_leaf_set (seed_node T1) ∩ get_leaf_set (seed_node T2) = ∅)
  as Hdisj.
{ by apply size_empty_inv, leibniz_equiv in Hshared. }
pose proof (initial_inv T1 T2 pool _ Hwf1 Hwf2 Hdisj Hnd Hset Hcache) as Hinv.
destruct (nj_loop_inv T1 T2 (pdm_taxon_namespace dm)
            (length (_mapped_taxa dm)) _ t printed Hinv) as [G1 G2].
- simpl. by rewrite <- (length_fmap nj_tree pool), Hcache, length_fmap.
- exact Hloop.
- split; by apply grown_from_displays.
Qed.
End Merge.

Lemma merge_displays_constraints_witness :
  merge_two_trees_via_nj pdm_abc tree_ab tree_c
  = Ok (new_tree (Internal (Internal (Leaf "b") (Leaf "a")) (Leaf "c"))) ∧
  (∃ r1, retain_taxa_with_labels
           (Internal (Internal (Leaf "b") (Leaf "a")) (Leaf "c"))
           (get_leaf_set (seed_node tree_ab)) = Some r1 ∧
         same_splits r1 (seed_node tree_ab)) ∧
  (∃ r2, retain_taxa_with_labels
           (Internal (Internal (Leaf "b") (Leaf "a")) (Leaf "c"))
           (get_leaf_set (seed_node tree_c)) = Some r2 ∧
         same_splits r2 (seed_node tree_c)).
Proof.
  assert (merge_two_trees_via_nj pdm_abc tree_ab tree_c
          = Ok (new_tree (Internal (Internal (Leaf "b") (Leaf "a")) (Leaf "c"))))
    as Hrun by (vm_compute; reflexivity).
  split; [exact Hrun|].
  apply (merge_displays_constraints pdm_abc tree_ab tree_c
           (new_tree (Internal (Internal (Leaf "b") (Leaf "a")) (Leaf "c")))).
  - apply wf_new_tree. by_compute.
  - apply wf_new_tree. by_compute.
  - by_compute.
  - by_compute.
  - exact Hrun.
Defined.

(** * Rejections of the oracle *)

(** Trees that [are_two_trees_incompatible] finds incompatible do differ
    in their splits on the shared labels. *)
Lemma incompatible_disagree (u1 u2 : tree) :
  are_two_trees_incompatible u1 u2 = true →
  ¬ agree_on (get_leaf_set (seed_node u1) ∩ get_leaf_set (seed_node u2))
             (seed_node u1) (seed_node u2).
Proof.
  unfold are_two_trees_incompatible.
  set (K := get_leaf_set (seed_node u1) ∩ get_leaf_set (seed_node u2)).
  assert (K ⊆ get_leaf_set (seed_node u1)) as HK1
    by apply intersection_subseteq_l.
  assert (K ⊆ get_leaf_set (seed_node u2)) as HK2
    by apply intersection_subseteq_r.
  assert ((list_to_set (elements K) : gset label) = K) as HKset
    by apply list_to_set_elements_L.
  destruct (decide (length (elements K) < 4)%nat) as [Hlt|Hge]; [done|].
  rewrite HKset.
  destruct (retain_taxa_with_labels (seed_node u1) K) as [r1|] eqn:Hr1; [|done].
  destruct (retain_taxa_with_labels (seed_node u2) K) as [r2|] eqn:Hr2; [|done].
  intros Hdec Hagree. apply bool_decide_eq_true in Hdec.
  pose proof (retain_spec (seed_node u1) K) as Hsp1. rewrite Hr1 in Hsp1.
  pose proof (retain_spec (seed_node u2) K) as Hsp2. rewrite Hr2 in Hsp2.
  destruct Hsp1 as (HL1 & _ & _), Hsp2 as (HL2 & _ & _).
  assert (get_leaf_set r1 = K) as HL1'.
  { rewrite HL1. clear -HK1. sets_eq. }
  assert (get_leaf_set r2 = K) as HL2'.
  { rewrite HL2. clear -HK2. sets_eq. }
  assert (∀ T, is_split r1 T ↔ is_split r2 T) as Hsame.
  { intros T.
    rewrite (is_split_retain _ K r1 T HK1 Hr1).
    rewrite (is_split_retain _ K r2 T HK2 Hr2).
    apply Hagree. }
  assert (∀ r r', list_to_set (elements K) = get_leaf_set r →
                  list_to_set (elements K) = get_leaf_set r' →
                  (∀ T, is_split r T → is_split r' T) →
                  bipartition_encoding (elements K) r
                    ⊆ bipartition_encoding (elements K) r') as Hsub.
  { intros r r' Hns Hns' Himp m Hm.
    apply (elem_of_bipartition_encoding _ _ _ Hns) in Hm as (C & HC & ->).
    apply clade_is_split, Himp in HC.
    by apply (is_split_encoding _ _ _ Hns') in HC as [_ HC]. }
  assert (bipartition_encoding (elements K) r1
            ⊆ bipartition_encoding (elements K) r2) as H12.
  { apply Hsub; [by rewrite HKset|by rewrite HKset|]. intros T. apply Hsame. }
  assert (bipartition_encoding (elements K) r2
            ⊆ bipartition_encoding (elements K) r1) as H21.
  { apply Hsub; [by rewrite HKset|by rewrite HKset|]. intros T. apply Hsame. }
  destruct Hdec as [Hfp|Hfn].
  - assert (bipartition_encoding (elements K) r2
              ∖ bipartition_encoding (elements K) r1 = ∅) as Hempty.
    { apply set_eq. intros m. specialize (H21 m). set_unfold. tauto. }
    rewrite Hempty, size_empty in Hfp. lia.
  - assert (bipartition_encoding (elements K) r1
              ∖ bipartition_encoding (elements K) r2 = ∅) as Hempty.
    { apply set_eq. intros m. specialize (H12 m). set_unfold. tauto. }
    rewrite Hempty, size_empty in Hfn. lia.
Qed.

(** C4: when the oracle rejects a pair on well-formed trees, the join of
    that pair either does not go through, or leaves a constraint tree in
    which both clades are splits and their union is none (the two are not
    siblings there), or yields two trees that [are_two_trees_incompatible]
    finds incompatible and whose splits, cut down to the leaves they
    share, do differ. *)
Theorem rejection_sound (tree1 tree2 : tree) (nodeA nodeB : node) :
  wf_tree tree1 → wf_tree tree2 →
  test_join tree1 tree2 (map_splits_to_nodes tree1) (map_splits_to_nodes tree2)
            nodeA nodeB = Ok true →
  match join_nodes tree1 tree2 (map_splits_to_nodes tree1)
                   (map_splits_to_nodes tree2) nodeA nodeB with
  | Raise _ => True
  | Ok (t1, t2, _) =>
      (∃ t, (t1 = Some t ∨ t2 = Some t) ∧ not_siblings_in t nodeA nodeB) ∨
      (∃ u1 u2, t1 = Some u1 ∧ t2 = Some u2 ∧
                are_two_trees_incompatible u1 u2 = true ∧
                ¬ agree_on (get_leaf_set (seed_node u1)
                              ∩ get_leaf_set (seed_node u2))
                           (seed_node u1) (seed_node u2))
  end.
Proof.
  intros Hwf1 Hwf2. unfold test_join, join_nodes.
  destruct (not_disjoint _ _); [done|].
  destruct (find_in_tree tree1 _ nodeA _) as [[nAT1|]|] eqn:HA1; simpl; [| |done];
  (destruct (find_in_tree tree1 _ nodeB _) as [[nBT1|]|] eqn:HB1; simpl; [| |done]);
  (destruct (find_in_tree tree2 _ nodeA _) as [[nAT2|]|] eqn:HA2; simpl; [| |done]);
  (destruct (find_in_tree tree2 _ nodeB _) as [[nBT2|]|] eqn:HB2; simpl; try done).
  - (* Case 1 *)
    destruct (get_node_from_clade tree1 _ _) as [node1|] eqn:H1; simpl; [|done].
    destruct (get_node_from_clade tree2 _ _) as [node2|] eqn:H2; simpl; [|done].
    intros [= Hor]. apply bool_decide_eq_true in Hor as [-> | ->]; left.
    + exists tree1. split; [by left|]. by eapply local_rejection.
    + exists tree2. split; [by right|]. by eapply local_rejection.
  - (* Case 2 *)
    destruct (get_node_from_clade tree1 _ _) as [node1|] eqn:H1; simpl; [|done].
    intros [= Hnone]. apply bool_decide_eq_true in Hnone as ->.
    destruct (join_nodes_in_one_tree _ _ _ _ _ _) as [[t1 t2]|] eqn:Hjoin;
      simpl; [|done].
    left. exists t1. split; [by left|].
    apply (not_siblings_same_splits tree1).
    + by eapply join_nodes_in_one_tree_same_splits.
    + by eapply local_rejection.
  - (* Case 4 *)
    destruct (get_node_from_clade tree1 _ _) as [node1|] eqn:H1; simpl; [|done].
    intros [= Hnone]. apply bool_decide_eq_true in Hnone as ->.
    destruct (join_nodes_in_one_tree _ _ _ _ _ _) as [[t1 t2]|] eqn:Hjoin;
      simpl; [|done].
    left. exists t1. split; [by left|].
    apply (not_siblings_same_splits tree1).
    + by eapply join_nodes_in_one_tree_same_splits.
    + by eapply local_rejection.
  - (* Case 5 *)
    destruct (get_node_from_clade tree1 _ _) as [node1|] eqn:H1; simpl; [|done].
    intros [= Hnone]. apply bool_decide_eq_true in Hnone as ->.
    left. exists tree1. split; [by left|]. by eapply local_rejection.
  - (* Case 3 *)
    destruct (get_node_from_clade tree2 _ _) as [node2|] eqn:H2; simpl; [|done].
    intros [= Hnone]. apply bool_decide_eq_true in Hnone as ->.
    destruct (join_nodes_in_one_tree _ _ _ _ _ _) as [[t2 t1]|] eqn:Hjoin;
      simpl; [|done].
    left. exists t2. split; [by right|].
    apply (not_siblings_same_splits tree2).
    + by eapply join_nodes_in_one_tree_same_splits.
    + by eapply local_rejection.
  - (* Case 6 *)
    destruct (join_nodes_in_both_trees _ _ _ _ _ _ true) as [[[u1|] [u2|]]|]
      eqn:Htest; simpl; try done.
    intros [= Hinc].
    rewrite (join_nodes_in_both_trees_test _ _ _ _ _ _ _ _ Htest). simpl.
    right. exists u1, u2. split; [done|]. split; [done|]. split; [done|].
    by apply incompatible_disagree.
  - (* Case 7 *)
    destruct (get_node_from_clade tree2 _ _) as [node2|] eqn:H2; simpl; [|done].
    intros [= Hnone]. apply bool_decide_eq_true in Hnone as ->.
    destruct (join_nodes_in_one_tree _ _ _ _ _ _) as [[t2 t1]|] eqn:Hjoin;
      simpl; [|done].
    left. exists t2. split; [by right|].
    apply (not_siblings_same_splits tree2).
    + by eapply join_nodes_in_one_tree_same_splits.
    + by eapply local_rejection.
  - (* Case 8 *)
    destruct (join_nodes_in_both_trees _ _ _ _ _ _ true) as [[[u1|] [u2|]]|]
      eqn:Htest; simpl; try done.
    intros [= Hinc].
    rewrite (join_nodes_in_both_trees_test _ _ _ _ _ _ _ _ Htest). simpl.
    right. exists u1, u2. split; [done|]. split; [done|]. split; [done|].
    by apply incompatible_disagree.
  - (* Case 9 *)
    destruct (get_node_from_clade tree2 _ _) as [node2|] eqn:H2; simpl; [|done].
    intros [= Hnone]. apply bool_decide_eq_true in Hnone as ->.
    left. exists tree2. split; [by right|]. by eapply local_rejection.
Qed.

Lemma rejection_sound_witness :
  test_join tree_ab_cd tree_e (map_splits_to_nodes tree_ab_cd)
            (map_splits_to_nodes tree_e) (Leaf "a") (Leaf "c") = Ok true ∧
  join_nodes tree_ab_cd tree_e (map_splits_to_nodes tree_ab_cd)
             (map_splits_to_nodes tree_e) (Leaf "a") (Leaf "c")
  = Ok (Some tree_ab_cd, Some tree_e, false) ∧
  match join_nodes tree_ab_cd tree_e (map_splits_to_nodes tree_ab_cd)
                   (map_splits_to_nodes tree_e) (Leaf "a") (Leaf "c") with
  | Raise _ => True
  | Ok (t1, t2, _) =>
      (∃ t, (t1 = Some t ∨ t2 = Some t) ∧
            not_siblings_in t (Leaf "a") (Leaf "c")) ∨
      (∃ u1 u2, t1 = Some u1 ∧ t2 = Some u2 ∧
                are_two_trees_incompatible u1 u2 = true ∧
                ¬ agree_on (get_leaf_set (seed_node u1)
                              ∩ get_leaf_set (seed_node u2))
                           (seed_node u1) (seed_node u2))
  end.
Proof.
  assert (test_join tree_ab_cd tree_e (map_splits_to_nodes tree_ab_cd)
            (map_splits_to_nodes tree_e) (Leaf "a") (Leaf "c") = Ok true)
    as Htest by (vm_compute; reflexivity).
  split; [exact Htest|]. split; [vm_compute; reflexivity|].
  apply rejection_sound; [| |exact Htest]; apply wf_new_tree; by_compute.
Defined.

(** * What the compatibility check answers *)

Lemma incompatible_false_iff (u1 u2 : tree) :
  are_two_trees_incompatible u1 u2 = false ↔
  agree_on (get_leaf_set (seed_node u1) ∩ get_leaf_set (seed_node u2))
           (seed_node u1) (seed_node u2).
Proof.
  split; [apply compatible_agree_on|].
  intros Hagree.
  destruct (are_two_trees_incompatible u1 u2) eqn:Hinc; [|done].
  by apply incompatible_disagree in Hinc.
Qed.

(** X1 (lines 121-164): [are_two_trees_incompatible] answers [False]
    exactly when the two trees, cut down to the labels they share, have the
    same split sides, and [True] exactly when they do not. *)
Theorem compatible_iff_agree (u1 u2 : tree) :
  (are_two_trees_incompatible u1 u2 = false ↔
   agree_on (get_leaf_set (seed_node u1) ∩ get_leaf_set (seed_node u2))
            (seed_node u1) (seed_node u2)) ∧
  (are_two_trees_incompatible u1 u2 = true ↔
   ¬ agree_on (get_leaf_set (seed_node u1) ∩ get_leaf_set (seed_node u2))
              (seed_node u1) (seed_node u2)).
Proof.
  split; [apply incompatible_false_iff|].
  rewrite <- incompatible_false_iff.
  destruct (are_two_trees_incompatible u1 u2); split; congruence.
Qed.

Lemma bool_eq_false_iff (b b' : bool) : (b = false ↔ b' = false) → b = b'.
Proof. destruct b, b'; intuition congruence. Qed.

(** X2 (lines 121-164): the check does not depend on the order of its two
    arguments. *)
Theorem are_two_trees_incompatible_sym (u1 u2 : tree) :
  are_two_trees_incompatible u1 u2 = are_two_trees_incompatible u2 u1.
Proof.
  apply bool_eq_false_iff. rewrite !incompatible_false_iff.
  rewrite (comm_L (∩) (get_leaf_set (seed_node u2))).
  split; apply agree_on_sym.
Qed.

Lemma incompatible_same_splits u1 u1' u2 u2' :
  same_splits (seed_node u1) (seed_node u1') →
  same_splits (seed_node u2) (seed_node u2') →
  are_two_trees_incompatible u1 u2 = are_two_trees_incompatible u1' u2'.
Proof.
  intros H1 H2. apply bool_eq_false_iff. rewrite !incompatible_false_iff.
  rewrite <- (perm_leaf_set _ _ (proj1 H1)), <- (perm_leaf_set _ _ (proj1 H2)).
  split; intros Hagree.
  - eapply agree_on_trans; [by apply same_splits_agree_on, same_splits_sym|].
    eapply agree_on_trans; [exact Hagree|]. by apply same_splits_agree_on.
  - eapply agree_on_trans; [by apply same_splits_agree_on|].
    eapply agree_on_trans; [exact Hagree|].
    by apply same_splits_agree_on, same_splits_sym.
Qed.

(** X3 (lines 121-164): the check sees the trees as unrooted: re-rooting
    either tree does not change the answer, and a tree is never found
    incompatible with a re-rooted copy of itself. *)
Theorem are_two_trees_incompatible_unrooted u1 u1' u2 u2' :
  same_splits (seed_node u1) (seed_node u1') →
  same_splits (seed_node u2) (seed_node u2') →
  are_two_trees_incompatible u1 u2 = are_two_trees_incompatible u1' u2' ∧
  are_two_trees_incompatible u1 u1' = false.
Proof.
  intros H1 H2. split; [by apply incompatible_same_splits|].
  apply incompatible_false_iff. by apply same_splits_agree_on.
Qed.

Lemma are_two_trees_incompatible_unrooted_witness :
  reroot_at_edge tree_ab_cd (Leaf "a") = Some tree_a_bcd ∧
  are_two_trees_incompatible tree_ab_cd tree_ac_bd = true ∧
  are_two_trees_incompatible tree_ab_cd tree_ac_bd
  = are_two_trees_incompatible tree_a_bcd tree_ac_bd ∧
  are_two_trees_incompatible tree_ab_cd tree_a_bcd = false.
Proof.
  assert (reroot_at_edge tree_ab_cd (Leaf "a") = Some tree_a_bcd) as Hre
    by (vm_compute; reflexivity).
  split; [exact Hre|]. split; [vm_compute; reflexivity|].
  apply are_two_trees_incompatible_unrooted.
  - apply (reroot_at_edge_same_splits tree_ab_cd (Leaf "a")); [|exact Hre].
    apply wf_new_tree. by_compute.
  - apply same_splits_refl.
Defined.

(** * The lookup of a clade and the re-rooting at the node found *)

(** X4 (lines 167-242): on a tree whose namespace lists exactly its
    leaves, with the map that [map_splits_to_nodes] builds, the lookup
    never raises; it finds a node exactly when the label set is one side of
    the split at some edge, and the clade of the node found is the label
    set or its complement. *)
Theorem get_node_from_clade_finds_splits t clade :
  wf_tree t →
  ∃ r, get_node_from_clade t (map_splits_to_nodes t) clade = Ok r ∧
       (is_Some r ↔ is_split (seed_node t) (list_to_set clade)) ∧
       ∀ w, r = Some w →
            w ∈ postorder (seed_node t) ∧
            (get_leaf_set w = list_to_set clade ∨
             get_leaf_set w = get_leaf_set (seed_node t) ∖ list_to_set clade).
Proof.
  intros Hwf. rewrite get_node_from_clade_unfold. simpl.
  destruct (decide (get_leaf_set (seed_node t) = list_to_set clade)) as [Heq|Hne].
  - rewrite map_splits_zero by done. eexists. split; [done|]. split.
    + split; [|by eexists]. intros _. rewrite <- Heq. apply is_split_full.
    + intros w [= <-]. split; [apply postorder_self|by left].
  - destruct (decide (list_to_set clade ⊆ get_leaf_set (seed_node t)))
      as [Hsub|Hnsub].
    + eexists. split; [done|]. split.
      * split.
        -- intros [w Hw]. split; [done|].
           apply map_splits_lookup_sound in Hw as [Hpost Hor]; [|done|done].
           by exists w.
        -- intros Hsplit. by apply map_splits_lookup_complete.
      * intros w Hw. by apply map_splits_lookup_sound in Hw.
    + exists None. split; [done|]. split; [|done].
      split; [by intros [? ?]|]. intros [Hsub _]. done.
Qed.

Lemma get_node_from_clade_finds_splits_witness :
  ∃ r, get_node_from_clade tree_ab_cd (map_splits_to_nodes tree_ab_cd)
         ["c"; "d"] = Ok r ∧
       (is_Some r ↔ is_split (seed_node tree_ab_cd) (list_to_set ["c"; "d"])) ∧
       ∀ w, r = Some w →
            w ∈ postorder (seed_node tree_ab_cd) ∧
            (get_leaf_set w = list_to_set ["c"; "d"] ∨
             get_leaf_set w
             = get_leaf_set (seed_node tree_ab_cd) ∖ list_to_set ["c"; "d"]).
Proof.
  apply get_node_from_clade_finds_splits. apply wf_new_tree. by_compute.
Defined.

(** Cutting off a node of the tree succeeds, unless the node is the whole
    tree and nothing hangs above it. *)
Lemma cut_off_finds target cur : ∀ above,
  target ∈ postorder cur → is_Some above ∨ target ≠ cur →
  is_Some (cut_off target cur above).
Proof.
  induction cur as [l|a IHa b IHb]; intros above Hin Hor; simpl.
  - apply postorder_Leaf in Hin as ->.
    rewrite decide_True by done. destruct Hor as [?|?]; done.
  - destruct (decide (Internal a b = target)) as [<-|Hne].
    { destruct Hor as [?|?]; done. }
    apply postorder_Internal in Hin as [Hin|[Hin| ->]]; [| |done].
    + destruct (IHa (turn b above) Hin) as [rest ->]; [|by eexists].
      left. destruct above; by eexists.
    + destruct (cut_off target a (turn b above)); [by eexists|].
      apply IHb; [done|]. left. destruct above; by eexists.
Qed.

Lemma rest_leaf_set r x y :
  NoDup (get_leaf_list r) → same_splits r (Internal x y) →
  get_leaf_set y = get_leaf_set r ∖ get_leaf_set x.
Proof.
  intros Hnd [Hperm _].
  assert (NoDup (get_leaf_list (Internal x y))) as Hnd' by (by rewrite <- Hperm).
  rewrite (perm_leaf_set _ _ Hperm). by apply sibling_complement.
Qed.

(** Re-rooting at a node of the tree other than the seed node, as
    [extract_nodes_from_split] does it. *)
Lemma extract_nodes_from_split_node t nd clade :
  wf_tree t → nd ∈ postorder (seed_node t) → nd ≠ seed_node t →
  ∃ rest,
    reroot_at_edge t nd = Some (Tree (taxon_namespace t) (Internal nd rest)) ∧
    get_leaf_set rest = get_leaf_set (seed_node t) ∖ get_leaf_set nd ∧
    extract_nodes_from_split t (TreeNode nd) clade =
      if decide (get_leaf_set nd = list_to_set clade)
      then Ok (Tree (taxon_namespace t) (Internal nd rest), nd)
      else if decide (get_leaf_set rest = list_to_set clade)
      then Ok (Tree (taxon_namespace t) (Internal nd rest), rest)
      else Raise (Exception "Cannot handle this bipartition!").
Proof.
  intros Hwf Hin Hne.
  destruct (cut_off_finds nd (seed_node t) None Hin) as [rest Hcut]; [by right|].
  exists rest.
  assert (reroot_at_edge t nd = Some (Tree (taxon_namespace t) (Internal nd rest)))
    as Hre by (unfold reroot_at_edge; by rewrite Hcut).
  split; [done|]. split.
  - apply (reroot_at_edge_same_splits t nd) in Hre as (_ & _ & Hsame & _);
      [|done].
    simpl in Hsame. apply rest_leaf_set; [by apply wf_tree_NoDup|done].
  - unfold extract_nodes_from_split. rewrite decide_False by done.
    rewrite Hre. simpl. done.
Qed.

(** X5 (lines 245-287): re-rooting at a node of the tree other than the
    seed node succeeds exactly for the clade of the node and for its
    complement; the node returned has the requested clade and is a child
    of the new seed node, and the tree has the splits it had.  Any other
    label set ends in the "Cannot handle this bipartition" exception. *)
Theorem extract_nodes_from_split_cases t nd clade :
  wf_tree t → nd ∈ postorder (seed_node t) → nd ≠ seed_node t →
  (list_to_set clade = get_leaf_set nd ∨
   list_to_set clade = get_leaf_set (seed_node t) ∖ get_leaf_set nd →
   ∃ t' found rest,
     extract_nodes_from_split t (TreeNode nd) clade = Ok (t', found) ∧
     get_leaf_set found = list_to_set clade ∧
     (seed_node t' = Internal found rest ∨ seed_node t' = Internal rest found) ∧
     taxon_namespace t' = taxon_namespace t ∧
     wf_tree t' ∧ same_splits (seed_node t) (seed_node t')) ∧
  (list_to_set clade ≠ get_leaf_set nd →
   list_to_set clade ≠ get_leaf_set (seed_node t) ∖ get_leaf_set nd →
   extract_nodes_from_split t (TreeNode nd) clade
   = Raise (Exception "Cannot handle this bipartition!")).
Proof.
  intros Hwf Hin Hne.
  destruct (extract_nodes_from_split_node t nd clade Hwf Hin Hne)
    as (rest & Hre & Hrest & ->).
  destruct (reroot_at_edge_same_splits t nd _ Hwf Hre) as (Hwf' & _ & Hsame & _).
  split.
  - intros [Heq|Heq].
    + rewrite decide_True by done.
      exists (Tree (taxon_namespace t) (Internal nd rest)), nd, rest.
      split; [done|]. split; [done|]. split; [by left|]. done.
    + destruct (decide (get_leaf_set nd = list_to_set clade)) as [Heq'|Hne'].
      * exists (Tree (taxon_namespace t) (Internal nd rest)), nd, rest.
        split; [done|]. split; [done|]. split; [by left|]. done.
      * rewrite decide_True by (by rewrite Hrest).
        exists (Tree (taxon_namespace t) (Internal nd rest)), rest, nd.
        split; [done|]. split; [by rewrite Hrest|]. split; [by right|]. done.
  - intros H1 H2. rewrite decide_False by done.
    rewrite decide_False; [done|]. by rewrite Hrest.
Qed.

Lemma extract_nodes_from_split_cases_witness :
  ∃ t' found rest,
    extract_nodes_from_split tree_ab_cd (TreeNode (Leaf "a")) ["b"; "c"; "d"]
    = Ok (t', found) ∧
    get_leaf_set found = list_to_set ["b"; "c"; "d"] ∧
    (seed_node t' = Internal found rest ∨ seed_node t' = Internal rest found) ∧
    taxon_namespace t' = taxon_namespace tree_ab_cd ∧
    wf_tree t' ∧ same_splits (seed_node tree_ab_cd) (seed_node t').
Proof.
  assert (wf_tree tree_ab_cd) as Hwf by (apply wf_new_tree; by_compute).
  destruct (extract_nodes_from_split_cases tree_ab_cd (Leaf "a")
              ["b"; "c"; "d"] Hwf) as [Hok _].
  - by_compute.
  - by_compute.
  - apply Hok. right. by_compute.
Defined.

(** The node that a lookup finds carries the label set or its
    complement. *)
Lemma lookup_Some_node t clade w :
  wf_tree t →
  get_node_from_clade t (map_splits_to_nodes t) clade = Ok (Some w) →
  w ∈ postorder (seed_node t) ∧
  (get_leaf_set w = list_to_set clade ∨
   get_leaf_set w = get_leaf_set (seed_node t) ∖ list_to_set clade).
Proof.
  intros Hwf. rewrite get_node_from_clade_unfold. simpl.
  destruct (decide (get_leaf_set (seed_node t) = list_to_set clade)) as [Heq|Hne].
  - rewrite map_splits_zero by done. intros [= <-].
    split; [apply postorder_self|by left].
  - destruct (decide (list_to_set clade ⊆ get_leaf_set (seed_node t)));
      [|done].
    intros [= Hw]. by apply map_splits_lookup_sound in Hw.
Qed.

(** X6 (lines 209-287): the node that the lookup finds for a label set
    that is neither empty nor the whole leaf set can always be re-rooted
    at: [extract_nodes_from_split] succeeds on it, and returns the tree
    with its splits kept and a child of the seed node whose clade is the
    label set. *)
Theorem extract_after_lookup t clade w :
  wf_tree t →
  (list_to_set clade : gset label) ≠ ∅ →
  list_to_set clade ≠ get_leaf_set (seed_node t) →
  get_node_from_clade t (map_splits_to_nodes t) clade = Ok (Some w) →
  ∃ t' found rest,
    extract_nodes_from_split t (TreeNode w) clade = Ok (t', found) ∧
    get_leaf_set found = list_to_set clade ∧
    (seed_node t' = Internal found rest ∨ seed_node t' = Internal rest found) ∧
    wf_tree t' ∧ same_splits (seed_node t) (seed_node t').
Proof.
  intros Hwf Hne Hnfull Hget.
  pose proof (lookup_Some_is_split t clade w Hwf Hget) as [Hsub _].
  destruct (lookup_Some_node t clade w Hwf Hget) as [Hin Hor].
  apply set_choose_L in Hne as [s Hs].
  assert (w ≠ seed_node t) as Hnseed.
  { intros ->. destruct Hor as [Heq|Heq]; [by apply Hnfull|].
    assert (s ∈ get_leaf_set (seed_node t)) as Hin' by (by apply Hsub).
    rewrite Heq in Hin'. apply elem_of_difference in Hin'. tauto. }
  destruct (extract_nodes_from_split_node t w clade Hwf Hin Hnseed)
    as (rest & Hre & Hrest & ->).
  destruct (reroot_at_edge_same_splits t w _ Hwf Hre) as (Hwf' & _ & Hsame & _).
  destruct Hor as [Heq|Heq].
  - rewrite decide_True by done.
    exists (Tree (taxon_namespace t) (Internal w rest)), w, rest.
    split; [done|]. split; [done|]. split; [by left|]. done.
  - rewrite decide_False.
    2:{ intros Heq'. rewrite Heq' in Heq.
        assert (s ∈ get_leaf_set (seed_node t) ∖ list_to_set clade) as Hin'
          by (by rewrite <- Heq).
        apply elem_of_difference in Hin'. tauto. }
    assert (get_leaf_set rest = list_to_set clade) as Hrest'.
    { rewrite Hrest, Heq. by apply difference_twice. }
    rewrite decide_True by done.
    exists (Tree (taxon_namespace t) (Internal w rest)), rest, w.
    split; [done|]. split; [done|]. split; [by right|]. done.
Qed.

Lemma extract_after_lookup_witness :
  get_node_from_clade tree_ab_cd (map_splits_to_nodes tree_ab_cd) ["a"]
  = Ok (Some (Leaf "a")) ∧
  ∃ t' found rest,
    extract_nodes_from_split tree_ab_cd (TreeNode (Leaf "a")) ["a"]
    = Ok (t', found) ∧
    get_leaf_set found = list_to_set ["a"] ∧
    (seed_node t' = Internal found rest ∨ seed_node t' = Internal rest found) ∧
    wf_tree t' ∧ same_splits (seed_node tree_ab_cd) (seed_node t').
Proof.
  assert (get_node_from_clade tree_ab_cd (map_splits_to_nodes tree_ab_cd) ["a"]
          = Ok (Some (Leaf "a"))) as Hget by (vm_compute; reflexivity).
  split; [exact Hget|].
  apply extract_after_lookup; [| | |exact Hget].
  - apply wf_new_tree. by_compute.
  - by_compute.
  - by_compute.
Defined.

(** * What the two editors build *)

(** X7 (lines 382-417): when [join_nodes_in_one_tree] moves a clade whose
    labels are new to the second tree, the first tree keeps its splits;
    the second tree gets exactly the labels of the clade on top of its
    own, keeps its splits on its old labels, and has the clade that was
    moved, the clade it was hung beside, and their union as split sides:
    the two clades are siblings there. *)
Theorem join_nodes_in_one_tree_result D nP cladeP Rc nQ cladeQ tD tR :
  wf_tree D → wf_tree Rc →
  list_to_set cladeP ## get_leaf_set (seed_node Rc) →
  join_nodes_in_one_tree D nP cladeP Rc nQ cladeQ = Ok (tD, tR) →
  wf_tree tD ∧ same_splits (seed_node D) (seed_node tD) ∧
  wf_tree tR ∧
  get_leaf_set (seed_node tR)
  = list_to_set cladeP ∪ get_leaf_set (seed_node Rc) ∧
  agree_on (get_leaf_set (seed_node Rc)) (seed_node tR) (seed_node Rc) ∧
  is_split (seed_node tR) (list_to_set cladeP) ∧
  is_split (seed_node tR) (list_to_set cladeQ) ∧
  is_split (seed_node tR) (list_to_set cladeP ∪ list_to_set cladeQ).
Proof.
  intros HwfD HwfR HPR. unfold join_nodes_in_one_tree.
  destruct (extract_nodes_from_split D nP _) as [[Dr fP]|] eqn:HexD;
    simpl; [|done].
  destruct (extract_nodes_from_split Rc nQ _) as [[Rr fQ]|] eqn:HexR;
    simpl; [|done].
  intros [= <- <-].
  apply extract_nodes_from_split_shape in HexD
    as (HwfDr & HsameD & HfP & HndP & restP & HintoD); [|done].
  apply extract_nodes_from_split_shape in HexR
    as (HwfRr & HsameR & HfQ & HndQ & restQ & HintoR); [|done].
  pose proof (perm_leaf_set _ _ (proj1 HsameR)) as HLR.
  assert (NoDup (get_leaf_list (Internal fP (seed_node Rr)))) as Hnd'.
  { apply NoDup_attach; [done|by apply wf_tree_NoDup|].
    by rewrite HfP, <- HLR. }
  split; [done|]. split; [done|]. split; [by apply wf_new_tree|]. simpl.
  split; [by rewrite get_leaf_set_Internal, HfP, <- HLR|].
  split; [|split; [|split]].
  - eapply agree_on_trans.
    + apply agree_on_attach_l. rewrite HfP. clear -HPR. sets_sub.
    + by apply same_splits_agree_on, same_splits_sym.
  - apply clade_is_split, clade_of_Internal. left. rewrite <- HfP.
    apply clade_of_root.
  - apply clade_is_split, clade_of_Internal. right. left.
    apply (part_clade_l _ fQ restQ); [done|]. rewrite <- HfQ.
    apply clade_of_root.
  - pose proof HintoR as (_ & HL & Hdisj & _).
    replace (list_to_set cladeP ∪ list_to_set cladeQ)
      with (get_leaf_set (Internal fP (seed_node Rr)) ∖ get_leaf_set restQ).
    + apply is_split_complement, clade_is_split, clade_of_Internal.
      right. left.
      apply (part_clade_r _ fQ restQ); [exact HintoR|apply clade_of_root].
    + rewrite get_leaf_set_Internal, HL, HfP, HfQ.
      rewrite HLR, HL, HfQ in HPR. rewrite HfQ in Hdisj.
      clear -HPR Hdisj. sets_eq.
Qed.

Lemma join_nodes_in_one_tree_result_witness :
  ∃ tD tR,
    join_nodes_in_one_tree tree_ab (TreeNode (Leaf "a")) ["a"]
                           tree_cd (TreeNode (Leaf "c")) ["c"] = Ok (tD, tR) ∧
    seed_node tR = Internal (Leaf "a") (Internal (Leaf "c") (Leaf "d")) ∧
    is_split (seed_node tR) (list_to_set ["a"] ∪ list_to_set ["c"]).
Proof.
  eexists _, _. split; [vm_compute; reflexivity|]. split; [reflexivity|].
  eapply (join_nodes_in_one_tree_result tree_ab (TreeNode (Leaf "a")) ["a"]
            tree_cd (TreeNode (Leaf "c")) ["c"]).
  - apply wf_new_tree. by_compute.
  - apply wf_new_tree. by_compute.
  - by_compute.
  - vm_compute. reflexivity.
Defined.

(** X8 (lines 290-379): when [join_nodes_in_both_trees] hands back two
    trees, each clade was new to the other tree and neither was a whole
    tree; each tree gets exactly the labels of the other tree's clade on
    top of its own and keeps its splits on its old labels, and in both
    trees the two clades and their union are split sides. *)
Theorem join_nodes_in_both_trees_result t1 nA cladeA t2 nB cladeB test u1 u2 :
  wf_tree t1 → wf_tree t2 →
  list_to_set cladeA ## get_leaf_set (seed_node t2) →
  list_to_set cladeB ## get_leaf_set (seed_node t1) →
  join_nodes_in_both_trees t1 nA cladeA t2 nB cladeB test
  = Ok (Some u1, Some u2) →
  list_to_set cladeA ≠ get_leaf_set (seed_node t1) ∧
  list_to_set cladeB ≠ get_leaf_set (seed_node t2) ∧
  wf_tree u1 ∧ wf_tree u2 ∧
  get_leaf_set (seed_node u1)
  = get_leaf_set (seed_node t1) ∪ list_to_set cladeB ∧
  get_leaf_set (seed_node u2)
  = get_leaf_set (seed_node t2) ∪ list_to_set cladeA ∧
  agree_on (get_leaf_set (seed_node t1)) (seed_node u1) (seed_node t1) ∧
  agree_on (get_leaf_set (seed_node t2)) (seed_node u2) (seed_node t2) ∧
  (∀ u, u = u1 ∨ u = u2 →
        is_split (seed_node u) (list_to_set cladeA) ∧
        is_split (seed_node u) (list_to_set cladeB) ∧
        is_split (seed_node u) (list_to_set cladeA ∪ list_to_set cladeB)).
Proof.
  intros Hwf1 Hwf2 HA2 HB1. unfold join_nodes_in_both_trees.
  destruct (bool_decide_reflect
              (get_leaf_set (seed_node t1) = list_to_set cladeA)) as [HeqA|HneA];
  destruct (bool_decide_reflect
              (get_leaf_set (seed_node t2) = list_to_set cladeB)) as [HeqB|HneB];
    simpl.
  - by destruct test.
  - destruct test; [done|].
    by destruct (extract_nodes_from_split t2 nB _) as [[? ?]|].
  - destruct test; [done|].
    by destruct (extract_nodes_from_split t1 nA _) as [[? ?]|].
  - destruct (extract_nodes_from_split t1 nA _) as [[t1r fA]|] eqn:Hex1;
      simpl; [|done].
    destruct (extract_nodes_from_split t2 nB _) as [[t2r fB]|] eqn:Hex2;
      simpl; [|done].
    intros [= <- <-].
    apply extract_nodes_from_split_shape in Hex1
      as (Hwf1r & Hsame1 & HfA & HndfA & restA & Hinto1); [|done].
    apply extract_nodes_from_split_shape in Hex2
      as (Hwf2r & Hsame2 & HfB & HndfB & restB & Hinto2); [|done].
    pose proof (perm_leaf_set _ _ (proj1 Hsame1)) as HL1.
    pose proof (perm_leaf_set _ _ (proj1 Hsame2)) as HL2.
    assert (NoDup (get_leaf_list (Internal (seed_node t1r) fB))) as Hnd1'.
    { apply NoDup_attach; [by apply wf_tree_NoDup|done|].
      rewrite <- HL1, HfB. clear -HB1. sets_sub. }
    assert (NoDup (get_leaf_list (Internal (seed_node t2r) fA))) as Hnd2'.
    { apply NoDup_attach; [by apply wf_tree_NoDup|done|].
      rewrite <- HL2, HfA. clear -HA2. sets_sub. }
    split; [done|]. split; [done|].
    split; [by apply wf_new_tree|]. split; [by apply wf_new_tree|]. simpl.
    split; [by rewrite get_leaf_set_Internal, HfB, <- HL1|].
    split; [by rewrite get_leaf_set_Internal, HfA, <- HL2|].
    split; [|split].
    + eapply agree_on_trans.
      * apply agree_on_attach_r. rewrite HfB. clear -HB1. sets_sub.
      * by apply same_splits_agree_on, same_splits_sym.
    + eapply agree_on_trans.
      * apply agree_on_attach_r. rewrite HfA. clear -HA2. sets_sub.
      * by apply same_splits_agree_on, same_splits_sym.
    + assert (∀ rr f rest p (P F : gset label),
                splits_into rr f rest → get_leaf_set f = F →
                get_leaf_set p = P → P ## get_leaf_set rr →
                is_split (Internal rr p) F ∧ is_split (Internal rr p) P ∧
                is_split (Internal rr p) (F ∪ P)) as Hsides.
      { intros rr f rest p P F Hinto HF HP Hdisj.
        pose proof Hinto as (_ & HL & Hdj & _).
        split; [|split].
        - apply clade_is_split, clade_of_Internal. left.
          apply (part_clade_l _ f rest); [done|]. rewrite <- HF.
          apply clade_of_root.
        - apply clade_is_split, clade_of_Internal. right. left.
          rewrite <- HP. apply clade_of_root.
        - replace (F ∪ P)
            with (get_leaf_set (Internal rr p) ∖ get_leaf_set rest).
          + apply is_split_complement, clade_is_split, clade_of_Internal.
            left. apply (part_clade_r _ f rest); [done|apply clade_of_root].
          + rewrite get_leaf_set_Internal, HL, HF, HP.
            rewrite HL, HF in Hdisj. rewrite HF in Hdj.
            clear -Hdisj Hdj. sets_eq. }
      intros u [-> | ->]; simpl.
      * apply (Hsides (seed_node t1r) fA restA fB); [done|done|done|].
        rewrite <- HL1. done.
      * destruct (Hsides (seed_node t2r) fB restB fA (list_to_set cladeA)
                    (list_to_set cladeB))
          as (HsB & HsA & HsAB); [done|done|done|by rewrite <- HL2|].
        split; [done|]. split; [done|]. by rewrite (comm_L (∪)).
Qed.

Lemma join_nodes_in_both_trees_result_witness :
  ∃ u1 u2,
    join_nodes_in_both_trees tree_ab (TreeNode (Leaf "a")) ["a"]
                             tree_cd (TreeNode (Leaf "c")) ["c"] false
    = Ok (Some u1, Some u2) ∧
    seed_node u1 = Internal (Internal (Leaf "a") (Leaf "b")) (Leaf "c") ∧
    seed_node u2 = Internal (Internal (Leaf "c") (Leaf "d")) (Leaf "a") ∧
    get_leaf_set (seed_node u1)
    = get_leaf_set (seed_node tree_ab) ∪ list_to_set ["c"].
Proof.
  eexists _, _. split; [vm_compute; reflexivity|].
  split; [reflexivity|]. split; [reflexivity|].
  eapply (join_nodes_in_both_trees_result tree_ab (TreeNode (Leaf "a")) ["a"]
            tree_cd (TreeNode (Leaf "c")) ["c"] false).
  - apply wf_new_tree. by_compute.
  - apply wf_new_tree. by_compute.
  - by_compute.
  - by_compute.
  - vm_compute. reflexivity.
Defined.

(** * What the oracle accepts and what the editor leaves alone *)

Lemma lookup_total t clade :
  wf_tree t →
  ∃ r, get_node_from_clade t (map_splits_to_nodes t) clade = Ok r ∧
       (is_Some r ↔ is_split (seed_node t) (list_to_set clade)).
Proof.
  intros Hwf. rewrite get_node_from_clade_unfold. simpl.
  destruct (decide (get_leaf_set (seed_node t) = list_to_set clade)) as [Heq|Hne].
  - rewrite map_splits_zero by done. eexists. split; [done|].
    split; [|by eexists]. intros _. rewrite <- Heq. apply is_split_full.
  - destruct (decide (list_to_set clade ⊆ get_leaf_set (seed_node t)))
      as [Hsub|Hnsub].
    + eexists. split; [done|]. split.
      * intros [w Hw]. split; [done|].
        apply map_splits_lookup_sound in Hw as [Hpost Hor]; [|done|done].
        by exists w.
      * intros Hsplit. by apply map_splits_lookup_complete.
    + exists None. split; [done|].
      split; [by intros [? ?]|]. intros [Hsub _]. done.
Qed.

Lemma find_in_tree_total t nd :
  wf_tree t →
  ∃ r, find_in_tree t (map_splits_to_nodes t) nd (get_leaf_list nd) = Ok r ∧
       (is_Some r ↔ is_split (seed_node t) (get_leaf_set nd)).
Proof.
  intros Hwf. unfold find_in_tree. rewrite !list_to_set_leaf_list.
  destruct (decide (get_leaf_set nd = get_leaf_set (seed_node t))) as [Heq|Hne].
  - eexists. split; [done|]. split; [|by eexists].
    intros _. rewrite Heq. apply is_split_full.
  - destruct (lookup_total t (get_leaf_list nd) Hwf) as (r & -> & Hr). simpl.
    eexists. split; [done|]. rewrite list_to_set_leaf_list in Hr.
    rewrite <- Hr.
    destruct r; simpl; [split; by eexists|split; by intros [? ?]].
Qed.

Lemma not_disjoint_false a b :
  not_disjoint (get_leaf_list a) (get_leaf_list b) = false ↔
  get_leaf_set a ## get_leaf_set b.
Proof.
  unfold not_disjoint. rewrite bool_decide_eq_false, !list_to_set_leaf_list.
  split.
  - intros Hsize. apply disjoint_intersection_L.
    apply leibniz_equiv, size_empty_inv. lia.
  - intros Hdisj. apply disjoint_intersection_L in Hdisj.
    rewrite Hdisj, size_empty. lia.
Qed.

(** The four lookups that open [test_join] and [join_nodes], settled on
    well-formed trees: each is replaced by its result and by whether the
    clade is a split side of the tree. *)
Ltac settle_lookups Hwf1 Hwf2 nodeA nodeB :=
  let go Hwf nd :=
    let r := fresh "r" in let Hr := fresh "Hr" in let Hs := fresh "Hs" in
    destruct (find_in_tree_total _ nd Hwf) as (r & Hr & Hs);
    rewrite Hr; clear Hr; simpl;
    destruct r as [r|];
    [ apply proj1 in Hs; specialize (Hs (mk_is_Some _ _ eq_refl))
    | assert (is_Some (@None noderef) → False) as Hn by (by intros [? ?]);
      apply proj2 in Hs;
      let Hs' := fresh "Hs" in
      assert (¬ is_split _ (get_leaf_set nd)) as Hs'
        by (intros Hx; exact (Hn (Hs Hx)));
      clear Hs Hn ]
  in
  go Hwf1 nodeA; go Hwf1 nodeB; go Hwf2 nodeA; go Hwf2 nodeB.

(** X9 (lines 560-690): on well-formed trees [join_nodes] answers only for
    clades without a common label, and it hands the two trees back as they
    are, with the flag unset, exactly when every tree in which one of the
    two clades is a split side has the other as a split side too. *)
Theorem join_nodes_edits_iff tree1 tree2 nodeA nodeB o1 o2 edited :
  wf_tree tree1 → wf_tree tree2 →
  join_nodes tree1 tree2 (map_splits_to_nodes tree1) (map_splits_to_nodes tree2)
             nodeA nodeB = Ok (o1, o2, edited) →
  get_leaf_set nodeA ## get_leaf_set nodeB ∧
  (edited = false ↔
   (is_split (seed_node tree1) (get_leaf_set nodeA) ↔
    is_split (seed_node tree1) (get_leaf_set nodeB)) ∧
   (is_split (seed_node tree2) (get_leaf_set nodeA) ↔
    is_split (seed_node tree2) (get_leaf_set nodeB))) ∧
  (edited = false → o1 = Some tree1 ∧ o2 = Some tree2).
Proof.
  intros Hwf1 Hwf2. unfold join_nodes.
  destruct (not_disjoint _ _) eqn:Hdisj; [done|].
  apply not_disjoint_false in Hdisj.
  settle_lookups Hwf1 Hwf2 nodeA nodeB; try done;
    repeat match goal with
           | |- context [join_nodes_in_one_tree ?a ?b ?c ?d ?e ?f] =>
               destruct (join_nodes_in_one_tree a b c d e f) as [[? ?]|];
               simpl; [|done]
           | |- context [join_nodes_in_both_trees ?a ?b ?c ?d ?e ?f ?g] =>
               destruct (join_nodes_in_both_trees a b c d e f g) as [[? ?]|];
               simpl; [|done]
           end;
    intros [= <- <- <-]; (split; [done|]); split; try done;
    split; try done; tauto.
Qed.

Lemma join_nodes_edits_iff_witness :
  get_leaf_set (Leaf "a") ## get_leaf_set (Leaf "b") ∧
  (false = false ↔
   (is_split (seed_node tree_ab) (get_leaf_set (Leaf "a")) ↔
    is_split (seed_node tree_ab) (get_leaf_set (Leaf "b"))) ∧
   (is_split (seed_node tree_cd) (get_leaf_set (Leaf "a")) ↔
    is_split (seed_node tree_cd) (get_leaf_set (Leaf "b")))) ∧
  (false = false → Some tree_ab = Some tree_ab ∧ Some tree_cd = Some tree_cd).
Proof.
  apply (join_nodes_edits_iff tree_ab tree_cd (Leaf "a") (Leaf "b")).
  - apply wf_new_tree. by_compute.
  - apply wf_new_tree. by_compute.
  - vm_compute. reflexivity.
Defined.

(** X10 (lines 420-557 and 560-690): on well-formed trees the oracle and
    the editor fail alike before they look at the join: with the first
    message when the two clades share a label, with the second when the
    first clade is a split side of neither tree, with the third when the
    first is one somewhere and the second is one nowhere. *)
Theorem lookup_failures tree1 tree2 nodeA nodeB (e : exn) :
  wf_tree tree1 → wf_tree tree2 →
  (¬ get_leaf_set nodeA ## get_leaf_set nodeB ∧
   e = Exception "Nodes are not disjoint on their leaf sets!") ∨
  (get_leaf_set nodeA ## get_leaf_set nodeB ∧
   ¬ is_split (seed_node tree1) (get_leaf_set nodeA) ∧
   ¬ is_split (seed_node tree2) (get_leaf_set nodeA) ∧
   e = Exception "Node A was not found in either tree!") ∨
  (get_leaf_set nodeA ## get_leaf_set nodeB ∧
   (is_split (seed_node tree1) (get_leaf_set nodeA) ∨
    is_split (seed_node tree2) (get_leaf_set nodeA)) ∧
   ¬ is_split (seed_node tree1) (get_leaf_set nodeB) ∧
   ¬ is_split (seed_node tree2) (get_leaf_set nodeB) ∧
   e = Exception "Node B was not found in either tree!") →
  test_join tree1 tree2 (map_splits_to_nodes tree1) (map_splits_to_nodes tree2)
            nodeA nodeB = Raise e ∧
  join_nodes tree1 tree2 (map_splits_to_nodes tree1) (map_splits_to_nodes tree2)
             nodeA nodeB = Raise e.
Proof.
  intros Hwf1 Hwf2 Hcases. unfold test_join, join_nodes.
  destruct (not_disjoint _ _) eqn:Hdisj.
  - destruct Hcases as [[_ ->]|[[Hd _]|[Hd _]]]; [done| |];
      apply not_disjoint_false in Hd; congruence.
  - apply not_disjoint_false in Hdisj.
    destruct Hcases as [[Hn _]|[(_ & HA1 & HA2 & ->)|(_ & HA & HB1 & HB2 & ->)]];
      [done| |];
      settle_lookups Hwf1 Hwf2 nodeA nodeB; try done; tauto.
Qed.

Lemma lookup_failures_witness :
  test_join tree_ab tree_cd (map_splits_to_nodes tree_ab)
            (map_splits_to_nodes tree_cd) (Leaf "e") (Leaf "a")
  = Raise (Exception "Node A was not found in either tree!") ∧
  join_nodes tree_ab tree_cd (map_splits_to_nodes tree_ab)
             (map_splits_to_nodes tree_cd) (Leaf "e") (Leaf "a")
  = Raise (Exception "Node A was not found in either tree!").
Proof.
  apply (lookup_failures tree_ab tree_cd (Leaf "e") (Leaf "a")).
  - apply wf_new_tree. by_compute.
  - apply wf_new_tree. by_compute.
  - right. left. split; [by_compute|].
    split; [|split; [|done]]; intros [Hsub _]; revert Hsub; by_compute.
Defined.

(** X11 (lines 420-557): when the oracle accepts a pair on well-formed
    trees, then in each of the two trees in which both clades are split
    sides their union is a split side as well; and when one clade is a
    split side of the first tree only and the other of the second tree
    only, the two trees that [join_nodes] builds for the pair pass
    [are_two_trees_incompatible] and have the same splits on the leaves
    they share. *)
Theorem acceptance_sound tree1 tree2 nodeA nodeB :
  wf_tree tree1 → wf_tree tree2 →
  test_join tree1 tree2 (map_splits_to_nodes tree1) (map_splits_to_nodes tree2)
            nodeA nodeB = Ok false →
  (∀ t, t = tree1 ∨ t = tree2 →
        is_split (seed_node t) (get_leaf_set nodeA) →
        is_split (seed_node t) (get_leaf_set nodeB) →
        is_split (seed_node t) (get_leaf_set nodeA ∪ get_leaf_set nodeB)) ∧
  (∀ u1 u2 edited,
     (¬ is_split (seed_node tree1) (get_leaf_set nodeB) ∧
      ¬ is_split (seed_node tree2) (get_leaf_set nodeA)) ∨
     (¬ is_split (seed_node tree1) (get_leaf_set nodeA) ∧
      ¬ is_split (seed_node tree2) (get_leaf_set nodeB)) →
     join_nodes tree1 tree2 (map_splits_to_nodes tree1)
                (map_splits_to_nodes tree2) nodeA nodeB
     = Ok (Some u1, Some u2, edited) →
     are_two_trees_incompatible u1 u2 = false ∧
     agree_on (get_leaf_set (seed_node u1) ∩ get_leaf_set (seed_node u2))
              (seed_node u1) (seed_node u2)).
Proof.
  intros Hwf1 Hwf2. unfold test_join, join_nodes.
  destruct (not_disjoint _ _) eqn:Hdisj; [done|].
  assert (∀ t, wf_tree t →
            is_None_node (get_node_from_clade t (map_splits_to_nodes t)
                            (get_leaf_list nodeA ++ get_leaf_list nodeB))
            = Ok false →
            is_split (seed_node t) (get_leaf_set nodeA ∪ get_leaf_set nodeB))
    as Hlocal.
  { intros t Hwf Hnone. apply is_None_node_false in Hnone; [|done].
    by rewrite list_to_set_leaf_lists in Hnone. }
  settle_lookups Hwf1 Hwf2 nodeA nodeB; try done.
  - (* Case 1 *)
    destruct (lookup_total tree1 (get_leaf_list nodeA ++ get_leaf_list nodeB) Hwf1)
      as (n1 & -> & Hn1).
    destruct (lookup_total tree2 (get_leaf_list nodeA ++ get_leaf_list nodeB) Hwf2)
      as (n2 & -> & Hn2). simpl.
    rewrite list_to_set_leaf_lists in Hn1, Hn2.
    intros [= Hor]. apply bool_decide_eq_false in Hor.
    split; [|tauto].
    intros t [-> | ->] _ _.
    + apply Hn1. destruct n1; [by eexists|]. tauto.
    + apply Hn2. destruct n2; [by eexists|]. tauto.
  - intros Hacc. apply Hlocal in Hacc; [|done].
    split; [|tauto]. by intros t [-> | ->].
  - intros Hacc. apply Hlocal in Hacc; [|done].
    split; [|tauto]. by intros t [-> | ->].
  - intros Hacc. apply Hlocal in Hacc; [|done].
    split; [|tauto]. by intros t [-> | ->].
  - intros Hacc. apply Hlocal in Hacc; [|done].
    split; [|tauto]. by intros t [-> | ->].
  - (* Case 6 *)
    destruct (join_nodes_in_both_trees _ _ _ _ _ _ true) as [[[v1|] [v2|]]|]
      eqn:Htest; simpl; try done.
    + intros [= Hinc]. split; [by intros t [-> | ->]|].
      intros u1 u2 edited _.
      rewrite (join_nodes_in_both_trees_test _ _ _ _ _ _ _ _ Htest). simpl.
      intros [= <- <- _]. split; [done|]. by apply compatible_agree_on.
    + intros _. split; [by intros t [-> | ->]|].
      intros u1 u2 edited _.
      destruct (join_nodes_in_both_trees _ _ _ _ _ _ false) as [[w1 w2]|]
        eqn:Hreal; simpl; [|done].
      intros [= -> -> _].
      unfold join_nodes_in_both_trees in Htest, Hreal.
      repeat case_bool_decide; simpl in *; try done.
      all: repeat match type of Hreal with
             | context [extract_nodes_from_split ?a ?b ?c] =>
                 destruct (extract_nodes_from_split a b c) as [[? ?]|];
                 simpl in *; try done
             end.
    + intros _. split; [by intros t [-> | ->]|].
      intros u1 u2 edited _.
      destruct (join_nodes_in_both_trees _ _ _ _ _ _ false) as [[w1 w2]|]
        eqn:Hreal; simpl; [|done].
      intros [= -> -> _].
      unfold join_nodes_in_both_trees in Htest, Hreal.
      repeat case_bool_decide; simpl in *; try done.
      all: repeat match type of Hreal with
             | context [extract_nodes_from_split ?a ?b ?c] =>
                 destruct (extract_nodes_from_split a b c) as [[? ?]|];
                 simpl in *; try done
             end.
  - intros Hacc. apply Hlocal in Hacc; [|done].
    split; [|tauto]. by intros t [-> | ->].
  - (* Case 8 *)
    destruct (join_nodes_in_both_trees _ _ _ _ _ _ true) as [[[v1|] [v2|]]|]
      eqn:Htest; simpl; try done.
    + intros [= Hinc]. split; [by intros t [-> | ->]|].
      intros u1 u2 edited _.
      rewrite (join_nodes_in_both_trees_test _ _ _ _ _ _ _ _ Htest). simpl.
      intros [= <- <- _]. split; [done|]. by apply compatible_agree_on.
    + intros _. split; [by intros t [-> | ->]|].
      intros u1 u2 edited _.
      destruct (join_nodes_in_both_trees _ _ _ _ _ _ false) as [[w1 w2]|]
        eqn:Hreal; simpl; [|done].
      intros [= -> -> _].
      unfold join_nodes_in_both_trees in Htest, Hreal.
      repeat case_bool_decide; simpl in *; try done.
      all: repeat match type of Hreal with
             | context [extract_nodes_from_split ?a ?b ?c] =>
                 destruct (extract_nodes_from_split a b c) as [[? ?]|];
                 simpl in *; try done
             end.
    + intros _. split; [by intros t [-> | ->]|].
      intros u1 u2 edited _.
      destruct (join_nodes_in_both_trees _ _ _ _ _ _ false) as [[w1 w2]|]
        eqn:Hreal; simpl; [|done].
      intros [= -> -> _].
      unfold join_nodes_in_both_trees in Htest, Hreal.
      repeat case_bool_decide; simpl in *; try done.
      all: repeat match type of Hreal with
             | context [extract_nodes_from_split ?a ?b ?c] =>
                 destruct (extract_nodes_from_split a b c) as [[? ?]|];
                 simpl in *; try done
             end.
  - intros Hacc. apply Hlocal in Hacc; [|done].
    split; [|tauto]. by intros t [-> | ->].
Qed.

Lemma acceptance_sound_witness :
  (∀ t, t = tree_ab ∨ t = tree_cd →
        is_split (seed_node t) (get_leaf_set (Leaf "a")) →
        is_split (seed_node t) (get_leaf_set (Leaf "c")) →
        is_split (seed_node t) (get_leaf_set (Leaf "a") ∪ get_leaf_set (Leaf "c"))) ∧
  (∀ u1 u2 edited,
     (¬ is_split (seed_node tree_ab) (get_leaf_set (Leaf "c")) ∧
      ¬ is_split (seed_node tree_cd) (get_leaf_set (Leaf "a"))) ∨
     (¬ is_split (seed_node tree_ab) (get_leaf_set (Leaf "a")) ∧
      ¬ is_split (seed_node tree_cd) (get_leaf_set (Leaf "c"))) →
     join_nodes tree_ab tree_cd (map_splits_to_nodes tree_ab)
                (map_splits_to_nodes tree_cd) (Leaf "a") (Leaf "c")
     = Ok (Some u1, Some u2, edited) →
     are_two_trees_incompatible u1 u2 = false ∧
     agree_on (get_leaf_set (seed_node u1) ∩ get_leaf_set (seed_node u2))
              (seed_node u1) (seed_node u2)).
Proof.
  apply (acceptance_sound tree_ab tree_cd (Leaf "a") (Leaf "c")).
  - apply wf_new_tree. by_compute.
  - apply wf_new_tree. by_compute.
  - vm_compute. reflexivity.
Defined.

(** * What the merge returns and prints *)

Section Output.
Context {R : Type} `{Number R}.

(** A tree that leaves the loop early has all the leaves. *)
Lemma iteration_return_full full n (st : state (R:=R)) t :
iteration full n st = Ok (Return t) → get_leaf_set (seed_node t) = full.
Proof.
unfold iteration.
destruct (scan_state n st) as [[[nd1 nd2]|]|]; simpl; [|done|done].
destruct (join_nodes _ _ _ _ _ _) as [[[o1 o2] edited]|]; simpl; [|done].
destruct edited.
- destruct o1 as [t1|]; simpl; [|done].
  case_decide as H1; simpl.
  + by intros [= <-].
  + destruct o2 as [t2|]; simpl; [|done].
    case_decide as H2; simpl; [by intros [= <-]|].
    by destruct (update_distances _ _ _ _ _ _) as [[[? ?] ?]|].
- destruct o1 as [t1|]; simpl; [|done].
  destruct o2 as [t2|]; simpl; [|done].
  by destruct (update_distances _ _ _ _ _ _) as [[[? ?] ?]|].
Qed.

(** A pass that goes on has printed its [n]. *)
Lemma iteration_printed full n (st st' : state (R:=R)) :
iteration full n st = Ok (Continue st') → printed st' = printed st ++ [n].
Proof.
unfold iteration.
destruct (scan_state n st) as [[[nd1 nd2]|]|]; simpl; [|done|done].
destruct (join_nodes _ _ _ _ _ _) as [[[o1 o2] edited]|]; simpl; [|done].
destruct edited.
- destruct o1 as [t1|]; simpl; [|done].
  case_decide as H1; simpl; [done|].
  destruct o2 as [t2|]; simpl; [|done].
  case_decide as H2; simpl; [done|].
  destruct (update_distances _ _ _ _ _ _) as [[[? ?] ?]|]; simpl; [|done].
  by intros [= <-].
- destruct o1 as [t1|]; simpl; [|done].
  destruct o2 as [t2|]; simpl; [|done].
  destruct (update_distances _ _ _ _ _ _) as [[[? ?] ?]|]; simpl; [|done].
  by intros [= <-].
Qed.

Lemma nj_loop_log full ns n : ∀ (st : state (R:=R)) t out,
nj_loop full ns n st = Ok (t, out) →
∃ k, (k ≤ n - 1)%nat ∧ out = printed st ++ ((λ i, n - i)%nat <$> seq 0 k).
Proof.
induction n as [|n IH]; intros st t out.
- simpl. destruct (node_pool st); [done|]. intros [= _ <-].
  exists 0%nat. split; [lia|]. simpl. by rewrite app_nil_r.
- destruct n as [|n].
  + simpl. destruct (node_pool st); [done|]. intros [= _ <-].
    exists 0%nat. split; [lia|]. simpl. by rewrite app_nil_r.
  + cbn [nj_loop].
    destruct (iteration _ _ st) as [[t'|st']|] eqn:Hit; simpl; [| |done].
    * intros [= _ <-]. exists 1%nat. split; [lia|]. done.
    * intros Hloop. apply IH in Hloop as (k & Hk & ->).
      apply iteration_printed in Hit as ->.
      exists (S k). split; [lia|]. rewrite <- app_assoc. f_equal.
      cbn [seq fmap list_fmap]. simpl. f_equal.
      rewrite <- fmap_S_seq, <- list_fmap_compose. done.
Qed.

Lemma nj_loop_full T1 T2 ns n : ∀ (st : state (R:=R)) t out,
inv T1 T2 st → n = length (node_pool st) →
nj_loop (get_leaf_set (seed_node T1) ∪ get_leaf_set (seed_node T2)) ns n st
= Ok (t, out) →
get_leaf_set (seed_node t)
= get_leaf_set (seed_node T1) ∪ get_leaf_set (seed_node T2).
Proof.
induction n as [|n IH]; intros st t out Hinv Hn.
- apply inv_two_nodes in Hinv. lia.
- destruct n as [|n].
  + apply inv_two_nodes in Hinv. lia.
  + cbn [nj_loop].
    destruct (iteration _ _ st) as [[t'|st']|] eqn:Hit; simpl; [| |done].
    * intros [= <- _]. by apply iteration_return_full in Hit.
    * destruct (iteration_inv T1 T2 _ st (Continue st') Hinv Hit)
        as [Hinv' Hlen].
      apply IH; [done|lia].
Qed.

(** X12 (lines 693-860): on well-formed trees and a matrix whose mapped
    taxa are the leaves of the two trees, each once, the tree that
    [merge_two_trees_via_nj] returns has every leaf of the two input trees
    and no other, each once. *)
Theorem merge_spans_all_leaves (dm : pdm R) (T1 T2 out : tree) :
wf_tree T1 → wf_tree T2 →
NoDup (_mapped_taxa dm) →
list_to_set (_mapped_taxa dm)
= get_leaf_set (seed_node T1) ∪ get_leaf_set (seed_node T2) →
merge_two_trees_via_nj dm T1 T2 = Ok out →
get_leaf_set (seed_node out)
= get_leaf_set (seed_node T1) ∪ get_leaf_set (seed_node T2) ∧
NoDup (get_leaf_list (seed_node out)).
Proof.
intros Hwf1 Hwf2 Hnd Hset.
unfold merge_two_trees_via_nj, merge_two_trees_via_nj_out.
case_decide as Hshared; [done|].
case_decide as Hnames; [done|].
destruct (cache_rows _ _ _ _) as [pool|] eqn:Hcache; simpl; [|done].
destruct (nj_loop _ _ _ _) as [[t printed]|] eqn:Hloop; simpl; [|done].
intros [= <-].
apply cache_rows_trees in Hcache.
assert (get_leaf_set (seed_node T1) ∩ get_leaf_set (seed_node T2) = ∅)
  as Hdisj.
{ by apply size_empty_inv, leibniz_equiv in Hshared. }
pose proof (initial_inv T1 T2 pool _ Hwf1 Hwf2 Hdisj Hnd Hset Hcache) as Hinv.
assert (length (_mapped_taxa dm) = length pool) as Hlen.
{ by rewrite <- (length_fmap nj_tree pool), Hcache, length_fmap. }
split.
- exact (nj_loop_full T1 T2 _ _ _ t printed Hinv Hlen Hloop).
- destruct (nj_loop_inv T1 T2 (pdm_taxon_namespace dm)
              (length (_mapped_taxa dm)) _ t printed Hinv Hlen Hloop)
    as [(Hwf & _) _].
  exact (proj1 Hwf).
Qed.

(** X13 (lines 765-851): a run of [merge_two_trees_via_nj] that returns a
    tree has printed the number of live nodes once per pass of the loop,
    counting down by one from the number of mapped taxa and stopping at
    2 at the latest. *)
Theorem merge_prints_countdown (dm : pdm R) (T1 T2 out : tree) log :
merge_two_trees_via_nj_out dm T1 T2 = Ok (out, log) →
∃ k, (k ≤ length (_mapped_taxa dm) - 1)%nat ∧
     log = (λ i, length (_mapped_taxa dm) - i)%nat <$> seq 0 k.
Proof.
unfold merge_two_trees_via_nj_out.
case_decide as Hshared; [done|].
case_decide as Hnames; [done|].
destruct (cache_rows _ _ _ _) as [pool|] eqn:Hcache; simpl; [|done].
intros Hloop. apply nj_loop_log in Hloop as (k & Hk & ->). by exists k.
Qed.
End Output.

Lemma merge_spans_all_leaves_witness :
  get_leaf_set (Internal (Internal (Leaf "b") (Leaf "a")) (Leaf "c"))
  = get_leaf_set (seed_node tree_ab) ∪ get_leaf_set (seed_node tree_c) ∧
  NoDup (get_leaf_list (Internal (Internal (Leaf "b") (Leaf "a")) (Leaf "c"))).
Proof.
  apply (merge_spans_all_leaves pdm_abc tree_ab tree_c
           (new_tree (Internal (Internal (Leaf "b") (Leaf "a")) (Leaf "c")))).
  - apply wf_new_tree. by_compute.
  - apply wf_new_tree. by_compute.
  - by_compute.
  - by_compute.
  - vm_compute. reflexivity.
Defined.

Lemma merge_prints_countdown_witness :
  ∃ k, (k ≤ length (_mapped_taxa pdm_abc) - 1)%nat ∧
       [3%nat] = (λ i, length (_mapped_taxa pdm_abc) - i)%nat <$> seq 0 k.
Proof.
  apply (merge_prints_countdown pdm_abc tree_ab tree_c
           (new_tree (Internal (Internal (Leaf "b") (Leaf "a")) (Leaf "c")))).
  vm_compute. reflexivity.
Defined.

(** * The distances *)

Section Distances.
Context {R : Type} `{Number R}.

Lemma original_distance_raises (dm : gmap label (gmap label R)) t1 t2 e :
original_distance dm t1 t2 = Raise e → e = KeyError.
Proof.
unfold original_distance. destruct (dm !! t1) as [row|]; [|by intros [= <-]].
destruct (row !! t2); [done|by intros [= <-]].
Qed.

Lemma cache_row_raises (dm : gmap label (gmap label R)) t1 i taxa :
∀ j dists xsub e,
cache_row dm t1 i j taxa dists xsub = Raise e → e = KeyError.
Proof.
induction taxa as [|t2 taxa IH]; intros j dists xsub e; simpl; [done|].
case_decide; [apply IH|].
destruct (original_distance dm t1 t2) as [d|e'] eqn:Hd; simpl; [apply IH|].
intros [= <-]. by eapply original_distance_raises.
Qed.

Lemma cache_rows_raises (dm : gmap label (gmap label R)) all taxa :
∀ i e, cache_rows dm all i taxa = Raise e → e = KeyError.
Proof.
induction taxa as [|t1 taxa IH]; intros i e; simpl; [done|].
destruct (cache_row dm t1 i 0 all [] num_zero) as [[dists xsub]|e'] eqn:Hrow;
  simpl.
- destruct (cache_rows dm all (S i) taxa) as [rest|e'] eqn:Hrest; simpl; [done|].
  intros [= <-]. by eapply IH.
- intros [= <-]. by eapply cache_row_raises.
Qed.

(** A row that is cached has read every entry but the one at position
  [i]. *)
Lemma cache_row_reads (dm : gmap label (gmap label R)) t1 i taxa :
∀ j dists xsub r,
cache_row dm t1 i j taxa dists xsub = Ok r →
∀ k t2, taxa !! k = Some t2 → (j + k)%nat ≠ i →
        ∃ d, original_distance dm t1 t2 = Ok d.
Proof.
induction taxa as [|t taxa IH]; intros j dists xsub r; simpl.
- intros _ k t2 Hk. by rewrite lookup_nil in Hk.
- case_decide as Hij.
  + intros Hrow [|k] t2; simpl.
    * intros _ Hne. lia.
    * intros Hk Hne. eapply (IH _ _ _ _ Hrow k); [done|lia].
  + destruct (original_distance dm t1 t) as [d|] eqn:Hd; simpl; [|done].
    intros Hrow [|k] t2; simpl.
    * intros [= <-] _. by exists d.
    * intros Hk Hne. eapply (IH _ _ _ _ Hrow k); [done|lia].
Qed.

Lemma cache_rows_reads (dm : gmap label (gmap label R)) all taxa :
∀ i pool,
cache_rows dm all i taxa = Ok pool →
∀ k t1 j t2, taxa !! k = Some t1 → all !! j = Some t2 → j ≠ (i + k)%nat →
             ∃ d, original_distance dm t1 t2 = Ok d.
Proof.
induction taxa as [|t taxa IH]; intros i pool; simpl.
- intros _ k t1 j t2 Hk. by rewrite lookup_nil in Hk.
- destruct (cache_row dm t i 0 all [] num_zero) as [[dists xsub]|] eqn:Hrow;
    simpl; [|done].
  destruct (cache_rows dm all (S i) taxa) as [rest|] eqn:Hrest; simpl; [|done].
  intros _ [|k] t1 j t2; simpl.
  + intros [= <-] Hj Hne.
    eapply (cache_row_reads _ _ _ _ _ _ _ _ Hrow j); [done|]. simpl. lia.
  + intros Hk Hj Hne. eapply (IH _ _ Hrest k); [done|done|lia].
Qed.

(** The row of a node: what it holds for a key, and its sum. *)
Lemma cache_row_spec (dm : gmap label (gmap label R)) t1 i taxa :
∀ j dists xsub,
(∀ k t2, taxa !! k = Some t2 → (j + k)%nat ≠ i →
         ∃ d, original_distance dm t1 t2 = Ok d) →
∃ entries,
  cache_row dm t1 i j taxa dists xsub
  = Ok (entries ++ dists, foldr (λ e acc, num_add acc e.2) xsub entries) ∧
  (NoDup taxa →
   ∀ k t2, taxa !! k = Some t2 → (j + k)%nat ≠ i →
           dict_get (entries ++ dists) (Leaf t2) = original_distance dm t1 t2) ∧
  (∀ key, (∀ k t2, taxa !! k = Some t2 → (j + k)%nat ≠ i → key ≠ Leaf t2) →
          dict_get (entries ++ dists) key = dict_get dists key).
Proof.
induction taxa as [|t taxa IH]; intros j dists xsub Hall; simpl.
- exists []. split; [done|]. split; [|done].
  intros _ k t2 Hk. by rewrite lookup_nil in Hk.
- case_decide as Hij.
  + destruct (IH (S j) dists xsub) as (entries & Hrow & Hget & Hother).
    { intros k t2 Hk Hne. apply (Hall (S k) t2); [done|lia]. }
    exists entries. split; [done|]. split.
    * intros Hnd [|k] t2; simpl; [intros _ Hne; lia|].
      intros Hk Hne. apply NoDup_cons in Hnd as [_ Hnd].
      apply (Hget Hnd k); [done|lia].
    * intros key Hkey. apply Hother. intros k t2 Hk Hne.
      apply (Hkey (S k)); [done|lia].
  + destruct (Hall 0%nat t) as [d Hd]; [done|lia|]. rewrite Hd. simpl.
    destruct (IH (S j) ((Leaf t, d) :: dists) (num_add xsub d))
      as (entries & Hrow & Hget & Hother).
    { intros k t2 Hk Hne. apply (Hall (S k) t2); [done|lia]. }
    exists (entries ++ [(Leaf t, d)]).
    rewrite <- app_assoc. simpl. rewrite foldr_app. simpl.
    split; [done|]. split.
    * intros Hnd [|k] t2; simpl.
      -- intros [= <-] _. apply NoDup_cons in Hnd as [Hnotin _].
         rewrite Hother.
         ++ simpl. by rewrite decide_True.
         ++ intros k t2 Hk _ [= ->]. apply Hnotin.
            by eapply list_elem_of_lookup_2.
      -- intros Hk Hne. apply NoDup_cons in Hnd as [_ Hnd].
         apply (Hget Hnd k); [done|lia].
    * intros key Hkey. rewrite Hother.
      -- simpl. rewrite decide_False; [done|].
         intros Heq. apply (Hkey 0%nat t); [done|lia|done].
      -- intros k t2 Hk Hne. apply (Hkey (S k)); [done|lia].
Qed.

Lemma cache_rows_spec (dm : gmap label (gmap label R)) all :
NoDup all →
∀ taxa i,
(∀ k t1 j t2, taxa !! k = Some t1 → all !! j = Some t2 → j ≠ (i + k)%nat →
              ∃ d, original_distance dm t1 t2 = Ok d) →
(∀ k t1, taxa !! k = Some t1 → all !! (i + k)%nat = Some t1) →
∃ pool,
  cache_rows dm all i taxa = Ok pool ∧
  ∀ k t1, taxa !! k = Some t1 →
    ∃ x, pool !! k = Some x ∧ nj_tree x = Leaf t1 ∧
         (∀ t2, t2 ∈ all → t2 ≠ t1 →
                dict_get (_nj_distances x) (Leaf t2)
                = original_distance dm t1 t2) ∧
         dict_get (_nj_distances x) (Leaf t1) = Raise KeyError ∧
         _nj_xsub x
         = foldr (λ e acc, num_add acc e.2) num_zero (_nj_distances x).
Proof.
intros Hnd. induction taxa as [|t taxa IH]; intros i Hall Hpos; simpl.
- exists []. split; [done|]. intros k t1 Hk. by rewrite lookup_nil in Hk.
- destruct (cache_row_spec dm t i all 0 [] num_zero)
    as (entries & Hrow & Hget & Hother).
  { intros k t2 Hk Hne. apply (Hall 0%nat t k t2); [done|done|]. simpl in Hne. lia. }
  rewrite Hrow. simpl.
  destruct (IH (S i)) as (rest & Hrest & Hprops).
  { intros k t1 j t2 Hk Hj Hne. apply (Hall (S k) t1 j t2); [done|done|lia]. }
  { intros k t1 Hk. replace (S i + k)%nat with (i + S k)%nat by lia.
    by apply Hpos. }
  rewrite Hrest. simpl. eexists. split; [done|].
  intros [|k] t1; simpl.
  + intros [= <-]. eexists. split; [done|]. simpl.
    pose proof (Hpos 0%nat t eq_refl) as Hi. rewrite Nat.add_0_r in Hi.
    split; [done|]. split; [|split; [|by rewrite app_nil_r]].
    * intros t2 Ht2 Hne. apply list_elem_of_lookup_1 in Ht2 as [j Hj].
      apply (Hget Hnd j); [done|]. simpl. intros ->.
      rewrite Hi in Hj. by injection Hj.
    * rewrite Hother; [done|].
      intros k t2 Hk Hne [= ->]. simpl in Hne.
      apply Hne. by apply (NoDup_lookup all k i t2).
  + intros Hk. by apply Hprops.
Qed.

(** X14 (lines 744-763): the pool that the cache phase builds from mapped
    taxa without repetition has one leaf node per taxon, in their order;
    the dictionary of a node holds the matrix entry for every other taxon
    and nothing for its own, and its row sum is the sum of what its
    dictionary holds, added up from zero in the order of the taxa. *)
Theorem cache_rows_pool (dm : gmap label (gmap label R)) taxa pool :
NoDup taxa →
cache_rows dm taxa 0 taxa = Ok pool →
nj_tree <$> pool = Leaf <$> taxa ∧
∀ i t1 x, taxa !! i = Some t1 → pool !! i = Some x →
  (∀ t2, t2 ∈ taxa → t2 ≠ t1 →
         dict_get (_nj_distances x) (Leaf t2) = original_distance dm t1 t2) ∧
  dict_get (_nj_distances x) (Leaf t1) = Raise KeyError ∧
  _nj_xsub x = foldr (λ e acc, num_add acc e.2) num_zero (_nj_distances x).
Proof.
intros Hnd Hcache. split; [by eapply cache_rows_trees|].
destruct (cache_rows_spec dm taxa Hnd taxa 0) as (pool' & Hcache' & Hprops).
- intros k t1 j t2 Hk Hj Hne.
  by apply (cache_rows_reads dm taxa taxa 0 pool Hcache k t1 j t2).
- done.
- rewrite Hcache in Hcache'. injection Hcache' as <-.
  intros i t1 x Hi Hx. destruct (Hprops i t1 Hi) as (x' & Hx' & _ & Hrest).
  rewrite Hx in Hx'. injection Hx' as <-. exact Hrest.
Qed.

(** X15 (lines 711-763): once the two entry checks have passed, the merge
    raises [KeyError] before its first pass whenever the matrix lacks the
    entry for the taxa at two different positions of the mapped taxa; the
    diagonal is never read, and when all other entries are there the pool
    is built. *)
Theorem merge_reads_off_diagonal (dm : pdm R) (T1 T2 : tree) :
get_leaf_set (seed_node T1) ## get_leaf_set (seed_node T2) →
get_leaf_set (seed_node T1) ∪ get_leaf_set (seed_node T2)
= list_to_set (pdm_taxon_namespace dm) →
(∀ i j t1 t2,
   i ≠ j → _mapped_taxa dm !! i = Some t1 → _mapped_taxa dm !! j = Some t2 →
   original_distance (_taxon_phylogenetic_distances dm) t1 t2 = Raise KeyError →
   merge_two_trees_via_nj dm T1 T2 = Raise KeyError) ∧
(NoDup (_mapped_taxa dm) →
 (∀ i j t1 t2,
    i ≠ j → _mapped_taxa dm !! i = Some t1 → _mapped_taxa dm !! j = Some t2 →
    ∃ d, original_distance (_taxon_phylogenetic_distances dm) t1 t2 = Ok d) →
 ∃ pool, cache_rows (_taxon_phylogenetic_distances dm) (_mapped_taxa dm) 0
                    (_mapped_taxa dm) = Ok pool).
Proof.
intros Hdisj Hnames. split.
- intros i j t1 t2 Hne Hi Hj Hmiss.
  unfold merge_two_trees_via_nj, merge_two_trees_via_nj_out.
  rewrite decide_False.
  2:{ apply disjoint_intersection_L in Hdisj. rewrite Hdisj, size_empty. lia. }
  rewrite decide_False by (intros Hn; by apply Hn).
  destruct (cache_rows _ _ _ _) as [pool|e] eqn:Hcache; simpl.
  + destruct (cache_rows_reads _ _ _ _ _ Hcache i t1 j t2) as [d Hd];
      [done|done|simpl; lia|]. congruence.
  + f_equal. by eapply cache_rows_raises.
- intros Hnd Hall.
  destruct (cache_rows_spec (_taxon_phylogenetic_distances dm) (_mapped_taxa dm)
              Hnd (_mapped_taxa dm) 0) as (pool & Hcache & _).
  + intros k t1 j t2 Hk Hj Hne. apply (Hall k j); [simpl in Hne; lia|done|done].
  + done.
  + by exists pool.
Qed.

Lemma dict_get_NoDup (d d' : list (node * R)) k v :
NoDup (d.*1) → (k, v) ∈ d → dict_get (d ++ d') k = Ok v.
Proof.
induction d as [|[k' v'] d IH]; simpl; intros Hnd Hin.
- by apply elem_of_nil in Hin.
- apply NoDup_cons in Hnd as [Hnotin Hnd].
  apply elem_of_cons in Hin as [[= <- <-]|Hin].
  + by rewrite decide_True.
  + rewrite decide_False; [by apply IH|].
    intros ->. apply Hnotin. apply list_elem_of_fmap. by exists (k, v).
Qed.

(** One pass of lines 815-830 over the pool, with what is already in the
  row of the new node. *)
Lemma update_distances_gen new_node (nd1 nd2 : nj_node R) pool :
∀ new_dists new_xsub pool' new_dists' new_xsub',
update_distances new_node nd1 nd2 pool new_dists new_xsub
= Ok (pool', new_dists', new_xsub') →
∃ entries,
  new_dists' = entries ++ new_dists ∧
  new_xsub' = foldr (λ e acc, num_add acc e.2) new_xsub entries ∧
  entries.*1 = rev (nj_tree <$> pool) ∧
  Forall2 (λ x x',
     ∃ d1 d2 v3 e1 e2,
       dict_get (_nj_distances x) (nj_tree nd1) = Ok d1 ∧
       dict_get (_nj_distances x) (nj_tree nd2) = Ok d2 ∧
       dict_get (_nj_distances nd1) (nj_tree nd2) = Ok v3 ∧
       dict_get (_nj_distances nd1) (nj_tree x) = Ok e1 ∧
       dict_get (_nj_distances nd2) (nj_tree x) = Ok e2 ∧
       let dist := num_mul num_half
                     (num_sub (num_add (num_add num_zero d1) d2) v3) in
       nj_tree x' = nj_tree x ∧
       _nj_distances x' = (new_node, dist) :: _nj_distances x ∧
       _nj_xsub x' = num_sub (num_sub (num_add (_nj_xsub x) dist) e1) e2 ∧
       (nj_tree x, dist) ∈ entries) pool pool'.
Proof.
induction pool as [|x pool IH]; intros nd0 nx0 pool' nds nxs; simpl.
- intros [= <- <- <-]. exists []. split; [done|]. split; [done|].
  split; [done|]. constructor.
- destruct (dict_get (_nj_distances x) (nj_tree nd1)) as [d1|] eqn:H1; simpl; [|done].
  destruct (dict_get (_nj_distances x) (nj_tree nd2)) as [d2|] eqn:H2; simpl; [|done].
  destruct (dict_get (_nj_distances nd1) (nj_tree nd2)) as [v3|] eqn:H3; simpl; [|done].
  destruct (dict_get (_nj_distances nd1) (nj_tree x)) as [e1|] eqn:H4; simpl; [|done].
  destruct (dict_get (_nj_distances nd2) (nj_tree x)) as [e2|] eqn:H5; simpl; [|done].
  destruct (update_distances _ _ _ pool _ _) as [[[rest nds'] nxs']|] eqn:Hrest;
    simpl; [|done].
  intros [= <- <- <-].
  apply IH in Hrest as (entries & -> & -> & Hkeys & Hall).
  exists (entries ++ [(nj_tree x,
                       num_mul num_half
                         (num_sub (num_add (num_add num_zero d1) d2) v3))]).
  rewrite <- app_assoc. simpl. split; [done|].
  rewrite foldr_app. simpl. split; [done|].
  split; [by rewrite fmap_app, Hkeys|].
  constructor.
  + exists d1, d2, v3, e1, e2. simpl. repeat (split; [done|]).
    apply elem_of_app. right. by apply list_elem_of_singleton.
  + eapply Forall2_impl; [exact Hall|].
    intros y y' (f1 & f2 & w3 & g1 & g2 & ? & ? & ? & ? & ? & ? & ? & ? & Hin).
    exists f1, f2, w3, g1, g2. repeat (split; [done|]).
    apply elem_of_app. by left.
Qed.

(** X16 (lines 812-830): for every node left in the pool the update reads
    its distances to the two joined nodes and theirs to it, and raises
    nothing when they are there; the new distance, half of the two
    distances less the distance between the joined nodes, goes into the
    dictionary of the node under the new node and into the dictionary of
    the new node under the node, the same number both ways; the row sum of
    the new node is the sum of what its dictionary holds. *)
Theorem update_distances_both_ways new_node (nd1 nd2 : nj_node R) pool
  pool' new_dists new_xsub :
NoDup (nj_tree <$> pool) →
update_distances new_node nd1 nd2 pool [] num_zero
= Ok (pool', new_dists, new_xsub) →
new_xsub = foldr (λ e acc, num_add acc e.2) num_zero new_dists ∧
new_dists.*1 = rev (nj_tree <$> pool) ∧
Forall2 (λ x x',
   ∃ d1 d2 v3 e1 e2,
     dict_get (_nj_distances x) (nj_tree nd1) = Ok d1 ∧
     dict_get (_nj_distances x) (nj_tree nd2) = Ok d2 ∧
     dict_get (_nj_distances nd1) (nj_tree nd2) = Ok v3 ∧
     dict_get (_nj_distances nd1) (nj_tree x) = Ok e1 ∧
     dict_get (_nj_distances nd2) (nj_tree x) = Ok e2 ∧
     let dist := num_mul num_half
                   (num_sub (num_add (num_add num_zero d1) d2) v3) in
     nj_tree x' = nj_tree x ∧
     dict_get (_nj_distances x') new_node = Ok dist ∧
     dict_get new_dists (nj_tree x') = Ok dist ∧
     (∀ key, key ≠ new_node →
             dict_get (_nj_distances x') key = dict_get (_nj_distances x) key) ∧
     _nj_xsub x' = num_sub (num_sub (num_add (_nj_xsub x) dist) e1) e2)
  pool pool'.
Proof.
intros Hnd Hupd.
apply update_distances_gen in Hupd as (entries & -> & -> & Hkeys & Hall).
rewrite app_nil_r. split; [done|]. split; [done|].
eapply Forall2_impl; [exact Hall|].
intros x x' (d1 & d2 & v3 & e1 & e2 & ? & ? & ? & ? & ? & Htree & Hdists & ? & Hin).
exists d1, d2, v3, e1, e2. repeat (split; [done|]). simpl.
rewrite Hdists. simpl.
split; [by rewrite decide_True|]. split; [|split; [|done]].
- rewrite Htree, <- (app_nil_r entries). apply dict_get_NoDup; [|done].
  rewrite Hkeys. by apply NoDup_ListNoDup, NoDup_rev, NoDup_ListNoDup.
- intros key Hne. by rewrite decide_False.
Qed.
End Distances.

Lemma cache_rows_pool_witness :
  nj_tree <$> node_pool (state_abc 1%float) = Leaf <$> ["a"; "c"; "b"] ∧
  ∀ i t1 x, ["a"; "c"; "b"] !! i = Some t1 →
            node_pool (state_abc 1%float) !! i = Some x →
    (∀ t2, t2 ∈ ["a"; "c"; "b"] → t2 ≠ t1 →
           dict_get (_nj_distances x) (Leaf t2)
           = original_distance (_taxon_phylogenetic_distances pdm_abc) t1 t2) ∧
    dict_get (_nj_distances x) (Leaf t1) = Raise KeyError ∧
    _nj_xsub x = foldr (λ e acc, num_add acc e.2) num_zero (_nj_distances x).
Proof.
  apply (cache_rows_pool (_taxon_phylogenetic_distances pdm_abc) ["a"; "c"; "b"]).
  - by_compute.
  - vm_compute. reflexivity.
Defined.

Lemma merge_reads_off_diagonal_witness :
  merge_two_trees_via_nj pdm_abc_gap tree_ab tree_c = Raise KeyError.
Proof.
  assert (get_leaf_set (seed_node tree_ab) ## get_leaf_set (seed_node tree_c))
    as Hdisj by by_compute.
  assert (get_leaf_set (seed_node tree_ab) ∪ get_leaf_set (seed_node tree_c)
          = list_to_set (pdm_taxon_namespace pdm_abc_gap)) as Hnames
    by by_compute.
  apply (proj1 (merge_reads_off_diagonal pdm_abc_gap tree_ab tree_c Hdisj Hnames)
           1%nat 2%nat "c" "b").
  - lia.
  - reflexivity.
  - reflexivity.
  - vm_compute. reflexivity.
Defined.

Lemma update_distances_both_ways_witness :
  ∃ pool' new_dists new_xsub,
    update_distances (Internal (Leaf "a") (Leaf "c"))
      (NJNode (Leaf "a") [(Leaf "b", 1%float); (Leaf "c", 1%float)] 2%float)
      (NJNode (Leaf "c") [(Leaf "b", 1%float); (Leaf "a", 1%float)] 2%float)
      [NJNode (Leaf "b") [(Leaf "c", 1%float); (Leaf "a", 1%float)] 2%float]
      [] num_zero = Ok (pool', new_dists, new_xsub) ∧
    new_xsub = foldr (λ e acc, num_add acc e.2) num_zero new_dists ∧
    new_dists.*1 = [Leaf "b"].
Proof.
  eexists _, _, _. split; [vm_compute; reflexivity|].
  destruct (update_distances_both_ways (Internal (Leaf "a") (Leaf "c"))
      (NJNode (Leaf "a") [(Leaf "b", 1%float); (Leaf "c", 1%float)] 2%float)
      (NJNode (Leaf "c") [(Leaf "b", 1%float); (Leaf "a", 1%float)] 2%float)
      [NJNode (Leaf "b") [(Leaf "c", 1%float); (Leaf "a", 1%float)] 2%float]
      [NJNode (Leaf "b") [(Internal (Leaf "a") (Leaf "c"), 0.5%float);
                          (Leaf "c", 1%float); (Leaf "a", 1%float)] 0.5%float]
      [(Leaf "b", 0.5%float)] 0.5%float) as (Hsum & Hkeys & _).
  - by_compute.
  - vm_compute. reflexivity.
  - split; [exact Hsum|exact Hkeys].
Defined.

(** * When the oracle and the editor answer *)

(** A clade that the lookup finds in a tree, and that is not the whole
    tree, can be cut off. *)
Lemma extract_defined t x r :
  wf_tree t →
  find_in_tree t (map_splits_to_nodes t) x (get_leaf_list x) = Ok (Some r) →
  get_leaf_set x ≠ get_leaf_set (seed_node t) →
  ∃ t' f, extract_nodes_from_split t r (get_leaf_list x) = Ok (t', f).
Proof.
  intros Hwf Hfind Hnfull. unfold find_in_tree in Hfind.
  rewrite !list_to_set_leaf_list in Hfind.
  rewrite decide_False in Hfind by done.
  destruct (get_node_from_clade t _ _) as [[w|]|] eqn:Hget; simpl in Hfind;
    [|done|done].
  injection Hfind as <-.
  pose proof (lookup_Some_is_split t _ w Hwf Hget) as [Hsub _].
  destruct (lookup_Some_node t _ w Hwf Hget) as [Hin Hor].
  rewrite list_to_set_leaf_list in Hsub, Hor.
  destruct (get_leaf_set_nonempty x) as [s Hs].
  assert (w ≠ seed_node t) as Hnseed.
  { intros ->. destruct Hor as [Heq|Heq]; [by apply Hnfull|].
    assert (s ∈ get_leaf_set (seed_node t)) as Hin' by (by apply Hsub).
    rewrite Heq in Hin'. apply elem_of_difference in Hin'. tauto. }
  destruct (extract_nodes_from_split_node t w (get_leaf_list x) Hwf Hin Hnseed)
    as (rest & Hre & Hrest & ->).
  rewrite list_to_set_leaf_list.
  destruct Hor as [Heq|Heq].
  - rewrite decide_True by done. by eexists _, _.
  - destruct (decide (get_leaf_set w = get_leaf_set x)); [by eexists _, _|].
    rewrite decide_True; [by eexists _, _|].
    rewrite Hrest, Heq. by apply difference_twice.
Qed.

Lemma join_nodes_in_one_tree_defined D Rc p q nP nQ :
  wf_tree D → wf_tree Rc →
  find_in_tree D (map_splits_to_nodes D) p (get_leaf_list p) = Ok (Some nP) →
  find_in_tree Rc (map_splits_to_nodes Rc) q (get_leaf_list q) = Ok (Some nQ) →
  get_leaf_set p ≠ get_leaf_set (seed_node D) →
  get_leaf_set q ≠ get_leaf_set (seed_node Rc) →
  ∃ r, join_nodes_in_one_tree D nP (get_leaf_list p) Rc nQ (get_leaf_list q)
       = Ok r.
Proof.
  intros HwfD HwfR HP HQ HnP HnQ. unfold join_nodes_in_one_tree.
  destruct (extract_defined D p nP HwfD HP HnP) as (tD & fP & ->).
  destruct (extract_defined Rc q nQ HwfR HQ HnQ) as (tR & fQ & ->).
  simpl. by eexists.
Qed.

(** With the flag set the rehearsal hands back two trees or none. *)
Lemma join_nodes_in_both_trees_defined t1 t2 a b nA nB test :
  wf_tree t1 → wf_tree t2 →
  find_in_tree t1 (map_splits_to_nodes t1) a (get_leaf_list a) = Ok (Some nA) →
  find_in_tree t2 (map_splits_to_nodes t2) b (get_leaf_list b) = Ok (Some nB) →
  ∃ o1 o2,
    join_nodes_in_both_trees t1 nA (get_leaf_list a) t2 nB (get_leaf_list b) test
    = Ok (o1, o2) ∧
    (test = true → o1 = None ∨ is_Some o2).
Proof.
  intros Hwf1 Hwf2 HA HB. unfold join_nodes_in_both_trees.
  rewrite !list_to_set_leaf_list.
  destruct (bool_decide_reflect
              (get_leaf_set (seed_node t1) = get_leaf_set a)) as [HeqA|HneA];
  destruct (bool_decide_reflect
              (get_leaf_set (seed_node t2) = get_leaf_set b)) as [HeqB|HneB];
    simpl.
  - destruct test; eexists _, _; (split; [done|]); [by left|done].
  - destruct test; [eexists _, _; split; [done|by left]|].
    destruct (extract_defined t2 b nB Hwf2 HB) as (t2' & fB & ->); [done|].
    simpl. eexists _, _. split; [done|]. done.
  - destruct test; [eexists _, _; split; [done|by left]|].
    destruct (extract_defined t1 a nA Hwf1 HA) as (t1' & fA & ->); [done|].
    simpl. eexists _, _. split; [done|]. done.
  - destruct (extract_defined t1 a nA Hwf1 HA) as (t1' & fA & ->); [done|].
    destruct (extract_defined t2 b nB Hwf2 HB) as (t2' & fB & ->); [done|].
    simpl. eexists _, _. split; [done|]. intros _. right. by eexists.
Qed.

(** The four lookups once more, with the results kept. *)
Ltac keep_lookup Hwf nd r Hr :=
  let Hs := fresh "Hs" in
  destruct (find_in_tree_total _ nd Hwf) as (r & Hr & Hs);
  rewrite Hr; simpl;
  destruct r as [r|];
  [ apply proj1 in Hs; specialize (Hs (mk_is_Some _ _ eq_refl))
  | let Hn := fresh "Hn" in
    assert (is_Some (@None noderef) → False) as Hn by (by intros [? ?]);
    apply proj2 in Hs;
    let Hs' := fresh "Hs" in
    assert (¬ is_split _ (get_leaf_set nd)) as Hs'
      by (intros Hx; exact (Hn (Hs Hx)));
    clear Hs Hn ].

Ltac keep_lookups Hwf1 Hwf2 nodeA nodeB :=
  let rA1 := fresh "rA1" in let HA1 := fresh "HA1" in
  let rB1 := fresh "rB1" in let HB1 := fresh "HB1" in
  let rA2 := fresh "rA2" in let HA2 := fresh "HA2" in
  let rB2 := fresh "rB2" in let HB2 := fresh "HB2" in
  keep_lookup Hwf1 nodeA rA1 HA1; keep_lookup Hwf1 nodeB rB1 HB1;
  keep_lookup Hwf2 nodeA rA2 HA2; keep_lookup Hwf2 nodeB rB2 HB2.

Lemma is_None_node_defined t clade :
  wf_tree t →
  ∃ v, is_None_node (get_node_from_clade t (map_splits_to_nodes t) clade) = Ok v.
Proof.
  intros Hwf. destruct (lookup_total t clade Hwf) as (r & -> & _).
  simpl. by eexists.
Qed.

Lemma test_join_defined tree1 tree2 nodeA nodeB :
  wf_tree tree1 → wf_tree tree2 →
  get_leaf_set nodeA ## get_leaf_set nodeB →
  is_split (seed_node tree1) (get_leaf_set nodeA) ∨
  is_split (seed_node tree2) (get_leaf_set nodeA) →
  is_split (seed_node tree1) (get_leaf_set nodeB) ∨
  is_split (seed_node tree2) (get_leaf_set nodeB) →
  ∃ v, test_join tree1 tree2 (map_splits_to_nodes tree1)
                 (map_splits_to_nodes tree2) nodeA nodeB = Ok v.
Proof.
  intros Hwf1 Hwf2 Hdisj HA HB. unfold test_join.
  apply not_disjoint_false in Hdisj. rewrite Hdisj.
  keep_lookups Hwf1 Hwf2 nodeA nodeB; try tauto;
    try (by apply is_None_node_defined).
  - destruct (lookup_total tree1 (get_leaf_list nodeA ++ get_leaf_list nodeB) Hwf1)
      as (n1 & -> & _).
    destruct (lookup_total tree2 (get_leaf_list nodeA ++ get_leaf_list nodeB) Hwf2)
      as (n2 & -> & _). simpl. by eexists.
  - destruct (join_nodes_in_both_trees_defined tree1 tree2 nodeA nodeB _ _ true
                Hwf1 Hwf2 HA1 HB2) as (o1 & o2 & -> & Hor).
    simpl. destruct (Hor eq_refl) as [-> | [u2 ->]]; [by eexists|].
    destruct o1; by eexists.
  - destruct (join_nodes_in_both_trees_defined tree1 tree2 nodeB nodeA _ _ true
                Hwf1 Hwf2 HB1 HA2) as (o1 & o2 & -> & Hor).
    simpl. destruct (Hor eq_refl) as [-> | [u2 ->]]; [by eexists|].
    destruct o1; by eexists.
Qed.

Lemma join_nodes_defined tree1 tree2 nodeA nodeB :
  wf_tree tree1 → wf_tree tree2 →
  get_leaf_set nodeA ## get_leaf_set nodeB →
  is_split (seed_node tree1) (get_leaf_set nodeA) ∨
  is_split (seed_node tree2) (get_leaf_set nodeA) →
  is_split (seed_node tree1) (get_leaf_set nodeB) ∨
  is_split (seed_node tree2) (get_leaf_set nodeB) →
  ¬ get_leaf_set (seed_node tree1) ⊆ get_leaf_set (seed_node tree2) →
  ¬ get_leaf_set (seed_node tree2) ⊆ get_leaf_set (seed_node tree1) →
  ∃ r, join_nodes tree1 tree2 (map_splits_to_nodes tree1)
                  (map_splits_to_nodes tree2) nodeA nodeB = Ok r.
Proof.
  intros Hwf1 Hwf2 Hdisj HA HB Hn12 Hn21. unfold join_nodes.
  pose proof Hdisj as Hdisj'.
  apply not_disjoint_false in Hdisj'. rewrite Hdisj'.
  destruct (get_leaf_set_nonempty nodeA) as [sa Hsa].
  destruct (get_leaf_set_nonempty nodeB) as [sb Hsb].
  assert (∀ t x y, is_split (seed_node t) (get_leaf_set x) →
                   is_split (seed_node t) (get_leaf_set y) →
                   get_leaf_set x ## get_leaf_set y →
                   (∃ s, s ∈ get_leaf_set x) →
                   get_leaf_set y ≠ get_leaf_set (seed_node t)) as Hroom.
  { intros t x y [Hx _] [Hy _] Hxy [s Hs] Heq.
    apply (Hxy s); [done|]. rewrite Heq. by apply Hx. }
  assert (∀ t t' x, is_split (seed_node t) (get_leaf_set x) →
                    ¬ get_leaf_set (seed_node t') ⊆ get_leaf_set (seed_node t) →
                    get_leaf_set x ≠ get_leaf_set (seed_node t')) as Hpart.
  { intros t t' x [Hx _] Hn Heq. apply Hn. by rewrite <- Heq. }
  assert (get_leaf_set nodeB ## get_leaf_set nodeA) as Hdisj2.
  { clear -Hdisj. sets_sub. }
  keep_lookups Hwf1 Hwf2 nodeA nodeB; try tauto; try (by eexists).
  - (* Case 2 *)
    destruct (join_nodes_in_one_tree_defined tree1 tree2 nodeB nodeA _ _
                Hwf1 Hwf2 HB1 HA2) as ([u1 u2] & ->).
    + apply (Hroom tree1 nodeA nodeB); eauto.
    + by apply (Hpart tree1 tree2).
    + simpl. by eexists.
  - (* Case 4 *)
    destruct (join_nodes_in_one_tree_defined tree1 tree2 nodeA nodeB _ _
                Hwf1 Hwf2 HA1 HB2) as ([u1 u2] & ->).
    + apply (Hroom tree1 nodeB nodeA); eauto.
    + by apply (Hpart tree1 tree2).
    + simpl. by eexists.
  - (* Case 3 *)
    destruct (join_nodes_in_one_tree_defined tree2 tree1 nodeB nodeA _ _
                Hwf2 Hwf1 HB2 HA1) as ([u1 u2] & ->).
    + apply (Hroom tree2 nodeA nodeB); eauto.
    + by apply (Hpart tree2 tree1).
    + simpl. by eexists.
  - (* Case 6 *)
    destruct (join_nodes_in_both_trees_defined tree1 tree2 nodeA nodeB _ _ false
                Hwf1 Hwf2 HA1 HB2) as (o1 & o2 & -> & _).
    simpl. by eexists.
  - (* Case 7 *)
    destruct (join_nodes_in_one_tree_defined tree2 tree1 nodeA nodeB _ _
                Hwf2 Hwf1 HA2 HB1) as ([u1 u2] & ->).
    + apply (Hroom tree2 nodeB nodeA); eauto.
    + by apply (Hpart tree2 tree1).
    + simpl. by eexists.
  - (* Case 8 *)
    destruct (join_nodes_in_both_trees_defined tree1 tree2 nodeB nodeA _ _ false
                Hwf1 Hwf2 HB1 HA2) as (o1 & o2 & -> & _).
    simpl. by eexists.
Qed.

Lemma find_in_tree_whole t m x r :
  find_in_tree t m x (get_leaf_list x) = Ok (Some r) →
  get_leaf_set x = get_leaf_set (seed_node t) → r = PoolNode x.
Proof.
  unfold find_in_tree. rewrite !list_to_set_leaf_list. intros Hfind Heq.
  rewrite decide_True in Hfind by done. by injection Hfind as <-.
Qed.

(** When the two trees become one, the one tree has the leaves of both. *)
Lemma join_nodes_in_both_trees_whole t1 t2 a b nA nB u :
  wf_tree t1 → wf_tree t2 →
  find_in_tree t1 (map_splits_to_nodes t1) a (get_leaf_list a) = Ok (Some nA) →
  find_in_tree t2 (map_splits_to_nodes t2) b (get_leaf_list b) = Ok (Some nB) →
  join_nodes_in_both_trees t1 nA (get_leaf_list a) t2 nB (get_leaf_list b) false
  = Ok (Some u, None) →
  get_leaf_set (seed_node u)
  = get_leaf_set (seed_node t1) ∪ get_leaf_set (seed_node t2).
Proof.
  intros Hwf1 Hwf2 HA HB. unfold join_nodes_in_both_trees.
  rewrite !list_to_set_leaf_list.
  destruct (bool_decide_reflect
              (get_leaf_set (seed_node t1) = get_leaf_set a)) as [HeqA|HneA];
  destruct (bool_decide_reflect
              (get_leaf_set (seed_node t2) = get_leaf_set b)) as [HeqB|HneB];
    simpl.
  - intros [= <-]. simpl.
    rewrite (find_in_tree_whole _ _ _ _ HA), (find_in_tree_whole _ _ _ _ HB)
      by done.
    simpl. by rewrite get_leaf_set_Internal, HeqA, HeqB.
  - destruct (extract_nodes_from_split t2 nB _) as [[t2' fB]|] eqn:Hex;
      simpl; [|done].
    intros [= <-]. simpl.
    rewrite (find_in_tree_whole _ _ _ _ HA) by done. simpl.
    apply extract_nodes_from_split_shape in Hex as (_ & Hsame & _); [|done].
    rewrite get_leaf_set_Internal, HeqA.
    by rewrite (perm_leaf_set _ _ (proj1 Hsame)).
  - destruct (extract_nodes_from_split t1 nA _) as [[t1' fA]|] eqn:Hex;
      simpl; [|done].
    intros [= <-]. simpl.
    rewrite (find_in_tree_whole _ _ _ _ HB) by done. simpl.
    apply extract_nodes_from_split_shape in Hex as (_ & Hsame & _); [|done].
    rewrite get_leaf_set_Internal, HeqB.
    by rewrite (perm_leaf_set _ _ (proj1 Hsame)).
  - destruct (extract_nodes_from_split t1 nA _) as [[t1' fA]|]; simpl; [|done].
    by destruct (extract_nodes_from_split t2 nB _) as [[t2' fB]|].
Qed.

Lemma join_nodes_whole tree1 tree2 nodeA nodeB u edited :
  wf_tree tree1 → wf_tree tree2 →
  join_nodes tree1 tree2 (map_splits_to_nodes tree1) (map_splits_to_nodes tree2)
             nodeA nodeB = Ok (Some u, None, edited) →
  get_leaf_set (seed_node u)
  = get_leaf_set (seed_node tree1) ∪ get_leaf_set (seed_node tree2).
Proof.
  intros Hwf1 Hwf2. unfold join_nodes.
  destruct (not_disjoint _ _); [done|].
  keep_lookups Hwf1 Hwf2 nodeA nodeB; try done;
    try (by destruct (join_nodes_in_one_tree _ _ _ _ _ _) as [[? ?]|]).
  - destruct (join_nodes_in_both_trees _ _ _ _ _ _ _) as [[o1 o2]|] eqn:Hjoin;
      simpl; [|done].
    intros [= -> -> _].
    by apply (join_nodes_in_both_trees_whole tree1 tree2 nodeA nodeB rA1 rB2).
  - destruct (join_nodes_in_both_trees _ _ _ _ _ _ _) as [[o1 o2]|] eqn:Hjoin;
      simpl; [|done].
    intros [= -> -> _].
    by apply (join_nodes_in_both_trees_whole tree1 tree2 nodeB nodeA rB1 rA2).
Qed.

(** X17 (lines 420-557): on well-formed trees the oracle answers, with a
    yes or a no, exactly when the two clades have no label in common and
    each is a split side of at least one of the two trees. *)
Theorem test_join_answers_iff tree1 tree2 nodeA nodeB :
  wf_tree tree1 → wf_tree tree2 →
  (∃ v, test_join tree1 tree2 (map_splits_to_nodes tree1)
                  (map_splits_to_nodes tree2) nodeA nodeB = Ok v) ↔
  get_leaf_set nodeA ## get_leaf_set nodeB ∧
  (is_split (seed_node tree1) (get_leaf_set nodeA) ∨
   is_split (seed_node tree2) (get_leaf_set nodeA)) ∧
  (is_split (seed_node tree1) (get_leaf_set nodeB) ∨
   is_split (seed_node tree2) (get_leaf_set nodeB)).
Proof.
  intros Hwf1 Hwf2. split.
  - intros [v Hv]. revert Hv. unfold test_join.
    destruct (not_disjoint _ _) eqn:Hdisj; [done|].
    apply not_disjoint_false in Hdisj.
    settle_lookups Hwf1 Hwf2 nodeA nodeB; try done; intros _; tauto.
  - intros (Hdisj & HA & HB). by apply test_join_defined.
Qed.

(** X18 (lines 560-690): on well-formed trees of which neither has all
    the leaves of the other, [join_nodes] answers for every two clades
    without a common label that are each a split side of at least one of
    the trees; the first tree of its answer is always there, and when the
    second is not, the first has the leaves of both trees. *)
Theorem join_nodes_answers tree1 tree2 nodeA nodeB :
  wf_tree tree1 → wf_tree tree2 →
  get_leaf_set nodeA ## get_leaf_set nodeB →
  is_split (seed_node tree1) (get_leaf_set nodeA) ∨
  is_split (seed_node tree2) (get_leaf_set nodeA) →
  is_split (seed_node tree1) (get_leaf_set nodeB) ∨
  is_split (seed_node tree2) (get_leaf_set nodeB) →
  ¬ get_leaf_set (seed_node tree1) ⊆ get_leaf_set (seed_node tree2) →
  ¬ get_leaf_set (seed_node tree2) ⊆ get_leaf_set (seed_node tree1) →
  ∃ u1 o2 edited,
    join_nodes tree1 tree2 (map_splits_to_nodes tree1)
               (map_splits_to_nodes tree2) nodeA nodeB
    = Ok (Some u1, o2, edited) ∧
    (o2 = None →
     get_leaf_set (seed_node u1)
     = get_leaf_set (seed_node tree1) ∪ get_leaf_set (seed_node tree2)).
Proof.
  intros Hwf1 Hwf2 Hdisj HA HB Hn12 Hn21.
  destruct (join_nodes_defined tree1 tree2 nodeA nodeB Hwf1 Hwf2 Hdisj HA HB
              Hn12 Hn21) as ([[o1 o2] edited] & Hjoin).
  assert (is_Some o1) as [u1 ->].
  { revert Hjoin. unfold join_nodes.
    destruct (not_disjoint _ _); [done|].
    destruct (find_in_tree tree1 _ nodeA _) as [[nAT1|]|]; simpl; [| |done];
    (destruct (find_in_tree tree1 _ nodeB _) as [[nBT1|]|]; simpl; [| |done]);
    (destruct (find_in_tree tree2 _ nodeA _) as [[nAT2|]|]; simpl; [| |done]);
    (destruct (find_in_tree tree2 _ nodeB _) as [[nBT2|]|]; simpl; try done);
    try (intros [= <- _ _]; by eexists);
    try (destruct (join_nodes_in_one_tree _ _ _ _ _ _) as [[? ?]|];
         simpl; [|done]; intros [= <- _ _]; by eexists).
    all: unfold join_nodes_in_both_trees;
      repeat case_bool_decide; simpl;
      repeat match goal with
             | |- context [extract_nodes_from_split ?a ?b ?c] =>
                 destruct (extract_nodes_from_split a b c) as [[? ?]|];
                 simpl; [|done]
             end;
      intros [= <- _ _]; by eexists. }
  exists u1, o2, edited. split; [done|]. intros ->.
  by apply (join_nodes_whole tree1 tree2 nodeA nodeB u1 edited).
Qed.

Lemma test_join_answers_iff_witness :
  (∃ v, test_join tree_ab tree_cd (map_splits_to_nodes tree_ab)
                  (map_splits_to_nodes tree_cd) (Leaf "a") (Leaf "c") = Ok v) ↔
  get_leaf_set (Leaf "a") ## get_leaf_set (Leaf "c") ∧
  (is_split (seed_node tree_ab) (get_leaf_set (Leaf "a")) ∨
   is_split (seed_node tree_cd) (get_leaf_set (Leaf "a"))) ∧
  (is_split (seed_node tree_ab) (get_leaf_set (Leaf "c")) ∨
   is_split (seed_node tree_cd) (get_leaf_set (Leaf "c"))).
Proof.
  apply (test_join_answers_iff tree_ab tree_cd (Leaf "a") (Leaf "c")).
  - apply wf_new_tree. by_compute.
  - apply wf_new_tree. by_compute.
Defined.

Lemma join_nodes_answers_witness :
  ∃ u1 o2 edited,
    join_nodes tree_ab tree_cd (map_splits_to_nodes tree_ab)
               (map_splits_to_nodes tree_cd) (Leaf "a") (Leaf "c")
    = Ok (Some u1, o2, edited) ∧
    (o2 = None →
     get_leaf_set (seed_node u1)
     = get_leaf_set (seed_node tree_ab) ∪ get_leaf_set (seed_node tree_cd)).
Proof.
  apply (join_nodes_answers tree_ab tree_cd (Leaf "a") (Leaf "c")).
  - apply wf_new_tree. by_compute.
  - apply wf_new_tree. by_compute.
  - by_compute.
  - left. apply clade_is_split. exists (Leaf "a").
    split; [by_compute|reflexivity].
  - right. apply clade_is_split. exists (Leaf "c").
    split; [by_compute|reflexivity].
  - by_compute.
  - by_compute.
Defined.

(** * What can go wrong in the loop *)

Section ScanDefined.
Context {X R : Type}.
Variable ltb : R → R → bool.
Variable qvalue : X → X → result R.
Variable test : X → X → result bool.

Lemma scan_list_defined pairs : ∀ best,
(∀ x y, (x, y) ∈ pairs →
        (∃ q, qvalue x y = Ok q) ∧ ∃ v, test x y = Ok v) →
∃ r, scan_list ltb qvalue test pairs best = Ok r.
Proof.
induction pairs as [|[x y] pairs IH]; intros best Hall; simpl.
- by eexists.
- destruct (Hall x y) as [[q Hq] [v Hv]]; [by left|].
  unfold scan_pair. rewrite Hq. simpl.
  assert (∀ best', ∃ r, scan_list ltb qvalue test pairs best' = Ok r) as Hrest.
  { intros best'. apply IH. intros x' y' Hin. apply Hall. by right. }
  destruct (match best with Some (min_q, _) => ltb q min_q | None => true end).
  + rewrite Hv. simpl. destruct (negb v); simpl; apply Hrest.
  + simpl. apply Hrest.
Qed.

Lemma scan_defined node_pool :
(∀ x y, (x, y) ∈ all_pairs node_pool →
        (∃ q, qvalue x y = Ok q) ∧ ∃ v, test x y = Ok v) →
∃ r, scan ltb qvalue test node_pool = Ok r.
Proof.
intros Hall. unfold scan. rewrite scan_outer_list.
destruct (scan_list_defined (all_pairs node_pool) None Hall) as [r ->].
simpl. by eexists.
Qed.
End ScanDefined.

Section Progress.
Context {R : Type} `{Number R}.

Lemma dict_get_key (d : list (node * R)) k :
k ∈ d.*1 → ∃ v, dict_get d k = Ok v.
Proof.
induction d as [|[k' v'] d IH]; simpl; intros Hin.
- by apply elem_of_nil in Hin.
- destruct (decide (k' = k)); [by eexists|].
  apply IH. apply elem_of_cons in Hin as [->|Hin]; [done|done].
Qed.

Lemma update_distances_defined new_node (nd1 nd2 : nj_node R) pool :
(∀ x, x ∈ pool →
      (∃ d, dict_get (_nj_distances x) (nj_tree nd1) = Ok d) ∧
      (∃ d, dict_get (_nj_distances x) (nj_tree nd2) = Ok d) ∧
      (∃ d, dict_get (_nj_distances nd1) (nj_tree x) = Ok d) ∧
      (∃ d, dict_get (_nj_distances nd2) (nj_tree x) = Ok d)) →
(∃ d, dict_get (_nj_distances nd1) (nj_tree nd2) = Ok d) →
∀ new_dists new_xsub,
∃ r, update_distances new_node nd1 nd2 pool new_dists new_xsub = Ok r.
Proof.
intros Hall [v3 Hv3].
induction pool as [|x pool IH]; intros nd0 nx0; simpl; [by eexists|].
destruct (Hall x) as ([d1 ->] & [d2 ->] & [e1 ->] & [e2 ->]); [by left|].
rewrite Hv3. simpl.
assert (∀ y, y ∈ pool →
      (∃ d, dict_get (_nj_distances y) (nj_tree nd1) = Ok d) ∧
      (∃ d, dict_get (_nj_distances y) (nj_tree nd2) = Ok d) ∧
      (∃ d, dict_get (_nj_distances nd1) (nj_tree y) = Ok d) ∧
      (∃ d, dict_get (_nj_distances nd2) (nj_tree y) = Ok d)) as Hall'.
{ intros y Hy. apply Hall. by right. }
destruct (IH Hall'
            ((nj_tree x, num_mul num_half
                (num_sub (num_add (num_add num_zero d1) d2) v3)) :: nd0)
            (num_add nx0 (num_mul num_half
                (num_sub (num_add (num_add num_zero d1) d2) v3))))
  as [[[rest nds] nxs] ->].
simpl. by eexists.
Qed.

Lemma dists_ok_step new_node (nd1 nd2 : nj_node R) l1 l2 l3 pool' nds nxs :
dists_ok (l1 ++ nd1 :: l2 ++ nd2 :: l3) →
update_distances new_node nd1 nd2 (l1 ++ l2 ++ l3) [] num_zero
= Ok (pool', nds, nxs) →
dists_ok (pool' ++ [NJNode new_node nds nxs]).
Proof.
intros Hok Hupd.
apply update_distances_gen in Hupd as (entries & -> & _ & Hkeys & Hall).
rewrite app_nil_r.
assert (∀ x', x' ∈ pool' →
          ∃ x, x ∈ l1 ++ nd1 :: l2 ++ nd2 :: l3 ∧ nj_tree x' = nj_tree x ∧
               nj_tree x ∈ entries.*1 ∧
               ∃ dist, _nj_distances x' = (new_node, dist) :: _nj_distances x)
  as Hback.
{ intros x' Hx'. apply list_elem_of_lookup_1 in Hx' as [i Hi].
  destruct (Forall2_lookup_r _ _ _ _ _ Hall Hi)
    as (x & Hx & (d1 & d2 & v3 & e1 & e2 & _ & _ & _ & _ & _ & Ht & Hd & _ & Hin)).
  exists x. apply list_elem_of_lookup_2 in Hx. split.
  - rewrite (pool_split_perm l1 l2 l3 nd1 nd2). by do 2 right.
  - split; [done|]. split; [|by eexists].
    apply list_elem_of_fmap. eexists. split; [|exact Hin]. done. }
intros x y Hx Hy Hne.
apply elem_of_app in Hx as [Hx|Hx], Hy as [Hy|Hy].
- destruct (Hback x Hx) as (x0 & Hx0 & Htx & _ & dist & Hdx).
  destruct (Hback y Hy) as (y0 & Hy0 & Hty & _).
  rewrite Hdx. simpl. destruct (decide (new_node = nj_tree y)); [by eexists|].
  rewrite Hty. apply Hok; [done|done|]. by rewrite <- Htx, <- Hty.
- apply list_elem_of_singleton in Hy as ->. simpl.
  destruct (Hback x Hx) as (x0 & _ & _ & _ & dist & Hdx).
  rewrite Hdx. simpl. rewrite decide_True by done. by eexists.
- apply list_elem_of_singleton in Hx as ->. simpl.
  destruct (Hback y Hy) as (y0 & _ & Hty & Hin & _).
  apply dict_get_key. by rewrite Hty.
- apply list_elem_of_singleton in Hx as ->.
  by apply list_elem_of_singleton in Hy as ->.
Qed.

Lemma inv_cover T1 T2 (st : state (R:=R)) :
inv T1 T2 st →
get_leaf_set (seed_node (tree1 st)) ∪ get_leaf_set (seed_node (tree2 st))
= get_leaf_set (seed_node T1) ∪ get_leaf_set (seed_node T2).
Proof.
intros (((_ & Hsub1 & _) & (_ & Hsub2 & _) & _) & _ & _ & Hs1 & Hs2 & _).
clear -Hsub1 Hsub2 Hs1 Hs2. sets_eq.
Qed.

Lemma inv_apart T1 T2 (st : state (R:=R)) :
inv T1 T2 st →
¬ get_leaf_set (seed_node (tree1 st)) ⊆ get_leaf_set (seed_node (tree2 st)) ∧
¬ get_leaf_set (seed_node (tree2 st)) ⊆ get_leaf_set (seed_node (tree1 st)).
Proof.
intros Hinv. pose proof (inv_cover T1 T2 st Hinv) as Hcover.
destruct Hinv as (_ & _ & _ & _ & _ & Hn1 & Hn2 & _).
split; intros Hsub.
- apply Hn2. rewrite <- Hcover. clear -Hsub. sets_eq.
- apply Hn1. rewrite <- Hcover. clear -Hsub. sets_eq.
Qed.

(** A live node is a split side of a tree that has one of its leaves. *)
Lemma inv_node_found T1 T2 (st : state (R:=R)) x :
inv T1 T2 st → x ∈ nj_tree <$> node_pool st →
is_split (seed_node (tree1 st)) (get_leaf_set x) ∨
is_split (seed_node (tree2 st)) (get_leaf_set x).
Proof.
intros Hinv Hx. pose proof (inv_cover T1 T2 st Hinv) as Hcover.
destruct Hinv as (_ & _ & _ & _ & _ & _ & _ & (_ & Hset & Hall)).
rewrite Forall_forall in Hall. destruct (Hall x Hx) as [Hi1 Hi2].
destruct (get_leaf_set_nonempty x) as [l Hl].
assert (l ∈ get_leaf_set (seed_node (tree1 st))
            ∪ get_leaf_set (seed_node (tree2 st))) as Hin.
{ rewrite Hcover, <- Hset. apply elem_of_list_to_set, list_elem_of_bind.
  exists x. split; [|done]. by apply elem_of_get_leaf_set. }
apply elem_of_union in Hin as [Hin|Hin].
- left. destruct Hi1 as [Hdisj|[_ [Hm _]]]; [by destruct (Hdisj l)|].
  apply Hm, clade_of_root.
- right. destruct Hi2 as [Hdisj|[_ [Hm _]]]; [by destruct (Hdisj l)|].
  apply Hm, clade_of_root.
Qed.

Lemma inv_pair T1 T2 (st : state (R:=R)) l1 nd1 l2 nd2 l3 :
inv T1 T2 st → node_pool st = l1 ++ nd1 :: l2 ++ nd2 :: l3 →
nj_tree nd1 ≠ nj_tree nd2 ∧
get_leaf_set (nj_tree nd1) ## get_leaf_set (nj_tree nd2) ∧
(is_split (seed_node (tree1 st)) (get_leaf_set (nj_tree nd1)) ∨
 is_split (seed_node (tree2 st)) (get_leaf_set (nj_tree nd1))) ∧
(is_split (seed_node (tree1 st)) (get_leaf_set (nj_tree nd2)) ∨
 is_split (seed_node (tree2 st)) (get_leaf_set (nj_tree nd2))).
Proof.
intros Hinv Hsplit.
pose proof Hinv as (_ & _ & _ & _ & _ & _ & _ & (Hnd & _ & _)).
rewrite Hsplit in Hnd.
rewrite fmap_app, fmap_cons, fmap_app, fmap_cons in Hnd.
pose proof (NoDup_pool_trees _ Hnd) as Hdistinct.
rewrite (pool_split_perm (nj_tree <$> l1) (nj_tree <$> l2) (nj_tree <$> l3)
           (nj_tree nd1) (nj_tree nd2)) in Hnd, Hdistinct.
pose proof (pool_leaves_apart _ _ _ Hnd) as (_ & _ & HAB & _).
split.
- apply NoDup_cons in Hdistinct as [Hnotin _]. intros Heq.
  apply Hnotin. rewrite Heq. by left.
- split; [done|]. split.
  + apply (inv_node_found T1 T2); [done|]. rewrite Hsplit.
    apply list_elem_of_fmap. exists nd1. split; [done|].
    apply elem_of_app. right. by left.
  + apply (inv_node_found T1 T2); [done|]. rewrite Hsplit.
    apply list_elem_of_fmap. exists nd2. split; [done|].
    apply elem_of_app. right. right. apply elem_of_app. right. by left.
Qed.

Lemma scan_state_defined T1 T2 n (st : state (R:=R)) :
inv T1 T2 st → dists_ok (node_pool st) →
∃ r, scan_state n st = Ok r.
Proof.
intros Hinv Hok. unfold scan_state. apply scan_defined. intros x y Hin.
apply elem_of_all_pairs in Hin as (l1 & l2 & l3 & Hsplit).
destruct (inv_pair T1 T2 st _ _ _ _ _ Hinv Hsplit) as (Hne & HAB & HA & HB).
split.
- unfold qvalue. destruct (Hok x y) as [d ->]; [| |done|].
  + rewrite Hsplit. apply elem_of_app. right. by left.
  + rewrite Hsplit. apply elem_of_app. right. right.
    apply elem_of_app. right. by left.
  + simpl. by eexists.
- unfold oracle.
  destruct Hinv as (((Hwf1 & _) & (Hwf2 & _) & _) & -> & -> & _).
  by apply test_join_defined.
Qed.

Lemma iteration_progress T1 T2 n (st : state (R:=R)) :
inv T1 T2 st → dists_ok (node_pool st) →
match iteration (get_leaf_set (seed_node T1) ∪ get_leaf_set (seed_node T2)) n st
with
| Raise e => e = TypeError
| Ok (Continue st') => dists_ok (node_pool st')
| Ok (Return _) => True
end.
Proof.
intros Hinv Hok.
destruct (scan_state_defined T1 T2 n st Hinv Hok) as [r Hscan].
pose proof (inv_apart T1 T2 st Hinv) as [Hn12 Hn21].
pose proof (inv_cover T1 T2 st Hinv) as Hcover.
pose proof Hinv as (Htree & Hm1 & Hm2 & Hs1 & Hs2 & Hn1 & Hn2 & Hpool).
pose proof Htree as ((Hwf1 & _) & (Hwf2 & _) & _).
unfold iteration. rewrite Hscan. simpl.
destruct r as [[nd1 nd2]|]; [|done].
apply scan_passes in Hscan as [Hin Htest].
unfold oracle in Htest. rewrite Hm1, Hm2 in Htest |- *.
apply elem_of_all_pairs in Hin as (l1 & l2 & l3 & Hsplit).
destruct (inv_pair T1 T2 st _ _ _ _ _ Hinv Hsplit) as (Hne & HAB' & HA & HB).
rewrite Hsplit in Hpool, Hok |- *.
rewrite fmap_app, fmap_cons, fmap_app, fmap_cons in Hpool.
pose proof Hpool as (Hnd & Hset & Hall).
pose proof (NoDup_pool_trees _ Hnd) as Hdistinct.
pose proof (pool_split_perm (nj_tree <$> l1) (nj_tree <$> l2) (nj_tree <$> l3)
              (nj_tree nd1) (nj_tree nd2)) as Hperm.
rewrite Hperm in Hnd, Hall, Hdistinct. rewrite Hperm in Hset.
pose proof (pool_leaves_apart _ _ _ Hnd) as (HndA & HndB & HAB & _).
apply Forall_cons in Hall as [[HiA1 HiA2] Hall].
apply Forall_cons in Hall as [[HiB1 HiB2] _].
destruct (join_nodes_defined (tree1 st) (tree2 st) (nj_tree nd1) (nj_tree nd2)
            Hwf1 Hwf2 HAB HA HB Hn12 Hn21) as ([[o1 o2] edited] & Hjoin).
rewrite Hjoin. simpl.
destruct (join_nodes_step T1 T2 _ _ _ _ o1 o2 edited Htree
            HiA1 HiA2 HiB1 HiB2 HndA HndB HAB Htest Hjoin)
  as (u1 & -> & [(-> & -> & G1 & G2)|(u2 & -> & Hstep & Hsame)]).
- (* one tree was added whole to the other *)
  simpl. rewrite decide_True; [done|].
  rewrite (join_nodes_whole _ _ _ _ _ _ Hwf1 Hwf2 Hjoin). exact Hcover.
- assert (∀ t1' t2' m1' m2',
    match
      (let new_node := Internal (nj_tree nd1) (nj_tree nd2) in
       let pool := pool_remove (nj_tree nd2)
                     (pool_remove (nj_tree nd1)
                        (l1 ++ nd1 :: l2 ++ nd2 :: l3)) in
       '(pool, new_dists, new_xsub) ←
         update_distances new_node nd1 nd2 pool [] num_zero;
       let pool := pool ++ [NJNode new_node new_dists new_xsub] in
       Ok (Continue (State t1' t2' m1' m2' pool (printed st ++ [n]))))
    with
    | Raise e => e = TypeError
    | Ok (Continue st') => dists_ok (node_pool st')
    | Ok (Return _) => True
    end) as Hcontinue.
  { intros t1' t2' m1' m2'. simpl.
    rewrite pool_remove_app.
    2:{ intros y Hy Heq. apply NoDup_cons in Hdistinct as [Hnotin _].
        apply Hnotin. right. apply elem_of_app. left.
        rewrite <- Heq. apply list_elem_of_fmap. by exists y. }
    rewrite (app_assoc l1 l2), pool_remove_app.
    2:{ intros y Hy Heq. apply NoDup_cons in Hdistinct as [_ Hdistinct].
        apply NoDup_cons in Hdistinct as [Hnotin _].
        apply Hnotin. rewrite app_assoc. apply elem_of_app. left.
        rewrite <- fmap_app, <- Heq. apply list_elem_of_fmap. by exists y. }
    rewrite <- app_assoc.
    assert (nd1 ∈ l1 ++ nd1 :: l2 ++ nd2 :: l3) as Hin1.
    { apply elem_of_app. right. by left. }
    assert (nd2 ∈ l1 ++ nd1 :: l2 ++ nd2 :: l3) as Hin2.
    { apply elem_of_app. right. right. apply elem_of_app. right. by left. }
    destruct (update_distances_defined (Internal (nj_tree nd1) (nj_tree nd2))
                nd1 nd2 (l1 ++ l2 ++ l3)) with (new_dists := @nil (node * R))
                                                (new_xsub := num_zero)
      as [[[pool' nds] nxs] Hupd].
    - intros x Hx.
      assert (x ∈ l1 ++ nd1 :: l2 ++ nd2 :: l3) as Hx'.
      { rewrite (pool_split_perm l1 l2 l3 nd1 nd2). by do 2 right. }
      assert (nj_tree x ≠ nj_tree nd1 ∧ nj_tree x ≠ nj_tree nd2) as [Hx1 Hx2].
      { apply NoDup_cons in Hdistinct as [Hnot1 Hdistinct'].
        apply NoDup_cons in Hdistinct' as [Hnot2 _].
        assert (nj_tree x ∈ (nj_tree <$> l1) ++ (nj_tree <$> l2)
                            ++ (nj_tree <$> l3)) as Hxin.
        { rewrite <- !fmap_app. apply list_elem_of_fmap. by exists x. }
        split; intros Heq; rewrite Heq in Hxin; [|done].
        apply Hnot1. by right. }
      split; [by apply Hok|]. split; [by apply Hok|].
      split; apply Hok; done.
    - by apply Hok.
    - rewrite Hupd. simpl. by eapply dists_ok_step. }
  destruct edited; simpl.
  + case_decide; simpl; [done|]. case_decide; simpl; [done|].
    apply Hcontinue.
  + apply Hcontinue.
Qed.

Lemma nj_loop_progress T1 T2 ns n : ∀ (st : state (R:=R)) e,
inv T1 T2 st → dists_ok (node_pool st) → n = length (node_pool st) →
nj_loop (get_leaf_set (seed_node T1) ∪ get_leaf_set (seed_node T2)) ns n st
= Raise e →
e = TypeError.
Proof.
induction n as [|n IH]; intros st e Hinv Hok Hn.
- apply inv_two_nodes in Hinv. lia.
- destruct n as [|n].
  + apply inv_two_nodes in Hinv. lia.
  + cbn [nj_loop].
    pose proof (iteration_progress T1 T2 (S (S n)) st Hinv Hok) as Hprog.
    destruct (iteration _ _ st) as [[t'|st']|e'] eqn:Hit; simpl; [done| |].
    * destruct (iteration_inv T1 T2 _ st (Continue st') Hinv Hit)
        as [Hinv' Hlen].
      apply IH; [done|done|lia].
    * by intros [= <-].
Qed.

Lemma initial_dists_ok (dm : gmap label (gmap label R)) taxa pool :
NoDup taxa →
cache_rows dm taxa 0 taxa = Ok pool →
dists_ok pool.
Proof.
intros Hnd Hcache.
destruct (cache_rows_spec dm taxa Hnd taxa 0) as (pool' & Hcache' & Hprops).
- intros k t1 j t2 Hk Hj Hne.
  by apply (cache_rows_reads dm taxa taxa 0 pool Hcache k t1 j t2).
- done.
- rewrite Hcache in Hcache'. injection Hcache' as <-.
  pose proof (cache_rows_trees _ _ _ _ _ Hcache) as Htrees.
  intros x y Hx Hy Hne.
  apply list_elem_of_lookup_1 in Hx as [i Hi], Hy as [j Hj].
  assert (∃ t1, taxa !! i = Some t1 ∧ nj_tree x = Leaf t1) as (t1 & Ht1 & Hx1).
  { pose proof (f_equal (λ l, l !! i) Htrees) as Hi'. simpl in Hi'.
    rewrite !list_lookup_fmap, Hi in Hi'. simpl in Hi'.
    destruct (taxa !! i) as [t1|]; [|done]. exists t1. split; [done|].
    by injection Hi'. }
  assert (∃ t2, taxa !! j = Some t2 ∧ nj_tree y = Leaf t2) as (t2 & Ht2 & Hy2).
  { pose proof (f_equal (λ l, l !! j) Htrees) as Hj'. simpl in Hj'.
    rewrite !list_lookup_fmap, Hj in Hj'. simpl in Hj'.
    destruct (taxa !! j) as [t2|]; [|done]. exists t2. split; [done|].
    by injection Hj'. }
  destruct (Hprops i t1 Ht1) as (x' & Hx' & _ & Hget & _).
  rewrite Hi in Hx'. injection Hx' as <-.
  rewrite Hy2, Hget.
  + apply (cache_rows_reads dm taxa taxa 0 pool Hcache i t1 j t2); [done|done|].
    simpl. intros ->. rewrite Ht1 in Ht2. injection Ht2 as <-.
    apply Hne. by rewrite Hx1, Hy2.
  + by eapply list_elem_of_lookup_2.
  + intros ->. apply Hne. by rewrite Hx1, Hy2.
Qed.

(** X19 (lines 693-860): on well-formed trees with no common leaf and a
    matrix whose namespace and whose mapped taxa are the leaves of the two
    trees, the mapped taxa each once, with an entry for every two
    different taxa, the merge returns a tree or raises the [TypeError] of
    a pass in which no pair has passed the oracle: no lookup of a clade or
    of a distance fails, no clade is re-rooted that cannot be, and the
    loop never runs out of nodes. *)
Theorem merge_fails_only_without_pair (dm : pdm R) (T1 T2 : tree) :
wf_tree T1 → wf_tree T2 →
get_leaf_set (seed_node T1) ## get_leaf_set (seed_node T2) →
NoDup (_mapped_taxa dm) →
list_to_set (_mapped_taxa dm)
= get_leaf_set (seed_node T1) ∪ get_leaf_set (seed_node T2) →
list_to_set (pdm_taxon_namespace dm)
= get_leaf_set (seed_node T1) ∪ get_leaf_set (seed_node T2) →
(∀ i j t1 t2,
   i ≠ j → _mapped_taxa dm !! i = Some t1 → _mapped_taxa dm !! j = Some t2 →
   ∃ d, original_distance (_taxon_phylogenetic_distances dm) t1 t2 = Ok d) →
(∃ out, merge_two_trees_via_nj dm T1 T2 = Ok out) ∨
merge_two_trees_via_nj dm T1 T2 = Raise TypeError.
Proof.
intros Hwf1 Hwf2 Hdisj Hnd Hset Hnames Hall.
unfold merge_two_trees_via_nj, merge_two_trees_via_nj_out.
apply disjoint_intersection_L in Hdisj.
rewrite decide_False by (rewrite Hdisj, size_empty; lia).
rewrite decide_False by (intros Hn; by apply Hn).
destruct (cache_rows_spec (_taxon_phylogenetic_distances dm) (_mapped_taxa dm)
            Hnd (_mapped_taxa dm) 0) as (pool & Hcache & _).
{ intros k t1 j t2 Hk Hj Hne. apply (Hall k j); [simpl in Hne; lia|done|done]. }
{ done. }
rewrite Hcache. simpl.
pose proof (initial_dists_ok _ _ _ Hnd Hcache) as Hok.
apply cache_rows_trees in Hcache.
pose proof (initial_inv T1 T2 pool _ Hwf1 Hwf2 Hdisj Hnd Hset Hcache) as Hinv.
assert (length (_mapped_taxa dm) = length pool) as Hlen.
{ by rewrite <- (length_fmap nj_tree pool), Hcache, length_fmap. }
destruct (nj_loop _ _ _ _) as [[t printed]|e] eqn:Hloop; simpl.
- left. by eexists.
- right. f_equal.
  by apply (nj_loop_progress T1 T2 _ _ _ e Hinv Hok Hlen Hloop).
Qed.
End Progress.

Lemma merge_fails_only_without_pair_witness :
  (∃ out, merge_two_trees_via_nj pdm_abc tree_ab tree_c = Ok out) ∨
  merge_two_trees_via_nj pdm_abc tree_ab tree_c = Raise TypeError.
Proof.
  apply (merge_fails_only_without_pair pdm_abc tree_ab tree_c).
  - apply wf_new_tree. by_compute.
  - apply wf_new_tree. by_compute.
  - by_compute.
  - by_compute.
  - by_compute.
  - by_compute.
  - intros i j t1 t2 Hne Hi Hj.
    destruct i as [|[|[|i]]]; destruct j as [|[|[|j]]]; simpl in Hi, Hj;
      try done; injection Hi as <-; injection Hj as <-;
      eexists; vm_compute; reflexivity.
Defined.

(** * The editor only adds *)

Lemma join_nodes_in_one_tree_grows D nP cladeP Rc nQ cladeQ tD tR :
  wf_tree D → wf_tree Rc →
  list_to_set cladeP ## get_leaf_set (seed_node Rc) →
  join_nodes_in_one_tree D nP cladeP Rc nQ cladeQ = Ok (tD, tR) →
  wf_tree tD ∧ same_splits (seed_node D) (seed_node tD) ∧
  wf_tree tR ∧
  get_leaf_set (seed_node tR)
  = list_to_set cladeP ∪ get_leaf_set (seed_node Rc) ∧
  agree_on (get_leaf_set (seed_node Rc)) (seed_node tR) (seed_node Rc).
Proof.
  intros HwfD HwfR HPR. unfold join_nodes_in_one_tree.
  destruct (extract_nodes_from_split D nP _) as [[Dr fP]|] eqn:HexD;
    simpl; [|done].
  destruct (extract_nodes_from_split Rc nQ _) as [[Rr fQ]|] eqn:HexR;
    simpl; [|done].
  intros [= <- <-].
  apply extract_nodes_from_split_shape in HexD
    as (HwfDr & HsameD & HfP & HndP & restP & HintoD); [|done].
  apply extract_nodes_from_split_shape in HexR
    as (HwfRr & HsameR & HfQ & HndQ & restQ & HintoR); [|done].
  pose proof (perm_leaf_set _ _ (proj1 HsameR)) as HLR.
  assert (NoDup (get_leaf_list (Internal fP (seed_node Rr)))) as Hnd'.
  { apply NoDup_attach; [done|by apply wf_tree_NoDup|].
    by rewrite HfP, <- HLR. }
  split; [done|]. split; [done|]. split; [by apply wf_new_tree|]. simpl.
  split; [by rewrite get_leaf_set_Internal, HfP, <- HLR|].
  eapply agree_on_trans.
  - apply agree_on_attach_l. rewrite HfP. clear -HPR. sets_sub.
  - by apply same_splits_agree_on, same_splits_sym.
Qed.

Lemma join_nodes_in_both_trees_grows t1 nA cladeA t2 nB cladeB test u1 u2 :
  wf_tree t1 → wf_tree t2 →
  list_to_set cladeA ## get_leaf_set (seed_node t2) →
  list_to_set cladeB ## get_leaf_set (seed_node t1) →
  join_nodes_in_both_trees t1 nA cladeA t2 nB cladeB test
  = Ok (Some u1, Some u2) →
  wf_tree u1 ∧ wf_tree u2 ∧
  get_leaf_set (seed_node u1)
  = get_leaf_set (seed_node t1) ∪ list_to_set cladeB ∧
  get_leaf_set (seed_node u2)
  = get_leaf_set (seed_node t2) ∪ list_to_set cladeA ∧
  agree_on (get_leaf_set (seed_node t1)) (seed_node u1) (seed_node t1) ∧
  agree_on (get_leaf_set (seed_node t2)) (seed_node u2) (seed_node t2).
Proof.
  intros Hwf1 Hwf2 HA2 HB1. unfold join_nodes_in_both_trees.
  destruct (bool_decide_reflect
              (get_leaf_set (seed_node t1) = list_to_set cladeA)) as [HeqA|HneA];
  destruct (bool_decide_reflect
              (get_leaf_set (seed_node t2) = list_to_set cladeB)) as [HeqB|HneB];
    simpl.
  - by destruct test.
  - destruct test; [done|].
    by destruct (extract_nodes_from_split t2 nB _) as [[? ?]|].
  - destruct test; [done|].
    by destruct (extract_nodes_from_split t1 nA _) as [[? ?]|].
  - destruct (extract_nodes_from_split t1 nA _) as [[t1r fA]|] eqn:Hex1;
      simpl; [|done].
    destruct (extract_nodes_from_split t2 nB _) as [[t2r fB]|] eqn:Hex2;
      simpl; [|done].
    intros [= <- <-].
    apply extract_nodes_from_split_shape in Hex1
      as (Hwf1r & Hsame1 & HfA & HndfA & restA & Hinto1); [|done].
    apply extract_nodes_from_split_shape in Hex2
      as (Hwf2r & Hsame2 & HfB & HndfB & restB & Hinto2); [|done].
    pose proof (perm_leaf_set _ _ (proj1 Hsame1)) as HL1.
    pose proof (perm_leaf_set _ _ (proj1 Hsame2)) as HL2.
    assert (NoDup (get_leaf_list (Internal (seed_node t1r) fB))) as Hnd1'.
    { apply NoDup_attach; [by apply wf_tree_NoDup|done|].
      rewrite <- HL1, HfB. clear -HB1. sets_sub. }
    assert (NoDup (get_leaf_list (Internal (seed_node t2r) fA))) as Hnd2'.
    { apply NoDup_attach; [by apply wf_tree_NoDup|done|].
      rewrite <- HL2, HfA. clear -HA2. sets_sub. }
    split; [by apply wf_new_tree|]. split; [by apply wf_new_tree|]. simpl.
    split; [by rewrite get_leaf_set_Internal, HfB, <- HL1|].
    split; [by rewrite get_leaf_set_Internal, HfA, <- HL2|].
    split.
    + eapply agree_on_trans.
      * apply agree_on_attach_r. rewrite HfB. clear -HB1. sets_sub.
      * by apply same_splits_agree_on, same_splits_sym.
    + eapply agree_on_trans.
      * apply agree_on_attach_r. rewrite HfA. clear -HA2. sets_sub.
      * by apply same_splits_agree_on, same_splits_sym.
Qed.

(** X20 (lines 560-690): when each of the two clades is, in each of the
    two well-formed trees, a split side or without a leaf there, the two
    trees that [join_nodes] hands back are well formed; each has the
    leaves of the tree it comes from, at most the leaves of the two clades
    more, and on the old leaves the splits it had: the editor adds and
    re-roots, it never prunes or rearranges. *)
Theorem join_nodes_only_adds tree1 tree2 nodeA nodeB u1 u2 edited :
  wf_tree tree1 → wf_tree tree2 →
  (∀ t x, t = tree1 ∨ t = tree2 → x = nodeA ∨ x = nodeB →
          is_split (seed_node t) (get_leaf_set x) ∨
          get_leaf_set x ## get_leaf_set (seed_node t)) →
  join_nodes tree1 tree2 (map_splits_to_nodes tree1) (map_splits_to_nodes tree2)
             nodeA nodeB = Ok (Some u1, Some u2, edited) →
  (wf_tree u1 ∧
   get_leaf_set (seed_node tree1) ⊆ get_leaf_set (seed_node u1) ∧
   get_leaf_set (seed_node u1)
   ⊆ get_leaf_set (seed_node tree1) ∪ (get_leaf_set nodeA ∪ get_leaf_set nodeB) ∧
   agree_on (get_leaf_set (seed_node tree1)) (seed_node u1) (seed_node tree1)) ∧
  (wf_tree u2 ∧
   get_leaf_set (seed_node tree2) ⊆ get_leaf_set (seed_node u2) ∧
   get_leaf_set (seed_node u2)
   ⊆ get_leaf_set (seed_node tree2) ∪ (get_leaf_set nodeA ∪ get_leaf_set nodeB) ∧
   agree_on (get_leaf_set (seed_node tree2)) (seed_node u2) (seed_node tree2)).
Proof.
  intros Hwf1 Hwf2 Hside. unfold join_nodes.
  destruct (not_disjoint _ _); [done|].
  assert (∀ t, wf_tree t →
            wf_tree t ∧
            get_leaf_set (seed_node t) ⊆ get_leaf_set (seed_node t) ∧
            get_leaf_set (seed_node t)
            ⊆ get_leaf_set (seed_node t)
              ∪ (get_leaf_set nodeA ∪ get_leaf_set nodeB) ∧
            agree_on (get_leaf_set (seed_node t)) (seed_node t) (seed_node t))
    as Hsame.
  { intros t Hwf. split; [done|]. split; [done|].
    split; [apply union_subseteq_l|apply agree_on_refl]. }
  assert (∀ D Rc p q nP nQ tD tR,
            wf_tree D → wf_tree Rc →
            (p = nodeA ∨ p = nodeB) →
            ¬ is_split (seed_node Rc) (get_leaf_set p) →
            (is_split (seed_node Rc) (get_leaf_set p) ∨
             get_leaf_set p ## get_leaf_set (seed_node Rc)) →
            join_nodes_in_one_tree D nP (get_leaf_list p) Rc nQ (get_leaf_list q)
            = Ok (tD, tR) →
            (wf_tree tD ∧
             get_leaf_set (seed_node D) ⊆ get_leaf_set (seed_node tD) ∧
             get_leaf_set (seed_node tD)
             ⊆ get_leaf_set (seed_node D)
               ∪ (get_leaf_set nodeA ∪ get_leaf_set nodeB) ∧
             agree_on (get_leaf_set (seed_node D)) (seed_node tD) (seed_node D)) ∧
            (wf_tree tR ∧
             get_leaf_set (seed_node Rc) ⊆ get_leaf_set (seed_node tR) ∧
             get_leaf_set (seed_node tR)
             ⊆ get_leaf_set (seed_node Rc)
               ∪ (get_leaf_set nodeA ∪ get_leaf_set nodeB) ∧
             agree_on (get_leaf_set (seed_node Rc)) (seed_node tR) (seed_node Rc)))
    as Hone.
  { intros D Rc p q nP nQ tD tR HwfD HwfR Hp Hnot Hor Hjoin.
    destruct Hor as [?|Hdisj]; [done|].
    apply join_nodes_in_one_tree_grows in Hjoin
      as (HwftD & HsameD & HwftR & HLR & HagR); [|done|done|done].
    pose proof (perm_leaf_set _ _ (proj1 HsameD)) as HLD.
    rewrite list_to_set_leaf_list in HLR.
    split.
    - split; [done|]. rewrite <- HLD. split; [done|].
      split; [apply union_subseteq_l|].
      by apply same_splits_agree_on, same_splits_sym.
    - split; [done|]. rewrite HLR. split; [apply union_subseteq_r|].
      split; [|done].
      destruct Hp as [-> | ->]; clear; sets_sub. }
  assert (∀ x y nX nY v1 v2,
            (x = nodeA ∧ y = nodeB ∨ x = nodeB ∧ y = nodeA) →
            ¬ is_split (seed_node tree2) (get_leaf_set x) →
            ¬ is_split (seed_node tree1) (get_leaf_set y) →
            join_nodes_in_both_trees tree1 nX (get_leaf_list x)
                                     tree2 nY (get_leaf_list y) false
            = Ok (Some v1, Some v2) →
            (wf_tree v1 ∧
             get_leaf_set (seed_node tree1) ⊆ get_leaf_set (seed_node v1) ∧
             get_leaf_set (seed_node v1)
             ⊆ get_leaf_set (seed_node tree1)
               ∪ (get_leaf_set nodeA ∪ get_leaf_set nodeB) ∧
             agree_on (get_leaf_set (seed_node tree1)) (seed_node v1)
                      (seed_node tree1)) ∧
            (wf_tree v2 ∧
             get_leaf_set (seed_node tree2) ⊆ get_leaf_set (seed_node v2) ∧
             get_leaf_set (seed_node v2)
             ⊆ get_leaf_set (seed_node tree2)
               ∪ (get_leaf_set nodeA ∪ get_leaf_set nodeB) ∧
             agree_on (get_leaf_set (seed_node tree2)) (seed_node v2)
                      (seed_node tree2))) as Hboth.
  { intros x y nX nY v1 v2 Hxy Hnx Hny Hjoin.
    assert (get_leaf_set x ## get_leaf_set (seed_node tree2)) as Hx2.
    { destruct (Hside tree2 x) as [?|?]; [by right| |done|done].
      destruct Hxy as [[-> _]|[-> _]]; auto. }
    assert (get_leaf_set y ## get_leaf_set (seed_node tree1)) as Hy1.
    { destruct (Hside tree1 y) as [?|?]; [by left| |done|done].
      destruct Hxy as [[_ ->]|[_ ->]]; auto. }
    apply join_nodes_in_both_trees_grows in Hjoin
      as (Hwfv1 & Hwfv2 & HL1 & HL2 & Hag1 & Hag2); [|done|done|done|done].
    rewrite list_to_set_leaf_list in HL1, HL2.
    split.
    - split; [done|]. rewrite HL1. split; [apply union_subseteq_l|].
      split; [|done].
      destruct Hxy as [[_ ->]|[_ ->]]; clear; sets_sub.
    - split; [done|]. rewrite HL2. split; [apply union_subseteq_l|].
      split; [|done].
      destruct Hxy as [[-> _]|[-> _]]; clear; sets_sub. }
  settle_lookups Hwf1 Hwf2 nodeA nodeB; try done.
  - (* Case 1 *)
    intros [= <- <- _]. split; by apply Hsame.
  - (* Case 2 *)
    destruct (join_nodes_in_one_tree _ _ _ _ _ _) as [[t1' t2']|] eqn:Hjoin;
      simpl; [|done].
    intros [= <- <- _].
    apply (Hone tree1 tree2 nodeB nodeA) in Hjoin; auto.
  - (* Case 4 *)
    destruct (join_nodes_in_one_tree _ _ _ _ _ _) as [[t1' t2']|] eqn:Hjoin;
      simpl; [|done].
    intros [= <- <- _].
    apply (Hone tree1 tree2 nodeA nodeB) in Hjoin; auto.
  - (* Case 5 *)
    intros [= <- <- _]. split; by apply Hsame.
  - (* Case 3 *)
    destruct (join_nodes_in_one_tree _ _ _ _ _ _) as [[t2' t1']|] eqn:Hjoin;
      simpl; [|done].
    intros [= <- <- _].
    apply (Hone tree2 tree1 nodeB nodeA) in Hjoin; auto. tauto.
  - (* Case 6 *)
    destruct (join_nodes_in_both_trees _ _ _ _ _ _ _) as [[o1 o2]|] eqn:Hjoin;
      simpl; [|done].
    intros [= -> -> _].
    apply (Hboth nodeA nodeB) in Hjoin; auto.
  - (* Case 7 *)
    destruct (join_nodes_in_one_tree _ _ _ _ _ _) as [[t2' t1']|] eqn:Hjoin;
      simpl; [|done].
    intros [= <- <- _].
    apply (Hone tree2 tree1 nodeA nodeB) in Hjoin; auto. tauto.
  - (* Case 8 *)
    destruct (join_nodes_in_both_trees _ _ _ _ _ _ _) as [[o1 o2]|] eqn:Hjoin;
      simpl; [|done].
    intros [= -> -> _].
    apply (Hboth nodeB nodeA) in Hjoin; auto.
  - (* Case 9 *)
    intros [= <- <- _]. split; by apply Hsame.
Qed.

Lemma join_nodes_only_adds_witness :
  ∃ u1 u2,
    join_nodes tree_ab tree_cd (map_splits_to_nodes tree_ab)
               (map_splits_to_nodes tree_cd) (Leaf "a") (Leaf "c")
    = Ok (Some u1, Some u2, true) ∧
    agree_on (get_leaf_set (seed_node tree_ab)) (seed_node u1)
             (seed_node tree_ab) ∧
    agree_on (get_leaf_set (seed_node tree_cd)) (seed_node u2)
             (seed_node tree_cd).
Proof.
  eexists _, _. split; [vm_compute; reflexivity|].
  edestruct (join_nodes_only_adds tree_ab tree_cd (Leaf "a") (Leaf "c"))
    as ((_ & _ & _ & H1) & (_ & _ & _ & H2)).
  - apply wf_new_tree. by_compute.
  - apply wf_new_tree. by_compute.
  - intros t x [-> | ->] [-> | ->].
    + left. apply clade_is_split. exists (Leaf "a").
      split; [by_compute|reflexivity].
    + right. by_compute.
    + right. by_compute.
    + left. apply clade_is_split. exists (Leaf "c").
      split; [by_compute|reflexivity].
  - vm_compute. reflexivity.
  - split; [exact H1|exact H2].
Defined.

(** * A pass without an acceptable pair *)

Section NoPair.
Context {X R : Type}.
Variable ltb : R → R → bool.
Variable qvalue : X → X → result R.
Variable test : X → X → result bool.

Lemma scan_list_all_refused pairs :
(∀ x y, (x, y) ∈ pairs → (∃ q, qvalue x y = Ok q) ∧ test x y = Ok true) →
scan_list ltb qvalue test pairs None = Ok None.
Proof.
induction pairs as [|[x y] pairs IH]; intros Hall; simpl; [done|].
destruct (Hall x y) as [[q Hq] Ht]; [by left|].
unfold scan_pair. rewrite Hq. simpl. rewrite Ht. simpl.
apply IH. intros x' y' Hin. apply Hall. by right.
Qed.

Lemma scan_all_refused node_pool :
(∀ x y, (x, y) ∈ all_pairs node_pool →
        (∃ q, qvalue x y = Ok q) ∧ test x y = Ok true) →
scan ltb qvalue test node_pool = Ok None.
Proof.
intros Hall. unfold scan. rewrite scan_outer_list.
by rewrite scan_list_all_refused.
Qed.
End NoPair.

Section NoPairLoop.
Context {R : Type} `{Number R}.

Lemma nj_loop_runs_to full ns n (st : state (R:=R)) m st' :
runs_to full n st m st' →
nj_loop full ns n st = nj_loop full ns m st'.
Proof.
induction 1 as [|n st st1 m st2 Hit Hrun IH]; [done|].
cbn [nj_loop]. rewrite Hit. simpl. exact IH.
Qed.

End NoPairLoop.


(** * No check but the two at entry *)

Lemma past_entry_bind {A B : Type} (m : result A) (f : A → result B) :
  past_entry m → (∀ a, m = Ok a → past_entry (f a)) → past_entry (m ≫= f).
Proof. destruct m as [a|e]; simpl; [|done]. intros _ Hf. by apply Hf. Qed.

Lemma past_entry_raise {A : Type} (e : exn) :
  e ≠ Exception "Input trees are not on disjoint leaf sets!" →
  e ≠ Exception "Names in matrix do not match those in trees!" →
  past_entry (@Raise A e).
Proof. intros H1 H2 [?|?]; done. Qed.

(** One step of the walk through a function body. *)
Ltac past_entry_step :=
  match goal with
  | |- past_entry (Ok _) => exact I
  | |- past_entry (Raise _) => by apply past_entry_raise
  | |- past_entry (_ ≫= _) => apply past_entry_bind; [|intros ? ?]
  | |- past_entry (if ?b then _ else _) => destruct b
  | |- past_entry (match ?x with _ => _ end) => destruct x
  | |- past_entry (match ?x with _ => _ end _) => destruct x
  | |- past_entry (let '(_, _) := ?x in _) => destruct x
  end.

Lemma get_node_from_clade_past_entry t m clade :
  past_entry (get_node_from_clade t m clade).
Proof. unfold get_node_from_clade. repeat past_entry_step. Qed.

Lemma find_in_tree_past_entry t m nd clade :
  past_entry (find_in_tree t m nd clade).
Proof.
  unfold find_in_tree. repeat past_entry_step.
  apply get_node_from_clade_past_entry.
Qed.

Lemma is_None_node_past_entry (r : result (option node)) :
  past_entry r → past_entry (is_None_node r).
Proof. intros Hr. unfold is_None_node. by repeat past_entry_step. Qed.

Lemma extract_nodes_from_split_past_entry t nd clade :
  past_entry (extract_nodes_from_split t nd clade).
Proof. unfold extract_nodes_from_split. repeat past_entry_step. Qed.

Lemma join_nodes_in_both_trees_past_entry t1 nA cA t2 nB cB test :
  past_entry (join_nodes_in_both_trees t1 nA cA t2 nB cB test).
Proof.
  unfold join_nodes_in_both_trees.
  repeat first [past_entry_step | apply extract_nodes_from_split_past_entry].
Qed.

Lemma join_nodes_in_one_tree_past_entry t1 nA cA t2 nB cB :
  past_entry (join_nodes_in_one_tree t1 nA cA t2 nB cB).
Proof.
  unfold join_nodes_in_one_tree.
  repeat first [past_entry_step | apply extract_nodes_from_split_past_entry].
Qed.

Lemma test_join_past_entry t1 t2 m1 m2 a b :
  past_entry (test_join t1 t2 m1 m2 a b).
Proof.
  unfold test_join.
  repeat first [ past_entry_step
               | apply find_in_tree_past_entry
               | apply get_node_from_clade_past_entry
               | apply is_None_node_past_entry
               | apply join_nodes_in_both_trees_past_entry ].
Qed.

Lemma join_nodes_past_entry t1 t2 m1 m2 a b :
  past_entry (join_nodes t1 t2 m1 m2 a b).
Proof.
  unfold join_nodes.
  repeat first [ past_entry_step
               | apply find_in_tree_past_entry
               | apply join_nodes_in_one_tree_past_entry
               | apply join_nodes_in_both_trees_past_entry ].
Qed.

(** The negative entry is used as it comes: with d(a,d) = -5 in place of 1
    the merge of the same trees ends in another tree. *)
Example negative_distance_is_used :
  merge_two_trees_via_nj (pdm_negative 1%float) tree_ab tree_cd
  = Ok (Tree ["a"; "b"; "c"; "d"]
          (Internal (Internal (Leaf "a") (Leaf "b"))
                    (Internal (Leaf "c") (Leaf "d")))) ∧
  merge_two_trees_via_nj (pdm_negative (-5)%float) tree_ab tree_cd
  = Ok (Tree ["b"; "a"; "d"; "c"]
          (Internal (Internal (Leaf "b") (Internal (Leaf "a") (Leaf "d")))
                    (Leaf "c"))).
Proof. split; vm_compute; reflexivity. Qed.

Section PastEntryScan.
Context {X R : Type}.
Variable ltb : R → R → bool.
Variable qvalue : X → X → result R.
Variable test : X → X → result bool.
Hypothesis qvalue_past_entry : ∀ x y, past_entry (qvalue x y).
Hypothesis test_past_entry : ∀ x y, past_entry (test x y).

Lemma scan_list_past_entry pairs : ∀ best,
past_entry (scan_list ltb qvalue test pairs best).
Proof.
induction pairs as [|[x y] pairs IH]; intros best; simpl; [done|].
apply past_entry_bind; [|intros ? ?; apply IH].
unfold scan_pair. repeat first [past_entry_step | done].
Qed.

Lemma scan_past_entry node_pool : past_entry (scan ltb qvalue test node_pool).
Proof.
unfold scan. rewrite scan_outer_list.
apply past_entry_bind; [apply scan_list_past_entry|done].
Qed.
End PastEntryScan.

Section PastEntryLoop.
Context {R : Type} `{Number R}.

Lemma dict_get_past_entry (d : list (node * R)) k : past_entry (dict_get d k).
Proof.
induction d as [|[k' v] d IH]; simpl; [by intros [?|?]|].
by case_decide.
Qed.

Lemma update_distances_past_entry new_node (nd1 nd2 : nj_node R) pool :
∀ nds nxs, past_entry (update_distances new_node nd1 nd2 pool nds nxs).
Proof.
induction pool as [|x pool IH]; intros nds nxs; simpl; [done|].
repeat first [past_entry_step | apply dict_get_past_entry | apply IH].
Qed.

Lemma iteration_past_entry full n (st : state (R:=R)) :
past_entry (iteration full n st).
Proof.
unfold iteration.
apply past_entry_bind.
{ apply scan_past_entry.
  - intros x y. unfold qvalue.
    repeat first [past_entry_step | apply dict_get_past_entry].
  - intros x y. apply test_join_past_entry. }
intros [[nd1 nd2]|] _; [|by apply past_entry_raise].
apply past_entry_bind; [apply join_nodes_past_entry|].
intros [[t1 t2] edited] _.
unfold the_tree.
repeat first [past_entry_step | apply update_distances_past_entry].
Qed.

Lemma nj_loop_past_entry full ns n : ∀ (st : state (R:=R)),
past_entry (nj_loop full ns n st).
Proof.
induction n as [|n IH]; intros st.
- simpl. destruct (node_pool st); [by apply past_entry_raise|done].
- destruct n as [|n].
  + simpl. destruct (node_pool st); [by apply past_entry_raise|done].
  + cbn [nj_loop]. apply past_entry_bind; [apply iteration_past_entry|].
    intros [t|st'] _; [done|apply IH].
Qed.

Lemma cache_rows_past_entry (dm : gmap label (gmap label R)) all taxa i :
past_entry (cache_rows dm all i taxa).
Proof.
destruct (cache_rows dm all i taxa) as [pool|e] eqn:Hc; [done|].
apply cache_rows_raises in Hc as ->. by apply past_entry_raise.
Qed.

(** C8, amended: the merge has two checks at entry, on the leaf sets and
    on the names, and each of its two exceptions is raised exactly when
    its check fails, whatever the distances; nothing after them asks for
    the sign of a distance.  A matrix with a negative entry is merged like
    any other: on well-formed trees without a common leaf and a matrix on
    their leaves with an entry for every two different taxa, the merge
    returns a tree that displays both input trees, or it raises the
    [TypeError] of a pass without an acceptable pair. *)
Theorem distances_not_checked (dm : pdm R) (T1 T2 : tree) :
(merge_two_trees_via_nj dm T1 T2
 = Raise (Exception "Input trees are not on disjoint leaf sets!") ↔
 get_leaf_set (seed_node T1) ∩ get_leaf_set (seed_node T2) ≠ ∅) ∧
(merge_two_trees_via_nj dm T1 T2
 = Raise (Exception "Names in matrix do not match those in trees!") ↔
 get_leaf_set (seed_node T1) ∩ get_leaf_set (seed_node T2) = ∅ ∧
 get_leaf_set (seed_node T1) ∪ get_leaf_set (seed_node T2)
 ≠ list_to_set (pdm_taxon_namespace dm)) ∧
(wf_tree T1 → wf_tree T2 →
 get_leaf_set (seed_node T1) ∩ get_leaf_set (seed_node T2) = ∅ →
 get_leaf_set (seed_node T1) ∪ get_leaf_set (seed_node T2)
 = list_to_set (pdm_taxon_namespace dm) →
 NoDup (_mapped_taxa dm) →
 list_to_set (_mapped_taxa dm)
 = get_leaf_set (seed_node T1) ∪ get_leaf_set (seed_node T2) →
 (∀ i j t1 t2,
    i ≠ j → _mapped_taxa dm !! i = Some t1 → _mapped_taxa dm !! j = Some t2 →
    ∃ d, original_distance (_taxon_phylogenetic_distances dm) t1 t2 = Ok d) →
 (∃ out r1 r2,
    merge_two_trees_via_nj dm T1 T2 = Ok out ∧
    retain_taxa_with_labels (seed_node out) (get_leaf_set (seed_node T1))
    = Some r1 ∧ same_splits r1 (seed_node T1) ∧
    retain_taxa_with_labels (seed_node out) (get_leaf_set (seed_node T2))
    = Some r2 ∧ same_splits r2 (seed_node T2)) ∨
 merge_two_trees_via_nj dm T1 T2 = Raise TypeError).
Proof.
assert (get_leaf_set (seed_node T1) ∩ get_leaf_set (seed_node T2) = ∅ →
        get_leaf_set (seed_node T1) ∪ get_leaf_set (seed_node T2)
        = list_to_set (pdm_taxon_namespace dm) →
        past_entry (merge_two_trees_via_nj dm T1 T2)) as Hpast.
{ intros Hdisj Hnames.
  unfold merge_two_trees_via_nj, merge_two_trees_via_nj_out.
  rewrite decide_False by (rewrite Hdisj, size_empty; lia).
  rewrite decide_False by (intros Hn; by apply Hn).
  apply past_entry_bind; [|done].
  apply past_entry_bind; [apply cache_rows_past_entry|].
  intros pool _. apply nj_loop_past_entry. }
assert (get_leaf_set (seed_node T1) ∩ get_leaf_set (seed_node T2) ≠ ∅ →
        merge_two_trees_via_nj dm T1 T2
        = Raise (Exception "Input trees are not on disjoint leaf sets!"))
  as Hfirst.
{ intros Hshared.
  unfold merge_two_trees_via_nj, merge_two_trees_via_nj_out.
  rewrite decide_True; [done|].
  intros H0. apply Hshared. by apply size_empty_inv, leibniz_equiv in H0. }
assert (get_leaf_set (seed_node T1) ∩ get_leaf_set (seed_node T2) = ∅ →
        get_leaf_set (seed_node T1) ∪ get_leaf_set (seed_node T2)
        ≠ list_to_set (pdm_taxon_namespace dm) →
        merge_two_trees_via_nj dm T1 T2
        = Raise (Exception "Names in matrix do not match those in trees!"))
  as Hsecond.
{ intros Hdisj Hnames.
  unfold merge_two_trees_via_nj, merge_two_trees_via_nj_out.
  rewrite decide_False by (rewrite Hdisj, size_empty; lia).
  by rewrite decide_True. }
split; [|split].
- split; [|done]. intros Hraise Hdisj.
  destruct (decide (get_leaf_set (seed_node T1) ∪ get_leaf_set (seed_node T2)
                    = list_to_set (pdm_taxon_namespace dm))) as [Hnames|Hnames].
  + specialize (Hpast Hdisj Hnames). rewrite Hraise in Hpast.
    apply Hpast. by left.
  + rewrite (Hsecond Hdisj Hnames) in Hraise. done.
- split.
  + intros Hraise.
    destruct (decide (get_leaf_set (seed_node T1)
                        ∩ get_leaf_set (seed_node T2) = ∅)) as [Hdisj|Hshared].
    * split; [done|]. intros Hnames.
      specialize (Hpast Hdisj Hnames). rewrite Hraise in Hpast.
      apply Hpast. by right.
    * rewrite (Hfirst Hshared) in Hraise. done.
  + intros [Hdisj Hnames]. by apply Hsecond.
- intros Hwf1 Hwf2 Hdisj Hnames Hnd Hset Hall.
  unfold merge_two_trees_via_nj, merge_two_trees_via_nj_out.
  rewrite decide_False by (rewrite Hdisj, size_empty; lia).
  rewrite decide_False by (intros Hn; by apply Hn).
  destruct (cache_rows_spec (_taxon_phylogenetic_distances dm) (_mapped_taxa dm)
              Hnd (_mapped_taxa dm) 0) as (pool & Hcache & _).
  { intros k t1 j t2 Hk Hj Hne. apply (Hall k j); [simpl in Hne; lia|done|done]. }
  { done. }
  rewrite Hcache. simpl.
  pose proof (initial_dists_ok _ _ _ Hnd Hcache) as Hok.
  apply cache_rows_trees in Hcache.
  pose proof (initial_inv T1 T2 pool _ Hwf1 Hwf2 Hdisj Hnd Hset Hcache) as Hinv.
  assert (length (_mapped_taxa dm) = length pool) as Hlen.
  { by rewrite <- (length_fmap nj_tree pool), Hcache, length_fmap. }
  destruct (nj_loop _ _ _ _) as [[t printed]|e] eqn:Hloop; simpl.
  + left.
    destruct (nj_loop_inv T1 T2 (pdm_taxon_namespace dm)
                (length (_mapped_taxa dm)) _ t printed Hinv Hlen Hloop)
      as [G1 G2].
    destruct (grown_from_displays T1 t Hwf1 G1) as (r1 & Hr1 & Hs1).
    destruct (grown_from_displays T2 t Hwf2 G2) as (r2 & Hr2 & Hs2).
    by exists t, r1, r2.
  + right. f_equal.
    by apply (nj_loop_progress T1 T2 _ _ _ e Hinv Hok Hlen Hloop).
Qed.
End PastEntryLoop.

Lemma distances_not_checked_witness :
  ∃ out r1 r2,
    merge_two_trees_via_nj (pdm_negative (-5)%float) tree_ab tree_cd = Ok out ∧
    retain_taxa_with_labels (seed_node out) (get_leaf_set (seed_node tree_ab))
    = Some r1 ∧ same_splits r1 (seed_node tree_ab) ∧
    retain_taxa_with_labels (seed_node out) (get_leaf_set (seed_node tree_cd))
    = Some r2 ∧ same_splits r2 (seed_node tree_cd).
Proof.
  destruct (proj2 (proj2 (distances_not_checked (pdm_negative (-5)%float)
                            tree_ab tree_cd))) as [Hout|Herr].
  - apply wf_new_tree. by_compute.
  - apply wf_new_tree. by_compute.
  - by_compute.
  - by_compute.
  - by_compute.
  - by_compute.
  - intros i j t1 t2 Hne Hi Hj.
    destruct i as [|[|[|[|i]]]]; destruct j as [|[|[|[|j]]]]; simpl in Hi, Hj;
      try done; injection Hi as <-; injection Hj as <-;
      eexists; vm_compute; reflexivity.
  - exact Hout.
  - by vm_compute in Herr.
Defined.

(** * The order of the shared labels *)

Lemma are_two_trees_incompatible_listing (u1 u2 : tree) :
  are_two_trees_incompatible u1 u2 = incompatible_by listing_elements u1 u2.
Proof. reflexivity. Qed.

Lemma lists_shared_elements : lists_shared listing_elements.
Proof.
  intros t1 t2. split; [apply NoDup_elements|].
  apply list_to_set_elements_L.
Qed.

Lemma lists_shared_reverse : lists_shared listing_reverse.
Proof.
  intros t1 t2. unfold listing_reverse.
  destruct (lists_shared_elements t1 t2) as [Hnd Hset].
  split.
  - unfold reverse. rewrite <- rev_alt.
    by apply NoDup_ListNoDup, NoDup_rev, NoDup_ListNoDup.
  - rewrite <- Hset. apply set_eq. intros l.
    rewrite !elem_of_list_to_set. by rewrite elem_of_reverse.
Qed.

(** Whatever the order of the list of shared labels, the check answers
    [False] exactly when the two trees have the same splits on these
    labels. *)
Lemma incompatible_in_false_iff (shared : list label) (u1 u2 : tree) :
  NoDup shared →
  (list_to_set shared : gset label)
  = get_leaf_set (seed_node u1) ∩ get_leaf_set (seed_node u2) →
  are_two_trees_incompatible_in shared u1 u2 = false ↔
  agree_on (get_leaf_set (seed_node u1) ∩ get_leaf_set (seed_node u2))
           (seed_node u1) (seed_node u2).
Proof.
  intros Hnd HKset. unfold are_two_trees_incompatible_in.
  set (K := get_leaf_set (seed_node u1) ∩ get_leaf_set (seed_node u2)) in *.
  assert (K ⊆ get_leaf_set (seed_node u1)) as HK1
    by apply intersection_subseteq_l.
  assert (K ⊆ get_leaf_set (seed_node u2)) as HK2
    by apply intersection_subseteq_r.
  assert (length shared = size K) as Hlen.
  { rewrite <- HKset. symmetry. by apply size_list_to_set. }
  destruct (decide (length shared < 4)%nat) as [Hlt|Hge].
  { split; [|done]. intros _ T. rewrite !in_restr_small; [done|lia|done|lia|done]. }
  rewrite HKset.
  destruct (retain_taxa_with_labels (seed_node u1) K) as [r1|] eqn:Hr1.
  2:{ exfalso. pose proof (retain_spec (seed_node u1) K) as Hsp.
      rewrite Hr1 in Hsp.
      assert (K = ∅) as HK0.
      { apply set_eq. intros l. specialize (Hsp l). specialize (HK1 l).
        set_unfold. naive_solver. }
      apply Hge. rewrite Hlen, HK0, size_empty. lia. }
  destruct (retain_taxa_with_labels (seed_node u2) K) as [r2|] eqn:Hr2.
  2:{ exfalso. pose proof (retain_spec (seed_node u2) K) as Hsp.
      rewrite Hr2 in Hsp.
      assert (K = ∅) as HK0.
      { apply set_eq. intros l. specialize (Hsp l). specialize (HK2 l).
        set_unfold. naive_solver. }
      apply Hge. rewrite Hlen, HK0, size_empty. lia. }
  pose proof (retain_spec (seed_node u1) K) as Hsp1. rewrite Hr1 in Hsp1.
  pose proof (retain_spec (seed_node u2) K) as Hsp2. rewrite Hr2 in Hsp2.
  destruct Hsp1 as (HL1 & _ & _), Hsp2 as (HL2 & _ & _).
  assert (get_leaf_set r1 = K) as HL1'.
  { rewrite HL1. apply set_eq. intros l. specialize (HK1 l).
    set_unfold. naive_solver. }
  assert (get_leaf_set r2 = K) as HL2'.
  { rewrite HL2. apply set_eq. intros l. specialize (HK2 l).
    set_unfold. naive_solver. }
  assert (list_to_set shared = get_leaf_set r1) as Hns1 by by rewrite HL1'.
  assert (list_to_set shared = get_leaf_set r2) as Hns2 by by rewrite HL2'.
  rewrite bool_decide_eq_false.
  split.
  - intros Hdec.
    assert (bipartition_encoding shared r1 = bipartition_encoding shared r2)
      as Henc.
    { apply set_eq. intros m. split; intros Hm.
      - destruct (decide (m ∈ bipartition_encoding shared r2)) as [|Hn];
          [done|]. exfalso. apply Hdec. right.
        apply Nat.neq_0_lt_0. intros H0.
        apply size_empty_inv in H0. set_solver.
      - destruct (decide (m ∈ bipartition_encoding shared r1)) as [|Hn];
          [done|]. exfalso. apply Hdec. left.
        apply Nat.neq_0_lt_0. intros H0.
        apply size_empty_inv in H0. set_solver. }
    intros T.
    rewrite <- (is_split_retain _ K r1 T HK1 Hr1).
    rewrite <- (is_split_retain _ K r2 T HK2 Hr2).
    by apply (same_encoding_same_splits shared).
  - intros Hagree Hdec.
    assert (∀ T, is_split r1 T ↔ is_split r2 T) as Hsame.
    { intros T.
      rewrite (is_split_retain _ K r1 T HK1 Hr1).
      rewrite (is_split_retain _ K r2 T HK2 Hr2).
      apply Hagree. }
    assert (∀ r r', list_to_set shared = get_leaf_set r →
                    list_to_set shared = get_leaf_set r' →
                    (∀ T, is_split r T → is_split r' T) →
                    bipartition_encoding shared r
                      ⊆ bipartition_encoding shared r') as Hsub.
    { intros r r' Hns Hns' Himp m Hm.
      apply (elem_of_bipartition_encoding _ _ _ Hns) in Hm as (C & HC & ->).
      apply clade_is_split, Himp in HC.
      by apply (is_split_encoding _ _ _ Hns') in HC as [_ HC]. }
    assert (bipartition_encoding shared r1 ⊆ bipartition_encoding shared r2)
      as H12.
    { apply Hsub; [done|done|]. intros T. apply Hsame. }
    assert (bipartition_encoding shared r2 ⊆ bipartition_encoding shared r1)
      as H21.
    { apply Hsub; [done|done|]. intros T. apply Hsame. }
    destruct Hdec as [Hfp|Hfn].
    + assert (bipartition_encoding shared r2
                ∖ bipartition_encoding shared r1 = ∅) as Hempty.
      { apply set_eq. intros m. specialize (H21 m). set_unfold. tauto. }
      rewrite Hempty, size_empty in Hfp. lia.
    + assert (bipartition_encoding shared r1
                ∖ bipartition_encoding shared r2 = ∅) as Hempty.
      { apply set_eq. intros m. specialize (H12 m). set_unfold. tauto. }
      rewrite Hempty, size_empty in Hfn. lia.
Qed.

(** Two listings of the shared labels give the same answer. *)
Lemma incompatible_by_order (order order' : listing) (u1 u2 : tree) :
  lists_shared order → lists_shared order' →
  incompatible_by order u1 u2 = incompatible_by order' u1 u2.
Proof.
  intros Ho Ho'. unfold incompatible_by.
  destruct (Ho u1 u2) as [Hnd Hset], (Ho' u1 u2) as [Hnd' Hset'].
  pose proof (incompatible_in_false_iff _ u1 u2 Hnd Hset) as H1.
  pose proof (incompatible_in_false_iff _ u1 u2 Hnd' Hset') as H2.
  destruct (are_two_trees_incompatible_in (order u1 u2) u1 u2),
    (are_two_trees_incompatible_in (order' u1 u2) u1 u2); try done.
  - by apply H1, H2.
  - symmetry. by apply H2, H1.
Qed.

(** One step through two bodies that differ in the check only. *)
Ltac same_body_step Hext :=
  match goal with
  | |- ?x = ?x => reflexivity
  | |- Ok _ = Ok _ => by rewrite Hext
  | |- (?m ≫= _) = (?m ≫= _) => destruct m; simpl
  | |- (if ?b then _ else _) = _ => destruct b
  | |- match ?x with _ => _ end = _ => destruct x
  | |- match ?x with _ => _ end _ = _ => destruct x
  end.

Lemma test_join_with_ext (inc inc' : tree → tree → bool) t1 t2 m1 m2 a b :
  (∀ u1 u2, inc u1 u2 = inc' u1 u2) →
  test_join_with inc t1 t2 m1 m2 a b = test_join_with inc' t1 t2 m1 m2 a b.
Proof.
  intros Hext. unfold test_join_with. repeat same_body_step Hext.
Qed.

Lemma test_join_with_own t1 t2 m1 m2 a b :
  test_join_with are_two_trees_incompatible t1 t2 m1 m2 a b
  = test_join t1 t2 m1 m2 a b.
Proof. reflexivity. Qed.

Section ScanOfTest.
Context {X R : Type}.
Variable ltb : R → R → bool.
Variable qvalue : X → X → result R.
Variables test test' : X → X → result bool.
Hypothesis test_ext : ∀ x y, test x y = test' x y.

Lemma scan_list_test_ext pairs : ∀ best,
scan_list ltb qvalue test pairs best = scan_list ltb qvalue test' pairs best.
Proof.
induction pairs as [|[x y] pairs IH]; intros best; simpl; [done|].
assert (scan_pair ltb qvalue test x y best
        = scan_pair ltb qvalue test' x y best) as ->.
{ unfold scan_pair. by rewrite test_ext. }
destruct (scan_pair ltb qvalue test' x y best); simpl; [apply IH|done].
Qed.

Lemma scan_test_ext node_pool :
scan ltb qvalue test node_pool = scan ltb qvalue test' node_pool.
Proof. unfold scan. by rewrite !scan_outer_list, scan_list_test_ext. Qed.
End ScanOfTest.

Section OrderOfShared.
Context {R : Type} `{Number R}.
Variables inc inc' : tree → tree → bool.
Hypothesis inc_ext : ∀ u1 u2, inc u1 u2 = inc' u1 u2.

Lemma scan_state_with_ext n (st : state (R:=R)) :
scan_state_with inc n st = scan_state_with inc' n st.
Proof.
unfold scan_state_with. apply scan_test_ext. intros x y.
unfold oracle_with. by apply test_join_with_ext.
Qed.

Lemma iteration_with_ext full n (st : state (R:=R)) :
iteration_with inc full n st = iteration_with inc' full n st.
Proof. unfold iteration_with. by rewrite scan_state_with_ext. Qed.

Lemma nj_loop_with_ext full ns n : ∀ (st : state (R:=R)),
nj_loop_with inc full ns n st = nj_loop_with inc' full ns n st.
Proof.
induction n as [|n IH]; intros st; [done|].
destruct n as [|n]; [done|].
cbn [nj_loop_with]. rewrite iteration_with_ext.
destruct (iteration_with inc' full (S (S n)) st) as [[t|st']|]; simpl;
  [done|apply IH|done].
Qed.
End OrderOfShared.

Section Determinism.
Context {R : Type} `{Number R}.

Lemma scan_state_with_own n (st : state (R:=R)) :
scan_state_with are_two_trees_incompatible n st = scan_state n st.
Proof. reflexivity. Qed.

Lemma iteration_with_own full n (st : state (R:=R)) :
iteration_with are_two_trees_incompatible full n st = iteration full n st.
Proof. reflexivity. Qed.

Lemma nj_loop_with_own full ns n : ∀ (st : state (R:=R)),
nj_loop_with are_two_trees_incompatible full ns n st = nj_loop full ns n st.
Proof.
induction n as [|n IH]; intros st; [done|].
destruct n as [|n]; [done|].
cbn [nj_loop_with nj_loop]. rewrite iteration_with_own.
destruct (iteration full (S (S n)) st) as [[t|st']|]; simpl;
  [done|apply IH|done].
Qed.

Lemma merge_with_own (dm : pdm R) T1 T2 :
merge_two_trees_via_nj_with are_two_trees_incompatible dm T1 T2
= merge_two_trees_via_nj dm T1 T2.
Proof.
unfold merge_two_trees_via_nj_with, merge_two_trees_via_nj,
  merge_two_trees_via_nj_out_with, merge_two_trees_via_nj_out.
do 2 (case_decide; [reflexivity|]).
destruct (cache_rows _ _ _ _); simpl; [|reflexivity].
by rewrite nj_loop_with_own.
Qed.

(** C9, amended: the merge is a function of the two trees, of the taxa of
    the matrix in the order in which the pool is filled, and of the
    distances between these taxa.  Two runs that agree on these return
    the same tree or raise the same exception, whatever the order in
    which each run lists the labels that two trees share when it compares
    them (line 141): that order has no influence on the result.  The run
    with the labels listed in the order of [elements] is
    [merge_two_trees_via_nj]. *)
Theorem merge_determined_by_pool_order (order order' : listing)
  (dm dm' : pdm R) (T1 T2 : tree) :
lists_shared order → lists_shared order' →
pdm_taxon_namespace dm = pdm_taxon_namespace dm' →
_mapped_taxa dm = _mapped_taxa dm' →
(∀ t1 t2, t1 ∈ _mapped_taxa dm → t2 ∈ _mapped_taxa dm →
          original_distance (_taxon_phylogenetic_distances dm) t1 t2
          = original_distance (_taxon_phylogenetic_distances dm') t1 t2) →
merge_two_trees_via_nj_with (incompatible_by order) dm T1 T2
= merge_two_trees_via_nj_with (incompatible_by order') dm' T1 T2 ∧
merge_two_trees_via_nj_with (incompatible_by order) dm T1 T2
= merge_two_trees_via_nj dm T1 T2.
Proof.
intros Ho Ho' Hns Hmapped Hdist.
assert (∀ o1 o2 : listing, lists_shared o1 → lists_shared o2 →
        merge_two_trees_via_nj_with (incompatible_by o1) dm T1 T2
        = merge_two_trees_via_nj_with (incompatible_by o2) dm T1 T2) as Hsame.
{ intros o1 o2 H1 H2.
  unfold merge_two_trees_via_nj_with, merge_two_trees_via_nj_out_with.
  do 2 (case_decide; [reflexivity|]).
  destruct (cache_rows _ _ _ _); simpl; [|reflexivity].
  rewrite (nj_loop_with_ext (incompatible_by o1) (incompatible_by o2)); [done|].
  intros u1 u2. by apply incompatible_by_order. }
split.
- rewrite (Hsame order order' Ho Ho').
  unfold merge_two_trees_via_nj_with, merge_two_trees_via_nj_out_with.
  rewrite <- Hns, <- Hmapped.
  by rewrite (cache_rows_ext _ (_taxon_phylogenetic_distances dm') _ _ Hdist).
- rewrite (Hsame order listing_elements Ho lists_shared_elements).
  apply merge_with_own.
Qed.
End Determinism.

Lemma merge_determined_by_pool_order_witness :
  merge_two_trees_via_nj_with (incompatible_by listing_reverse)
    (pdm_equidistant ["a"; "c"; "b"; "d"]) tree_ab tree_cd
  = merge_two_trees_via_nj_with (incompatible_by listing_elements)
      (pdm_equidistant_extra ["a"; "c"; "b"; "d"]) tree_ab tree_cd ∧
  merge_two_trees_via_nj_with (incompatible_by listing_reverse)
    (pdm_equidistant ["a"; "c"; "b"; "d"]) tree_ab tree_cd
  = merge_two_trees_via_nj (pdm_equidistant ["a"; "c"; "b"; "d"])
      tree_ab tree_cd.
Proof.
  apply (merge_determined_by_pool_order listing_reverse listing_elements
           (pdm_equidistant ["a"; "c"; "b"; "d"])
           (pdm_equidistant_extra ["a"; "c"; "b"; "d"]) tree_ab tree_cd).
  - apply lists_shared_reverse.
  - apply lists_shared_elements.
  - reflexivity.
  - reflexivity.
  - intros t1 t2 Ht1 Ht2. simpl in Ht1, Ht2.
    repeat (apply elem_of_cons in Ht1 as [->|Ht1]);
      [..|by apply elem_of_nil in Ht1];
      repeat (apply elem_of_cons in Ht2 as [->|Ht2]);
      try (by apply elem_of_nil in Ht2); vm_compute; reflexivity.
Defined.
